(** * go-email: a shallow embedding of the MIME parser of
    [emailparser] (emailparser.go, MimeValueParams.go and the encoded-word
    tokeniser) together with the properties of its specification.

    Go values are embedded as follows.
    - [[]byte] and [string] are [list ascii] ([bytes]); a byte is an
      [ascii], its numeric value is [bval].
    - [int] is [Z]: every offset is bounded by the length of the buffer,
      so no wrap-around is reachable; [-1] is the sentinel the code uses.
    - a slice expression that can leave its range is [slice], which
      returns [None] where Go panics.
    - [map[string][]byte] is a [gmap bytes bytes].
    - a [*MIMENode] is the path of child indices that leads from
      [topNode] to the node: the tree owns every node exactly once, and
      [n.Parent] is the path without its last index. *)

From Stdlib Require Import ZArith Ascii String DecimalString DecimalPos DecimalZ Sorted Lia.
From stdpp Require Import base list strings gmap.

Local Open Scope Z_scope.
Set Warnings "-register-all".

(** ** Bytes *)

Definition bytes := list ascii.

Definition B (s : string) : bytes := list_ascii_of_string s.

Definition bval (c : ascii) : Z := Z.of_N (N_of_ascii c).

Definition len {A} (l : list A) : Z := Z.of_nat (length l).

Definition LF : ascii := "010"%char.
Definition CR : ascii := "013"%char.
Definition HT : ascii := "009"%char.
Definition SP : ascii := " "%char.

(** [lines ls] is the text whose lines are [ls], each one ended by LF. *)
Definition lines (ls : list string) : bytes :=
  concat (List.map (fun l => B l ++ [LF]) ls).

(** [s[a:]] and [s[:b]] for indices that the code keeps in range. *)
Definition after {A} (s : list A) (a : Z) : list A := drop (Z.to_nat a) s.
Definition upto {A} (s : list A) (b : Z) : list A := take (Z.to_nat b) s.

(** [s[a:a+n]] *)
Definition sub {A} (s : list A) (a n : Z) : list A :=
  take (Z.to_nat n) (drop (Z.to_nat a) s).

(** [s[a:b]]: Go panics unless [0 <= a <= b <= len s]. *)
Definition slice (s : bytes) (a b : Z) : option bytes :=
  if (0 <=? a) && (a <=? b) && (b <=? len s)
  then Some (take (Z.to_nat (b - a)) (drop (Z.to_nat a) s))
  else None.

Definition beq (a b : ascii) : bool := Ascii.eqb a b.

Fixpoint bytes_eqb (a b : bytes) : bool :=
  match a, b with
  | [], [] => true
  | x :: a', y :: b' => beq x y && bytes_eqb a' b'
  | _, _ => false
  end.

(** ** The Go standard library: packages [bytes] and [strings] *)

Fixpoint HasPrefix (s prefix : bytes) {struct prefix} : bool :=
  match prefix, s with
  | [], _ => true
  | p :: prefix', c :: s' => beq p c && HasPrefix s' prefix'
  | _ :: _, [] => false
  end.

Fixpoint Index_from (s sep : bytes) (i : Z) : Z :=
  if HasPrefix s sep then i
  else match s with
       | [] => -1
       | _ :: s' => Index_from s' sep (i + 1)
       end.

(** [bytes.Index], [strings.Index]: first offset of [sep] in [s], or -1. *)
Definition Index (s sep : bytes) : Z := Index_from s sep 0.

Definition IndexByte (s : bytes) (c : ascii) : Z := Index s [c].

Definition Contains (s sub : bytes) : bool := 0 <=? Index s sub.

Definition inSet (chars : bytes) (c : ascii) : bool := existsb (beq c) chars.

Definition TrimSuffix (s suffix : bytes) : bytes :=
  if HasPrefix (rev s) (rev suffix)
  then take (length s - length suffix) s
  else s.

(** White space of [unicode.IsSpace] in the Latin-1 range, as applied to
    a single byte converted to a rune ([unicode.IsSpace(rune(b))]). *)
Definition IsSpaceByte (c : ascii) : bool :=
  let v := bval c in
  ((9 <=? v) && (v <=? 13)) || (v =? 32) || (v =? 133) || (v =? 160).

Definition asciiSpace (c : ascii) : bool :=
  let v := bval c in ((9 <=? v) && (v <=? 13)) || (v =? 32).

(** The white-space runes above U+007F, in UTF-8: U+0085 and U+00A0
    take two bytes; U+1680, U+2000..U+200A, U+2028, U+2029, U+202F,
    U+205F and U+3000 take three. *)
Definition space2 (a b : Z) : bool :=
  (a =? 194) && ((b =? 133) || (b =? 160)).

Definition space3 (a b c : Z) : bool :=
  ((a =? 225) && (b =? 154) && (c =? 128))
  || ((a =? 226) && (b =? 128)
      && (((128 <=? c) && (c <=? 138)) || (c =? 168) || (c =? 169) || (c =? 175)))
  || ((a =? 226) && (b =? 129) && (c =? 159))
  || ((a =? 227) && (b =? 128) && (c =? 128)).

(** Width of the white-space rune at the head of [s] when [s] is decoded
    as UTF-8, and 0 when the first rune is not white space. *)
Definition spaceRune (s : bytes) : nat :=
  match s with
  | [] => 0%nat
  | c :: r =>
    if asciiSpace c then 1%nat
    else
      match r with
      | [] => 0%nat
      | d :: r' =>
        if space2 (bval c) (bval d) then 2%nat
        else
          match r' with
          | [] => 0%nat
          | e :: _ => if space3 (bval c) (bval d) (bval e) then 3%nat else 0%nat
          end
      end
  end.

(** The same on the reversed text: width of the white-space rune that
    ends the text ([utf8.DecodeLastRune]). *)
Definition spaceRuneLast (r : bytes) : nat :=
  match r with
  | [] => 0%nat
  | c :: r1 =>
    if asciiSpace c then 1%nat
    else
      match r1 with
      | [] => 0%nat
      | d :: r2 =>
        if space2 (bval d) (bval c) then 2%nat
        else
          match r2 with
          | [] => 0%nat
          | e :: _ => if space3 (bval e) (bval d) (bval c) then 3%nat else 0%nat
          end
      end
  end.

(** [bytes.TrimLeftFunc(s, f)] for a predicate on runes given by the
    width [w] of a matching rune at the head of the text. *)
Fixpoint trimRunes (fuel : nat) (w : bytes -> nat) (s : bytes) : bytes :=
  match fuel with
  | O => s
  | S fuel' =>
    match w s with
    | O => s
    | k => trimRunes fuel' w (drop k s)
    end
  end.

Definition TrimLeftFunc (w : bytes -> nat) (s : bytes) : bytes :=
  trimRunes (length s) w s.

Definition TrimLeftSpace (s : bytes) : bytes := TrimLeftFunc spaceRune s.

Definition TrimRightSpace (s : bytes) : bytes :=
  rev (TrimLeftFunc spaceRuneLast (rev s)).

(** [bytes.TrimSpace], [strings.TrimSpace]. *)
Definition TrimSpace (s : bytes) : bytes := TrimRightSpace (TrimLeftSpace s).

Definition isASCII (s : bytes) : bool := forallb (fun c => bval c <? 128) s.

Definition upperByte (c : ascii) : ascii :=
  let v := bval c in
  if (97 <=? v) && (v <=? 122) then ascii_of_N (Z.to_N (v - 32)) else c.

Definition lowerByte (c : ascii) : ascii :=
  let v := bval c in
  if (65 <=? v) && (v <=? 90) then ascii_of_N (Z.to_N (v + 32)) else c.

(** ** Package [mailhonorstringutils] (go-utils) *)

(** Modelled from the spec: the byte utilities of go-utils are not part
    of the repository; the specification describes them as trims over
    byte slices, and the call sites pass a set of bytes to remove from
    the left end, the right end, or both. *)
Fixpoint dropWhile (f : ascii -> bool) (s : bytes) : bytes :=
  match s with
  | c :: s' => if f c then dropWhile f s' else s
  | [] => []
  end.

Definition TrimLeftBytes (s cutset : bytes) : bytes :=
  dropWhile (inSet cutset) s.

Definition TrimRightBytes (s cutset : bytes) : bytes :=
  rev (dropWhile (inSet cutset) (rev s)).

Definition TrimBytes (s cutset : bytes) : bytes :=
  TrimRightBytes (TrimLeftBytes s cutset) cutset.

Definition ConcatByteSlices (l : list bytes) : bytes := concat l.

(** Outcome of code that can panic; [OutOfFuel] is the model's own and
    is shown below never to be returned. *)
Inductive result (A : Type) :=
| Ok (a : A)
| Panic
| OutOfFuel.
Arguments Ok {A} a.
Arguments Panic {A}.
Arguments OutOfFuel {A}.

(** ** Collaborators outside the repository

    The parser calls into code that is neither in the repository nor
    determined by it: the Unicode case tables of the Go runtime (used by
    [strings.ToUpper] and [strings.ToLower] only when the text has a byte
    above 0x7F), charset transcoding, quoted-printable decoding and
    [mail.ParseDate].  They are parameters of the development. *)
Class Collaborators := {
  unicode_ToUpper : bytes -> bytes;
  unicode_ToLower : bytes -> bytes;
  ConvertToUTF8 : bytes -> bytes -> bytes -> bytes;
  DecodeMimeHeader : bytes -> bytes;
  DecodeMimeBody : bytes -> bytes;
  mail_ParseDate : bytes -> option Z
}.

Section Parser.
Context {ext : Collaborators}.

(** [strings.ToUpper], [bytes.ToUpper]: the ASCII fast path is the code
    of the Go library; other texts go through the Unicode tables. *)
Definition ToUpper (s : bytes) : bytes :=
  if isASCII s then List.map upperByte s else unicode_ToUpper s.

Definition ToLower (s : bytes) : bytes :=
  if isASCII s then List.map lowerByte s else unicode_ToLower s.

(** ** MimeValueParams.go: principal value and parameters

    [ParseMimeValueParams] reads its argument and returns sub-slices of
    it; between the call and the use of its result in [parseMimeSelf]
    nothing is written, so it is a function of the bytes. *)

Record MimeValueParams := mkMimeValueParams {
  mv_Value : bytes;
  mv_Params : gmap bytes bytes
}.

Definition DQUOTE : ascii := "034"%char.
Definition BACKSLASH : ascii := "\"%char.
Definition SEMI : ascii := ";"%char.

(** The search for the closing quote: the first [i >= 1] with
    [content[i]] a double quote and [content[i-1]] not a backslash; [prev] is
    [content[i-1]] and [s] is [content[i:]]. *)
Fixpoint findCloseQuote (prev : ascii) (s : bytes) (i : Z) : Z :=
  match s with
  | [] => -1
  | c :: s' =>
    if beq c DQUOTE && negb (beq prev BACKSLASH) then i
    else findCloseQuote c s' (i + 1)
  end.

Definition closeQuoteIdx (content : bytes) : Z :=
  match content with
  | c0 :: r => findCloseQuote c0 r 1
  | [] => -1
  end.

Fixpoint ParseMimeValueParams_unescapeQuotedBytes (b : bytes) : bytes :=
  match b with
  | [] => []
  | c :: t =>
    match t with
    | c2 :: r =>
      if beq c BACKSLASH && (beq c2 DQUOTE || beq c2 BACKSLASH)
      then c2 :: ParseMimeValueParams_unescapeQuotedBytes r
      else c :: ParseMimeValueParams_unescapeQuotedBytes t
    | [] => [c]
    end
  end.

(** First index [>= i] whose byte satisfies [f], or the length. *)
Fixpoint findEnd (f : ascii -> bool) (s : bytes) (i : Z) : Z :=
  match s with
  | [] => i
  | c :: s' => if f c then i else findEnd f s' (i + 1)
  end.

Definition isValueEnd (c : ascii) : bool := beq c SEMI || IsSpaceByte c.

Definition ParseMimeValueParams_parseUnquotedParamValue (content : bytes) : bytes * Z :=
  let i := findEnd isValueEnd content 0 in (upto content i, i).

Definition ParseMimeValueParams_parseQuotedParamValue (content : bytes) : bytes * Z :=
  match content with
  | c0 :: _ =>
    if beq c0 DQUOTE then
      let q := closeQuoteIdx content in
      if negb (q =? -1)
      then (ParseMimeValueParams_unescapeQuotedBytes (sub content 1 (q - 1)), q + 1)
      else (ParseMimeValueParams_unescapeQuotedBytes (TrimSuffix (after content 1) [DQUOTE]),
            len content)
    else ParseMimeValueParams_parseUnquotedParamValue content
  | [] => ParseMimeValueParams_parseUnquotedParamValue content
  end.

(** [parseValue] returns the principal value and the offset where it ends. *)
Definition ParseMimeValueParams_parseValue (content : bytes) : bytes * Z :=
  match content with
  | c0 :: _ =>
    if beq c0 DQUOTE then
      let q := closeQuoteIdx content in
      if negb (q =? -1)
      then (ParseMimeValueParams_unescapeQuotedBytes (sub content 1 (q - 1)), q + 1)
      else (ParseMimeValueParams_unescapeQuotedBytes (TrimSuffix (after content 1) [DQUOTE]),
            len content)
    else
      let i := findEnd isValueEnd content 0 in (upto content i, i)
  | [] => (content, 0)
  end.

Definition ParseMimeValueParams_skipToNextParam (content : bytes) : bytes :=
  let semicolonIdx := IndexByte content SEMI in
  if semicolonIdx =? -1 then []
  else TrimLeftSpace (after content (semicolonIdx + 1)).

Definition isNameEnd (c : ascii) : bool :=
  beq c "="%char || beq c SEMI || IsSpaceByte c.

(** One turn of the loop of [parseParams]: the parameter it reads, if it
    reads one (name in upper case, value), and the text left for the next
    turn. *)
Definition parseParams_step (current : bytes) : option (bytes * bytes) * bytes :=
  let nameEnd := findEnd isNameEnd current 0 in
  let name := TrimSpace (upto current nameEnd) in
  if len name =? 0 then
    (None, ParseMimeValueParams_skipToNextParam (after current nameEnd))
  else
    let current1 := TrimLeftSpace (after current nameEnd) in
    match current1 with
    | c :: _ =>
      if beq c "="%char then
        let current2 := TrimLeftSpace (after current1 1) in
        let '(value, valueLen) :=
          match current2 with
          | q :: _ =>
            if beq q DQUOTE
            then ParseMimeValueParams_parseQuotedParamValue current2
            else ParseMimeValueParams_parseUnquotedParamValue current2
          | [] => ParseMimeValueParams_parseUnquotedParamValue current2
          end in
        (Some (ToUpper name, value),
         ParseMimeValueParams_skipToNextParam (after current2 valueLen))
      else (None, ParseMimeValueParams_skipToNextParam current1)
    | [] => (None, ParseMimeValueParams_skipToNextParam current1)
    end.

(** Step 4 of the loop: keep the first value of a name. *)
Definition storeParam (params : gmap bytes bytes) (kv : option (bytes * bytes))
  : gmap bytes bytes :=
  match kv with
  | Some (k, v) =>
    match params !! k with
    | Some _ => params
    | None => <[k := v]> params
    end
  | None => params
  end.

Fixpoint parseParams_loop (fuel : nat) (current : bytes) (params : gmap bytes bytes)
  : gmap bytes bytes :=
  match fuel with
  | O => params
  | S fuel' =>
    match current with
    | [] => params
    | _ :: _ =>
      let '(kv, next) := parseParams_step current in
      parseParams_loop fuel' next (storeParam params kv)
    end
  end.

(** The parameters in the order in which the loop reads them. *)
Fixpoint paramOccurrences (fuel : nat) (current : bytes) : list (bytes * bytes) :=
  match fuel with
  | O => []
  | S fuel' =>
    match current with
    | [] => []
    | _ :: _ =>
      let '(kv, next) := parseParams_step current in
      match kv with
      | Some x => x :: paramOccurrences fuel' next
      | None => paramOccurrences fuel' next
      end
    end
  end.

Definition ParseMimeValueParams_parseParams (content : bytes) (params : gmap bytes bytes)
  : gmap bytes bytes :=
  parseParams_loop (length content) content params.

(** The rune predicate [r == ';' || unicode.IsSpace(r)]. *)
Definition semiOrSpaceRune (s : bytes) : nat :=
  match s with
  | c :: _ => if beq c SEMI then 1%nat else spaceRune s
  | [] => 0%nat
  end.

Definition ParseMimeValueParams (data : bytes) : MimeValueParams :=
  let content := TrimLeftBytes data [SP; HT] in
  if len content =? 0 then mkMimeValueParams [] ∅
  else
    let '(value, valueEnd) := ParseMimeValueParams_parseValue content in
    if valueEnd <? len content then
      let paramsContent := TrimLeftFunc semiOrSpaceRune (after content valueEnd) in
      mkMimeValueParams value (ParseMimeValueParams_parseParams paramsContent ∅)
    else mkMimeValueParams value ∅.

(** The parameter text that [ParseMimeValueParams] hands to
    [parseParams], and the parameters it holds, in order. *)
Definition paramsContentOf (data : bytes) : bytes :=
  let content := TrimLeftBytes data [SP; HT] in
  let valueEnd := snd (ParseMimeValueParams_parseValue content) in
  if valueEnd <? len content
  then TrimLeftFunc semiOrSpaceRune (after content valueEnd)
  else [].

Definition parameterList (data : bytes) : list (bytes * bytes) :=
  paramOccurrences (length (paramsContentOf data)) (paramsContentOf data).

Definition trimSet : bytes := [CR; LF; HT; SP; DQUOTE; "'"%char].

Definition TrimmedValue (m : MimeValueParams) : bytes :=
  TrimBytes (mv_Value m) trimSet.

Definition TrimmedParam (m : MimeValueParams) (key : bytes) : bytes :=
  match mv_Params m !! ToUpper key with
  | Some val => TrimBytes val trimSet
  | None => []
  end.

Definition ParamExist (m : MimeValueParams) (key : bytes) : bool :=
  match mv_Params m !! ToUpper key with
  | Some _ => true
  | None => false
  end.

(** ** The Go standard library: [encoding/base64]

    [base64.StdEncoding.DecodeString] (padded, not strict), written after
    [decodeQuantum] and [Decode]: the bytes decoded before the first
    error are returned together with the error, which the caller drops. *)

Definition b64val (c : ascii) : Z :=
  let v := bval c in
  if (65 <=? v) && (v <=? 90) then v - 65
  else if (97 <=? v) && (v <=? 122) then v - 71
  else if (48 <=? v) && (v <=? 57) then v + 4
  else if v =? 43 then 62
  else if v =? 47 then 63
  else 255.

Definition isNL (c : ascii) : bool := beq c LF || beq c CR.

Definition byteOf (v : Z) : ascii := ascii_of_N (Z.to_N (v mod 256)).

(** The last step of [decodeQuantum]: [dlen - 1] bytes out of the
    [dlen] sextets read. *)
Definition quantumBytes (dbuf : list Z) : bytes :=
  let d := fun i => nth i dbuf 0 in
  let val := Z.lor (Z.lor (Z.shiftl (d 0%nat) 18) (Z.shiftl (d 1%nat) 12))
                   (Z.lor (Z.shiftl (d 2%nat) 6) (d 3%nat)) in
  take (length dbuf - 1)
       [byteOf (Z.shiftr val 16); byteOf (Z.shiftr val 8); byteOf val].

(** After the padding: skip newlines; anything left is trailing garbage,
    an error that still delivers the quantum. *)
Definition quantumAfterPad (dbuf : list Z) (s : bytes) : bytes * bytes * bool :=
  let s' := dropWhile isNL s in
  (s', quantumBytes dbuf, negb (len s' =? 0)).

(** [decodeQuantum]: the text left, the bytes written, and whether an
    error is returned; [dbuf] holds the sextets read so far. *)
Fixpoint decodeQuantum (s : bytes) (dbuf : list Z) : bytes * bytes * bool :=
  match s with
  | [] =>
    match dbuf with
    | [] => ([], [], false)
    | _ => ([], [], true)
    end
  | c :: s' =>
    let out := b64val c in
    if negb (out =? 255) then
      let dbuf' := dbuf ++ [out] in
      if (length dbuf' =? 4)%nat then (s', quantumBytes dbuf', false)
      else decodeQuantum s' dbuf'
    else if isNL c then decodeQuantum s' dbuf
    else if negb (beq c "="%char) then (s', [], true)
    else
      match length dbuf with
      | 0%nat | 1%nat => (s', [], true)
      | 2%nat =>
        match dropWhile isNL s' with
        | [] => ([], [], true)
        | c2 :: s3 =>
          if beq c2 "="%char then quantumAfterPad dbuf s3
          else (c2 :: s3, [], true)
        end
      | _ => quantumAfterPad dbuf s'
      end
  end.

Fixpoint base64_Decode (fuel : nat) (s : bytes) : bytes * bool :=
  match fuel with
  | O => ([], false)
  | S fuel' =>
    match s with
    | [] => ([], false)
    | _ :: _ =>
      let '(rest, out, err) := decodeQuantum s [] in
      if err then (out, true)
      else let '(out', err') := base64_Decode fuel' rest in (out ++ out', err')
    end
  end.

(** [DecodeString]: the decoded bytes and whether [err != nil]. *)
Definition base64_DecodeString (s : bytes) : bytes * bool :=
  base64_Decode (length s) s.

(** ** The encoded-word tokeniser *)

Record MimeValueTokenNode := mkTokenNode { tn_Data : bytes; tn_Charset : bytes }.

Record tokenNodeWithEncoding := mkTok {
  tk_Charset : bytes;
  tk_Data : bytes;
  tk_Encoding : bytes
}.

(** The closure [push] of [ParseMimeValueTokenNodes]. *)
Definition push (rs : list tokenNodeWithEncoding) (item : tokenNodeWithEncoding)
  : list tokenNodeWithEncoding :=
  if (len (tk_Charset item) =? 0) || (len rs =? 0) then rs ++ [item]
  else
    match last rs with
    | Some l =>
      if bytes_eqb (tk_Charset l) (tk_Charset item)
         && bytes_eqb (tk_Encoding l) (tk_Encoding item)
      then removelast rs ++ [mkTok (tk_Charset l) (tk_Data l ++ tk_Data item) (tk_Encoding l)]
      else rs ++ [item]
    | None => rs ++ [item]
    end.

Fixpoint findChar (chars : bytes) (bf : bytes) (i : Z) : Z :=
  match bf with
  | [] => -1
  | b :: bf' => if inSet chars b then i else findChar chars bf' (i + 1)
  end.

Definition lineBufferFindChar (bf chars : bytes) : Z := findChar chars bf 0.

(** [string(b)] for a byte [b]: the UTF-8 encoding of the rune U+00[b]. *)
Definition runeString (b : ascii) : bytes :=
  let v := bval b in
  if v <? 128 then [b]
  else [byteOf (Z.lor 192 (Z.shiftr v 6)); byteOf (Z.lor 128 (Z.land v 63))].

Definition decodeHeaderBase64_skip (b : bytes) (pos : Z) : Z :=
  pos + (len (after b pos) - len (dropWhile (beq "="%char) (after b pos))).

(** One turn of the loop of [decodeHeaderBase64] on a text that is not
    empty: the block decoded and, unless the loop ends, the text left. *)
Definition decodeHeaderBase64_step (b : bytes) : bytes * option bytes :=
  let pos := Index b (B "=") in
  if pos <? 0 then (fst (base64_DecodeString b), None)
  else
    let pos' := decodeHeaderBase64_skip b (pos + 1) in
    (fst (base64_DecodeString (upto b pos')), Some (after b pos')).

Fixpoint decodeHeaderBase64_loop (fuel : nat) (b : bytes) (result : list bytes)
  : list bytes :=
  match fuel with
  | O => result
  | S fuel' =>
    if 0 <? len b then
      match decodeHeaderBase64_step b with
      | (decoded, Some rest) => decodeHeaderBase64_loop fuel' rest (result ++ [decoded])
      | (decoded, None) => result ++ [decoded]
      end
    else result
  end.

Definition decodeHeaderBase64 (data : bytes) : bytes :=
  ConcatByteSlices (decodeHeaderBase64_loop (length data) data []).

Definition rawTok (data : bytes) : tokenNodeWithEncoding := mkTok [] data [].

(** One turn of the main loop of [ParseMimeValueTokenNodes]: the
    segments after the turn and, unless the loop ends, the [bfBegin] and
    [magicOffset] of the next turn. *)
Definition token_step (bfBegin : bytes) (magicOffset : Z)
    (rs : list tokenNodeWithEncoding)
  : list tokenNodeWithEncoding * option (bytes * Z) :=
  if 0 <? len bfBegin then
    let bf := bfBegin in
    let pos0 := Index (after bf magicOffset) (B "=?") in
    let pos := if pos0 =? -1 then -1 else pos0 + magicOffset in
    if pos <? 0 then (push rs (rawTok bf), None)
    else
      let rs1 := if 0 <? pos then push rs (rawTok (upto bf pos)) else rs in
      let bfBegin1 := if 0 <? pos then after bf pos else bf in
      let bf2 := after bfBegin1 2 in
      let pos2 := IndexByte bf2 "?"%char in
      if pos2 <? 2 then (rs1, Some (bfBegin1, 2))
      else
        let charset := ToUpper (upto bf2 pos2) in
        let bf3 := after bf2 (pos2 + 1) in
        if len bf3 <? 4 then (rs1, Some (bfBegin1, 2))
        else
          match bf3 with
          | e :: q :: bf4 =>
            let encoding := ToUpper (runeString e) in
            if negb (bytes_eqb encoding (B "B")) && negb (bytes_eqb encoding (B "Q"))
            then (rs1, Some (bfBegin1, 2))
            else if negb (beq q "?"%char) then (rs1, Some (bfBegin1, 2))
            else
              let pos3 := Index bf4 (B "?=") in
              if -1 <? pos3 then
                (push rs1 (mkTok charset (upto bf4 pos3) encoding),
                 Some (after bf4 (pos3 + 2), 0))
              else
                let pos4 := lineBufferFindChar bf4 [SP; HT] in
                if -1 <? pos4 then
                  (push rs1 (mkTok charset (upto bf4 pos4) encoding),
                   Some (after bf4 pos4, 0))
                else (push rs1 (mkTok charset bf4 encoding), None)
          | _ => (rs1, None)
          end
  else (rs, None).

Fixpoint tokenLoop (fuel : nat) (bfBegin : bytes) (magicOffset : Z)
    (rs : list tokenNodeWithEncoding) : list tokenNodeWithEncoding :=
  match fuel with
  | O => rs
  | S fuel' =>
    match token_step bfBegin magicOffset rs with
    | (rs', Some (bfBegin', magicOffset')) => tokenLoop fuel' bfBegin' magicOffset' rs'
    | (rs', None) => rs'
    end
  end.

(** The segments before decoding ([rs] at the end of the loop). *)
Definition tokenSegments (line : bytes) : list tokenNodeWithEncoding :=
  tokenLoop (2 * length line + 2) line 0 [].

Definition decodeSegment (item : tokenNodeWithEncoding) : MimeValueTokenNode :=
  let data :=
    if bytes_eqb (tk_Encoding item) (B "B") then decodeHeaderBase64 (tk_Data item)
    else if bytes_eqb (tk_Encoding item) (B "Q") then DecodeMimeHeader (tk_Data item)
    else tk_Data item in
  mkTokenNode data (tk_Charset item).

Definition ParseMimeValueTokenNodes (line : bytes) : list MimeValueTokenNode :=
  List.map decodeSegment (tokenSegments line).

(** [hexRegex]: exactly two hexadecimal digits. *)
Definition hexDigit (c : ascii) : option Z :=
  let v := bval c in
  if (48 <=? v) && (v <=? 57) then Some (v - 48)
  else if (65 <=? v) && (v <=? 70) then Some (v - 65 + 10)
  else if (97 <=? v) && (v <=? 102) then Some (v - 97 + 10)
  else None.

(** The percent-decoding loop of [ParseMimeValueTokenNodes2231]. *)
Fixpoint percentDecode (str : bytes) : bytes :=
  match str with
  | [] => []
  | chr :: t =>
    match t with
    | h1 :: h2 :: r =>
      match hexDigit h1, hexDigit h2 with
      | Some a, Some b =>
        if beq chr "%"%char
        then byteOf (Z.shiftl a 4 + b) :: percentDecode r
        else chr :: percentDecode t
      | _, _ => chr :: percentDecode t
      end
    | _ => chr :: percentDecode t
    end
  end.

Definition ParseMimeValueTokenNodes2231 (line : bytes) (withCharset : bool)
  : list MimeValueTokenNode :=
  if negb withCharset then ParseMimeValueTokenNodes line
  else
    let pos := IndexByte line "'"%char in
    if pos <? 0 then [mkTokenNode line []]
    else
      let charset := ToUpper (TrimSpace (upto line pos)) in
      let bf := after line (pos + 1) in
      let pos2 := IndexByte bf "'"%char in
      let bf2 := if -1 <? pos2 then after bf (pos2 + 1) else bf in
      [mkTokenNode (percentDecode bf2) charset].

Definition convertNodes (nodes : list MimeValueTokenNode) (defaultCharset : bytes) : bytes :=
  concat (List.map (fun node => ConvertToUTF8 (tn_Data node) (tn_Charset node) defaultCharset)
                   nodes).

Definition ParseMimeValueString (line : bytes) (defaultCharset : bytes) : bytes :=
  convertNodes (ParseMimeValueTokenNodes line) defaultCharset.

Definition ParseMimeValueString2231 (line : bytes) (withCharset : bool)
    (defaultCharset : bytes) : bytes :=
  convertNodes (ParseMimeValueTokenNodes2231 line withCharset) defaultCharset.

(** [strconv.Itoa] *)
Definition Itoa (i : Z) : bytes := B (NilZero.string_of_int (Z.to_int i)).

(** The loops [for i := 1; ; i++] of [ParseParamStringValue]: the values
    of [prefix i suffix] for [i = 1, 2, ...] up to the first missing key. *)
Fixpoint continuations (fuel : nat) (params : gmap bytes bytes)
    (key suffix : bytes) (i : Z) : list bytes :=
  match fuel with
  | O => []
  | S fuel' =>
    match params !! (key ++ B "*" ++ Itoa i ++ suffix) with
    | Some val => val :: continuations fuel' params key suffix (i + 1)
    | None => []
    end
  end.

Definition countByte (c : ascii) (val : bytes) : Z :=
  len (List.filter (beq c) val).

Definition ParseParamStringValue (m : MimeValueParams) (key0 : bytes)
    (defaultCharset : bytes) : bytes :=
  let key := ToUpper key0 in
  let params := mv_Params m in
  match params !! ToUpper key with
  | Some val => ParseMimeValueString val defaultCharset
  | None =>
    match params !! (key ++ B "*") with
    | Some val =>
      ParseMimeValueString2231 val (countByte "'"%char val =? 2) defaultCharset
    | None =>
      match params !! (key ++ B "*0*") with
      | Some val =>
        ParseMimeValueString2231
          (ConcatByteSlices (val :: continuations (size params) params key (B "*") 1))
          true defaultCharset
      | None =>
        match params !! (key ++ B "*0") with
        | Some val =>
          ParseMimeValueString2231
            (ConcatByteSlices (val :: continuations (size params) params key [] 1))
            false defaultCharset
        | None => []
        end
      end
    end
  end.

(** ** MimeAddress.go *)

Record MimeAddress := mkMimeAddress {
  ma_NameRaw : bytes;
  ma_Name : bytes;
  ma_Email : bytes
}.

Record parseMimeAddress_decodeResult := mkDecodeResult {
  leftbf : bytes;
  nameBuffer : bytes;
  address : bytes
}.

Fixpoint skipChar (chars : bytes) (bf : bytes) (i : Z) : Z :=
  match bf with
  | [] => -1
  | b :: bf' => if negb (inSet chars b) then i else skipChar chars bf' (i + 1)
  end.

Definition parseMimeAddress_lineBufferSkipChar (bf chars : bytes) : Z :=
  skipChar chars bf 0.

(** The three loops of [parseMimeAddress_decodeOne]. *)
Inductive addrMode := InName | InQuoted | InAngle.

Definition isSep (c : ascii) : bool := beq c ","%char || beq c ";"%char.

(** The scan of [parseMimeAddress_decodeOne] from the current byte on:
    [tmp] is [tmpbf[:tmpbfI]], [name] and the result's second component
    are [nil] when [None].  It returns name, address and [bf[i:]]. *)
Fixpoint decodeOne_scan (mode : addrMode) (bf : bytes) (tmp : bytes)
    (name : option bytes) : option bytes * option bytes * bytes :=
  match bf with
  | [] =>
    match mode with
    | InName => (name, None, [])
    | InQuoted => (Some tmp, None, [])
    | InAngle => (name, None, [])
    end
  | ch :: r =>
    match mode with
    | InName =>
      if beq ch DQUOTE then decodeOne_scan InQuoted r tmp name
      else if isSep ch then (Some tmp, None, r)
      else if beq ch "<"%char then decodeOne_scan InAngle r [] (Some tmp)
      else
        match r with
        | [] => (Some (tmp ++ [ch]), None, [])
        | _ :: _ => decodeOne_scan InName r (tmp ++ [ch]) name
        end
    | InQuoted =>
      if beq ch BACKSLASH then
        match r with
        | [] => (Some tmp, None, [])
        | x :: r' => decodeOne_scan InQuoted r' (tmp ++ [x]) name
        end
      else if beq ch DQUOTE then
        match r with
        | [] => (Some tmp, None, [])
        | _ :: _ => decodeOne_scan InName r tmp name
        end
      else decodeOne_scan InQuoted r (tmp ++ [ch]) name
    | InAngle =>
      if beq ch "<"%char then
        decodeOne_scan InAngle r []
          (Some (default [] name ++ ["<"%char] ++ (tmp ++ [SP])))
      else if isSep ch || beq ch ">"%char then (name, Some tmp, r)
      else
        match r with
        | [] => (name, Some (tmp ++ [ch]), [])
        | _ :: _ => decodeOne_scan InAngle r (tmp ++ [ch]) name
        end
    end
  end.

(** [None] is the [nil] result. *)
Definition parseMimeAddress_decodeOne (line : bytes)
  : option parseMimeAddress_decodeResult :=
  let pos := parseMimeAddress_lineBufferSkipChar line [SP; HT] in
  if pos <? 0 then None
  else
    let '(name, addr, rest) := decodeOne_scan InName (after line pos) [] None in
    let '(name1, addr1) :=
      match addr, name with
      | None, Some nm => if Contains nm (B "@") then (None, Some nm) else (name, addr)
      | _, _ => (name, addr)
      end in
    Some (mkDecodeResult rest (default [] name1) (TrimSpace (default [] addr1))).

Fixpoint ParseMimeAddress_loop (fuel : nat) (bf : bytes) (mas : list MimeAddress)
  : list MimeAddress :=
  match fuel with
  | O => mas
  | S fuel' =>
    if 0 <? len bf then
      match parseMimeAddress_decodeOne bf with
      | None => mas
      | Some ma =>
        let mas' :=
          if negb (bytes_eqb (address ma) []) || (0 <? len (nameBuffer ma))
          then mas ++ [mkMimeAddress (nameBuffer ma) [] (address ma)]
          else mas in
        ParseMimeAddress_loop fuel' (leftbf ma) mas'
      end
    else mas
  end.

(** [strings.Trim] for a cutset of ASCII characters. *)
Definition Trim (s cutset : bytes) : bytes :=
  rev (dropWhile (inSet cutset) (rev (dropWhile (inSet cutset) s))).

Definition addrTrimSet : bytes := [SP; CR; LF; HT; DQUOTE; "'"%char].

Definition ParseMimeAddress (line : bytes) (defaultCharset : bytes) : list MimeAddress :=
  List.map
    (fun ma =>
       mkMimeAddress (ma_NameRaw ma)
         (Trim (ParseMimeValueString (ma_NameRaw ma) defaultCharset) addrTrimSet)
         (ToLower (Trim (ma_Email ma) addrTrimSet)))
    (ParseMimeAddress_loop (length line) line []).

Definition emptyAddress : MimeAddress := mkMimeAddress [] [] [].

Definition ParseMimeAddressFirstOne (line : bytes) (defaultCharset : bytes) : MimeAddress :=
  match ParseMimeAddress line defaultCharset with
  | ma :: _ => ma
  | [] => emptyAddress
  end.

(** ** Slices that share the email buffer

    Every [[]byte] that the tree builder handles is either a window of
    [p.EmailData] (Go slices share their backing array, and the trims
    return sub-slices) or a private array.  [append] on a window writes
    into the buffer whenever the capacity allows it, which is always the
    case here because a window's capacity reaches the end of the buffer. *)

Inductive gslice :=
| InBuf (start n : Z)
| Own (b : bytes).

Definition deref (buf : bytes) (s : gslice) : bytes :=
  match s with
  | InBuf a n => sub buf a n
  | Own b => b
  end.

Definition glen (s : gslice) : Z :=
  match s with
  | InBuf _ n => n
  | Own b => len b
  end.

(** [s[x:y]] *)
Definition subview (s : gslice) (x y : Z) : gslice :=
  match s with
  | InBuf a _ => InBuf (a + x) (y - x)
  | Own b => Own (sub b x (y - x))
  end.

Definition writeAt (buf : bytes) (pos : Z) (c : bytes) : bytes :=
  upto buf pos ++ c ++ after buf (pos + len c).

(** [append(s, c...)] *)
Definition goAppend (buf : bytes) (s : gslice) (c : bytes) : bytes * gslice :=
  match s with
  | InBuf a n => (writeAt buf (a + n) c, InBuf a (n + len c))
  | Own b => (buf, Own (b ++ c))
  end.

(** [bytes.TrimSpace] on a slice: the result is a sub-slice. *)
Definition TrimSpaceView (buf : bytes) (s : gslice) : gslice :=
  let c := deref buf s in
  let l := len c - len (TrimLeftSpace c) in
  subview s l (l + len (TrimSpace c)).

(** Modelled from the spec: the trims of go-utils on a slice return a
    sub-slice of their argument, as [bytes.Trim] does. *)
Definition TrimRightBytesView (buf : bytes) (s : gslice) (cutset : bytes) : gslice :=
  subview s 0 (len (TrimRightBytes (deref buf s) cutset)).

Definition TrimBytesView (buf : bytes) (s : gslice) (cutset : bytes) : gslice :=
  let c := deref buf s in
  let l := len c - len (TrimLeftBytes c cutset) in
  subview s l (l + len (TrimBytes c cutset)).

(** ** emailparser.go: the boundary scanner *)

Record boundaryPos := mkBoundaryPos {
  bp_Boundary : bytes;
  bp_Start : Z;
  bp_End : Z
}.

(** One turn of the loop of [scanAllBoundaries] at [offset]: the entry
    it appends and the offset it moves to; [None] when the loop ends. *)
Definition scanAllBoundaries_step (raw : bytes) (offset : Z)
  : option (boundaryPos * Z) :=
  let rawLen := len raw in
  if offset <? rawLen then
    let start :=
      if HasPrefix (after raw offset) (B "--") then offset
      else
        let nlPos := Index (after raw offset) (LF :: B "--") in
        if nlPos =? -1 then -1 else offset + nlPos + 1 in
    if start =? -1 then None
    else
      let boundaryStart := start + 2 in
      let nlPos := Index (after raw boundaryStart) [LF] in
      if (nlPos =? -1) || (rawLen <? boundaryStart + nlPos) then None
      else
        let boundaryEnd := boundaryStart + nlPos in
        let boundaryStr := TrimSpace (sub raw boundaryStart (boundaryEnd - boundaryStart)) in
        Some (mkBoundaryPos boundaryStr start (boundaryEnd + 1), boundaryEnd + 1)
  else None.

Fixpoint scanAllBoundaries_loop (fuel : nat) (raw : bytes) (offset : Z)
    (boundaries : list boundaryPos) : list boundaryPos :=
  match fuel with
  | O => boundaries
  | S fuel' =>
    match scanAllBoundaries_step raw offset with
    | Some (b, offset') => scanAllBoundaries_loop fuel' raw offset' (boundaries ++ [b])
    | None => boundaries
    end
  end.

Definition scanAllBoundaries (raw : bytes) : list boundaryPos :=
  scanAllBoundaries_loop (length raw) raw 0 [].

(** ** emailparser.go: header lines *)

Record MimeLine := mkMimeLine { ml_Name : bytes; ml_Value : gslice }.

Definition emailParserAppendOneLine (buf : bytes) (lines : list MimeLine)
    (lineData : gslice) : list MimeLine :=
  let c := deref buf lineData in
  let pos := Index c (B ":") in
  if pos =? -1 then
    lines ++ [mkMimeLine (ToUpper (TrimSpace c)) (Own [])]
  else
    let name := ToUpper (TrimSpace (upto c pos)) in
    let value := TrimSpaceView buf (subview lineData (pos + 1) (glen lineData)) in
    lines ++ [mkMimeLine name value].

(** The search loop shared by [GetHeaderValue] and
    [GetHeaderValueIgnoreNotFound]. *)
Fixpoint findHeader (h : list MimeLine) (headerName : bytes) : option gslice :=
  match h with
  | [] => None
  | line :: h' =>
    if bytes_eqb (ml_Name line) headerName then Some (ml_Value line)
    else findHeader h' headerName
  end.

(** [GetHeaderValue]: [None] is the error result. *)
Definition GetHeaderValue (h : list MimeLine) (headerName : bytes) : option gslice :=
  findHeader h (ToUpper headerName).

Definition GetHeaderValueIgnoreNotFound (h : list MimeLine) (headerName : bytes) : gslice :=
  match findHeader h (ToUpper headerName) with
  | Some v => v
  | None => Own []
  end.

(** ** emailparser.go: the header block of one part *)

Definition isCont (line : bytes) : bool :=
  match line with
  | c :: _ => beq c SP || beq c HT
  | [] => false
  end.

Definition startsCR (line : bytes) : bool :=
  match line with
  | c :: _ => beq c CR
  | [] => false
  end.

Record headerScan := mkHeaderScan {
  hs_buf : bytes;
  hs_data : Z;
  hs_logicLine : gslice;
  hs_Header : list MimeLine
}.

(** One turn of the [for len(data) > 0] loop of [parseMimeSelf]; [data]
    is the window of the buffer from [hs_data] to [e].  The boolean tells
    whether the loop goes on. *)
Definition parseMimeSelf_step (e : Z) (st : headerScan) : headerScan * bool :=
  let buf := hs_buf st in
  let d := hs_data st in
  let logicLine := hs_logicLine st in
  let header := hs_Header st in
  if 0 <? e - d then
    let data := sub buf d (e - d) in
    let idx := Index data [LF] in
    let n := if idx =? -1 then e - d else idx + 1 in
    let line := upto data n in
    let '(buf1, logic1, header1) :=
      if isCont line then
        let '(buf1, l1) := goAppend buf logicLine (after line 1) in
        (buf1, l1, header)
      else
        (buf, InBuf d n,
         if 0 <? glen logicLine
         then emailParserAppendOneLine buf header logicLine
         else header) in
    let logic2 := TrimRightBytesView buf1 logic1 [CR; LF] in
    (mkHeaderScan buf1 (d + n) logic2 header1,
     negb (negb (idx =? -1) && ((idx =? 0) || ((idx =? 1) && startsCR line))))
  else (st, false).

Fixpoint parseMimeSelf_loop (fuel : nat) (e : Z) (st : headerScan) : headerScan :=
  match fuel with
  | O => st
  | S fuel' =>
    let '(st', again) := parseMimeSelf_step e st in
    if again then parseMimeSelf_loop fuel' e st' else st'
  end.

(** ** emailparser.go: the part tree *)

Inductive MIMENode := mkMIMENode {
  HeaderStart : Z;
  HeaderLen : Z;
  BodyStart : Z;
  BodyLen : Z;
  Header : list MimeLine;
  ContentType : bytes;
  Encoding : bytes;
  Charset : bytes;
  Boundary : bytes;
  Filename : bytes;
  Name : bytes;
  ContentID : bytes;
  Disposition : bytes;
  isTnef : bool;
  isInline : bool;
  Childs : list MIMENode
}.

Definition byteAt (buf : bytes) (i : Z) : ascii :=
  nth (Z.to_nat i) buf "000"%char.

Definition headerBytes (buf : bytes) (h : list MimeLine) (name : string) : option bytes :=
  deref buf <$> GetHeaderValue h (B name).

Definition cidSet : bytes := [DQUOTE; "<"%char; ">"%char; CR; LF; HT; SP].

(** [parseMimeSelf] on the window [buf[s : s+n]]; it returns the node
    and the buffer, whose header bytes the unfolding of continuation
    lines may have overwritten. *)
Definition parseMimeSelf (defaultCharset : bytes) (buf : bytes) (s n : Z)
  : MIMENode * bytes :=
  let r := parseMimeSelf_loop (Z.to_nat n) (s + n) (mkHeaderScan buf s (Own []) []) in
  let buf1 := hs_buf r in
  let header :=
    if 0 <? glen (hs_logicLine r)
    then emailParserAppendOneLine buf1 (hs_Header r) (hs_logicLine r)
    else hs_Header r in
  let consumed := hs_data r - s in
  let hl0 := consumed in
  let hl1 := if (0 <? hl0) && beq (byteAt buf1 (s + hl0 - 1)) LF then hl0 - 1 else hl0 in
  let hl2 := if (0 <? hl1) && beq (byteAt buf1 (s + hl1 - 1)) CR then hl1 - 1 else hl1 in
  let encoding :=
    match headerBytes buf1 header "CONTENT-TRANSFER-ENCODING" with
    | Some value => ToUpper (TrimSpace (mv_Value (ParseMimeValueParams value)))
    | None => []
    end in
  let ct := ParseMimeValueParams <$> headerBytes buf1 header "CONTENT-TYPE" in
  let contentType :=
    match ct with Some vp => ToUpper (TrimSpace (mv_Value vp)) | None => [] end in
  let charset :=
    match ct with Some vp => ToUpper (TrimmedParam vp (B "CHARSET")) | None => [] end in
  let name :=
    match ct with
    | Some vp => ParseParamStringValue vp (B "NAME") defaultCharset
    | None => []
    end in
  let boundary :=
    match ct with Some vp => TrimmedParam vp (B "BOUNDARY") | None => [] end in
  let contentType' :=
    if bytes_eqb contentType [] || bytes_eqb contentType (B "TEXT")
    then B "TEXT/PLAIN" else contentType in
  let cd := ParseMimeValueParams <$> headerBytes buf1 header "CONTENT-DISPOSITION" in
  let disposition :=
    match cd with Some vp => ToUpper (TrimSpace (mv_Value vp)) | None => [] end in
  let filename :=
    match cd with
    | Some vp => ParseParamStringValue vp (B "FILENAME") defaultCharset
    | None => []
    end in
  let contentID :=
    match headerBytes buf1 header "CONTENT-ID" with
    | Some value => TrimBytes value cidSet
    | None => []
    end in
  (mkMIMENode 0 hl2 consumed (n - consumed) header
     contentType' encoding charset boundary filename name contentID disposition
     false false [],
   buf1).

(** [node.HeaderStart += offset; node.BodyStart += offset] *)
Definition rebase (node : MIMENode) (offset : Z) : MIMENode :=
  mkMIMENode (HeaderStart node + offset) (HeaderLen node) (BodyStart node + offset)
    (BodyLen node) (Header node) (ContentType node) (Encoding node) (Charset node)
    (Boundary node) (Filename node) (Name node) (ContentID node) (Disposition node)
    (isTnef node) (isInline node) (Childs node).

Definition withChilds (node : MIMENode) (childs : list MIMENode) : MIMENode :=
  mkMIMENode (HeaderStart node) (HeaderLen node) (BodyStart node)
    (BodyLen node) (Header node) (ContentType node) (Encoding node) (Charset node)
    (Boundary node) (Filename node) (Name node) (ContentID node) (Disposition node)
    (isTnef node) (isInline node) childs.

Definition matchesBoundary (boundary : bytes) (bo : boundaryPos) : bool :=
  negb (negb (bytes_eqb (bp_Boundary bo) boundary)
        && negb (bytes_eqb (bp_Boundary bo) (boundary ++ B "--"))).

(** [boundaries[lastId+1 : i-1]], taken only when [lastId+1 < i-1]. *)
Definition newBoundaries (boundaries : list boundaryPos) (lastId i : Z)
  : list boundaryPos :=
  if lastId + 1 <? i - 1
  then sub boundaries (lastId + 1) (i - 1 - (lastId + 1))
  else [].

Section ParseMimeLoop.
Variable rec : bytes -> Z -> Z -> Z -> list boundaryPos -> result (MIMENode * bytes).
Variable boundaries : list boundaryPos.
Variable boundary : bytes.

(** The loop [for i := 0; i < len(boundaries); i++] of [parseMime];
    [rest] is [boundaries[i:]].  The recursive call is [rec]. *)
Fixpoint parseMime_loop (rest : list boundaryPos) (i lastId : Z) (buf : bytes)
    (childs : list MIMENode) : result (Z * bytes * list MIMENode) :=
  match rest with
  | [] => Ok (lastId, buf, childs)
  | bo :: rest' =>
    if negb (matchesBoundary boundary bo) then
      parseMime_loop rest' (i + 1) lastId buf childs
    else if lastId =? -1 then
      parseMime_loop rest' (i + 1) i buf childs
    else
      match boundaries !! Z.to_nat lastId with
      | None => Panic
      | Some so =>
        let eo := bo in
        let nb := newBoundaries boundaries lastId i in
        if (0 <=? bp_End so) && (bp_End so <=? bp_Start eo - 1)
           && (bp_Start eo - 1 <=? len buf)
        then
          match rec buf (bp_End so) (bp_End so) (bp_Start eo - 1 - bp_End so) nb with
          | Ok (newNode, buf') =>
            parseMime_loop rest' (i + 1) i buf' (childs ++ [newNode])
          | Panic => Panic
          | OutOfFuel => OutOfFuel
          end
        else Panic
      end
  end.

End ParseMimeLoop.

Definition wsSet : bytes := [CR; LF; HT; SP].

(** [parseMime(offset, emailPartData, boundaries)] where [emailPartData]
    is the window [buf[s : s+n]] of [p.EmailData]. *)
Fixpoint parseMime (fuel : nat) (defaultCharset : bytes) (buf : bytes)
    (offset s n : Z) (boundaries : list boundaryPos) : result (MIMENode * bytes) :=
  match fuel with
  | O => OutOfFuel
  | S fuel' =>
    let '(node0, buf1) := parseMimeSelf defaultCharset buf s n in
    let node := rebase node0 offset in
    if negb (HasPrefix (ContentType node) (B "MULTIPART/")) then Ok (node, buf1)
    else if bytes_eqb (Boundary node) [] then Ok (node, buf1)
    else
      match parseMime_loop (parseMime fuel' defaultCharset) boundaries (Boundary node)
                           boundaries 0 (-1) buf1 [] with
      | Ok (lastId, buf2, childs) =>
        if -1 <? lastId then
          match boundaries !! Z.to_nat lastId with
          | None => Panic
          | Some so =>
            if (0 <=? bp_End so) && (bp_End so <=? len buf2) then
              let tmpdata := InBuf (bp_End so) (len buf2 - bp_End so) in
              if 0 <? glen tmpdata then
                let tmpdata' := TrimBytesView buf2 tmpdata wsSet in
                if (10 <? glen tmpdata') && Contains (deref buf2 tmpdata') [LF] then
                  match tmpdata' with
                  | InBuf s' n' =>
                    match parseMime fuel' defaultCharset buf2 (bp_End so) s' n' [] with
                    | Ok (newNode, buf3) => Ok (withChilds node (childs ++ [newNode]), buf3)
                    | Panic => Panic
                    | OutOfFuel => OutOfFuel
                    end
                  | Own _ => Panic
                  end
                else Ok (withChilds node childs, buf2)
              else Ok (withChilds node childs, buf2)
            else Panic
          end
        else Ok (withChilds node childs, buf2)
      | Panic => Panic
      | OutOfFuel => OutOfFuel
      end
  end.

(** ** emailparser.go: the message facade

    A [*MIMENode] is the path from [topNode]: the sequence of indices
    into [Childs].  [parseMime] sets [newNode.Parent = node] exactly when
    it appends [newNode] to [node.Childs], so the parent of a path is the
    path without its last index. *)

Definition nodeRef := list nat.

Definition Parent (n : nodeRef) : option nodeRef :=
  match n with
  | [] => None
  | _ :: _ => Some (removelast n)
  end.

Fixpoint nodeAt (root : MIMENode) (n : nodeRef) : option MIMENode :=
  match n with
  | [] => Some root
  | i :: n' =>
    match Childs root !! i with
    | Some c => nodeAt c n'
    | None => None
    end
  end.

(** Assignment through a node pointer. *)
Fixpoint updateAt (n : nodeRef) (f : MIMENode -> MIMENode) (root : MIMENode) : MIMENode :=
  match n with
  | [] => f root
  | i :: n' => withChilds root (alter (updateAt n' f) i (Childs root))
  end.

Definition set_isTnef (node : MIMENode) : MIMENode :=
  mkMIMENode (HeaderStart node) (HeaderLen node) (BodyStart node)
    (BodyLen node) (Header node) (ContentType node) (Encoding node) (Charset node)
    (Boundary node) (Filename node) (Name node) (ContentID node) (Disposition node)
    true (isInline node) (Childs node).

Definition set_isInline (node : MIMENode) : MIMENode :=
  mkMIMENode (HeaderStart node) (HeaderLen node) (BodyStart node)
    (BodyLen node) (Header node) (ContentType node) (Encoding node) (Charset node)
    (Boundary node) (Filename node) (Name node) (ContentID node) (Disposition node)
    (isTnef node) true (Childs node).

Record EmailParser := mkEmailParser {
  DefaultCharset : bytes;
  EmailData : bytes;
  topNode : MIMENode;
  messageID : bytes;
  messageIDDealed : bool;
  subject : bytes;
  subjectDealed : bool;
  date : bytes;
  dateUnix : Z;
  dateDealed : bool;
  from : MimeAddress;
  fromDealed : bool;
  to : list MimeAddress;
  toDealed : bool;
  cc : list MimeAddress;
  ccDealed : bool;
  bcc : list MimeAddress;
  bccDealed : bool;
  sender : MimeAddress;
  senderDealed : bool;
  replyTo : MimeAddress;
  replyToDealed : bool;
  dispositionNotificationTo : MimeAddress;
  dispositionNotificationToDealed : bool;
  references : list bytes;
  referencesDealed : bool;
  textNodes : list nodeRef;
  attachmentNodes : list nodeRef;
  nodeClassified : bool;
  alternativeShowNodes : list nodeRef;
  alternativeShowNodesDealed : bool;
  inlineAttachmentNodesDealed : bool
}.

Definition set_topNode (v : MIMENode) (p : EmailParser) : EmailParser :=
  mkEmailParser (DefaultCharset p) (EmailData p) v (messageID p) (messageIDDealed p)
    (subject p) (subjectDealed p) (date p) (dateUnix p) (dateDealed p) (from p)
    (fromDealed p) (to p) (toDealed p) (cc p) (ccDealed p) (bcc p) (bccDealed p) (sender
    p) (senderDealed p) (replyTo p) (replyToDealed p) (dispositionNotificationTo p)
    (dispositionNotificationToDealed p) (references p) (referencesDealed p) (textNodes
    p) (attachmentNodes p) (nodeClassified p) (alternativeShowNodes p)
    (alternativeShowNodesDealed p) (inlineAttachmentNodesDealed p).

Definition set_messageID (v : bytes) (p : EmailParser) : EmailParser :=
  mkEmailParser (DefaultCharset p) (EmailData p) (topNode p) v (messageIDDealed p)
    (subject p) (subjectDealed p) (date p) (dateUnix p) (dateDealed p) (from p)
    (fromDealed p) (to p) (toDealed p) (cc p) (ccDealed p) (bcc p) (bccDealed p) (sender
    p) (senderDealed p) (replyTo p) (replyToDealed p) (dispositionNotificationTo p)
    (dispositionNotificationToDealed p) (references p) (referencesDealed p) (textNodes
    p) (attachmentNodes p) (nodeClassified p) (alternativeShowNodes p)
    (alternativeShowNodesDealed p) (inlineAttachmentNodesDealed p).

Definition set_messageIDDealed (v : bool) (p : EmailParser) : EmailParser :=
  mkEmailParser (DefaultCharset p) (EmailData p) (topNode p) (messageID p) v (subject p)
    (subjectDealed p) (date p) (dateUnix p) (dateDealed p) (from p) (fromDealed p) (to
    p) (toDealed p) (cc p) (ccDealed p) (bcc p) (bccDealed p) (sender p) (senderDealed
    p) (replyTo p) (replyToDealed p) (dispositionNotificationTo p)
    (dispositionNotificationToDealed p) (references p) (referencesDealed p) (textNodes
    p) (attachmentNodes p) (nodeClassified p) (alternativeShowNodes p)
    (alternativeShowNodesDealed p) (inlineAttachmentNodesDealed p).

Definition set_subject (v : bytes) (p : EmailParser) : EmailParser :=
  mkEmailParser (DefaultCharset p) (EmailData p) (topNode p) (messageID p)
    (messageIDDealed p) v (subjectDealed p) (date p) (dateUnix p) (dateDealed p) (from
    p) (fromDealed p) (to p) (toDealed p) (cc p) (ccDealed p) (bcc p) (bccDealed p)
    (sender p) (senderDealed p) (replyTo p) (replyToDealed p) (dispositionNotificationTo
    p) (dispositionNotificationToDealed p) (references p) (referencesDealed p)
    (textNodes p) (attachmentNodes p) (nodeClassified p) (alternativeShowNodes p)
    (alternativeShowNodesDealed p) (inlineAttachmentNodesDealed p).

Definition set_subjectDealed (v : bool) (p : EmailParser) : EmailParser :=
  mkEmailParser (DefaultCharset p) (EmailData p) (topNode p) (messageID p)
    (messageIDDealed p) (subject p) v (date p) (dateUnix p) (dateDealed p) (from p)
    (fromDealed p) (to p) (toDealed p) (cc p) (ccDealed p) (bcc p) (bccDealed p) (sender
    p) (senderDealed p) (replyTo p) (replyToDealed p) (dispositionNotificationTo p)
    (dispositionNotificationToDealed p) (references p) (referencesDealed p) (textNodes
    p) (attachmentNodes p) (nodeClassified p) (alternativeShowNodes p)
    (alternativeShowNodesDealed p) (inlineAttachmentNodesDealed p).

Definition set_date (v : bytes) (p : EmailParser) : EmailParser :=
  mkEmailParser (DefaultCharset p) (EmailData p) (topNode p) (messageID p)
    (messageIDDealed p) (subject p) (subjectDealed p) v (dateUnix p) (dateDealed p)
    (from p) (fromDealed p) (to p) (toDealed p) (cc p) (ccDealed p) (bcc p) (bccDealed
    p) (sender p) (senderDealed p) (replyTo p) (replyToDealed p)
    (dispositionNotificationTo p) (dispositionNotificationToDealed p) (references p)
    (referencesDealed p) (textNodes p) (attachmentNodes p) (nodeClassified p)
    (alternativeShowNodes p) (alternativeShowNodesDealed p) (inlineAttachmentNodesDealed
    p).

Definition set_dateUnix (v : Z) (p : EmailParser) : EmailParser :=
  mkEmailParser (DefaultCharset p) (EmailData p) (topNode p) (messageID p)
    (messageIDDealed p) (subject p) (subjectDealed p) (date p) v (dateDealed p) (from p)
    (fromDealed p) (to p) (toDealed p) (cc p) (ccDealed p) (bcc p) (bccDealed p) (sender
    p) (senderDealed p) (replyTo p) (replyToDealed p) (dispositionNotificationTo p)
    (dispositionNotificationToDealed p) (references p) (referencesDealed p) (textNodes
    p) (attachmentNodes p) (nodeClassified p) (alternativeShowNodes p)
    (alternativeShowNodesDealed p) (inlineAttachmentNodesDealed p).

Definition set_dateDealed (v : bool) (p : EmailParser) : EmailParser :=
  mkEmailParser (DefaultCharset p) (EmailData p) (topNode p) (messageID p)
    (messageIDDealed p) (subject p) (subjectDealed p) (date p) (dateUnix p) v (from p)
    (fromDealed p) (to p) (toDealed p) (cc p) (ccDealed p) (bcc p) (bccDealed p) (sender
    p) (senderDealed p) (replyTo p) (replyToDealed p) (dispositionNotificationTo p)
    (dispositionNotificationToDealed p) (references p) (referencesDealed p) (textNodes
    p) (attachmentNodes p) (nodeClassified p) (alternativeShowNodes p)
    (alternativeShowNodesDealed p) (inlineAttachmentNodesDealed p).

Definition set_from (v : MimeAddress) (p : EmailParser) : EmailParser :=
  mkEmailParser (DefaultCharset p) (EmailData p) (topNode p) (messageID p)
    (messageIDDealed p) (subject p) (subjectDealed p) (date p) (dateUnix p) (dateDealed
    p) v (fromDealed p) (to p) (toDealed p) (cc p) (ccDealed p) (bcc p) (bccDealed p)
    (sender p) (senderDealed p) (replyTo p) (replyToDealed p) (dispositionNotificationTo
    p) (dispositionNotificationToDealed p) (references p) (referencesDealed p)
    (textNodes p) (attachmentNodes p) (nodeClassified p) (alternativeShowNodes p)
    (alternativeShowNodesDealed p) (inlineAttachmentNodesDealed p).

Definition set_fromDealed (v : bool) (p : EmailParser) : EmailParser :=
  mkEmailParser (DefaultCharset p) (EmailData p) (topNode p) (messageID p)
    (messageIDDealed p) (subject p) (subjectDealed p) (date p) (dateUnix p) (dateDealed
    p) (from p) v (to p) (toDealed p) (cc p) (ccDealed p) (bcc p) (bccDealed p) (sender
    p) (senderDealed p) (replyTo p) (replyToDealed p) (dispositionNotificationTo p)
    (dispositionNotificationToDealed p) (references p) (referencesDealed p) (textNodes
    p) (attachmentNodes p) (nodeClassified p) (alternativeShowNodes p)
    (alternativeShowNodesDealed p) (inlineAttachmentNodesDealed p).

Definition set_to (v : list MimeAddress) (p : EmailParser) : EmailParser :=
  mkEmailParser (DefaultCharset p) (EmailData p) (topNode p) (messageID p)
    (messageIDDealed p) (subject p) (subjectDealed p) (date p) (dateUnix p) (dateDealed
    p) (from p) (fromDealed p) v (toDealed p) (cc p) (ccDealed p) (bcc p) (bccDealed p)
    (sender p) (senderDealed p) (replyTo p) (replyToDealed p) (dispositionNotificationTo
    p) (dispositionNotificationToDealed p) (references p) (referencesDealed p)
    (textNodes p) (attachmentNodes p) (nodeClassified p) (alternativeShowNodes p)
    (alternativeShowNodesDealed p) (inlineAttachmentNodesDealed p).

Definition set_toDealed (v : bool) (p : EmailParser) : EmailParser :=
  mkEmailParser (DefaultCharset p) (EmailData p) (topNode p) (messageID p)
    (messageIDDealed p) (subject p) (subjectDealed p) (date p) (dateUnix p) (dateDealed
    p) (from p) (fromDealed p) (to p) v (cc p) (ccDealed p) (bcc p) (bccDealed p)
    (sender p) (senderDealed p) (replyTo p) (replyToDealed p) (dispositionNotificationTo
    p) (dispositionNotificationToDealed p) (references p) (referencesDealed p)
    (textNodes p) (attachmentNodes p) (nodeClassified p) (alternativeShowNodes p)
    (alternativeShowNodesDealed p) (inlineAttachmentNodesDealed p).

Definition set_cc (v : list MimeAddress) (p : EmailParser) : EmailParser :=
  mkEmailParser (DefaultCharset p) (EmailData p) (topNode p) (messageID p)
    (messageIDDealed p) (subject p) (subjectDealed p) (date p) (dateUnix p) (dateDealed
    p) (from p) (fromDealed p) (to p) (toDealed p) v (ccDealed p) (bcc p) (bccDealed p)
    (sender p) (senderDealed p) (replyTo p) (replyToDealed p) (dispositionNotificationTo
    p) (dispositionNotificationToDealed p) (references p) (referencesDealed p)
    (textNodes p) (attachmentNodes p) (nodeClassified p) (alternativeShowNodes p)
    (alternativeShowNodesDealed p) (inlineAttachmentNodesDealed p).

Definition set_ccDealed (v : bool) (p : EmailParser) : EmailParser :=
  mkEmailParser (DefaultCharset p) (EmailData p) (topNode p) (messageID p)
    (messageIDDealed p) (subject p) (subjectDealed p) (date p) (dateUnix p) (dateDealed
    p) (from p) (fromDealed p) (to p) (toDealed p) (cc p) v (bcc p) (bccDealed p)
    (sender p) (senderDealed p) (replyTo p) (replyToDealed p) (dispositionNotificationTo
    p) (dispositionNotificationToDealed p) (references p) (referencesDealed p)
    (textNodes p) (attachmentNodes p) (nodeClassified p) (alternativeShowNodes p)
    (alternativeShowNodesDealed p) (inlineAttachmentNodesDealed p).

Definition set_bcc (v : list MimeAddress) (p : EmailParser) : EmailParser :=
  mkEmailParser (DefaultCharset p) (EmailData p) (topNode p) (messageID p)
    (messageIDDealed p) (subject p) (subjectDealed p) (date p) (dateUnix p) (dateDealed
    p) (from p) (fromDealed p) (to p) (toDealed p) (cc p) (ccDealed p) v (bccDealed p)
    (sender p) (senderDealed p) (replyTo p) (replyToDealed p) (dispositionNotificationTo
    p) (dispositionNotificationToDealed p) (references p) (referencesDealed p)
    (textNodes p) (attachmentNodes p) (nodeClassified p) (alternativeShowNodes p)
    (alternativeShowNodesDealed p) (inlineAttachmentNodesDealed p).

Definition set_bccDealed (v : bool) (p : EmailParser) : EmailParser :=
  mkEmailParser (DefaultCharset p) (EmailData p) (topNode p) (messageID p)
    (messageIDDealed p) (subject p) (subjectDealed p) (date p) (dateUnix p) (dateDealed
    p) (from p) (fromDealed p) (to p) (toDealed p) (cc p) (ccDealed p) (bcc p) v (sender
    p) (senderDealed p) (replyTo p) (replyToDealed p) (dispositionNotificationTo p)
    (dispositionNotificationToDealed p) (references p) (referencesDealed p) (textNodes
    p) (attachmentNodes p) (nodeClassified p) (alternativeShowNodes p)
    (alternativeShowNodesDealed p) (inlineAttachmentNodesDealed p).

Definition set_sender (v : MimeAddress) (p : EmailParser) : EmailParser :=
  mkEmailParser (DefaultCharset p) (EmailData p) (topNode p) (messageID p)
    (messageIDDealed p) (subject p) (subjectDealed p) (date p) (dateUnix p) (dateDealed
    p) (from p) (fromDealed p) (to p) (toDealed p) (cc p) (ccDealed p) (bcc p)
    (bccDealed p) v (senderDealed p) (replyTo p) (replyToDealed p)
    (dispositionNotificationTo p) (dispositionNotificationToDealed p) (references p)
    (referencesDealed p) (textNodes p) (attachmentNodes p) (nodeClassified p)
    (alternativeShowNodes p) (alternativeShowNodesDealed p) (inlineAttachmentNodesDealed
    p).

Definition set_senderDealed (v : bool) (p : EmailParser) : EmailParser :=
  mkEmailParser (DefaultCharset p) (EmailData p) (topNode p) (messageID p)
    (messageIDDealed p) (subject p) (subjectDealed p) (date p) (dateUnix p) (dateDealed
    p) (from p) (fromDealed p) (to p) (toDealed p) (cc p) (ccDealed p) (bcc p)
    (bccDealed p) (sender p) v (replyTo p) (replyToDealed p) (dispositionNotificationTo
    p) (dispositionNotificationToDealed p) (references p) (referencesDealed p)
    (textNodes p) (attachmentNodes p) (nodeClassified p) (alternativeShowNodes p)
    (alternativeShowNodesDealed p) (inlineAttachmentNodesDealed p).

Definition set_replyTo (v : MimeAddress) (p : EmailParser) : EmailParser :=
  mkEmailParser (DefaultCharset p) (EmailData p) (topNode p) (messageID p)
    (messageIDDealed p) (subject p) (subjectDealed p) (date p) (dateUnix p) (dateDealed
    p) (from p) (fromDealed p) (to p) (toDealed p) (cc p) (ccDealed p) (bcc p)
    (bccDealed p) (sender p) (senderDealed p) v (replyToDealed p)
    (dispositionNotificationTo p) (dispositionNotificationToDealed p) (references p)
    (referencesDealed p) (textNodes p) (attachmentNodes p) (nodeClassified p)
    (alternativeShowNodes p) (alternativeShowNodesDealed p) (inlineAttachmentNodesDealed
    p).

Definition set_replyToDealed (v : bool) (p : EmailParser) : EmailParser :=
  mkEmailParser (DefaultCharset p) (EmailData p) (topNode p) (messageID p)
    (messageIDDealed p) (subject p) (subjectDealed p) (date p) (dateUnix p) (dateDealed
    p) (from p) (fromDealed p) (to p) (toDealed p) (cc p) (ccDealed p) (bcc p)
    (bccDealed p) (sender p) (senderDealed p) (replyTo p) v (dispositionNotificationTo
    p) (dispositionNotificationToDealed p) (references p) (referencesDealed p)
    (textNodes p) (attachmentNodes p) (nodeClassified p) (alternativeShowNodes p)
    (alternativeShowNodesDealed p) (inlineAttachmentNodesDealed p).

Definition set_dispositionNotificationTo (v : MimeAddress) (p : EmailParser) : EmailParser :=
  mkEmailParser (DefaultCharset p) (EmailData p) (topNode p) (messageID p)
    (messageIDDealed p) (subject p) (subjectDealed p) (date p) (dateUnix p) (dateDealed
    p) (from p) (fromDealed p) (to p) (toDealed p) (cc p) (ccDealed p) (bcc p)
    (bccDealed p) (sender p) (senderDealed p) (replyTo p) (replyToDealed p) v
    (dispositionNotificationToDealed p) (references p) (referencesDealed p) (textNodes
    p) (attachmentNodes p) (nodeClassified p) (alternativeShowNodes p)
    (alternativeShowNodesDealed p) (inlineAttachmentNodesDealed p).

Definition set_dispositionNotificationToDealed (v : bool) (p : EmailParser) : EmailParser :=
  mkEmailParser (DefaultCharset p) (EmailData p) (topNode p) (messageID p)
    (messageIDDealed p) (subject p) (subjectDealed p) (date p) (dateUnix p) (dateDealed
    p) (from p) (fromDealed p) (to p) (toDealed p) (cc p) (ccDealed p) (bcc p)
    (bccDealed p) (sender p) (senderDealed p) (replyTo p) (replyToDealed p)
    (dispositionNotificationTo p) v (references p) (referencesDealed p) (textNodes p)
    (attachmentNodes p) (nodeClassified p) (alternativeShowNodes p)
    (alternativeShowNodesDealed p) (inlineAttachmentNodesDealed p).

Definition set_references (v : list bytes) (p : EmailParser) : EmailParser :=
  mkEmailParser (DefaultCharset p) (EmailData p) (topNode p) (messageID p)
    (messageIDDealed p) (subject p) (subjectDealed p) (date p) (dateUnix p) (dateDealed
    p) (from p) (fromDealed p) (to p) (toDealed p) (cc p) (ccDealed p) (bcc p)
    (bccDealed p) (sender p) (senderDealed p) (replyTo p) (replyToDealed p)
    (dispositionNotificationTo p) (dispositionNotificationToDealed p) v
    (referencesDealed p) (textNodes p) (attachmentNodes p) (nodeClassified p)
    (alternativeShowNodes p) (alternativeShowNodesDealed p) (inlineAttachmentNodesDealed
    p).

Definition set_referencesDealed (v : bool) (p : EmailParser) : EmailParser :=
  mkEmailParser (DefaultCharset p) (EmailData p) (topNode p) (messageID p)
    (messageIDDealed p) (subject p) (subjectDealed p) (date p) (dateUnix p) (dateDealed
    p) (from p) (fromDealed p) (to p) (toDealed p) (cc p) (ccDealed p) (bcc p)
    (bccDealed p) (sender p) (senderDealed p) (replyTo p) (replyToDealed p)
    (dispositionNotificationTo p) (dispositionNotificationToDealed p) (references p) v
    (textNodes p) (attachmentNodes p) (nodeClassified p) (alternativeShowNodes p)
    (alternativeShowNodesDealed p) (inlineAttachmentNodesDealed p).

Definition set_textNodes (v : list nodeRef) (p : EmailParser) : EmailParser :=
  mkEmailParser (DefaultCharset p) (EmailData p) (topNode p) (messageID p)
    (messageIDDealed p) (subject p) (subjectDealed p) (date p) (dateUnix p) (dateDealed
    p) (from p) (fromDealed p) (to p) (toDealed p) (cc p) (ccDealed p) (bcc p)
    (bccDealed p) (sender p) (senderDealed p) (replyTo p) (replyToDealed p)
    (dispositionNotificationTo p) (dispositionNotificationToDealed p) (references p)
    (referencesDealed p) v (attachmentNodes p) (nodeClassified p) (alternativeShowNodes
    p) (alternativeShowNodesDealed p) (inlineAttachmentNodesDealed p).

Definition set_attachmentNodes (v : list nodeRef) (p : EmailParser) : EmailParser :=
  mkEmailParser (DefaultCharset p) (EmailData p) (topNode p) (messageID p)
    (messageIDDealed p) (subject p) (subjectDealed p) (date p) (dateUnix p) (dateDealed
    p) (from p) (fromDealed p) (to p) (toDealed p) (cc p) (ccDealed p) (bcc p)
    (bccDealed p) (sender p) (senderDealed p) (replyTo p) (replyToDealed p)
    (dispositionNotificationTo p) (dispositionNotificationToDealed p) (references p)
    (referencesDealed p) (textNodes p) v (nodeClassified p) (alternativeShowNodes p)
    (alternativeShowNodesDealed p) (inlineAttachmentNodesDealed p).

Definition set_nodeClassified (v : bool) (p : EmailParser) : EmailParser :=
  mkEmailParser (DefaultCharset p) (EmailData p) (topNode p) (messageID p)
    (messageIDDealed p) (subject p) (subjectDealed p) (date p) (dateUnix p) (dateDealed
    p) (from p) (fromDealed p) (to p) (toDealed p) (cc p) (ccDealed p) (bcc p)
    (bccDealed p) (sender p) (senderDealed p) (replyTo p) (replyToDealed p)
    (dispositionNotificationTo p) (dispositionNotificationToDealed p) (references p)
    (referencesDealed p) (textNodes p) (attachmentNodes p) v (alternativeShowNodes p)
    (alternativeShowNodesDealed p) (inlineAttachmentNodesDealed p).

Definition set_alternativeShowNodes (v : list nodeRef) (p : EmailParser) : EmailParser :=
  mkEmailParser (DefaultCharset p) (EmailData p) (topNode p) (messageID p)
    (messageIDDealed p) (subject p) (subjectDealed p) (date p) (dateUnix p) (dateDealed
    p) (from p) (fromDealed p) (to p) (toDealed p) (cc p) (ccDealed p) (bcc p)
    (bccDealed p) (sender p) (senderDealed p) (replyTo p) (replyToDealed p)
    (dispositionNotificationTo p) (dispositionNotificationToDealed p) (references p)
    (referencesDealed p) (textNodes p) (attachmentNodes p) (nodeClassified p) v
    (alternativeShowNodesDealed p) (inlineAttachmentNodesDealed p).

Definition set_alternativeShowNodesDealed (v : bool) (p : EmailParser) : EmailParser :=
  mkEmailParser (DefaultCharset p) (EmailData p) (topNode p) (messageID p)
    (messageIDDealed p) (subject p) (subjectDealed p) (date p) (dateUnix p) (dateDealed
    p) (from p) (fromDealed p) (to p) (toDealed p) (cc p) (ccDealed p) (bcc p)
    (bccDealed p) (sender p) (senderDealed p) (replyTo p) (replyToDealed p)
    (dispositionNotificationTo p) (dispositionNotificationToDealed p) (references p)
    (referencesDealed p) (textNodes p) (attachmentNodes p) (nodeClassified p)
    (alternativeShowNodes p) v (inlineAttachmentNodesDealed p).

Definition set_inlineAttachmentNodesDealed (v : bool) (p : EmailParser) : EmailParser :=
  mkEmailParser (DefaultCharset p) (EmailData p) (topNode p) (messageID p)
    (messageIDDealed p) (subject p) (subjectDealed p) (date p) (dateUnix p) (dateDealed
    p) (from p) (fromDealed p) (to p) (toDealed p) (cc p) (ccDealed p) (bcc p)
    (bccDealed p) (sender p) (senderDealed p) (replyTo p) (replyToDealed p)
    (dispositionNotificationTo p) (dispositionNotificationToDealed p) (references p)
    (referencesDealed p) (textNodes p) (attachmentNodes p) (nodeClassified p)
    (alternativeShowNodes p) (alternativeShowNodesDealed p) v.

Definition EmailParserNew (defaultCharset emailData : bytes) : result EmailParser :=
  let dc := if bytes_eqb defaultCharset [] then B "UTF-8" else defaultCharset in
  let boundaries := scanAllBoundaries emailData in
  match parseMime (S (length boundaries)) dc emailData 0 0 (len emailData) boundaries with
  | Ok (top, buf) =>
    Ok (mkEmailParser dc buf top [] false [] false [] 0 false emptyAddress false
          [] false [] false [] false emptyAddress false emptyAddress false
          emptyAddress false [] false [] [] false [] false false)
  | Panic => Panic
  | OutOfFuel => OutOfFuel
  end.

Definition GetTopMIMENode (p : EmailParser) : MIMENode := topNode p.

(** [p.topNode.GetHeaderValueIgnoreNotFound(name)], read now. *)
Definition topHeader (p : EmailParser) (name : string) : bytes :=
  deref (EmailData p) (GetHeaderValueIgnoreNotFound (Header (topNode p)) (B name)).

Definition GetMessageID (p : EmailParser) : bytes * EmailParser :=
  if messageIDDealed p then (messageID p, p)
  else
    let p1 := set_messageID (TrimBytes (topHeader p "MESSAGE-ID") cidSet) p in
    (messageID p1, p1).

Definition GetSubject (p : EmailParser) : bytes * EmailParser :=
  if subjectDealed p then (subject p, p)
  else
    let p1 := set_subjectDealed true p in
    let p2 := set_subject (ParseMimeValueString (topHeader p1 "SUBJECT") (DefaultCharset p1)) p1 in
    (subject p2, p2).

(** [strings.LastIndex(s, ";")] *)
Fixpoint LastIndexByte_from (s : bytes) (c : ascii) (i : Z) (found : Z) : Z :=
  match s with
  | [] => found
  | x :: s' => LastIndexByte_from s' c (i + 1) (if beq x c then i else found)
  end.

Definition LastIndexByte (s : bytes) (c : ascii) : Z := LastIndexByte_from s c 0 (-1).

Definition parseDate (p : EmailParser) : EmailParser :=
  let p1 :=
    match GetHeaderValue (Header (topNode p)) (B "DATE") with
    | Some v => set_date (TrimSpace (deref (EmailData p) v)) p
    | None =>
      match GetHeaderValue (Header (topNode p)) (B "RECEIVED") with
      | Some v =>
        let s := deref (EmailData p) v in
        let pos := LastIndexByte s SEMI in
        if 0 <? pos then set_date (TrimSpace (after s (pos + 1))) p else p
      | None => p
      end
    end in
  if negb (bytes_eqb (date p1) []) then
    match mail_ParseDate (date p1) with
    | Some t => set_dateUnix t p1
    | None => p1
    end
  else p1.

Definition GetDate (p : EmailParser) : bytes * EmailParser :=
  if dateDealed p then (date p, p)
  else let p1 := parseDate (set_dateDealed true p) in (date p1, p1).

Definition GetDateUnix (p : EmailParser) : Z * EmailParser :=
  if dateDealed p then (dateUnix p, p)
  else let p1 := parseDate (set_dateDealed true p) in (dateUnix p1, p1).

Definition GetFrom (p : EmailParser) : MimeAddress * EmailParser :=
  if fromDealed p then (from p, p)
  else
    let p1 := set_fromDealed true p in
    let p2 := set_from (ParseMimeAddressFirstOne (topHeader p1 "FROM") (DefaultCharset p1)) p1 in
    (from p2, p2).

Definition GetTo (p : EmailParser) : list MimeAddress * EmailParser :=
  if toDealed p then (to p, p)
  else
    let p1 := set_toDealed true p in
    let p2 := set_to (ParseMimeAddress (topHeader p1 "TO") (DefaultCharset p1)) p1 in
    (to p2, p2).

Definition GetCc (p : EmailParser) : list MimeAddress * EmailParser :=
  if ccDealed p then (cc p, p)
  else
    let p1 := set_ccDealed true p in
    let p2 := set_cc (ParseMimeAddress (topHeader p1 "CC") (DefaultCharset p1)) p1 in
    (cc p2, p2).

Definition GetBcc (p : EmailParser) : list MimeAddress * EmailParser :=
  if bccDealed p then (bcc p, p)
  else
    let p1 := set_bccDealed true p in
    let p2 := set_bcc (ParseMimeAddress (topHeader p1 "BCC") (DefaultCharset p1)) p1 in
    (bcc p2, p2).

Definition GetSender (p : EmailParser) : MimeAddress * EmailParser :=
  if senderDealed p then (sender p, p)
  else
    let p1 := set_senderDealed true p in
    let p2 := set_sender (ParseMimeAddressFirstOne (topHeader p1 "SENDER") (DefaultCharset p1)) p1 in
    (sender p2, p2).

Definition GetReplyTo (p : EmailParser) : MimeAddress * EmailParser :=
  if replyToDealed p then (replyTo p, p)
  else
    let p1 := set_replyToDealed true p in
    let p2 := set_replyTo (ParseMimeAddressFirstOne (topHeader p1 "REPLY-TO") (DefaultCharset p1)) p1 in
    (replyTo p2, p2).

Definition GetDispositionNotificationTo (p : EmailParser) : MimeAddress * EmailParser :=
  if dispositionNotificationToDealed p then (dispositionNotificationTo p, p)
  else
    let p1 := set_dispositionNotificationToDealed true p in
    let p2 := set_dispositionNotificationTo
                (ParseMimeAddressFirstOne (topHeader p1 "DISPOSITION-NOTIFICATION-TO")
                                          (DefaultCharset p1)) p1 in
    (dispositionNotificationTo p2, p2).

Definition isRefDelim (c : ascii) : bool :=
  inSet [","%char; ";"%char; "<"%char; ">"%char; HT; SP; LF; CR] c.

(** [strings.FieldsFunc] for a predicate that holds of ASCII runes only:
    [cur] is the field being read. *)
Fixpoint FieldsFunc (f : ascii -> bool) (s : bytes) (cur : bytes) : list bytes :=
  match s with
  | [] => if bytes_eqb cur [] then [] else [cur]
  | c :: s' =>
    if f c then (if bytes_eqb cur [] then [] else [cur]) ++ FieldsFunc f s' []
    else FieldsFunc f s' (cur ++ [c])
  end.

Definition GetReferences (p : EmailParser) : list bytes * EmailParser :=
  if referencesDealed p then (references p, p)
  else
    let p1 := set_referencesDealed true p in
    let referencesHeader := topHeader p1 "REFERENCES" in
    let refs :=
      List.filter (fun ref => negb (bytes_eqb ref []))
        (List.map TrimSpace (FieldsFunc isRefDelim referencesHeader [])) in
    let p2 := set_references refs p1 in
    (references p2, p2).

(** *** Classification *)

Definition mainTypeOf (typeStr : bytes) : bytes :=
  let idx := Index typeStr (B "/") in
  if 0 <? idx then upto typeStr idx else typeStr.

(** The closure [walkAllNode] of [classifyNodes]: [ref] is the pointer to
    [node]; the result is the node after the walk (its [isTnef] bits
    set) and the two vectors. *)
Fixpoint walkAllNode (node : MIMENode) (ref : nodeRef)
    (acc : list nodeRef * list nodeRef) {struct node}
  : MIMENode * (list nodeRef * list nodeRef) :=
  let typeStr := ContentType node in
  let mainType := mainTypeOf typeStr in
  if bytes_eqb mainType (B "MULTIPART") then
    let walkChilds :=
      fix walkChilds (cs : list MIMENode) (i : nat) (acc : list nodeRef * list nodeRef)
          {struct cs} :=
        match cs with
        | [] => ([], acc)
        | child :: cs' =>
          let '(child', acc1) := walkAllNode child (ref ++ [i]) acc in
          let '(cs'', acc2) := walkChilds cs' (S i) acc1 in
          (child' :: cs'', acc2)
        end in
    let '(cs, acc') := walkChilds (Childs node) 0%nat acc in
    (withChilds node cs, acc')
  else if bytes_eqb mainType (B "APPLICATION") then
    (if Contains typeStr (B "TNEF") then set_isTnef node else node,
     (fst acc, snd acc ++ [ref]))
  else if bytes_eqb mainType (B "MESSAGE") then
    if Contains typeStr (B "DELIVERY") || Contains typeStr (B "NOTIFICATION")
    then (node, (fst acc ++ [ref], snd acc))
    else (node, (fst acc, snd acc ++ [ref]))
  else if bytes_eqb mainType (B "TEXT") then
    if Contains typeStr (B "/PLAIN") || Contains typeStr (B "/HTML")
    then (node, (fst acc ++ [ref], snd acc))
    else (node, (fst acc, snd acc ++ [ref]))
  else (node, (fst acc, snd acc ++ [ref])).

Definition classifyNodes (p : EmailParser) : EmailParser :=
  if nodeClassified p then p
  else
    let p1 := set_nodeClassified true p in
    let '(top, (text, att)) :=
      walkAllNode (topNode p1) [] (textNodes p1, attachmentNodes p1) in
    set_attachmentNodes att (set_textNodes text (set_topNode top p1)).

(** [n.isTnef] and the like, read through the pointer [n]. *)
Definition nodeBool (f : MIMENode -> bool) (p : EmailParser) (n : nodeRef) : bool :=
  match nodeAt (topNode p) n with
  | Some node => f node
  | None => false
  end.

Definition IsTnef (p : EmailParser) (n : nodeRef) (headerName : bytes)
  : bool * EmailParser :=
  let p1 := classifyNodes p in
  (nodeBool isTnef p1 n, p1).

(** [strings.SplitN(s, "/", 2)] and [subType]. *)
Definition subTypeOf (contentType : bytes) : bytes :=
  let idx := Index contentType (B "/") in
  if idx <? 0 then [] else after contentType (idx + 1).

(** The walk up the [Parent] pointers. *)
Fixpoint alternativeKeyOf (fuel : nat) (root : MIMENode) (parent : option nodeRef) : bytes :=
  match fuel with
  | O => []
  | S fuel' =>
    match parent with
    | None => []
    | Some q =>
      match nodeAt root q with
      | Some pn =>
        if bytes_eqb (ContentType pn) (B "MULTIPART/ALTERNATIVE")
        then B "^_^" ++ Itoa (HeaderStart pn)
        else alternativeKeyOf fuel' root (Parent q)
      | None => []
      end
    end
  end.

Record alternativeSet := mkAlternativeSet {
  as_HTML : option nodeRef;
  as_PLAIN : option nodeRef
}.

(** The first loop of [classifyAlternativeShowNodes]. *)
Fixpoint groupTextNodes (root : MIMENode) (nodes : list nodeRef)
    (tmpShowVector : list nodeRef) (tmpShowSet : gmap bytes alternativeSet)
  : list nodeRef * gmap bytes alternativeSet :=
  match nodes with
  | [] => (tmpShowVector, tmpShowSet)
  | node :: nodes' =>
    let contentType := default [] (ContentType <$> nodeAt root node) in
    let subType := subTypeOf contentType in
    if negb (bytes_eqb subType (B "HTML")) && negb (bytes_eqb subType (B "PLAIN")) then
      groupTextNodes root nodes' (tmpShowVector ++ [node]) tmpShowSet
    else
      let alternativeKey := alternativeKeyOf (S (length node)) root (Parent node) in
      if bytes_eqb alternativeKey [] then
        groupTextNodes root nodes' (tmpShowVector ++ [node]) tmpShowSet
      else
        let ns := default (mkAlternativeSet None None) (tmpShowSet !! alternativeKey) in
        let ns' :=
          if bytes_eqb subType (B "HTML") then mkAlternativeSet (Some node) (as_PLAIN ns)
          else if bytes_eqb subType (B "PLAIN") then mkAlternativeSet (as_HTML ns) (Some node)
          else ns in
        groupTextNodes root nodes' tmpShowVector (<[alternativeKey := ns']> tmpShowSet)
  end.

(** The second loop: one node per group, HTML before plain. *)
Definition pickShown (kv : bytes * alternativeSet) : list nodeRef :=
  if negb (HasPrefix (fst kv) (B "^_^")) then []
  else
    match as_HTML (snd kv), as_PLAIN (snd kv) with
    | Some h, _ => [h]
    | None, Some pl => [pl]
    | None, None => []
    end.

Definition headerStartOf (root : MIMENode) (n : nodeRef) : Z :=
  default 0 (HeaderStart <$> nodeAt root n).

(** [sort.Slice] by [HeaderStart], as an insertion sort.  Go leaves the
    order of a range over a map and of equal keys in [sort.Slice]
    open; here groups are visited in key order and equal keys keep
    their order. *)
Fixpoint insertByStart (root : MIMENode) (n : nodeRef) (l : list nodeRef) : list nodeRef :=
  match l with
  | [] => [n]
  | m :: l' =>
    if headerStartOf root n <? headerStartOf root m then n :: l
    else m :: insertByStart root n l'
  end.

Definition sortByStart (root : MIMENode) (l : list nodeRef) : list nodeRef :=
  fold_left (fun acc n => insertByStart root n acc) l [].

Definition classifyAlternativeShowNodes (p : EmailParser) : EmailParser :=
  if alternativeShowNodesDealed p then p
  else
    let p1 := classifyNodes (set_alternativeShowNodesDealed true p) in
    let '(tmpShowVector, tmpShowSet) :=
      groupTextNodes (topNode p1) (textNodes p1) [] ∅ in
    let shown := tmpShowVector ++ concat (List.map pickShown (map_to_list tmpShowSet)) in
    set_alternativeShowNodes (sortByStart (topNode p1) shown) p1.

Definition GetTextNodes (p : EmailParser) : list nodeRef * EmailParser :=
  if nodeClassified p then (textNodes p, p)
  else let p1 := classifyNodes p in (textNodes p1, p1).

Definition GetAttachmentNodes (p : EmailParser) : list nodeRef * EmailParser :=
  if nodeClassified p then (attachmentNodes p, p)
  else let p1 := classifyNodes p in (attachmentNodes p1, p1).

Definition GetAlternativeShowNodes (p : EmailParser) : list nodeRef * EmailParser :=
  if alternativeShowNodesDealed p then (alternativeShowNodes p, p)
  else let p1 := classifyAlternativeShowNodes p in (alternativeShowNodes p1, p1).

(** [GetDecodedContent]; the body window is in range for every node
    that [parseMime] builds. *)
Definition GetDecodedContent (p : EmailParser) (node : MIMENode) : bytes :=
  let body := sub (EmailData p) (BodyStart node) (BodyLen node) in
  if bytes_eqb (Encoding node) (B "BASE64") then
    let '(decodedData, err) := base64_DecodeString body in
    if err then [] else decodedData
  else if bytes_eqb (Encoding node) (B "QUOTED-PRINTABLE") then DecodeMimeBody body
  else body.

Definition GetDecodedTextContent (p : EmailParser) (node : MIMENode) : bytes :=
  ConvertToUTF8 (GetDecodedContent p node) (Charset node) (DefaultCharset p).

Definition contentIDOf (p : EmailParser) (n : nodeRef) : bytes :=
  default [] (ContentID <$> nodeAt (topNode p) n).

Definition classifyInlineAttachmentNodes (p : EmailParser) : EmailParser :=
  if inlineAttachmentNodesDealed p then p
  else
    let p1 := classifyAlternativeShowNodes
                (classifyNodes (set_inlineAttachmentNodesDealed true p)) in
    let hasContentId :=
      existsb (fun m => negb (bytes_eqb (contentIDOf p1 m) [])) (attachmentNodes p1) in
    if negb hasContentId then p1
    else
      let con :=
        ToLower (concat (List.map
                   (fun n => match nodeAt (topNode p1) n with
                             | Some node => GetDecodedContent p1 node ++ [LF]
                             | None => [LF]
                             end)
                   (alternativeShowNodes p1))) in
      fold_left
        (fun q m =>
           let cid0 := contentIDOf q m in
           if bytes_eqb cid0 [] then q
           else if Contains con (B "cid:" ++ ToLower cid0)
                then set_topNode (updateAt m set_isInline (topNode q)) q
                else q)
        (attachmentNodes p1) p1.

Definition IsInlineAttachment (p : EmailParser) (n : nodeRef) : bool * EmailParser :=
  let p1 := classifyInlineAttachmentNodes p in
  (nodeBool isInline p1 n, p1).

End Parser.

(** ** Running the parser on concrete messages

    The examples below are ASCII messages: on them the parser never
    consults the Unicode tables, and no transcoding or quoted-printable
    decoding changes the bytes, so the collaborators are taken to be the
    identity. *)
Definition plain : Collaborators :=
  {| unicode_ToUpper := id;
     unicode_ToLower := id;
     ConvertToUTF8 := fun data _ _ => data;
     DecodeMimeHeader := id;
     DecodeMimeBody := id;
     mail_ParseDate := fun _ => None |}.

(** Two delimiter lines of the same boundary, one right after the other. *)
Definition adjacentDelimiters : bytes :=
  lines ["Content-Type: multipart/mixed; boundary=b"; ""; "--b"; "--b"].

(** A delimiter line of the message's own boundary among its headers. *)
Definition delimiterInHeader : bytes :=
  lines ["--b";
         "Content-Type: multipart/mixed; boundary=b"; "";
         "--b";
         "xx";
         "--b--"].

(** A multipart/alternative part inside a multipart/mixed message. *)
Definition nestedMessage : bytes :=
  lines ["Content-Type: multipart/mixed; boundary=A"; "";
         "--A";
         "Content-Type: multipart/alternative; boundary=B"; "";
         "--B";
         "Content-Type: text/plain"; "";
         "hello";
         "--B";
         "Content-Type: text/html"; "";
         "<b>hello</b>";
         "--B--";
         "--A";
         "Content-Type: application/ms-tnef"; "";
         "xx";
         "--A--"].

(** An inner part whose own text stops two bytes after its only
    delimiter, in a message that goes on. *)
Definition shortTail : bytes :=
  lines ["Content-Type: multipart/mixed; boundary=A"; "";
         "--A";
         "Content-Type: multipart/alternative; boundary=B"; "";
         "--B";
         "hi";
         "--X";
         "--A";
         "Content-Type: text/plain"; "";
         "some more text here";
         "--A--"].

(** A multipart/alternative message with a plain and an HTML part. *)
Definition alternativeMessage : bytes :=
  lines ["Content-Type: multipart/alternative; boundary=b"; "";
         "--b";
         "Content-Type: text/plain"; "";
         "hello";
         "--b";
         "Content-Type: text/html"; "";
         "<b>hello</b>";
         "--b--"].

(** A header value in which the parameter [a] occurs twice. *)
Definition twiceA : bytes := B "text/plain; a=1; b=2; A=3".

(** A header line whose value has white space on both sides. *)
Definition paddedLine : bytes := B "A: b ".

(** Two encoded-words, separated by one space and by nothing. *)
Definition twoWordsSpaced : bytes := B "=?UTF-8?B?AB?= =?UTF-8?B?CD?=".
Definition twoWordsAdjacent : bytes := B "=?UTF-8?B?AB?==?UTF-8?B?CD?=".

(** An HTML part that refers to the image beside it by its content id. *)
Definition inlineMessage : bytes :=
  lines ["Content-Type: multipart/related; boundary=b"; "";
         "--b";
         "Content-Type: text/html"; "";
         "<img src=cid:pic1>";
         "--b";
         "Content-Type: image/png";
         "Content-ID: <pic1>"; "";
         "PNG";
         "--b--"].

(** A message with a References header. *)
Definition referencesMessage : bytes :=
  lines ["References: <a@x> <b@y>,<c@z>"; "Subject: s"; ""; "body"].

(** A message with a folded header line. *)
Definition foldedMessage : bytes :=
  lines ["Subject: a"; " folded line"; ""; "body"].

(** * Properties *)

Section Properties.
Context {ext : Collaborators}.

(** ** Predicates used in the statements and invariants *)

(** A window [InBuf a n] lies inside the buffer. *)
Definition validView (buf : bytes) (s : gslice) : Prop :=
  match s with
  | InBuf a n => 0 <= a /\ 0 <= n /\ a + n <= len buf
  | Own _ => True
  end.

(** A logical line that is a window of the buffer ends at or before the
    start of the text not yet read. *)
Definition logicOK (d : Z) (l : gslice) : Prop :=
  match l with
  | InBuf a m => 0 <= a /\ 0 <= m /\ a + m <= d
  | Own _ => True
  end.

(** The state of the header scan of [parseMimeSelf] over a buffer of
    length [L] whose header region ends at [e]. *)
Definition scanOK (L e : Z) (st : headerScan) : Prop :=
  len (hs_buf st) = L /\ 0 <= hs_data st /\ hs_data st <= e
  /\ logicOK (hs_data st) (hs_logicLine st).

(** Every entry spans at least the two dashes and the newline, starts
    at or after [lo] and at or after the end of the entry before it,
    and ends at or before [hi]. *)
Fixpoint bsOK (lo hi : Z) (bs : list boundaryPos) : Prop :=
  match bs with
  | [] => True
  | b :: bs' =>
    lo <= bp_Start b /\ bp_Start b + 3 <= bp_End b /\ bp_End b <= hi
    /\ bsOK (bp_End b) hi bs'
  end.

(** The end of a part: [BodyStart + BodyLen]; the part occupies
    [HeaderStart, nodeEnd). *)
Definition nodeEnd (n : MIMENode) : Z := BodyStart n + BodyLen n.

(** The children [cs] of a node whose interval is [lo, hi), in a buffer
    of length [L]: each child starts after [lo] and not after [hi], and
    ends inside the buffer; each child but the last ends before [hi];
    a child ends before the next one starts. *)
Definition kidsOK (L lo hi : Z) (cs : list MIMENode) : Prop :=
  (forall (i : nat) c, cs !! i = Some c ->
     lo < HeaderStart c /\ HeaderStart c <= hi /\ nodeEnd c <= L
     /\ ((S i < length cs)%nat -> nodeEnd c < hi))
  /\ (forall (i j : nat) ci cj, (i < j)%nat -> cs !! i = Some ci -> cs !! j = Some cj ->
        nodeEnd ci < HeaderStart cj).

(** A well-placed tree in a buffer of length [L]: every node keeps its
    offsets in order and inside the buffer, and its children satisfy
    [kidsOK]. *)
Inductive treeOK (L : Z) : MIMENode -> Prop :=
| treeOK_node (n : MIMENode) :
    0 <= HeaderStart n -> HeaderStart n <= BodyStart n -> 0 <= BodyLen n ->
    nodeEnd n <= L ->
    Forall (treeOK L) (Childs n) ->
    kidsOK L (HeaderStart n) (nodeEnd n) (Childs n) ->
    treeOK L n.

(** The children built from pairs of delimiters: in order, each one
    strictly between [lo] and [hi]. *)
Fixpoint chain (lo hi : Z) (cs : list MIMENode) : Prop :=
  match cs with
  | [] => True
  | c :: cs' =>
    lo < HeaderStart c /\ HeaderStart c <= nodeEnd c /\ nodeEnd c < hi
    /\ chain (nodeEnd c) hi cs'
  end.

(** What a recursive call of [parseMime] delivers, given a window of
    the buffer that starts at or after [off] and a boundary list inside
    [off, off + n]. *)
Definition recOK (L : Z)
    (rec : bytes -> Z -> Z -> Z -> list boundaryPos -> result (MIMENode * bytes))
  : Prop :=
  forall buf off s n nb node buf',
    len buf = L -> 0 <= off -> off <= s -> 0 <= n -> s + n <= L ->
    bsOK off (off + n) nb ->
    rec buf off s n nb = Ok (node, buf') ->
    treeOK L node /\ HeaderStart node = off /\ nodeEnd node = off + n
    /\ len buf' = L.

(** The state of the loop of [parseMime]: no delimiter matched yet and
    no child, or the children so far end before the end of the last
    matched delimiter. *)
Definition loopOK (lo : Z) (bs : list boundaryPos) (lastId : Z)
    (childs : list MIMENode) : Prop :=
  (lastId = -1 /\ childs = [])
  \/ (exists so, 0 <= lastId /\ bs !! Z.to_nat lastId = Some so
                 /\ chain lo (bp_End so) childs).

(** The value of the first pair of [l] whose key is [k]. *)
Definition firstValue (k : bytes) (l : list (bytes * bytes)) : option bytes :=
  snd <$> List.find (fun kv => bytes_eqb (fst kv) k) l.

(** The walk over the children of a multipart node. *)
Fixpoint walkChilds (ref : nodeRef) (cs : list MIMENode) (i : nat)
    (acc : list nodeRef * list nodeRef) {struct cs}
  : list MIMENode * (list nodeRef * list nodeRef) :=
  match cs with
  | [] => ([], acc)
  | child :: cs' =>
    let '(child', acc1) := walkAllNode child (ref ++ [i]) acc in
    let '(cs'', acc2) := walkChilds ref cs' (S i) acc1 in
    (child' :: cs'', acc2)
  end.

(** The two content types that [walkAllNode] files as text. *)
Definition isShownText (c : MIMENode) : Prop :=
  ContentType c = B "TEXT/PLAIN" \/ ContentType c = B "TEXT/HTML".

(** The key under which [classifyAlternativeShowNodes] groups the text
    parts of the alternative container [top]. *)
Definition alternativeKey (top : MIMENode) : bytes :=
  B "^_^" ++ Itoa (HeaderStart top).

(** An accessor guarded by [flag]: a call leaves the flag set, and a
    call in the state it leaves returns the same value and that state. *)
Definition memoisedBy {A} (flag : EmailParser -> bool)
    (get : EmailParser -> A * EmailParser) : Prop :=
  forall p, flag (snd (get p)) = true /\ get (snd (get p)) = get p.

(** A list of node pointers in ascending order of [HeaderStart]. *)
Definition ascending (root : MIMENode) (l : list nodeRef) : Prop :=
  forall (i j : nat) a b, (i < j)%nat -> l !! i = Some a -> l !! j = Some b ->
    headerStartOf root a <= headerStartOf root b.

(** The subtype and the group of a text node in
    [classifyAlternativeShowNodes]: the group is the key of the nearest
    multipart/alternative ancestor when the subtype is HTML or PLAIN
    and there is such an ancestor, and the empty key otherwise. *)
Definition subTypeAt (root : MIMENode) (node : nodeRef) : bytes :=
  subTypeOf (default [] (ContentType <$> nodeAt root node)).

Definition groupKey (root : MIMENode) (node : nodeRef) : bytes :=
  if negb (bytes_eqb (subTypeAt root node) (B "HTML"))
     && negb (bytes_eqb (subTypeAt root node) (B "PLAIN"))
  then []
  else alternativeKeyOf (S (length node)) root (Parent node).

(** What [groupTextNodes] has built once it has read the nodes [done]. *)
Definition groupsOK (root : MIMENode) (done vec : list nodeRef)
    (set : gmap bytes alternativeSet) : Prop :=
  (forall r, r ∈ vec <-> r ∈ done /\ groupKey root r = [])
  /\ (forall k s, set !! k = Some s ->
        k <> []
        /\ (forall r, as_HTML s = Some r ->
              r ∈ done /\ groupKey root r = k /\ subTypeAt root r = B "HTML")
        /\ (forall r, as_PLAIN s = Some r ->
              r ∈ done /\ groupKey root r = k /\ subTypeAt root r = B "PLAIN"))
  /\ (forall r, r ∈ done -> groupKey root r <> [] ->
        exists s, set !! groupKey root r = Some s
                  /\ (subTypeAt root r = B "HTML" -> is_Some (as_HTML s))
                  /\ (subTypeAt root r = B "PLAIN" -> is_Some (as_PLAIN s))).

(** What [parseMime] establishes at every node it builds: the two
    classification bits are unset, the content type is neither empty
    nor the bare TEXT, and only a multipart node with a boundary has
    children. *)
Definition parsedNode (n : MIMENode) : Prop :=
  isTnef n = false /\ isInline n = false
  /\ ContentType n <> [] /\ ContentType n <> B "TEXT"
  /\ (Childs n <> [] ->
      HasPrefix (ContentType n) (B "MULTIPART/") = true /\ Boundary n <> []).

(** [Q] holds of a node and of every node below it. *)
Inductive allNodes (Q : MIMENode -> Prop) : MIMENode -> Prop :=
| allNodes_node (n : MIMENode) :
    Q n -> Forall (allNodes Q) (Childs n) -> allNodes Q n.

(** The three ways in which [walkAllNode] treats a node: it descends
    into a multipart node, and files any other node as text or as an
    attachment. *)
Definition isContainer (n : MIMENode) : bool :=
  bytes_eqb (mainTypeOf (ContentType n)) (B "MULTIPART").

Definition isTextNode (n : MIMENode) : bool :=
  let typeStr := ContentType n in
  negb (isContainer n)
  && ((bytes_eqb (mainTypeOf typeStr) (B "MESSAGE")
       && (Contains typeStr (B "DELIVERY") || Contains typeStr (B "NOTIFICATION")))
      || (bytes_eqb (mainTypeOf typeStr) (B "TEXT")
          && (Contains typeStr (B "/PLAIN") || Contains typeStr (B "/HTML")))).

(** The node that [walkAllNode] leaves in place of [n]. *)
Definition marked (n : MIMENode) : MIMENode := fst (walkAllNode n [] ([], [])).

(** Only containers have children. *)
Definition kidsInContainer (n : MIMENode) : Prop :=
  Childs n <> [] -> isContainer n = true.

(** A delimiter line starts at offset [s] of [raw]: [s] begins a line,
    the line begins with two dashes, and a newline ends it. *)
Definition lineStartAt (raw : bytes) (s : Z) : Prop :=
  s = 0 \/ byteAt raw (s - 1) = LF.

Definition delimiterLineAt (raw : bytes) (s : Z) : Prop :=
  0 <= s /\ lineStartAt raw s
  /\ HasPrefix (after raw s) (B "--") = true
  /\ 0 <= Index (after raw (s + 2)) [LF].

(** What the scanner records for the delimiter line at [bp_Start b]:
    the offset just after the newline that ends the line, and the text
    between the two dashes and that newline, trimmed. *)
Definition entryOK (raw : bytes) (b : boundaryPos) : Prop :=
  delimiterLineAt raw (bp_Start b)
  /\ bp_End b = bp_Start b + 2 + Index (after raw (bp_Start b + 2)) [LF] + 1
  /\ bp_Boundary b
     = TrimSpace (sub raw (bp_Start b + 2) (bp_End b - 1 - (bp_Start b + 2))).

(** Plain tokens of a header value: a name is made of ASCII bytes other
    than white space, the equals sign, the semicolon and the double
    quote; a value may hold equals signs as well. *)
Definition nameByte (c : ascii) : bool :=
  (bval c <? 128) && negb (isNameEnd c) && negb (beq c DQUOTE).

Definition valueByte (c : ascii) : bool :=
  (bval c <? 128) && negb (isValueEnd c) && negb (beq c DQUOTE).

Definition nameToken (s : bytes) : Prop := s <> [] /\ forallb nameByte s = true.

Definition valueToken (s : bytes) : Prop := s <> [] /\ forallb valueByte s = true.

(** The text of a list of parameters, each one written as
    [; name=value], without the separator that leads it. *)
Definition paramsBody (ps : list (bytes * bytes)) : bytes :=
  match ps with
  | [] => []
  | p :: ps' =>
    fst p ++ B "=" ++ snd p
    ++ concat (List.map (fun p => B "; " ++ fst p ++ B "=" ++ snd p) ps')
  end.

(** An encoded-word with charset [cs], encoding letter [e] and payload
    [payload], as it is written in a header. *)
Definition encodedWord (cs : bytes) (e : ascii) (payload : bytes) : bytes :=
  B "=?" ++ cs ++ B "?" ++ [e] ++ B "?" ++ payload ++ B "?=".

(** The percent-encoding of a byte: a percent sign and the two
    hexadecimal digits of its value. *)
Definition hexChar (v : Z) : ascii :=
  nth (Z.to_nat v) (B "0123456789ABCDEF") "0"%char.

Definition percentByte (c : ascii) : bytes :=
  ["%"%char; hexChar (bval c / 16); hexChar (bval c mod 16)].

(** A mailbox as an address header writes it: a name and an address in
    angle brackets, the name plain or in quotes, or an address alone. *)
Inductive mailbox :=
| Named (name addr : bytes)
| Quoted (name addr : bytes)
| Bare (addr : bytes).

Definition escapeQuoted (x : bytes) : bytes :=
  flat_map (fun c => if beq c DQUOTE || beq c BACKSLASH then [BACKSLASH; c] else [c]) x.

Definition written (m : mailbox) : bytes :=
  match m with
  | Named n a => n ++ B "<" ++ a ++ B ">"
  | Quoted q a => DQUOTE :: escapeQuoted q ++ DQUOTE :: B "<" ++ a ++ B ">"
  | Bare a => a
  end.

(** The mailboxes of a header, separated by a comma and a space. *)
Definition addressLine (ms : list mailbox) : bytes :=
  match ms with
  | [] => []
  | m :: ms' => written m ++ concat (List.map (fun m' => B ", " ++ written m') ms')
  end.

Definition plainByte (c : ascii) : bool :=
  negb (inSet [DQUOTE; ","%char; ";"%char; "<"%char] c).

Definition addrByte (c : ascii) : bool :=
  negb (inSet ["<"%char; ">"%char; ","%char; ";"%char] c).

Definition noLeadingBlank (s : bytes) : Prop :=
  match s with
  | [] => True
  | c :: _ => inSet [SP; HT] c = false
  end.

(** A plain name has no quote, separator or angle bracket and does not
    start with a blank; an address in brackets has no bracket or
    separator; a bare address is a plain name with an at sign. *)
Definition wellWritten (m : mailbox) : Prop :=
  match m with
  | Named n a => forallb plainByte n = true /\ noLeadingBlank n /\ forallb addrByte a = true
  | Quoted q a => forallb addrByte a = true
  | Bare a =>
    a <> [] /\ forallb plainByte a = true /\ noLeadingBlank a /\ Contains a (B "@") = true
  end.

Definition nameAndAddress (m : mailbox) : bytes * bytes :=
  match m with
  | Named n a => (n, TrimSpace a)
  | Quoted q a => (q, TrimSpace a)
  | Bare a => ([], TrimSpace a)
  end.

(** An entry without a name and without an address is not kept. *)
Definition notBlank (na : bytes * bytes) : bool :=
  negb (bytes_eqb (snd na) []) || (0 <? len (fst na)).

(** No entry starts where the entry before it ends: no delimiter line
    follows another one directly. *)
Fixpoint spaced (bs : list boundaryPos) : Prop :=
  match bs with
  | [] => True
  | b :: bs' =>
    match bs' with
    | [] => True
    | c :: _ => bp_End b < bp_Start c
    end /\ spaced bs'
  end.

(** A recursive call of [parseMime] does not panic on a window inside
    the buffer with a boundary list inside the window that is [spaced]. *)
Definition recSafe (L : Z)
    (rec : bytes -> Z -> Z -> Z -> list boundaryPos -> result (MIMENode * bytes))
  : Prop :=
  forall buf off s n nb,
    len buf = L -> 0 <= off -> off <= s -> 0 <= n -> s + n <= L ->
    bsOK off (off + n) nb -> spaced nb ->
    rec buf off s n nb <> Panic.

(** The bytes of [buf] before [s] and from [d] on are those of [b0]. *)
Definition sameOutside (b0 buf : bytes) (s d : Z) : Prop :=
  upto buf s = upto b0 s /\ after buf d = after b0 d.

(** A logical line that is a window of the buffer starts at or after [s]. *)
Definition logicFrom (s : Z) (l : gslice) : Prop :=
  match l with
  | InBuf a _ => s <= a
  | Own _ => True
  end.

(** A header line, without its newline: it has no newline inside and is
    neither empty nor a lone carriage return. *)
Definition headerLine (c : bytes) : Prop := (LF ∉ c) /\ c <> [] /\ c <> [CR].

(** The line that ends the header. *)
Definition blankLine (sep : bytes) : Prop := sep = [LF] \/ sep = [CR; LF].

Definition headerBlock (hs : list bytes) : bytes :=
  concat (List.map (fun c => c ++ [LF]) hs).

(** The text and attachment pointers that the walk of [n], reached by
    the pointer [ref], appends: one for every node below [n] that is not
    a container, in the list that its type selects, and each one once. *)
Definition walked (n : MIMENode) (ref : nodeRef) (t' a' : list nodeRef) : Prop :=
  NoDup (t' ++ a')
  /\ (forall r, r ∈ t' <->
        exists q m, r = ref ++ q /\ nodeAt n q = Some m
                    /\ isContainer m = false /\ isTextNode m = true)
  /\ (forall r, r ∈ a' <->
        exists q m, r = ref ++ q /\ nodeAt n q = Some m
                    /\ isContainer m = false /\ isTextNode m = false).

(** The addresses read from [bf], after those in [mas]. *)
Definition readFrom (bf : bytes) (mas : list MimeAddress) : list MimeAddress :=
  ParseMimeAddress_loop (length bf) bf mas.

(** What is left to do: twice the bytes left, and one more turn when
    the search has not yet been moved past an invalid marker. *)
Definition tokenMeasure (bfBegin : bytes) (magicOffset : Z) : nat :=
  (2 * length bfBegin + (if (magicOffset =? 0)%Z then 1 else 0))%nat.

(** ** Lists, offsets and searches *)

Lemma beq_eq (a b : ascii) : beq a b = true <-> a = b.
Proof. apply Ascii.eqb_eq. Qed.

Lemma beq_refl (a : ascii) : beq a a = true.
Proof. apply Ascii.eqb_refl. Qed.

Lemma beq_neq (a b : ascii) : beq a b = false <-> a <> b.
Proof. apply Ascii.eqb_neq. Qed.

Lemma bytes_eqb_eq (a b : bytes) : bytes_eqb a b = true <-> a = b.
Proof.
  revert b. induction a as [|x a IH]; intros [|y b]; cbn; try (split; congruence).
  rewrite andb_true_iff, beq_eq, IH. split; [intros [-> ->] | intros [= -> ->]]; auto.
Qed.

Lemma bytes_eqb_refl (a : bytes) : bytes_eqb a a = true.
Proof. apply bytes_eqb_eq. reflexivity. Qed.

Lemma len_app {A} (l1 l2 : list A) : len (l1 ++ l2) = len l1 + len l2.
Proof. unfold len. rewrite length_app. lia. Qed.

Lemma len_nonneg {A} (l : list A) : 0 <= len l.
Proof. unfold len. lia. Qed.

Lemma len_cons {A} (x : A) (l : list A) : len (x :: l) = 1 + len l.
Proof. unfold len. cbn [length]. lia. Qed.

Lemma upto_app_len {A} (l1 l2 : list A) : upto (l1 ++ l2) (len l1) = l1.
Proof.
  unfold upto, len. rewrite Nat2Z.id. rewrite take_app_length. reflexivity.
Qed.

Lemma after_app_len {A} (l1 l2 : list A) : after (l1 ++ l2) (len l1) = l2.
Proof.
  unfold after, len. rewrite Nat2Z.id. rewrite drop_app_length. reflexivity.
Qed.

Lemma HasPrefix_app (p r : bytes) : HasPrefix (p ++ r) p = true.
Proof. induction p as [|x p IH]; cbn; [reflexivity|]. now rewrite beq_refl. Qed.

Lemma HasPrefix_inv (s p : bytes) : HasPrefix s p = true -> exists r, s = p ++ r.
Proof.
  revert s. induction p as [|x p IH]; intros s H.
  - exists s. reflexivity.
  - destruct s as [|c s]; cbn in H; [discriminate|].
    apply andb_true_iff in H as [H1 H2]. apply beq_eq in H1 as ->.
    destruct (IH _ H2) as [r ->]. exists r. reflexivity.
Qed.

(** [Index] finds a byte that does not occur earlier. *)
Lemma Index_from_first (pre post : bytes) (c : ascii) (i : Z) :
  c ∉ pre -> Index_from (pre ++ c :: post) [c] i = i + len pre.
Proof.
  revert i. induction pre as [|x pre IH]; intros i Hn.
  - cbn. rewrite beq_refl. cbn. unfold len. cbn. lia.
  - cbn [app Index_from HasPrefix].
    assert (beq c x = false) as ->.
    { apply beq_neq. intros ->. apply Hn. left. }
    cbn. rewrite IH.
    + rewrite len_cons. lia.
    + intros H. apply Hn. now right.
Qed.

Lemma Index_first (pre post : bytes) (c : ascii) :
  c ∉ pre -> Index (pre ++ c :: post) [c] = len pre.
Proof. intros H. unfold Index. rewrite Index_from_first by assumption. lia. Qed.

(** The result of [Index] is -1 or an offset in the text. *)
Lemma Index_from_range (s sep : bytes) (i : Z) :
  Index_from s sep i = -1 \/ (i <= Index_from s sep i <= i + len s).
Proof.
  revert i. induction s as [|x s IH]; intros i; cbn [Index_from].
  - destruct (HasPrefix [] sep); [right; unfold len; cbn; lia | left; reflexivity].
  - destruct (HasPrefix (x :: s) sep).
    + right. pose proof (len_nonneg (x :: s)). lia.
    + destruct (IH (i + 1)) as [H | H]; [left; exact H | right].
      rewrite len_cons. lia.
Qed.

(** ** The trims return sub-slices *)

Lemma trimRunes_drop (fuel : nat) (w : bytes -> nat) (s : bytes) :
  exists k, (k <= length s)%nat /\ trimRunes fuel w s = drop k s.
Proof.
  revert s. induction fuel as [|fuel IH]; intros s; cbn [trimRunes].
  - exists 0%nat. split; [lia | reflexivity].
  - destruct (w s) as [|k'] eqn:E.
    + exists 0%nat. split; [lia | reflexivity].
    + destruct (IH (drop (S k') s)) as (k & Hk & ->).
      rewrite length_drop in Hk. rewrite drop_drop.
      destruct (decide (S k' + k <= length s)%nat).
      * exists (S k' + k)%nat. split; [lia | reflexivity].
      * exists (length s). split; [lia |].
        rewrite !drop_ge by lia. reflexivity.
Qed.

Lemma TrimLeftSpace_drop (s : bytes) :
  exists k, (k <= length s)%nat /\ TrimLeftSpace s = drop k s.
Proof. apply trimRunes_drop. Qed.

Lemma TrimRightSpace_take (s : bytes) :
  exists k, (k <= length s)%nat /\ TrimRightSpace s = take k s.
Proof.
  unfold TrimRightSpace, TrimLeftFunc.
  destruct (trimRunes_drop (length (rev s)) spaceRuneLast (rev s)) as (k & Hk & ->).
  rewrite length_rev in Hk.
  exists (length s - k)%nat. split; [lia|].
  rewrite skipn_rev, rev_involutive. reflexivity.
Qed.

Lemma dropWhile_drop (f : ascii -> bool) (s : bytes) :
  exists k, (k <= length s)%nat /\ dropWhile f s = drop k s.
Proof.
  induction s as [|c s IH]; cbn.
  - exists 0%nat. split; [lia | reflexivity].
  - destruct (f c).
    + destruct IH as (k & Hk & ->). exists (S k). split; [lia | reflexivity].
    + exists 0%nat. split; [lia | reflexivity].
Qed.

(** ** Windows of the buffer *)

Lemma glen_deref (buf : bytes) (s : gslice) :
  validView buf s -> len (deref buf s) = glen s.
Proof.
  destruct s as [a n | b]; cbn; [|reflexivity].
  intros (Ha & Hn & Hl). unfold sub, len in *.
  rewrite length_take, length_drop. lia.
Qed.

Lemma sub_sub {A} (l : list A) (a n x m : Z) :
  0 <= a -> 0 <= x -> 0 <= m -> x + m <= n ->
  sub (sub l a n) x m = sub l (a + x) m.
Proof.
  intros Ha Hx Hm Hn. unfold sub.
  rewrite skipn_firstn_comm, take_take, drop_drop.
  rewrite Nat.min_l by lia.
  f_equal. f_equal. lia.
Qed.

Lemma deref_subview (buf : bytes) (s : gslice) (x y : Z) :
  validView buf s -> 0 <= x -> x <= y -> y <= glen s ->
  deref buf (subview s x y) = sub (deref buf s) x (y - x).
Proof.
  destruct s as [a n | b]; cbn; [|reflexivity].
  intros (Ha & Hn & Hl) Hx Hxy Hy.
  symmetry. apply sub_sub; lia.
Qed.

Lemma sub_drop_take {A} (l : list A) (k m : nat) :
  take m (drop k l) = sub l (Z.of_nat k) (Z.of_nat m).
Proof. unfold sub. now rewrite !Nat2Z.id. Qed.

(** [bytes.TrimSpace] on a window denotes [TrimSpace] of its bytes. *)
Lemma deref_TrimSpaceView (buf : bytes) (s : gslice) :
  validView buf s ->
  deref buf (TrimSpaceView buf s) = TrimSpace (deref buf s).
Proof.
  intros Hv. unfold TrimSpaceView.
  pose proof (glen_deref buf s Hv) as Hg.
  set (c := deref buf s) in *.
  unfold TrimSpace.
  destruct (TrimLeftSpace_drop c) as (k & Hk & Ek). rewrite Ek.
  destruct (TrimRightSpace_take (drop k c)) as (m & Hm & Em). rewrite Em.
  rewrite length_drop in Hm.
  assert (len c - len (drop k c) = Z.of_nat k) as ->.
  { unfold len. rewrite length_drop. lia. }
  assert (len (take m (drop k c)) = Z.of_nat m) as ->.
  { unfold len. rewrite length_take, length_drop. lia. }
  rewrite deref_subview by (try assumption; unfold len in *; lia).
  fold c. rewrite sub_drop_take. f_equal. lia.
Qed.

(** A run of [trimRunes] with enough fuel stops at a text with no
    matching rune in front. *)
Lemma trimRunes_done (fuel : nat) (w : bytes -> nat) (s : bytes) :
  w [] = 0%nat -> (length s <= fuel)%nat -> w (trimRunes fuel w s) = 0%nat.
Proof.
  intros Hw. revert s. induction fuel as [|fuel IH]; intros s Hl; cbn [trimRunes].
  - destruct s; [exact Hw | cbn in Hl; lia].
  - destruct (w s) as [|k] eqn:E; [exact E|].
    apply IH. rewrite length_drop.
    destruct s; [congruence | cbn [length] in *; lia].
Qed.

Lemma spaceRune_take (m : nat) (l : bytes) :
  spaceRune l = 0%nat -> spaceRune (take m l) = 0%nat.
Proof.
  destruct l as [|c [|d [|e l]]]; destruct m as [|[|[|m]]]; cbn;
    repeat match goal with
           | |- context [if ?b then _ else _] => destruct b
           end; congruence.
Qed.

(** The result of [TrimSpace] has no white-space rune at either end. *)
Lemma TrimSpace_ends (s : bytes) :
  spaceRune (TrimSpace s) = 0%nat /\ spaceRuneLast (rev (TrimSpace s)) = 0%nat.
Proof.
  unfold TrimSpace. split.
  - destruct (TrimRightSpace_take (TrimLeftSpace s)) as (m & _ & ->).
    apply spaceRune_take. apply trimRunes_done; [reflexivity | lia].
  - unfold TrimRightSpace at 1. rewrite rev_involutive.
    apply trimRunes_done; [reflexivity | lia].
Qed.

(** ** The header scan keeps the buffer's length and stays in its window *)

Lemma HasPrefix_len (s sep : bytes) : HasPrefix s sep = true -> len sep <= len s.
Proof.
  intros H. destruct (HasPrefix_inv _ _ H) as [r ->]. rewrite len_app.
  pose proof (len_nonneg r). lia.
Qed.

Lemma Index_from_lt (s sep : bytes) (i : Z) :
  sep <> [] ->
  Index_from s sep i = -1 \/ (i <= Index_from s sep i < i + len s).
Proof.
  intros Hs. revert i. induction s as [|x s IH]; intros i; cbn [Index_from].
  - destruct (HasPrefix [] sep) eqn:E; [|left; reflexivity].
    apply HasPrefix_len in E. destruct sep; [congruence|].
    rewrite len_cons in E. pose proof (len_nonneg sep). unfold len in E. cbn in E. lia.
  - destruct (HasPrefix (x :: s) sep).
    + right. rewrite len_cons. pose proof (len_nonneg s). lia.
    + destruct (IH (i + 1)) as [H | H]; [left; exact H | right].
      rewrite len_cons. lia.
Qed.

Lemma Index_range (s sep : bytes) :
  sep <> [] -> Index s sep = -1 \/ (0 <= Index s sep < len s).
Proof. intros H. apply (Index_from_lt s sep 0 H). Qed.

Lemma len_sub {A} (l : list A) (a n : Z) :
  0 <= a -> 0 <= n -> a + n <= len l -> len (sub l a n) = n.
Proof.
  intros. unfold sub, len in *. rewrite length_take, length_drop. lia.
Qed.

Lemma len_upto {A} (l : list A) (n : Z) : 0 <= n -> n <= len l -> len (upto l n) = n.
Proof. intros. unfold upto, len in *. rewrite length_take. lia. Qed.

Lemma len_after {A} (l : list A) (n : Z) : 0 <= n -> n <= len l -> len (after l n) = len l - n.
Proof. intros. unfold after, len in *. rewrite length_drop. lia. Qed.

Lemma len_after_le {A} (l : list A) (n : Z) : len (after l n) <= len l.
Proof. unfold after, len. rewrite length_drop. lia. Qed.

Lemma writeAt_len (buf c : bytes) (pos : Z) :
  0 <= pos -> pos + len c <= len buf -> len (writeAt buf pos c) = len buf.
Proof.
  intros Hp Hl. unfold writeAt. pose proof (len_nonneg c).
  rewrite !len_app, len_upto, len_after by lia. lia.
Qed.

Lemma TrimRightBytes_len (s cutset : bytes) : len (TrimRightBytes s cutset) <= len s.
Proof.
  unfold TrimRightBytes.
  destruct (dropWhile_drop (inSet cutset) (rev s)) as (k & Hk & ->).
  unfold len. rewrite length_rev, length_drop, length_rev. lia.
Qed.

Lemma TrimLeftBytes_len (s cutset : bytes) : len (TrimLeftBytes s cutset) <= len s.
Proof.
  unfold TrimLeftBytes.
  destruct (dropWhile_drop (inSet cutset) s) as (k & Hk & ->).
  unfold len. rewrite length_drop. lia.
Qed.

Lemma logicOK_valid (buf : bytes) (d : Z) (l : gslice) :
  d <= len buf -> logicOK d l -> validView buf l.
Proof. destruct l; cbn; [lia | trivial]. Qed.

Lemma logicOK_trim (buf : bytes) (d : Z) (l : gslice) (cutset : bytes) :
  d <= len buf -> logicOK d l -> logicOK d (TrimRightBytesView buf l cutset).
Proof.
  intros Hd Hl. unfold TrimRightBytesView.
  pose proof (TrimRightBytes_len (deref buf l) cutset) as Ht.
  pose proof (len_nonneg (TrimRightBytes (deref buf l) cutset)).
  rewrite (glen_deref buf l (logicOK_valid buf d l Hd Hl)) in Ht.
  destruct l as [a m|b]; cbn in *; [lia | trivial].
Qed.

Lemma parseMimeSelf_step_inv (L e : Z) (st st' : headerScan) (again : bool) :
  e <= L -> scanOK L e st ->
  parseMimeSelf_step e st = (st', again) ->
  scanOK L e st' /\ hs_data st <= hs_data st'
  /\ (again = true -> hs_data st < hs_data st').
Proof.
  intros He (Hb & Hd & Hde & Hl). unfold parseMimeSelf_step.
  destruct st as [buf d logicLine header]. cbn [hs_buf hs_data hs_logicLine hs_Header] in *.
  destruct (0 <? e - d) eqn:E0.
  2:{ intros [= <- <-]. split; [repeat split; assumption|]. split; [cbn; lia | discriminate]. }
  apply Z.ltb_lt in E0.
  set (data := sub buf d (e - d)).
  assert (Hdata : len data = e - d) by (apply len_sub; lia).
  set (idx := Index data [LF]).
  set (n := if idx =? -1 then e - d else idx + 1).
  assert (Hn : 0 < n <= e - d).
  { subst n. destruct (Index_range data [LF]) as [Hi | Hi]; [discriminate | |];
      fold idx in Hi.
    - rewrite Hi. cbn. lia.
    - destruct (idx =? -1) eqn:Ei; [apply Z.eqb_eq in Ei; lia | lia]. }
  set (line := upto data n).
  assert (Hline : len line = n) by (apply len_upto; lia).
  set (step := if isCont line
               then let '(buf1, l1) := goAppend buf logicLine (after line 1) in
                    (buf1, l1, header)
               else (buf, InBuf d n,
                     if 0 <? glen logicLine
                     then emailParserAppendOneLine buf header logicLine
                     else header)).
  assert (Hstep : len (fst (fst step)) = len buf /\ logicOK (d + n) (snd (fst step))).
  { subst step. destruct (isCont line).
    - destruct logicLine as [a m | b]; cbn [goAppend fst snd].
      + cbn in Hl. split; [|cbn; rewrite len_after by lia; lia].
        apply writeAt_len; [lia|]. rewrite len_after by lia. lia.
      + split; [reflexivity | exact I].
    - cbn. split; [reflexivity | lia]. }
  destruct step as [[buf1 logic1] header1]. cbn [fst snd] in Hstep.
  destruct Hstep as [Hb1 Hl1].
  assert (Hl2 : logicOK (d + n) (TrimRightBytesView buf1 logic1 [CR; LF])).
  { apply logicOK_trim; [lia | exact Hl1]. }
  intros [= <- <-]. unfold scanOK. cbn [hs_buf hs_data hs_logicLine].
  split; [|split; [lia | intros _; lia]].
  split; [lia|]. split; [lia|]. split; [lia | exact Hl2].
Qed.

Lemma parseMimeSelf_loop_inv (fuel : nat) (L e : Z) (st : headerScan) :
  e <= L -> scanOK L e st ->
  scanOK L e (parseMimeSelf_loop fuel e st)
  /\ hs_data st <= hs_data (parseMimeSelf_loop fuel e st).
Proof.
  intros He. revert st. induction fuel as [|fuel IH]; intros st Hst;
    cbn [parseMimeSelf_loop].
  - split; [exact Hst | lia].
  - destruct (parseMimeSelf_step e st) as [st' again] eqn:E.
    destruct (parseMimeSelf_step_inv L e st st' again He Hst E) as (H1 & H2 & _).
    destruct again; [|split; assumption].
    destruct (IH st' H1) as [G1 G2]. split; [exact G1 | lia].
Qed.

(** More fuel than the length of the window is never used. *)
Lemma parseMimeSelf_loop_fuel (fuel : nat) (L e : Z) (st : headerScan) :
  e <= L -> scanOK L e st -> (Z.to_nat (e - hs_data st) <= fuel)%nat ->
  parseMimeSelf_loop (S fuel) e st = parseMimeSelf_loop fuel e st.
Proof.
  intros He. revert st. induction fuel as [|fuel IH]; intros st Hst Hf.
  - cbn [parseMimeSelf_loop].
    destruct (parseMimeSelf_step e st) as [st' again] eqn:E.
    destruct (parseMimeSelf_step_inv L e st st' again He Hst E) as (H1 & H2 & H3).
    destruct again.
    + destruct H1 as (_ & _ & G & _). specialize (H3 eq_refl). lia.
    + revert E. unfold parseMimeSelf_step.
      destruct (0 <? e - hs_data st) eqn:E0; [apply Z.ltb_lt in E0; lia|].
      intros [= <-]. reflexivity.
  - change (parseMimeSelf_loop (S (S fuel)) e st)
      with (let '(st', again) := parseMimeSelf_step e st in
            if again then parseMimeSelf_loop (S fuel) e st' else st').
    cbn [parseMimeSelf_loop].
    destruct (parseMimeSelf_step e st) as [st' again] eqn:E.
    destruct (parseMimeSelf_step_inv L e st st' again He Hst E) as (H1 & H2 & H3).
    destruct again; [|reflexivity].
    specialize (H3 eq_refl). apply IH; [exact H1 | lia].
Qed.

(** What [parseMimeSelf] fixes of the node whatever the headers say. *)
Lemma parseMimeSelf_shape (dc buf : bytes) (s n : Z) :
  0 <= s -> 0 <= n -> s + n <= len buf ->
  let node := fst (parseMimeSelf dc buf s n) in
  HeaderStart node = 0 /\ 0 <= BodyStart node <= n
  /\ BodyLen node = n - BodyStart node /\ Childs node = []
  /\ len (snd (parseMimeSelf dc buf s n)) = len buf.
Proof.
  intros Hs Hn Hl.
  destruct (parseMimeSelf_loop_inv (Z.to_nat n) (len buf) (s + n)
              (mkHeaderScan buf s (Own []) []) Hl) as ((H1 & _ & H2' & _) & H2'').
  { repeat split; cbn; lia. }
  cbn [hs_data] in H2''.
  assert (H2 : s <= hs_data (parseMimeSelf_loop (Z.to_nat n) (s + n)
                               (mkHeaderScan buf s (Own []) [])) <= s + n) by lia.
  unfold parseMimeSelf. cbv zeta. cbn [fst snd HeaderStart BodyStart BodyLen Childs].
  split; [reflexivity|]. split; [lia|]. split; [reflexivity|].
  split; [reflexivity | exact H1].
Qed.

(** ** The boundary list: ordered, and inside the buffer *)

Lemma bsOK_weaken (lo hi lo' hi' : Z) (bs : list boundaryPos) :
  bsOK lo hi bs -> lo' <= lo -> hi <= hi' -> bsOK lo' hi' bs.
Proof.
  revert lo lo'. induction bs as [|b bs IH]; cbn; [trivial|].
  intros lo lo' (H1 & H2 & H3 & H4) Hlo Hhi.
  repeat split; try lia. apply (IH (bp_End b)); [exact H4 | lia | exact Hhi].
Qed.

Lemma bsOK_snoc (lo m hi : Z) (bs : list boundaryPos) (b : boundaryPos) :
  bsOK lo m bs -> lo <= m -> m <= bp_Start b -> bp_Start b + 3 <= bp_End b ->
  bp_End b <= hi -> bsOK lo hi (bs ++ [b]).
Proof.
  revert lo. induction bs as [|x bs IH]; cbn; intros lo H Hlo Hm Hb Hhi.
  - repeat split; try lia.
  - destruct H as (H1 & H2 & H3 & H4). repeat split; try lia.
    apply IH; try assumption.
Qed.

Lemma bsOK_lookup (lo hi : Z) (bs : list boundaryPos) (i : nat) (b : boundaryPos) :
  bsOK lo hi bs -> bs !! i = Some b ->
  lo <= bp_Start b /\ bp_Start b + 3 <= bp_End b /\ bp_End b <= hi
  /\ bsOK (bp_End b) hi (drop (S i) bs).
Proof.
  revert lo i. induction bs as [|x bs IH]; intros lo i H Hi; [discriminate|].
  cbn in H. destruct H as (H1 & H2 & H3 & H4).
  destruct i as [|i]; cbn in Hi.
  - injection Hi as <-. cbn. repeat split; try lia. exact H4.
  - destruct (IH _ _ H4 Hi) as (G1 & G2 & G3 & G4). cbn [drop].
    repeat split; try lia. exact G4.
Qed.

Lemma bsOK_take (lo hi : Z) (bs : list boundaryPos) (i : nat) (b : boundaryPos) :
  bsOK lo hi bs -> bs !! i = Some b -> bsOK lo (bp_Start b) (take i bs).
Proof.
  revert lo i. induction bs as [|x bs IH]; intros lo i H Hi; [discriminate|].
  cbn in H. destruct H as (H1 & H2 & H3 & H4).
  destruct i as [|i]; cbn in Hi; cbn [take]; [exact I|].
  destruct (bsOK_lookup _ _ _ _ _ H4 Hi) as (G1 & _).
  cbn. repeat split; try lia. apply IH; assumption.
Qed.

Lemma bsOK_length_pos (lo hi : Z) (bs : list boundaryPos) :
  bsOK lo hi bs -> bs <> [] -> lo + 3 <= hi.
Proof. destruct bs; [congruence|]. cbn. lia. Qed.

Lemma len_after_le_drop {A} (l : list A) (k : nat) : len (drop k l) <= len l.
Proof. unfold len. rewrite length_drop. lia. Qed.

Lemma len_after_gen {A} (l : list A) (n : Z) :
  0 <= n -> len (after l n) = Z.max 0 (len l - n).
Proof. intros. unfold after, len. rewrite length_drop. lia. Qed.

Lemma scanAllBoundaries_step_spec (raw : bytes) (offset : Z) (b : boundaryPos)
    (offset' : Z) :
  0 <= offset ->
  scanAllBoundaries_step raw offset = Some (b, offset') ->
  offset < len raw /\ offset <= bp_Start b /\ bp_Start b + 3 <= bp_End b
  /\ bp_End b <= len raw /\ offset' = bp_End b.
Proof.
  intros H0. unfold scanAllBoundaries_step.
  destruct (offset <? len raw) eqn:El; [|discriminate]. apply Z.ltb_lt in El.
  set (start := if HasPrefix (after raw offset) (B "--") then offset
                else if Index (after raw offset) (LF :: B "--") =? -1 then -1
                     else offset + Index (after raw offset) (LF :: B "--") + 1).
  assert (Hstart : start = -1 \/ offset <= start).
  { subst start. destruct (HasPrefix (after raw offset) (B "--")); [right; lia|].
    destruct (Index_range (after raw offset) (LF :: B "--")) as [Hi | Hi];
      [discriminate | rewrite Hi; left; reflexivity |].
    destruct (_ =? -1); [left; reflexivity | right; lia]. }
  destruct (start =? -1) eqn:Es; [discriminate|].
  apply Z.eqb_neq in Es. destruct Hstart as [? | Hstart]; [contradiction|].
  destruct (Index_range (after raw (start + 2)) [LF]) as [Hi | Hi]; [discriminate | |].
  - rewrite Hi. cbn. discriminate.
  - set (nlPos := Index (after raw (start + 2)) [LF]) in *.
    destruct ((nlPos =? -1) || (len raw <? start + 2 + nlPos)); [discriminate|].
    rewrite len_after_gen in Hi by lia.
    intros [= <- <-]. cbn [bp_Start bp_End]. lia.
Qed.

Lemma scanAllBoundaries_loop_ok (fuel : nat) (raw : bytes) (offset : Z)
    (acc : list boundaryPos) :
  0 <= offset -> offset <= len raw -> bsOK 0 offset acc ->
  bsOK 0 (len raw) (scanAllBoundaries_loop fuel raw offset acc).
Proof.
  revert offset acc. induction fuel as [|fuel IH]; intros offset acc H0 Hl Hacc;
    cbn [scanAllBoundaries_loop].
  - apply (bsOK_weaken 0 offset); [exact Hacc | lia | lia].
  - destruct (scanAllBoundaries_step raw offset) as [[b offset']|] eqn:E.
    + destruct (scanAllBoundaries_step_spec _ _ _ _ H0 E) as (S0 & S1 & S2 & S3 & ->).
      apply IH; try lia.
      apply (bsOK_snoc 0 offset); try assumption; lia.
    + apply (bsOK_weaken 0 offset); [exact Hacc | lia | lia].
Qed.

(** More fuel than the length of the text is never used. *)
Lemma scanAllBoundaries_loop_fuel (fuel : nat) (raw : bytes) (offset : Z)
    (acc : list boundaryPos) :
  0 <= offset -> (Z.to_nat (len raw - offset) <= fuel)%nat ->
  scanAllBoundaries_loop (S fuel) raw offset acc
  = scanAllBoundaries_loop fuel raw offset acc.
Proof.
  revert offset acc. induction fuel as [|fuel IH]; intros offset acc H0 Hf.
  - cbn [scanAllBoundaries_loop].
    destruct (scanAllBoundaries_step raw offset) as [[b offset']|] eqn:E; [|reflexivity].
    destruct (scanAllBoundaries_step_spec _ _ _ _ H0 E). lia.
  - change (scanAllBoundaries_loop (S (S fuel)) raw offset acc)
      with (match scanAllBoundaries_step raw offset with
            | Some (b, offset') =>
              scanAllBoundaries_loop (S fuel) raw offset' (acc ++ [b])
            | None => acc
            end).
    cbn [scanAllBoundaries_loop].
    destruct (scanAllBoundaries_step raw offset) as [[b offset']|] eqn:E; [|reflexivity].
    destruct (scanAllBoundaries_step_spec _ _ _ _ H0 E) as (S0 & S1 & S2 & S3 & ->).
    apply IH; lia.
Qed.

Lemma scanAllBoundaries_fuel (raw : bytes) (k : nat) :
  scanAllBoundaries_loop (length raw + k) raw 0 [] = scanAllBoundaries raw.
Proof.
  unfold scanAllBoundaries. induction k as [|k IH].
  - rewrite Nat.add_0_r. reflexivity.
  - rewrite Nat.add_succ_r, scanAllBoundaries_loop_fuel; [exact IH | lia |].
    unfold len. lia.
Qed.

Lemma scanAllBoundaries_ok (raw : bytes) : bsOK 0 (len raw) (scanAllBoundaries raw).
Proof.
  apply scanAllBoundaries_loop_ok; [lia | apply len_nonneg | exact I].
Qed.

(** ** The geometry of the part tree *)

Lemma chain_snoc (lo hi hi' : Z) (cs : list MIMENode) (c : MIMENode) :
  chain lo hi cs -> lo < hi -> hi <= HeaderStart c -> HeaderStart c <= nodeEnd c ->
  nodeEnd c < hi' -> chain lo hi' (cs ++ [c]).
Proof.
  revert lo. induction cs as [|x cs IH]; cbn; intros lo H Hlo Hh Hc Hh'.
  - repeat split; try lia.
  - destruct H as (H1 & H2 & H3 & H4). repeat split; try lia.
    apply IH; assumption.
Qed.

Lemma chain_lookup (lo hi : Z) (cs : list MIMENode) (i : nat) (c : MIMENode) :
  chain lo hi cs -> cs !! i = Some c ->
  lo < HeaderStart c /\ HeaderStart c <= nodeEnd c /\ nodeEnd c < hi.
Proof.
  revert lo i. induction cs as [|x cs IH]; intros lo i H Hi; [discriminate|].
  cbn in H. destruct H as (H1 & H2 & H3 & H4).
  destruct i as [|i]; cbn in Hi.
  - injection Hi as <-. lia.
  - destruct (IH _ _ H4 Hi). lia.
Qed.

Lemma chain_order (lo hi : Z) (cs : list MIMENode) (i j : nat) (ci cj : MIMENode) :
  chain lo hi cs -> (i < j)%nat -> cs !! i = Some ci -> cs !! j = Some cj ->
  nodeEnd ci < HeaderStart cj.
Proof.
  revert lo i j. induction cs as [|x cs IH]; intros lo i j H Hij Hi Hj; [discriminate|].
  cbn in H. destruct H as (H1 & H2 & H3 & H4).
  destruct j as [|j]; [lia|]. cbn in Hj.
  destruct i as [|i]; cbn in Hi.
  - injection Hi as <-. destruct (chain_lookup _ _ _ _ _ H4 Hj). lia.
  - apply (IH (nodeEnd x) i j); try assumption. lia.
Qed.

Lemma chain_kidsOK (L lo hi H : Z) (cs : list MIMENode) :
  chain lo hi cs -> hi <= H -> H <= L -> kidsOK L lo H cs.
Proof.
  intros Hc Hh HL. split.
  - intros i c Hi. destruct (chain_lookup _ _ _ _ _ Hc Hi). lia.
  - intros i j ci cj. apply (chain_order lo hi cs). exact Hc.
Qed.

Lemma chain_kidsOK_trailing (L lo hi H : Z) (cs : list MIMENode) (t : MIMENode) :
  chain lo hi cs -> lo < hi -> hi <= H -> H <= L ->
  HeaderStart t = hi -> HeaderStart t <= nodeEnd t -> nodeEnd t <= L ->
  kidsOK L lo H (cs ++ [t]).
Proof.
  intros Hc Hlo Hh HL Ht Hte HtL. split.
  - intros i c Hi. apply lookup_app_Some in Hi as [Hi | [Hl Hi]].
    + destruct (chain_lookup _ _ _ _ _ Hc Hi). lia.
    + apply list_lookup_singleton_Some in Hi as [Hi <-].
      rewrite length_app. cbn [length]. lia.
  - intros i j ci cj Hij Hi Hj.
    apply lookup_app_Some in Hj as [Hj | [Hl Hj]].
    + assert (cs !! i = Some ci) as Hi'.
      { apply lookup_app_Some in Hi as [Hi | [Hl' _]]; [exact Hi|].
        apply lookup_lt_Some in Hj. lia. }
      apply (chain_order lo hi cs i j); assumption.
    + apply list_lookup_singleton_Some in Hj as [Hj <-].
      assert (cs !! i = Some ci) as Hi'.
      { apply lookup_app_Some in Hi as [Hi | [Hl' Hi]]; [exact Hi|].
        apply list_lookup_singleton_Some in Hi as [Hi _]. lia. }
      destruct (chain_lookup _ _ _ _ _ Hc Hi'). lia.
Qed.

Lemma newBoundaries_eq (bs : list boundaryPos) (prev next : nat) :
  newBoundaries bs (Z.of_nat prev) (Z.of_nat next)
  = take (next - prev - 2) (drop (S prev) bs).
Proof.
  unfold newBoundaries, sub.
  destruct (Z.of_nat prev + 1 <? Z.of_nat next - 1) eqn:E.
  - apply Z.ltb_lt in E. f_equal; [lia | f_equal; lia].
  - apply Z.ltb_ge in E. replace (next - prev - 2)%nat with 0%nat by lia. reflexivity.
Qed.

Lemma newBoundaries_ok (lo hi : Z) (bs : list boundaryPos) (prev next : nat)
    (so eo : boundaryPos) :
  bsOK lo hi bs -> bs !! prev = Some so -> bs !! next = Some eo -> (prev < next)%nat ->
  bsOK (bp_End so) (bp_Start eo - 1)
       (newBoundaries bs (Z.of_nat prev) (Z.of_nat next)).
Proof.
  intros Hbs Hp Hn Hlt. rewrite newBoundaries_eq.
  destruct (bsOK_lookup _ _ _ _ _ Hbs Hp) as (_ & _ & _ & Hd).
  destruct (decide (next - prev - 2 = 0)%nat) as [-> | Hk]; [exact I|].
  assert (Hlen : (next < length bs)%nat) by (apply lookup_lt_Some in Hn; exact Hn).
  destruct (lookup_lt_is_Some_2 bs (next - 1)) as [bl Hbl]; [lia|].
  assert (Hbl' : drop (S prev) bs !! (next - prev - 2)%nat = Some bl).
  { rewrite lookup_drop. rewrite <- Hbl. f_equal. lia. }
  pose proof (bsOK_take _ _ _ _ _ Hd Hbl') as Ht.
  destruct (bsOK_lookup _ _ _ _ _ Hbs Hbl) as (_ & G2 & _ & G4).
  replace (S (next - 1)) with next in G4 by lia.
  destruct (drop next bs) as [|x rest] eqn:Ed.
  { apply (f_equal length) in Ed. rewrite length_drop in Ed. cbn in Ed. lia. }
  assert (x = eo) as ->.
  { pose proof (lookup_drop bs next 0) as Hx. rewrite Ed in Hx. cbn in Hx.
    rewrite Nat.add_0_r in Hx. congruence. }
  cbn in G4. apply (bsOK_weaken _ _ _ _ _ Ht); lia.
Qed.

Lemma drop_lookup_cons {A} (l : list A) (i : nat) (x : A) (rest : list A) :
  drop i l = x :: rest -> l !! i = Some x /\ drop (S i) l = rest.
Proof.
  intros H.
  assert (Hx : l !! i = Some x).
  { pose proof (lookup_drop l i 0) as Hx. rewrite H in Hx. cbn in Hx.
    rewrite Nat.add_0_r in Hx. congruence. }
  split; [exact Hx|].
  rewrite (drop_S l x i Hx) in H. congruence.
Qed.

Lemma parseMime_loop_ok (L : Z) rec (bs : list boundaryPos) (boundary : bytes)
    (lo hi : Z) :
  recOK L rec -> bsOK lo hi bs -> 0 <= lo -> hi <= L ->
  forall rest (i : nat) lastId buf childs lastId' buf' childs',
    rest = drop i bs ->
    lastId < Z.of_nat i ->
    len buf = L -> Forall (treeOK L) childs ->
    loopOK lo bs lastId childs ->
    parseMime_loop rec bs boundary rest (Z.of_nat i) lastId buf childs
    = Ok (lastId', buf', childs') ->
    len buf' = L /\ Forall (treeOK L) childs' /\ loopOK lo bs lastId' childs'.
Proof.
  intros Hrec Hbs Hlo Hhi rest.
  induction rest as [|bo rest IH];
    intros i lastId buf childs lastId' buf' childs' Hrest Hlt Hbuf Hch Hinv Hrun.
  - cbn in Hrun. injection Hrun as <- <- <-. auto.
  - symmetry in Hrest. apply drop_lookup_cons in Hrest as [Hbo Hrest'].
    cbn [parseMime_loop] in Hrun.
    replace (Z.of_nat i + 1) with (Z.of_nat (S i)) in Hrun by lia.
    destruct (negb (matchesBoundary boundary bo)).
    { apply (IH (S i) lastId buf childs); auto; lia. }
    destruct (lastId =? -1) eqn:El.
    { apply Z.eqb_eq in El. subst lastId.
      apply (IH (S i) (Z.of_nat i) buf childs); auto; try lia.
      destruct Hinv as [[_ ->] | (so & H0 & _)]; [|lia].
      right. exists bo. rewrite Nat2Z.id. repeat split; [lia | exact Hbo]. }
    apply Z.eqb_neq in El.
    destruct Hinv as [[? _] | (so & H0 & Hso & Hchain)]; [contradiction|].
    rewrite Hso in Hrun.
    destruct ((0 <=? bp_End so) && (bp_End so <=? bp_Start bo - 1)
              && (bp_Start bo - 1 <=? len buf)) eqn:Echk; [|discriminate].
    apply andb_true_iff in Echk as [Echk E3]. apply andb_true_iff in Echk as [E1 E2].
    apply Z.leb_le in E1, E2, E3.
    destruct (rec buf (bp_End so) (bp_End so) (bp_Start bo - 1 - bp_End so)
                  (newBoundaries bs lastId (Z.of_nat i)))
      as [[newNode buf1] | |] eqn:Erec; try discriminate.
    destruct (bsOK_lookup _ _ _ _ _ Hbs Hso) as (S1 & S2 & S3 & _).
    destruct (bsOK_lookup _ _ _ _ _ Hbs Hbo) as (B1 & B2 & B3 & _).
    assert (Hnb : bsOK (bp_End so) (bp_End so + (bp_Start bo - 1 - bp_End so))
                       (newBoundaries bs lastId (Z.of_nat i))).
    { replace (bp_End so + (bp_Start bo - 1 - bp_End so)) with (bp_Start bo - 1) by lia.
      rewrite <- (Z2Nat.id lastId) by lia.
      apply (newBoundaries_ok lo hi); try assumption. lia. }
    assert (Hn0 : 0 <= bp_Start bo - 1 - bp_End so) by lia.
    assert (HnL : bp_End so + (bp_Start bo - 1 - bp_End so) <= L) by lia.
    destruct (Hrec _ _ _ _ _ _ _ Hbuf E1 (Z.le_refl _) Hn0 HnL Hnb Erec)
      as (Ht & Hhs & Hne & Hb1).
    apply (IH (S i) (Z.of_nat i) buf1 (childs ++ [newNode])); auto; try lia.
    + apply Forall_app. split; [exact Hch | constructor; [exact Ht | constructor]].
    + right. exists bo. rewrite Nat2Z.id. repeat split; [lia | exact Hbo |].
      apply (chain_snoc lo (bp_End so)); try assumption; lia.
Qed.

Lemma treeOK_withChilds (L : Z) (node : MIMENode) (cs : list MIMENode) :
  0 <= HeaderStart node -> HeaderStart node <= BodyStart node -> 0 <= BodyLen node ->
  nodeEnd node <= L -> Forall (treeOK L) cs ->
  kidsOK L (HeaderStart node) (nodeEnd node) cs ->
  treeOK L (withChilds node cs).
Proof. intros. constructor; assumption. Qed.

Lemma kidsOK_nil (L lo hi : Z) : kidsOK L lo hi [].
Proof. split; intros; discriminate. Qed.

(** The window that [TrimBytes] leaves of the tail of the buffer. *)
Lemma TrimBytesView_tail (buf : bytes) (a : Z) (cutset : bytes) :
  0 <= a -> a <= len buf ->
  exists s' n',
    TrimBytesView buf (InBuf a (len buf - a)) cutset = InBuf s' n'
    /\ a <= s' /\ 0 <= n' /\ s' + n' <= len buf
    /\ n' = len (TrimBytes (after buf a) cutset).
Proof.
  intros Ha Hl. unfold TrimBytesView. cbn [deref subview].
  assert (Hc : sub buf a (len buf - a) = after buf a).
  { unfold sub, after. apply take_ge. unfold len. rewrite length_drop. lia. }
  rewrite Hc.
  pose proof (TrimLeftBytes_len (after buf a) cutset) as H1.
  pose proof (TrimRightBytes_len (TrimLeftBytes (after buf a) cutset) cutset) as H2.
  fold (TrimBytes (after buf a) cutset) in H2.
  pose proof (len_nonneg (TrimBytes (after buf a) cutset)).
  rewrite len_after in H1 by lia.
  eexists _, _. split; [reflexivity|].
  rewrite len_after by lia. repeat split; lia.
Qed.

Lemma parseMime_ok (L : Z) (dc : bytes) (fuel : nat) : recOK L (parseMime fuel dc).
Proof.
  induction fuel as [|fuel IH]; intros buf off s n bs node buf' Hbuf Hoff Hs Hn Hsn Hbs Hrun;
    [discriminate|].
  cbn [parseMime] in Hrun.
  assert (Hs0 : 0 <= s) by lia.
  assert (HsL : s + n <= len buf) by lia.
  pose proof (parseMimeSelf_shape dc buf s n Hs0 Hn HsL) as Hshape.
  cbv zeta in Hshape.
  destruct (parseMimeSelf dc buf s n) as [node0 buf1].
  cbn [fst snd] in Hshape. destruct Hshape as (H1 & H2 & H3 & H4 & H5).
  set (node1 := rebase node0 off) in *.
  assert (G1 : HeaderStart node1 = off) by (cbn; lia).
  assert (G2 : off <= BodyStart node1) by (cbn; lia).
  assert (G3 : 0 <= BodyLen node1) by (cbn; lia).
  assert (G4 : nodeEnd node1 = off + n) by (unfold nodeEnd; cbn; lia).
  assert (G5 : Childs node1 = []) by (cbn; exact H4).
  assert (Hleaf : treeOK L node1).
  { constructor; try lia. - rewrite G5. constructor. - rewrite G5. apply kidsOK_nil. }
  clearbody node1.
  assert (Hfin : forall nd (b : bytes), treeOK L nd -> HeaderStart nd = HeaderStart node1 ->
                   nodeEnd nd = nodeEnd node1 -> len b = L ->
                   treeOK L nd /\ HeaderStart nd = off /\ nodeEnd nd = off + n /\ len b = L).
  { intros nd b T E1 E2 E3. split; [exact T|]. split; [lia|]. split; [lia | exact E3]. }
  destruct (negb (HasPrefix (ContentType node1) (B "MULTIPART/"))).
  { injection Hrun as <- <-. apply Hfin; auto; lia. }
  destruct (bytes_eqb (Boundary node1) []).
  { injection Hrun as <- <-. apply Hfin; auto; lia. }
  destruct (parseMime_loop (parseMime fuel dc) bs (Boundary node1) bs 0 (-1) buf1 [])
    as [[[lastId buf2] childs] | |] eqn:Eloop; try discriminate.
  assert (HhiL : off + n <= L) by lia.
  assert (Hb1 : len buf1 = L) by lia.
  destruct (parseMime_loop_ok L (parseMime fuel dc) bs (Boundary node1) off (off + n)
              IH Hbs Hoff HhiL bs 0%nat (-1) buf1 [] lastId buf2 childs
              eq_refl eq_refl Hb1 (List.Forall_nil _)
              (or_introl (conj eq_refl eq_refl)) Eloop)
    as (Hb2 & Hch & Hinv).
  assert (Hwith : forall cs, Forall (treeOK L) cs ->
                    kidsOK L off (off + n) cs -> treeOK L (withChilds node1 cs)).
  { intros cs Hf Hk. apply treeOK_withChilds; try lia; try assumption.
    rewrite G1, G4. exact Hk. }
  destruct (-1 <? lastId) eqn:Elast.
  - apply Z.ltb_lt in Elast.
    destruct Hinv as [[? _] | (so & H0 & Hso & Hchain)]; [lia|].
    rewrite Hso in Hrun.
    destruct (bsOK_lookup _ _ _ _ _ Hbs Hso) as (S1 & S2 & S3 & _).
    assert (Hplain : treeOK L (withChilds node1 childs)).
    { apply Hwith; [exact Hch|]. apply (chain_kidsOK L off (bp_End so)); try assumption; lia. }
    destruct ((0 <=? bp_End so) && (bp_End so <=? len buf2)) eqn:Erange; [|discriminate].
    apply andb_true_iff in Erange as [R1 R2]. apply Z.leb_le in R1, R2.
    cbn [glen] in Hrun.
    destruct (0 <? len buf2 - bp_End so);
      [|injection Hrun as <- <-; apply Hfin; auto].
    destruct (TrimBytesView_tail buf2 (bp_End so) wsSet R1 R2)
      as (s' & n' & Ev & V1 & V2 & V3 & _).
    rewrite Ev in Hrun. cbn [glen deref] in Hrun.
    destruct ((10 <? n') && Contains (sub buf2 s' n') [LF]);
      [|injection Hrun as <- <-; apply Hfin; auto].
    destruct (parseMime fuel dc buf2 (bp_End so) s' n' []) as [[t buf3] | |] eqn:Et;
      try discriminate.
    injection Hrun as <- <-.
    assert (VL : s' + n' <= L) by lia.
    destruct (IH buf2 (bp_End so) s' n' [] t buf3 Hb2 R1 V1 V2 VL I Et)
      as (T1 & T2 & T3 & T4).
    apply Hfin; auto.
    apply Hwith.
    + apply Forall_app. split; [exact Hch | constructor; [exact T1 | constructor]].
    + apply (chain_kidsOK_trailing L off (bp_End so)); try assumption; lia.
  - injection Hrun as <- <-.
    apply Hfin; auto.
    apply Hwith; [exact Hch|].
    destruct Hinv as [[_ ->] | (so & H0 & _)]; [apply kidsOK_nil|].
    apply Z.ltb_ge in Elast. lia.
Qed.

Lemma treeOK_nodeAt (L : Z) (path : nodeRef) (root node : MIMENode) :
  treeOK L root -> nodeAt root path = Some node -> treeOK L node.
Proof.
  revert root. induction path as [|i path IH]; intros root Hr Hn; cbn in Hn.
  - injection Hn as <-. exact Hr.
  - destruct (Childs root !! i) as [c|] eqn:Ec; [|discriminate].
    apply (IH c); [|exact Hn].
    destruct Hr as [n _ _ _ _ Hf _]. rewrite Forall_lookup in Hf. apply (Hf i c Ec).
Qed.

(** ** Enough fuel *)

Lemma newBoundaries_length (bs : list boundaryPos) (lastId i : Z) :
  0 <= lastId -> bs <> [] -> (length (newBoundaries bs lastId i) < length bs)%nat.
Proof.
  intros H0 Hne. unfold newBoundaries, sub.
  assert (0 < length bs)%nat by (destruct bs; [congruence | cbn; lia]).
  destruct (lastId + 1 <? i - 1); [|cbn; lia].
  rewrite length_take, length_drop. lia.
Qed.

Lemma parseMime_loop_fuel rec (bs : list boundaryPos) (boundary : bytes) :
  (forall buf off s n nb, (length nb < length bs)%nat ->
     rec buf off s n nb <> OutOfFuel) ->
  forall rest i lastId buf childs,
    0 <= i -> lastId = -1 \/ 0 <= lastId ->
    parseMime_loop rec bs boundary rest i lastId buf childs <> OutOfFuel.
Proof.
  intros Hrec rest. induction rest as [|bo rest IH]; intros i lastId buf childs Hi Hl;
    cbn [parseMime_loop]; [discriminate|].
  destruct (negb (matchesBoundary boundary bo)); [apply IH; [lia | exact Hl]|].
  destruct (lastId =? -1) eqn:El; [apply IH; lia|].
  apply Z.eqb_neq in El. destruct Hl as [? | Hl]; [contradiction|].
  destruct (bs !! Z.to_nat lastId) as [so|] eqn:Eso; [|discriminate].
  destruct (_ && _); [|discriminate].
  destruct (rec _ _ _ _ _) as [[nd b1]| |] eqn:Er; [apply IH; lia | discriminate |].
  exfalso. revert Er. apply Hrec. apply newBoundaries_length; [lia|].
  intros ->. discriminate.
Qed.

(** [parseMime] never runs out of fuel when given more fuel than there
    are boundaries. *)
Lemma parseMime_fuel (dc : bytes) (fuel : nat) :
  forall buf off s n bs,
    (length bs < fuel)%nat -> parseMime fuel dc buf off s n bs <> OutOfFuel.
Proof.
  induction fuel as [|fuel IH]; intros buf off s n bs Hlen; [lia|].
  cbn [parseMime].
  destruct (parseMimeSelf dc buf s n) as [node0 buf1].
  destruct (negb _); [discriminate|].
  destruct (bytes_eqb _ _); [discriminate|].
  destruct (parseMime_loop _ _ _ _ _ _ _ _) as [[[lastId buf2] childs]| |] eqn:El;
    [| discriminate |].
  - destruct (-1 <? lastId); [|discriminate].
    destruct (bs !! Z.to_nat lastId) as [so|] eqn:Eso; [|discriminate].
    destruct (_ && _); [|discriminate].
    destruct (0 <? _); [|discriminate].
    destruct (_ && _); [|discriminate].
    destruct (TrimBytesView _ _ _) as [s' n'|]; [|discriminate].
    destruct (parseMime fuel dc buf2 (bp_End so) s' n' []) as [[t b3]| |] eqn:Et;
      [discriminate | discriminate |].
    exfalso. revert Et. apply IH. apply lookup_lt_Some in Eso. cbn. lia.
  - exfalso. revert El. apply parseMime_loop_fuel; [|lia|left; reflexivity].
    intros b o s0 n0 nb Hnb. apply IH. lia.
Qed.

(** [EmailParserNew] returns a parser or panics. *)
Lemma EmailParserNew_fuel (dc data : bytes) : EmailParserNew dc data <> OutOfFuel.
Proof.
  unfold EmailParserNew.
  destruct (parseMime _ _ _ _ _ _ _) as [[top buf]| |] eqn:E; [discriminate | discriminate|].
  exfalso. revert E. apply parseMime_fuel. lia.
Qed.

Lemma EmailParserNew_tree (dc data : bytes) (p : EmailParser) :
  EmailParserNew dc data = Ok p ->
  treeOK (len data) (topNode p) /\ len (EmailData p) = len data
  /\ HeaderStart (topNode p) = 0 /\ nodeEnd (topNode p) = len data.
Proof.
  unfold EmailParserNew. intros H.
  destruct (parseMime _ _ _ _ _ _ _) as [[top buf]| |] eqn:E; try discriminate.
  injection H as <-. cbn [topNode EmailData].
  pose proof (len_nonneg data).
  destruct (parseMime_ok (len data) _ _ data 0 0 (len data) _ top buf eq_refl
              (Z.le_refl 0) (Z.le_refl 0) H (Z.le_refl _)
              (scanAllBoundaries_ok data) E) as (T1 & T2 & T3 & T4).
  split; [exact T1|]. split; [exact T4|]. split; [exact T2 | lia].
Qed.

(** ** The placement of the parts *)

(** What the offsets of every tree satisfy: in the tree of every message
    that [EmailParserNew] accepts, every node lies inside the buffer,
    with its header start not after its body start; every child starts
    after the start of its parent and not after the end of the parent's
    body, and ends inside the buffer; every child except the last of a
    node ends before the end of its parent's body; and a child ends
    before the sibling that follows it starts.  The containment of a
    child in the body of its parent is not among these facts: the
    trailing child of a nested part breaks it. *)
Theorem part_intervals (dc data : bytes) (p : EmailParser) (path : nodeRef)
    (node : MIMENode) :
  EmailParserNew dc data = Ok p ->
  nodeAt (topNode p) path = Some node ->
  (0 <= HeaderStart node /\ HeaderStart node <= BodyStart node
   /\ 0 <= BodyLen node /\ nodeEnd node <= len data)
  /\ (forall (i : nat) c, Childs node !! i = Some c ->
        HeaderStart node < HeaderStart c /\ HeaderStart c <= nodeEnd node
        /\ nodeEnd c <= len data
        /\ ((S i < length (Childs node))%nat -> nodeEnd c < nodeEnd node))
  /\ (forall (i j : nat) ci cj, (i < j)%nat ->
        Childs node !! i = Some ci -> Childs node !! j = Some cj ->
        nodeEnd ci < HeaderStart cj).
Proof.
  intros Hp Hn. destruct (EmailParserNew_tree _ _ _ Hp) as (Ht & _).
  pose proof (treeOK_nodeAt _ _ _ _ Ht Hn) as Hnode.
  destruct Hnode as [n H1 H2 H3 H4 _ [K1 K2]].
  split; [auto|]. split; [exact K1 | exact K2].
Qed.

(** ** C5 *)

(** Entries that do not match leave the loop's state as it is. *)
Lemma parseMime_loop_skip rec (bs : list boundaryPos) (boundary : bytes)
    (skip rest : list boundaryPos) (i lastId : Z) (buf : bytes)
    (childs : list MIMENode) :
  Forall (fun b => matchesBoundary boundary b = false) skip ->
  parseMime_loop rec bs boundary (skip ++ rest) i lastId buf childs
  = parseMime_loop rec bs boundary rest (i + len skip) lastId buf childs.
Proof.
  revert i. induction skip as [|b skip IH]; intros i Hs; cbn [app parseMime_loop].
  - unfold len. cbn. f_equal. lia.
  - inversion Hs as [|? ? Hb Hs']; subst. rewrite Hb. cbn [negb].
    rewrite IH by assumption. rewrite len_cons. f_equal. lia.
Qed.

(** The first matching entry becomes [lastId]; no child is parsed. *)
Lemma parseMime_loop_first_match rec (bs : list boundaryPos) (boundary : bytes)
    (first : nat) (so : boundaryPos) (buf : bytes) :
  bs !! first = Some so ->
  matchesBoundary boundary so = true ->
  (forall (j : nat) b, (j < first)%nat -> bs !! j = Some b ->
                       matchesBoundary boundary b = false) ->
  parseMime_loop rec bs boundary bs 0 (-1) buf []
  = parseMime_loop rec bs boundary (drop (S first) bs) (Z.of_nat (S first))
                   (Z.of_nat first) buf [].
Proof.
  intros Hso Hm Hnone.
  rewrite <- (take_drop first bs) at 2. rewrite (drop_S _ _ _ Hso).
  rewrite parseMime_loop_skip.
  - cbn [parseMime_loop]. rewrite Hm. cbn.
    assert (len (take first bs) = Z.of_nat first) as ->.
    { unfold len. rewrite length_take. apply lookup_lt_Some in Hso. lia. }
    f_equal. lia.
  - apply Forall_lookup. intros j b Hj.
    apply lookup_take_Some in Hj as [Hj Hlt]. apply (Hnone j b Hlt Hj).
Qed.

(** C5 (amended): for two consecutive matching entries at [prev < next],
    once [prev] is the last matched entry the loop parses the child
    from the slice [B[so.End : eo.Start-1]], with offset [so.End], and
    with the entries of the list at the indices [prev+1] to [next-2]:
    the entry at [next-1], just before the match, is left out. *)
Theorem child_parse_arguments rec (bs : list boundaryPos) (boundary : bytes)
    (prev next : nat) (so eo : boundaryPos) (buf : bytes) (childs : list MIMENode) :
  bs !! prev = Some so ->
  bs !! next = Some eo ->
  (prev < next)%nat ->
  matchesBoundary boundary eo = true ->
  (forall (j : nat) b, (prev < j < next)%nat -> bs !! j = Some b ->
                       matchesBoundary boundary b = false) ->
  0 <= bp_End so -> bp_End so <= bp_Start eo - 1 -> bp_Start eo - 1 <= len buf ->
  let nb := take (next - prev - 2) (drop (S prev) bs) in
  parseMime_loop rec bs boundary (drop (S prev) bs) (Z.of_nat (S prev))
                 (Z.of_nat prev) buf childs
  = match rec buf (bp_End so) (bp_End so) (bp_Start eo - 1 - bp_End so) nb with
    | Ok (newNode, buf') =>
      parseMime_loop rec bs boundary (drop (S next) bs) (Z.of_nat (S next))
                     (Z.of_nat next) buf' (childs ++ [newNode])
    | Panic => Panic
    | OutOfFuel => OutOfFuel
    end
  /\ slice buf (bp_End so) (bp_Start eo - 1)
     = Some (sub buf (bp_End so) (bp_Start eo - 1 - bp_End so))
  /\ length nb = (next - prev - 2)%nat
  /\ (forall j : nat, (j < next - prev - 2)%nat -> nb !! j = bs !! (prev + 1 + j)%nat).
Proof.
  intros Hso Heo Hlt Hm Hnone E1 E2 E3 nb.
  assert (Hlen : (next < length bs)%nat) by (apply lookup_lt_Some in Heo; exact Heo).
  split; [|split; [|split]].
  - assert (Hsplit : drop (S prev) bs
                     = take (next - S prev) (drop (S prev) bs) ++ eo :: drop (S next) bs).
    { rewrite <- (take_drop (next - S prev) (drop (S prev) bs)) at 1. f_equal.
      rewrite drop_drop. replace (S prev + (next - S prev))%nat with next by lia.
      apply drop_S. exact Heo. }
    rewrite Hsplit at 1. rewrite parseMime_loop_skip.
    + cbn [parseMime_loop]. rewrite Hm. cbn [negb].
      assert ((Z.of_nat prev =? -1) = false) as -> by lia.
      rewrite Nat2Z.id, Hso.
      assert ((0 <=? bp_End so) && (bp_End so <=? bp_Start eo - 1)
              && (bp_Start eo - 1 <=? len buf) = true) as ->.
      { rewrite !andb_true_iff, !Z.leb_le. auto. }
      assert (Hi : Z.of_nat (S prev) + len (take (next - S prev) (drop (S prev) bs))
                   = Z.of_nat next).
      { unfold len. rewrite length_take, length_drop. lia. }
      rewrite Hi, newBoundaries_eq. fold nb.
      destruct (rec buf (bp_End so) (bp_End so) (bp_Start eo - 1 - bp_End so) nb)
        as [[newNode buf']| |]; try reflexivity.
      f_equal. lia.
    + apply Forall_lookup. intros j b Hj.
      apply lookup_take_Some in Hj as [Hj Hjlt]. rewrite lookup_drop in Hj.
      apply (Hnone (S prev + j)%nat b); [lia | exact Hj].
  - unfold slice.
    assert ((0 <=? bp_End so) && (bp_End so <=? bp_Start eo - 1)
            && (bp_Start eo - 1 <=? len buf) = true) as ->.
    { rewrite !andb_true_iff, !Z.leb_le. auto. }
    reflexivity.
  - subst nb. rewrite length_take, length_drop. lia.
  - intros j Hj. subst nb. rewrite lookup_take, lookup_drop.
    destruct (decide (j < next - prev - 2)%nat); [f_equal; lia | lia].
Qed.

(** ** The trailing child *)

Lemma deref_TrimBytesView (buf : bytes) (s : gslice) (cutset : bytes) :
  validView buf s ->
  deref buf (TrimBytesView buf s cutset) = TrimBytes (deref buf s) cutset.
Proof.
  intros Hv. unfold TrimBytesView.
  pose proof (glen_deref buf s Hv) as Hg.
  set (c := deref buf s) in *.
  unfold TrimBytes, TrimRightBytes, TrimLeftBytes.
  destruct (dropWhile_drop (inSet cutset) c) as (k & Hk & Ek). rewrite Ek.
  destruct (dropWhile_drop (inSet cutset) (rev (drop k c))) as (m & Hm & Em). rewrite Em.
  rewrite length_rev, length_drop in Hm.
  rewrite skipn_rev, rev_involutive, length_drop.
  assert (len c - len (drop k c) = Z.of_nat k) as ->.
  { unfold len. rewrite length_drop. lia. }
  assert (len (take (length c - k - m) (drop k c)) = Z.of_nat (length c - k - m)) as ->.
  { unfold len. rewrite length_take, length_drop. lia. }
  rewrite deref_subview by (try assumption; unfold len in *; lia).
  fold c. rewrite sub_drop_take. f_equal. lia.
Qed.

(** A part parsed with no boundaries is a leaf, and the parse succeeds. *)
Lemma parseMime_leaf (dc : bytes) (fuel : nat) (buf : bytes) (off s n : Z) :
  exists t b, parseMime (S fuel) dc buf off s n [] = Ok (t, b) /\ Childs t = [].
Proof.
  cbn [parseMime].
  assert (Hc : Childs (rebase (fst (parseMimeSelf dc buf s n)) off) = [])
    by reflexivity.
  destruct (parseMimeSelf dc buf s n) as [node0 buf1]. cbn [fst] in Hc.
  destruct (negb _); [eexists _, _; split; [reflexivity | exact Hc]|].
  destruct (bytes_eqb _ _); [eexists _, _; split; [reflexivity | exact Hc]|].
  cbn. eexists _, _. split; reflexivity.
Qed.

(** One turn of the recursion of [parseMime]. *)
Lemma parseMime_unfold (fuel : nat) (dc buf : bytes) (offset s n : Z)
    (boundaries : list boundaryPos) :
  parseMime (S fuel) dc buf offset s n boundaries
  = let '(node0, buf1) := parseMimeSelf dc buf s n in
    let node := rebase node0 offset in
    if negb (HasPrefix (ContentType node) (B "MULTIPART/")) then Ok (node, buf1)
    else if bytes_eqb (Boundary node) [] then Ok (node, buf1)
    else
      match parseMime_loop (parseMime fuel dc) boundaries (Boundary node)
                           boundaries 0 (-1) buf1 [] with
      | Ok (lastId, buf2, childs) =>
        if -1 <? lastId then
          match boundaries !! Z.to_nat lastId with
          | None => Panic
          | Some so =>
            if (0 <=? bp_End so) && (bp_End so <=? len buf2) then
              let tmpdata := InBuf (bp_End so) (len buf2 - bp_End so) in
              if 0 <? glen tmpdata then
                let tmpdata' := TrimBytesView buf2 tmpdata wsSet in
                if (10 <? glen tmpdata') && Contains (deref buf2 tmpdata') [LF] then
                  match tmpdata' with
                  | InBuf s' n' =>
                    match parseMime fuel dc buf2 (bp_End so) s' n' [] with
                    | Ok (newNode, buf3) => Ok (withChilds node (childs ++ [newNode]), buf3)
                    | Panic => Panic
                    | OutOfFuel => OutOfFuel
                    end
                  | Own _ => Panic
                  end
                else Ok (withChilds node childs, buf2)
              else Ok (withChilds node childs, buf2)
            else Panic
          end
        else Ok (withChilds node childs, buf2)
      | Panic => Panic
      | OutOfFuel => OutOfFuel
      end.
Proof. reflexivity. Qed.

(** What the last branch of [parseMime] computes: when a multipart node
    has matched a delimiter, with [so] the last one matched, the region
    that the code measures is the rest of the whole email buffer after
    [so], trimmed of white space, and not the rest of the node's own
    data: if it is longer than 10 bytes and holds a newline, that
    region is parsed with offset [so.End] and an empty boundary list and
    the leaf it gives is appended as the last child of the node;
    otherwise no child is added.  For the root the two regions are the
    same; for a nested part they are not. *)
Theorem trailing_child_rule (dc : bytes) (fuel : nat) (buf : bytes) (off s n : Z)
    (bs : list boundaryPos) (node0 : MIMENode) (buf1 : bytes) (lastId : Z)
    (buf2 : bytes) (childs : list MIMENode) (so : boundaryPos) :
  parseMimeSelf dc buf s n = (node0, buf1) ->
  HasPrefix (ContentType node0) (B "MULTIPART/") = true ->
  Boundary node0 <> [] ->
  parseMime_loop (parseMime (S fuel) dc) bs (Boundary node0) bs 0 (-1) buf1 []
  = Ok (lastId, buf2, childs) ->
  -1 < lastId ->
  bs !! Z.to_nat lastId = Some so ->
  0 <= bp_End so -> bp_End so <= len buf2 ->
  let region := TrimBytes (after buf2 (bp_End so)) wsSet in
  exists node buf3,
    parseMime (S (S fuel)) dc buf off s n bs = Ok (node, buf3)
    /\ ((10 < len region /\ Contains region [LF] = true
         /\ exists s' trailing,
              sub buf2 s' (len region) = region
              /\ parseMime (S fuel) dc buf2 (bp_End so) s' (len region) []
                 = Ok (trailing, buf3)
              /\ Childs node = childs ++ [trailing]
              /\ Childs trailing = [])
        \/ (~ (10 < len region /\ Contains region [LF] = true)
            /\ Childs node = childs /\ buf3 = buf2)).
Proof.
  intros Hself Hmulti Hb Hloop Hlast Hso R1 R2 region.
  rewrite parseMime_unfold, Hself. cbv zeta.
  change (ContentType (rebase node0 off)) with (ContentType node0).
  change (Boundary (rebase node0 off)) with (Boundary node0).
  rewrite Hmulti. cbn [negb].
  assert (bytes_eqb (Boundary node0) [] = false) as ->.
  { destruct (bytes_eqb (Boundary node0) []) eqn:E; [|reflexivity].
    apply bytes_eqb_eq in E. contradiction. }
  rewrite Hloop.
  assert ((-1 <? lastId) = true) as -> by lia.
  rewrite Hso.
  assert ((0 <=? bp_End so) && (bp_End so <=? len buf2) = true) as ->.
  { rewrite andb_true_iff, !Z.leb_le. auto. }
  cbn [glen].
  assert (Hv : validView buf2 (InBuf (bp_End so) (len buf2 - bp_End so)))
    by (cbn; lia).
  pose proof (deref_TrimBytesView buf2 _ wsSet Hv) as Hd.
  assert (Hc : deref buf2 (InBuf (bp_End so) (len buf2 - bp_End so))
               = after buf2 (bp_End so)).
  { cbn. unfold sub, after. apply take_ge. unfold len. rewrite length_drop. lia. }
  rewrite Hc in Hd. fold region in Hd.
  destruct (TrimBytesView_tail buf2 (bp_End so) wsSet R1 R2)
    as (s' & n' & Ev & V1 & V2 & V3 & V4).
  fold region in V4. rewrite Ev in Hd. cbn [deref] in Hd.
  destruct (0 <? len buf2 - bp_End so) eqn:Epos.
  - rewrite Ev. cbn [glen deref]. rewrite Hd. subst n'.
    destruct ((10 <? len region) && Contains region [LF]) eqn:Econd.
    + apply andb_true_iff in Econd as [C1 C2]. apply Z.ltb_lt in C1.
      destruct (parseMime_leaf dc fuel buf2 (bp_End so) s' (len region))
        as (t & b3 & Et & Hct).
      rewrite Et. eexists _, _. split; [reflexivity|]. left.
      split; [exact C1|]. split; [exact C2|].
      exists s', t. repeat split; try assumption.
    + eexists _, _. split; [reflexivity|]. right. split; [|split; reflexivity].
      intros [C1 C2]. apply Z.ltb_lt in C1. rewrite C1, C2 in Econd. discriminate.
  - eexists _, _. split; [reflexivity|]. right. split; [|split; reflexivity].
    intros [C1 _]. apply Z.ltb_ge in Epos.
    assert (after buf2 (bp_End so) = []) as Hnil.
    { unfold after. apply drop_ge. unfold len in *. lia. }
    subst region. rewrite Hnil in C1. cbn in C1. unfold len in C1. cbn in C1. lia.
Qed.

(** ** C8 *)

Lemma EmailParserNew_fresh (dc data : bytes) (p : EmailParser) :
  EmailParserNew dc data = Ok p ->
  nodeClassified p = false /\ alternativeShowNodesDealed p = false
  /\ textNodes p = [] /\ attachmentNodes p = [].
Proof.
  unfold EmailParserNew.
  destruct (parseMime _ _ _ _ _ _ _) as [[top buf]| |]; try discriminate.
  intros [= <-]. repeat split.
Qed.

Lemma walkAllNode_multipart (node : MIMENode) (ref : nodeRef)
    (acc : list nodeRef * list nodeRef) :
  bytes_eqb (mainTypeOf (ContentType node)) (B "MULTIPART") = true ->
  walkAllNode node ref acc
  = let '(cs, acc') := walkChilds ref (Childs node) 0%nat acc in
    (withChilds node cs, acc').
Proof.
  intros H. destruct node. cbn [ContentType Childs] in *.
  cbn [walkAllNode ContentType Childs]. rewrite H.
  match goal with
  | |- (let '(_, _) := ?f _ _ _ in _) = _ =>
    assert (Hfix : forall cs i a, f cs i a = walkChilds ref cs i a)
  end.
  { induction cs as [|c cs IH]; intros i a; [reflexivity|].
    cbn [walkChilds]. destruct (walkAllNode c (ref ++ [i]) a) as [c' a1].
    rewrite IH. reflexivity. }
  rewrite Hfix. reflexivity.
Qed.

Lemma walkAllNode_text (c : MIMENode) (ref : nodeRef)
    (acc : list nodeRef * list nodeRef) :
  isShownText c -> walkAllNode c ref acc = (c, (fst acc ++ [ref], snd acc)).
Proof.
  intros [H | H]; destruct c; cbn [ContentType] in H; subst; reflexivity.
Qed.

Lemma withChilds_Childs (node : MIMENode) : withChilds node (Childs node) = node.
Proof. destruct node. reflexivity. Qed.

Lemma classifyNodes_alternative (p : EmailParser) (c1 c2 : MIMENode) :
  nodeClassified p = false -> textNodes p = [] -> attachmentNodes p = [] ->
  ContentType (topNode p) = B "MULTIPART/ALTERNATIVE" ->
  Childs (topNode p) = [c1; c2] -> isShownText c1 -> isShownText c2 ->
  topNode (classifyNodes p) = topNode p
  /\ textNodes (classifyNodes p) = [[0%nat]; [1%nat]].
Proof.
  intros Hn Ht Ha Hct Hcs H1 H2. unfold classifyNodes. rewrite Hn.
  destruct p. cbn in Ht, Ha, Hct, Hcs |- *. subst.
  rewrite walkAllNode_multipart by (rewrite Hct; reflexivity).
  rewrite Hcs. cbn [walkChilds].
  rewrite (walkAllNode_text c1) by assumption.
  rewrite (walkAllNode_text c2) by assumption.
  cbn. rewrite <- Hcs, withChilds_Childs. split; reflexivity.
Qed.

Lemma alternativeKeyOf_child (top : MIMENode) (k : nat) :
  ContentType top = B "MULTIPART/ALTERNATIVE" ->
  alternativeKeyOf (S (length [k])) top (Parent [k]) = alternativeKey top.
Proof. intros H. cbn. rewrite H. reflexivity. Qed.

Lemma groupTextNodes_html (top c : MIMENode) (k : nat) (nodes vec : list nodeRef)
    (groups : gmap bytes alternativeSet) :
  ContentType top = B "MULTIPART/ALTERNATIVE" ->
  Childs top !! k = Some c -> ContentType c = B "TEXT/HTML" ->
  groupTextNodes top ([k] :: nodes) vec groups
  = groupTextNodes top nodes vec
      (<[alternativeKey top :=
           mkAlternativeSet (Some [k])
             (as_PLAIN (default (mkAlternativeSet None None)
                                (groups !! alternativeKey top)))]> groups).
Proof.
  intros Ht Hc Hct. cbn [groupTextNodes nodeAt]. rewrite Hc. cbn [fmap option_fmap option_map default].
  rewrite Hct. rewrite alternativeKeyOf_child by assumption. reflexivity.
Qed.

Lemma groupTextNodes_plain (top c : MIMENode) (k : nat) (nodes vec : list nodeRef)
    (groups : gmap bytes alternativeSet) :
  ContentType top = B "MULTIPART/ALTERNATIVE" ->
  Childs top !! k = Some c -> ContentType c = B "TEXT/PLAIN" ->
  groupTextNodes top ([k] :: nodes) vec groups
  = groupTextNodes top nodes vec
      (<[alternativeKey top :=
           mkAlternativeSet
             (as_HTML (default (mkAlternativeSet None None)
                               (groups !! alternativeKey top)))
             (Some [k])]> groups).
Proof.
  intros Ht Hc Hct. cbn [groupTextNodes nodeAt]. rewrite Hc. cbn [fmap option_fmap option_map default].
  rewrite Hct. rewrite alternativeKeyOf_child by assumption. reflexivity.
Qed.

Lemma shown_of_one_group (top : MIMENode) (h : nodeRef) (pl : option nodeRef) :
  sortByStart top
    ([] ++ concat (List.map pickShown
                     (map_to_list (<[alternativeKey top := mkAlternativeSet (Some h) pl]>
                                     (∅ : gmap bytes alternativeSet)))))
  = [h].
Proof.
  rewrite insert_empty, map_to_list_singleton. reflexivity.
Qed.

(** C8: when the root of a parsed message is a multipart/alternative
    part with exactly two children, of content types text/plain and
    text/html in either order, [GetAlternativeShowNodes] returns exactly
    one node, the pointer to the text/html child. *)
Theorem alternative_shows_html (dc data : bytes) (p : EmailParser) (c1 c2 : MIMENode) :
  EmailParserNew dc data = Ok p ->
  ContentType (topNode p) = B "MULTIPART/ALTERNATIVE" ->
  Childs (topNode p) = [c1; c2] ->
  (ContentType c1 = B "TEXT/PLAIN" -> ContentType c2 = B "TEXT/HTML" ->
   fst (GetAlternativeShowNodes p) = [[1%nat]]
   /\ nodeAt (topNode (snd (GetAlternativeShowNodes p))) [1%nat] = Some c2)
  /\ (ContentType c1 = B "TEXT/HTML" -> ContentType c2 = B "TEXT/PLAIN" ->
      fst (GetAlternativeShowNodes p) = [[0%nat]]
      /\ nodeAt (topNode (snd (GetAlternativeShowNodes p))) [0%nat] = Some c1).
Proof.
  intros Hp Hct Hcs.
  destruct (EmailParserNew_fresh _ _ _ Hp) as (Hn & Hd & Ht & Ha).
  assert (Hrun : forall P : list nodeRef -> MIMENode -> Prop,
            isShownText c1 -> isShownText c2 ->
            (forall q, topNode q = topNode p -> textNodes q = [[0%nat]; [1%nat]] ->
               P (sortByStart (topNode q)
                    (fst (groupTextNodes (topNode q) (textNodes q) [] ∅)
                     ++ concat (List.map pickShown
                          (map_to_list
                             (snd (groupTextNodes (topNode q) (textNodes q) [] ∅))))))
                 (topNode q)) ->
            P (fst (GetAlternativeShowNodes p))
              (topNode (snd (GetAlternativeShowNodes p)))).
  { intros P H1 H2 HP. unfold GetAlternativeShowNodes. rewrite Hd.
    unfold classifyAlternativeShowNodes. rewrite Hd.
    set (q := classifyNodes (set_alternativeShowNodesDealed true p)).
    assert (Hq : topNode q = topNode p /\ textNodes q = [[0%nat]; [1%nat]]).
    { destruct (classifyNodes_alternative (set_alternativeShowNodesDealed true p) c1 c2)
        as [Q1 Q2]; auto. }
    destruct Hq as [Q1 Q2]. specialize (HP q Q1 Q2).
    destruct (groupTextNodes (topNode q) (textNodes q) [] ∅) as [vec groups].
    cbn [fst snd alternativeShowNodes set_alternativeShowNodes topNode] in *.
    exact HP. }
  split; intros E1 E2.
  - apply (Hrun (fun l t => l = [[1%nat]] /\ nodeAt t [1%nat] = Some c2));
      [left; exact E1 | right; exact E2 |].
    intros q Q1 Q2. rewrite Q1, Q2. split; [|cbn; rewrite Hcs; reflexivity].
    rewrite (groupTextNodes_plain _ c1) by (try assumption; rewrite Hcs; reflexivity).
    rewrite (groupTextNodes_html _ c2) by (try assumption; rewrite Hcs; reflexivity).
    cbn [groupTextNodes fst snd]. rewrite lookup_insert_eq, lookup_empty.
    cbn [default as_PLAIN as_HTML]. rewrite insert_insert_eq.
    apply shown_of_one_group.
  - apply (Hrun (fun l t => l = [[0%nat]] /\ nodeAt t [0%nat] = Some c1));
      [right; exact E1 | left; exact E2 |].
    intros q Q1 Q2. rewrite Q1, Q2. split; [|cbn; rewrite Hcs; reflexivity].
    rewrite (groupTextNodes_html _ c1) by (try assumption; rewrite Hcs; reflexivity).
    rewrite (groupTextNodes_plain _ c2) by (try assumption; rewrite Hcs; reflexivity).
    cbn [groupTextNodes fst snd]. rewrite lookup_insert_eq, lookup_empty.
    cbn [default as_PLAIN as_HTML]. rewrite insert_insert_eq.
    apply shown_of_one_group.
Qed.

(** ** C7 *)

(** C7 (amended): a logical header line whose bytes are [pre], a colon
    that is the first one, and [post], is stored with the name [pre]
    trimmed and in upper case, and with the value [post] trimmed of
    white space at both ends: the value neither starts nor ends with a
    white-space rune. *)
Theorem header_entry_of_line (buf : bytes) (entries : list MimeLine)
    (lineData : gslice) (pre post : bytes) :
  validView buf lineData ->
  deref buf lineData = pre ++ ":"%char :: post ->
  ":"%char ∉ pre ->
  exists e,
    emailParserAppendOneLine buf entries lineData = entries ++ [e]
    /\ ml_Name e = ToUpper (TrimSpace pre)
    /\ deref buf (ml_Value e) = TrimSpace post
    /\ spaceRune (deref buf (ml_Value e)) = 0%nat
    /\ spaceRuneLast (rev (deref buf (ml_Value e))) = 0%nat.
Proof.
  intros Hv Hc Hn. unfold emailParserAppendOneLine.
  pose proof (glen_deref buf lineData Hv) as Hg.
  rewrite Hc in *. change (B ":") with [":"%char].
  rewrite Index_first by assumption.
  pose proof (len_nonneg pre) as Hp.
  destruct (len pre =? -1) eqn:E; [apply Z.eqb_eq in E; lia|].
  eexists. split; [reflexivity|]. cbn [ml_Name ml_Value].
  rewrite upto_app_len. split; [reflexivity|].
  assert (deref buf
            (TrimSpaceView buf (subview lineData (len pre + 1) (glen lineData)))
          = TrimSpace post) as ->.
  { assert (Hl : len (pre ++ ":"%char :: post) = len pre + 1 + len post).
    { rewrite len_app, len_cons. lia. }
    pose proof (len_nonneg post).
    assert (Hs : deref buf (subview lineData (len pre + 1) (glen lineData)) = post).
    { rewrite deref_subview by (try assumption; lia).
      rewrite Hc. unfold sub.
      replace (Z.to_nat (len pre + 1)) with (length (pre ++ [":"%char]))
        by (rewrite length_app; unfold len; cbn; lia).
      replace (pre ++ ":"%char :: post) with ((pre ++ [":"%char]) ++ post)
        by (rewrite <- app_assoc; reflexivity).
      rewrite drop_app_length. apply take_ge. unfold len in *. lia. }
    rewrite deref_TrimSpaceView.
    - rewrite Hs. reflexivity.
    - destruct lineData as [a n|b]; cbn in *; [lia | exact I]. }
  split; [reflexivity|]. apply TrimSpace_ends.
Qed.

(** ** C9 *)

Lemma firstValue_app_first (k v : bytes) (l1 l2 : list (bytes * bytes)) :
  k ∉ List.map fst l1 -> firstValue k (l1 ++ (k, v) :: l2) = Some v.
Proof.
  unfold firstValue. induction l1 as [|[k' v'] l1 IH]; cbn; intros Hn.
  - rewrite bytes_eqb_refl. reflexivity.
  - destruct (bytes_eqb k' k) eqn:E.
    + apply bytes_eqb_eq in E. subst. exfalso. apply Hn. left.
    + apply IH. intros H. apply Hn. now right.
Qed.

(** The map that the loop builds answers with the value already stored,
    and otherwise with the first occurrence in the text left. *)
Lemma parseParams_loop_lookup (fuel : nat) (current : bytes)
    (params : gmap bytes bytes) (k : bytes) :
  parseParams_loop fuel current params !! k
  = match params !! k with
    | Some v => Some v
    | None => firstValue k (paramOccurrences fuel current)
    end.
Proof.
  revert current params. induction fuel as [|fuel IH]; intros current params.
  - cbn. destruct (params !! k); reflexivity.
  - cbn [parseParams_loop paramOccurrences].
    destruct current as [|c current']; [destruct (params !! k); reflexivity|].
    destruct (parseParams_step (c :: current')) as [kv next]. rewrite IH.
    destruct kv as [[k' v']|]; cbn [storeParam]; [|reflexivity].
    unfold firstValue at 2. cbn [List.find fst].
    destruct (bytes_eqb k' k) eqn:E.
    + apply bytes_eqb_eq in E. subst k'.
      destruct (params !! k) eqn:Ek; [rewrite Ek; reflexivity|].
      rewrite lookup_insert_eq. reflexivity.
    + assert (k' <> k) as Hne by (intros ->; rewrite bytes_eqb_refl in E; discriminate).
      destruct (params !! k') eqn:Ek'; [reflexivity|].
      rewrite lookup_insert_ne by assumption. reflexivity.
Qed.

Lemma ParseMimeValueParams_params (data : bytes) :
  mv_Params (ParseMimeValueParams data)
  = ParseMimeValueParams_parseParams (paramsContentOf data) ∅.
Proof.
  unfold ParseMimeValueParams, paramsContentOf.
  destruct (len (TrimLeftBytes data [SP; HT]) =? 0) eqn:E0.
  - apply Z.eqb_eq in E0.
    destruct (TrimLeftBytes data [SP; HT]) as [|c0 l0];
      [|rewrite len_cons in E0; pose proof (len_nonneg l0); lia].
    cbn. reflexivity.
  - destruct (ParseMimeValueParams_parseValue (TrimLeftBytes data [SP; HT])) as [value valueEnd].
    cbn [snd]. destruct (valueEnd <? len (TrimLeftBytes data [SP; HT])); reflexivity.
Qed.

(** C9: when a parameter name (names are compared in upper case)
    occurs more than once in a header value, the map holds the value of
    its first occurrence, whatever the later occurrences are. *)
Theorem first_parameter_occurrence_wins (data : bytes) (k v : bytes)
    (l1 l2 : list (bytes * bytes)) :
  parameterList data = l1 ++ (k, v) :: l2 ->
  k ∉ List.map fst l1 ->
  mv_Params (ParseMimeValueParams data) !! k = Some v.
Proof.
  intros Hl Hn. rewrite ParseMimeValueParams_params.
  unfold ParseMimeValueParams_parseParams. rewrite parseParams_loop_lookup.
  rewrite lookup_empty. fold (parameterList data). rewrite Hl.
  apply firstValue_app_first. exact Hn.
Qed.

(** ** The tokeniser stops by itself *)

Lemma length_after_le {A} (l : list A) (n : Z) : (length (after l n) <= length l)%nat.
Proof. unfold after. rewrite length_drop. lia. Qed.

Lemma length_after_pos {A} (l : list A) (n : Z) :
  0 < n -> l <> [] -> (length (after l n) < length l)%nat.
Proof.
  intros Hn Hl. unfold after. rewrite length_drop.
  destruct l; [congruence | cbn [length]; lia].
Qed.

Lemma token_step_progress (bfBegin : bytes) (m : Z) (rs rs' : list tokenNodeWithEncoding)
    (bfBegin' : bytes) (m' : Z) :
  m = 0 \/ m = 2 ->
  token_step bfBegin m rs = (rs', Some (bfBegin', m')) ->
  (m' = 0 \/ m' = 2) /\ (tokenMeasure bfBegin' m' < tokenMeasure bfBegin m)%nat.
Proof.
  intros Hm. unfold token_step.
  destruct (0 <? len bfBegin) eqn:E0; [|discriminate].
  assert (Hne : bfBegin <> []) by (intros ->; discriminate).
  set (pos0 := Index (after bfBegin m) (B "=?")).
  set (pos := if pos0 =? -1 then -1 else pos0 + m).
  assert (Hpos : pos = -1 \/ (m <= pos)).
  { subst pos. destruct (Index_range (after bfBegin m) (B "=?")) as [Hi | Hi];
      [discriminate | | ]; fold pos0 in Hi.
    - rewrite Hi. left. reflexivity.
    - destruct (pos0 =? -1); [left; reflexivity | right; lia]. }
  destruct (pos <? 0) eqn:Ep; [discriminate|]. apply Z.ltb_ge in Ep.
  destruct Hpos as [? | Hpos]; [lia|].
  set (bfBegin1 := if 0 <? pos then after bfBegin pos else bfBegin).
  assert (H1 : (length bfBegin1 <= length bfBegin)%nat
               /\ (m = 2 -> (length bfBegin1 < length bfBegin)%nat)).
  { subst bfBegin1. destruct (0 <? pos) eqn:Epp.
    - apply Z.ltb_lt in Epp. split; [apply length_after_le|].
      intros _. apply length_after_pos; assumption.
    - apply Z.ltb_ge in Epp. split; [lia | intros ->; lia]. }
  destruct H1 as [H1 H2].
  assert (Hback : (tokenMeasure bfBegin1 2 < tokenMeasure bfBegin m)%nat).
  { unfold tokenMeasure. destruct Hm as [-> | ->]; cbn [Z.eqb]; [lia|].
    specialize (H2 eq_refl). lia. }
  set (bf2 := after bfBegin1 2).
  destruct (IndexByte bf2 "?"%char <? 2);
    [intros [= <- <- <-]; split; [right; reflexivity | exact Hback]|].
  set (bf3 := after bf2 (IndexByte bf2 "?"%char + 1)).
  assert (H3 : (length bf3 <= length bfBegin1)%nat).
  { subst bf3 bf2. etransitivity; [apply length_after_le | apply length_after_le]. }
  destruct (len bf3 <? 4);
    [intros [= <- <- <-]; split; [right; reflexivity | exact Hback]|].
  destruct bf3 as [|e [|q bf4]]; try discriminate.
  cbn [length] in H3.
  assert (Hfwd : forall k, (tokenMeasure (after bf4 k) 0 < tokenMeasure bfBegin m)%nat).
  { intros k. pose proof (length_after_le bf4 k). unfold tokenMeasure. cbn [Z.eqb].
    destruct (m =? 0); lia. }
  destruct (negb _ && negb _);
    [intros [= <- <- <-]; split; [right; reflexivity | exact Hback]|].
  destruct (negb (beq q "?"%char));
    [intros [= <- <- <-]; split; [right; reflexivity | exact Hback]|].
  destruct (-1 <? Index bf4 (B "?="));
    [intros [= <- <- <-]; split; [left; reflexivity | apply Hfwd]|].
  destruct (-1 <? lineBufferFindChar bf4 [SP; HT]);
    [intros [= <- <- <-]; split; [left; reflexivity | apply Hfwd] | discriminate].
Qed.

(** Fuel beyond the measure is never used. *)
Lemma tokenLoop_fuel (fuel : nat) (bfBegin : bytes) (m : Z)
    (rs : list tokenNodeWithEncoding) :
  m = 0 \/ m = 2 -> (tokenMeasure bfBegin m <= fuel)%nat ->
  tokenLoop (S fuel) bfBegin m rs = tokenLoop fuel bfBegin m rs.
Proof.
  revert bfBegin m rs. induction fuel as [|fuel IH]; intros bfBegin m rs Hm Hf.
  - cbn [tokenLoop].
    destruct (token_step bfBegin m rs) as [rs' [[b' m']|]] eqn:E.
    + destruct (token_step_progress _ _ _ _ _ _ Hm E). lia.
    + revert E. unfold token_step. unfold tokenMeasure in Hf.
      destruct bfBegin; [|cbn [length] in Hf; lia].
      cbn. intros [= <-]. reflexivity.
  - change (tokenLoop (S (S fuel)) bfBegin m rs)
      with (match token_step bfBegin m rs with
            | (rs', Some (bfBegin', magicOffset')) =>
              tokenLoop (S fuel) bfBegin' magicOffset' rs'
            | (rs', None) => rs'
            end).
    cbn [tokenLoop].
    destruct (token_step bfBegin m rs) as [rs' [[b' m']|]] eqn:E; [|reflexivity].
    destruct (token_step_progress _ _ _ _ _ _ Hm E) as [Hm' Hlt].
    apply IH; [exact Hm' | lia].
Qed.

Lemma tokenSegments_fuel (line : bytes) (k : nat) :
  tokenLoop (2 * length line + 2 + k) line 0 [] = tokenSegments line.
Proof.
  unfold tokenSegments. induction k as [|k IH].
  - rewrite Nat.add_0_r. reflexivity.
  - rewrite Nat.add_succ_r, tokenLoop_fuel; [exact IH | left; reflexivity |].
    unfold tokenMeasure. cbn [Z.eqb]. lia.
Qed.

(** ** The other loops stop by themselves *)

Lemma length_TrimLeftSpace (s : bytes) : (length (TrimLeftSpace s) <= length s)%nat.
Proof. destruct (TrimLeftSpace_drop s) as (k & _ & ->). rewrite length_drop. lia. Qed.

Lemma length_skipToNextParam (content : bytes) :
  (length (ParseMimeValueParams_skipToNextParam content) <= pred (length content))%nat.
Proof.
  unfold ParseMimeValueParams_skipToNextParam, IndexByte.
  destruct (Index_range content [SEMI]) as [Hi | Hi]; [discriminate | |].
  - rewrite Hi. cbn. lia.
  - destruct (_ =? -1); [cbn; lia|].
    etransitivity; [apply length_TrimLeftSpace|].
    unfold after. rewrite length_drop. lia.
Qed.

Lemma parseParams_step_progress (current : bytes) :
  current <> [] ->
  (length (snd (parseParams_step current)) < length current)%nat.
Proof.
  intros Hne.
  assert (Hpos : (0 < length current)%nat) by (destruct current; [congruence | cbn; lia]).
  assert (Hskip : forall x : bytes, (length x <= length current)%nat ->
            (length (ParseMimeValueParams_skipToNextParam x) < length current)%nat).
  { intros x Hx. pose proof (length_skipToNextParam x). lia. }
  unfold parseParams_step.
  destruct (len _ =? 0); cbn [snd]; [apply Hskip, length_after_le|].
  assert (H1 : (length (TrimLeftSpace (after current (findEnd isNameEnd current 0)))
                <= length current)%nat).
  { etransitivity; [apply length_TrimLeftSpace | apply length_after_le]. }
  destruct (TrimLeftSpace (after current (findEnd isNameEnd current 0)))
    as [|c current1] eqn:E1; cbn [snd]; [apply Hskip; cbn; lia|].
  destruct (beq c "="%char); cbn [snd]; [|apply Hskip; exact H1].
  assert (H2 : (length (TrimLeftSpace (after (c :: current1) 1)) <= length current)%nat).
  { etransitivity; [apply length_TrimLeftSpace|].
    etransitivity; [apply length_after_le | exact H1]. }
  set (current2 := TrimLeftSpace (after (c :: current1) 1)) in *.
  destruct (match current2 with
            | [] => ParseMimeValueParams_parseUnquotedParamValue current2
            | q :: _ =>
              if beq q DQUOTE
              then ParseMimeValueParams_parseQuotedParamValue current2
              else ParseMimeValueParams_parseUnquotedParamValue current2
            end) as [value valueLen].
  cbn [snd]. apply Hskip. etransitivity; [apply length_after_le | exact H2].
Qed.

Lemma parseParams_loop_fuel (fuel : nat) (current : bytes) (params : gmap bytes bytes) :
  (length current <= fuel)%nat ->
  parseParams_loop (S fuel) current params = parseParams_loop fuel current params.
Proof.
  revert current params. induction fuel as [|fuel IH]; intros current params Hf.
  - destruct current; [reflexivity | cbn [length] in Hf; lia].
  - change (parseParams_loop (S (S fuel)) current params)
      with (match current with
            | [] => params
            | _ :: _ =>
              let '(kv, next) := parseParams_step current in
              parseParams_loop (S fuel) next (storeParam params kv)
            end).
    cbn [parseParams_loop]. destruct current as [|c current']; [reflexivity|].
    pose proof (parseParams_step_progress (c :: current') ltac:(discriminate)) as Hp.
    destruct (parseParams_step (c :: current')) as [kv next]. cbn [snd] in Hp.
    apply IH. lia.
Qed.

Lemma paramOccurrences_fuel (fuel : nat) (current : bytes) :
  (length current <= fuel)%nat ->
  paramOccurrences (S fuel) current = paramOccurrences fuel current.
Proof.
  revert current. induction fuel as [|fuel IH]; intros current Hf.
  - destruct current; [reflexivity | cbn [length] in Hf; lia].
  - change (paramOccurrences (S (S fuel)) current)
      with (match current with
            | [] => []
            | _ :: _ =>
              let '(kv, next) := parseParams_step current in
              match kv with
              | Some x => x :: paramOccurrences (S fuel) next
              | None => paramOccurrences (S fuel) next
              end
            end).
    cbn [paramOccurrences]. destruct current as [|c current']; [reflexivity|].
    pose proof (parseParams_step_progress (c :: current') ltac:(discriminate)) as Hp.
    destruct (parseParams_step (c :: current')) as [kv next]. cbn [snd] in Hp.
    destruct kv; [f_equal|]; apply IH; lia.
Qed.

Lemma decodeHeaderBase64_step_progress (b rest decoded : bytes) :
  b <> [] -> decodeHeaderBase64_step b = (decoded, Some rest) ->
  (length rest < length b)%nat.
Proof.
  intros Hne. unfold decodeHeaderBase64_step.
  destruct (Index_range b (B "=")) as [Hi | Hi]; [discriminate | |].
  - rewrite Hi. cbn. discriminate.
  - destruct (_ <? 0) eqn:E; [apply Z.ltb_lt in E; lia|].
    intros [= _ <-]. apply length_after_pos; [|exact Hne].
    unfold decodeHeaderBase64_skip.
    assert (len (dropWhile (beq "="%char) (after b (Index b (B "=") + 1)))
            <= len (after b (Index b (B "=") + 1))).
    { destruct (dropWhile_drop (beq "="%char) (after b (Index b (B "=") + 1)))
        as (k & _ & ->). apply len_after_le_drop. }
    change (B "=") with ["="%char] in *. lia.
Qed.

Lemma decodeHeaderBase64_loop_fuel (fuel : nat) (b : bytes) (result : list bytes) :
  (length b <= fuel)%nat ->
  decodeHeaderBase64_loop (S fuel) b result = decodeHeaderBase64_loop fuel b result.
Proof.
  revert b result. induction fuel as [|fuel IH]; intros b result Hf.
  - destruct b; [reflexivity | cbn [length] in Hf; lia].
  - change (decodeHeaderBase64_loop (S (S fuel)) b result)
      with (if 0 <? len b then
              match decodeHeaderBase64_step b with
              | (decoded, Some rest) =>
                decodeHeaderBase64_loop (S fuel) rest (result ++ [decoded])
              | (decoded, None) => result ++ [decoded]
              end
            else result).
    cbn [decodeHeaderBase64_loop].
    destruct (0 <? len b) eqn:E0; [|reflexivity].
    destruct (decodeHeaderBase64_step b) as [decoded [rest|]] eqn:E; [|reflexivity].
    apply IH.
    assert (b <> []) by (intros ->; discriminate).
    pose proof (decodeHeaderBase64_step_progress _ _ _ H E). lia.
Qed.

Lemma decodeQuantum_progress (s : bytes) (dbuf : list Z) :
  (length (fst (fst (decodeQuantum s dbuf))) <= pred (length s))%nat.
Proof.
  revert dbuf. induction s as [|c s IH]; intros dbuf; cbn [decodeQuantum].
  - destruct dbuf; cbn; lia.
  - assert (Hd : forall x : bytes, (length (dropWhile isNL x) <= length x)%nat).
    { intros x. destruct (dropWhile_drop isNL x) as (k & _ & ->).
      rewrite length_drop. lia. }
    assert (Hq : forall d x, (length (fst (fst (quantumAfterPad d x))) <= length x)%nat).
    { intros d x. cbn. apply Hd. }
    cbn [length Nat.pred].
    destruct (negb (b64val c =? 255)).
    { destruct (_ =? 4)%nat; [cbn; lia|]. specialize (IH (dbuf ++ [b64val c])). lia. }
    destruct (isNL c); [specialize (IH dbuf); lia|].
    destruct (negb (beq c "="%char)); [cbn; lia|].
    destruct (length dbuf) as [|[|[|k]]]; try (cbn; lia); try apply Hq.
    specialize (Hd s).
    destruct (dropWhile isNL s) as [|c2 s3]; [cbn; lia|].
    destruct (beq c2 "="%char); [|cbn [fst]; exact Hd].
    etransitivity; [apply Hq|]. cbn [length] in Hd. lia.
Qed.

Lemma base64_Decode_S (fuel : nat) (s : bytes) :
  base64_Decode (S fuel) s
  = match s with
    | [] => ([], false)
    | _ :: _ =>
      let '(rest, out, err) := decodeQuantum s [] in
      if err then (out, true)
      else let '(out', err') := base64_Decode fuel rest in (out ++ out', err')
    end.
Proof. reflexivity. Qed.

Lemma base64_Decode_fuel (fuel : nat) (s : bytes) :
  (length s <= fuel)%nat -> base64_Decode (S fuel) s = base64_Decode fuel s.
Proof.
  revert s. induction fuel as [|fuel IH]; intros s Hf.
  - destruct s; [reflexivity | cbn [length] in Hf; lia].
  - rewrite (base64_Decode_S (S fuel)), (base64_Decode_S fuel).
    destruct s as [|c s']; [reflexivity|].
    pose proof (decodeQuantum_progress (c :: s') []) as Hp.
    destruct (decodeQuantum (c :: s') []) as [[rest out] err]. cbn [fst length Nat.pred] in Hp.
    destruct err; [reflexivity|].
    rewrite IH by (cbn [length] in Hf; lia). reflexivity.
Qed.

(** Every scan of [parseMimeAddress_decodeOne] consumes a byte, so
    [ParseMimeAddress]'s loop runs at most once per byte of the line. *)
Lemma decodeOne_scan_progress (n : nat) (bf : bytes) :
  (length bf <= n)%nat -> forall mode tmp name,
  (length (snd (decodeOne_scan mode bf tmp name)) <= pred (length bf))%nat.
Proof.
  revert bf. induction n as [|n IH]; intros bf Hn mode tmp name.
  - destruct bf; [|cbn [length] in Hn; lia]. destruct mode; cbn; lia.
  - destruct bf as [|ch r]; [destruct mode; cbn; lia|].
    cbn [length] in Hn. cbn [length Nat.pred].
    assert (Hr : forall m t nm,
              (length (snd (decodeOne_scan m r t nm)) <= length r)%nat).
    { intros m t nm. specialize (IH r ltac:(lia) m t nm). lia. }
    destruct mode; cbn [decodeOne_scan].
    + destruct (beq ch DQUOTE); [apply Hr|].
      destruct (isSep ch); [cbn; lia|].
      destruct (beq ch "<"%char); [apply Hr|].
      destruct r as [|x r']; [cbn; lia|]. apply Hr.
    + destruct (beq ch BACKSLASH).
      { destruct r as [|x r']; [cbn; lia|].
        cbn [length] in *. specialize (IH r' ltac:(lia) InQuoted (tmp ++ [x]) name). lia. }
      destruct (beq ch DQUOTE); [|apply Hr].
      destruct r as [|x r']; [cbn; lia|]. apply Hr.
    + destruct (beq ch "<"%char); [apply Hr|].
      destruct (isSep ch || beq ch ">"%char); [cbn; lia|].
      destruct r as [|x r']; [cbn; lia|]. apply Hr.
Qed.

Lemma skipChar_nil (chars bf : bytes) (i : Z) :
  0 <= i -> 0 <= skipChar chars bf i -> bf <> [].
Proof. intros Hi H ->. cbn in H. lia. Qed.

Lemma parseMimeAddress_decodeOne_progress (bf : bytes) (ma : parseMimeAddress_decodeResult) :
  parseMimeAddress_decodeOne bf = Some ma -> (length (leftbf ma) < length bf)%nat.
Proof.
  unfold parseMimeAddress_decodeOne, parseMimeAddress_lineBufferSkipChar.
  destruct (skipChar [SP; HT] bf 0 <? 0) eqn:E; [discriminate|].
  apply Z.ltb_ge in E.
  pose proof (skipChar_nil [SP; HT] bf 0 (Z.le_refl 0) E) as Hne.
  pose proof (decodeOne_scan_progress _ (after bf (skipChar [SP; HT] bf 0))
                (le_n _) InName [] None) as Hp.
  pose proof (length_after_le bf (skipChar [SP; HT] bf 0)) as Hle.
  destruct (decodeOne_scan InName _ [] None) as [[name addr] rest].
  cbn [snd] in Hp.
  assert (length bf <> 0)%nat by (destruct bf; [congruence | cbn; lia]).
  destruct addr as [a|]; [intros [= <-]; cbn [leftbf]; lia|].
  destruct name as [nm|]; [|intros [= <-]; cbn [leftbf]; lia].
  destruct (Contains nm (B "@")); intros [= <-]; cbn [leftbf]; lia.
Qed.

Lemma ParseMimeAddress_loop_fuel (fuel : nat) (bf : bytes) (mas : list MimeAddress) :
  (length bf <= fuel)%nat ->
  ParseMimeAddress_loop (S fuel) bf mas = ParseMimeAddress_loop fuel bf mas.
Proof.
  revert bf mas. induction fuel as [|fuel IH]; intros bf mas Hf.
  - destruct bf; [reflexivity | cbn [length] in Hf; lia].
  - change (ParseMimeAddress_loop (S (S fuel)) bf mas)
      with (if 0 <? len bf then
              match parseMimeAddress_decodeOne bf with
              | None => mas
              | Some ma =>
                ParseMimeAddress_loop (S fuel) (leftbf ma)
                  (if negb (bytes_eqb (address ma) []) || (0 <? len (nameBuffer ma))
                   then mas ++ [mkMimeAddress (nameBuffer ma) [] (address ma)]
                   else mas)
              end
            else mas).
    cbn [ParseMimeAddress_loop].
    destruct (0 <? len bf); [|reflexivity].
    destruct (parseMimeAddress_decodeOne bf) as [ma|] eqn:E; [|reflexivity].
    apply IH. apply parseMimeAddress_decodeOne_progress in E. lia.
Qed.

(** The fuel [length line] that [ParseMimeAddress] gives its loop is
    never used up. *)
Lemma ParseMimeAddress_fuel (line : bytes) (k : nat) :
  ParseMimeAddress_loop (length line + k) line []
  = ParseMimeAddress_loop (length line) line [].
Proof.
  induction k as [|k IH]; [f_equal; lia|].
  rewrite <- IH. replace (length line + S k)%nat with (S (length line + k)) by lia.
  apply ParseMimeAddress_loop_fuel. lia.
Qed.

(** The continuation loops of [ParseParamStringValue] stop at the first
    missing key; the keys they try are pairwise different, so a map of
    [size params] entries that already holds the key of index 0 stops
    them within [size params] rounds. *)
Lemma Itoa_inj (i j : Z) : Itoa i = Itoa j -> i = j.
Proof.
  unfold Itoa, B. intros H.
  apply (f_equal string_of_list_ascii) in H.
  rewrite !string_of_list_ascii_of_string in H.
  assert (Hn : forall z, Z.to_int z <> Decimal.Pos Decimal.Nil
                         /\ Z.to_int z <> Decimal.Neg Decimal.Nil).
  { intros [|p|p]; cbn; split; try discriminate;
      intros [= Hp]; exact (DecimalPos.Unsigned.to_uint_nonnil p Hp). }
  apply (f_equal NilZero.int_of_string) in H.
  destruct (Hn i) as [Hi1 Hi2], (Hn j) as [Hj1 Hj2].
  rewrite !NilZero.isi in H by assumption.
  injection H as H. apply DecimalZ.to_int_inj in H. exact H.
Qed.

Lemma continuationKey_inj (key suffix : bytes) (i j : Z) :
  key ++ B "*" ++ Itoa i ++ suffix = key ++ B "*" ++ Itoa j ++ suffix -> i = j.
Proof.
  intros H. apply app_inv_head in H. apply app_inv_head in H.
  apply app_inv_tail in H. apply Itoa_inj, H.
Qed.

Lemma continuations_length (fuel : nat) (params : gmap bytes bytes)
    (key suffix : bytes) (i : Z) :
  (length (continuations fuel params key suffix i) <= fuel)%nat.
Proof.
  revert i. induction fuel as [|fuel IH]; intros i; cbn [continuations].
  - cbn. lia.
  - destruct (params !! _); cbn [length]; [specialize (IH (i + 1))|]; lia.
Qed.

Lemma continuations_full (fuel : nat) (params : gmap bytes bytes)
    (key suffix : bytes) (i : Z) :
  length (continuations fuel params key suffix i) = fuel ->
  forall j : nat, (j < fuel)%nat ->
  is_Some (params !! (key ++ B "*" ++ Itoa (i + Z.of_nat j) ++ suffix)).
Proof.
  revert i. induction fuel as [|fuel IH]; intros i Hl j Hj; [lia|].
  cbn [continuations] in Hl.
  destruct (params !! (key ++ B "*" ++ Itoa i ++ suffix)) as [v|] eqn:E;
    [|discriminate].
  cbn [length] in Hl. destruct j as [|j].
  - replace (i + Z.of_nat 0) with i by lia. rewrite E. eauto.
  - replace (i + Z.of_nat (S j)) with ((i + 1) + Z.of_nat j) by lia.
    apply IH; lia.
Qed.

Lemma continuations_stop (fuel : nat) (params : gmap bytes bytes)
    (key suffix : bytes) (i : Z) :
  (length (continuations fuel params key suffix i) < fuel)%nat ->
  continuations (S fuel) params key suffix i = continuations fuel params key suffix i.
Proof.
  revert i. induction fuel as [|fuel IH]; intros i Hl; [cbn in Hl; lia|].
  change (continuations (S (S fuel)) params key suffix i)
    with (match params !! (key ++ B "*" ++ Itoa i ++ suffix) with
          | Some val => val :: continuations (S fuel) params key suffix (i + 1)
          | None => []
          end).
  cbn [continuations] in *.
  destruct (params !! (key ++ B "*" ++ Itoa i ++ suffix)); [|reflexivity].
  f_equal. apply IH. cbn [length] in Hl. lia.
Qed.

Lemma present_keys_bound (params : gmap bytes bytes) (key suffix : bytes) (n : nat) :
  (forall j : nat, (j < n)%nat ->
     is_Some (params !! (key ++ B "*" ++ Itoa (Z.of_nat j) ++ suffix))) ->
  (n <= size params)%nat.
Proof.
  intros Hall.
  set (f := fun j : nat => key ++ B "*" ++ Itoa (Z.of_nat j) ++ suffix).
  assert (Hnd : NoDup (f <$> seq 0 n)).
  { apply NoDup_fmap_2_strong; [|apply NoDup_seq].
    intros x y _ _ Hxy. apply continuationKey_inj in Hxy. lia. }
  rewrite <- (size_dom (D := gset bytes) params).
  assert (Hsz : size (list_to_set (C := gset bytes) (f <$> seq 0 n)) = n).
  { rewrite (size_list_to_set (C := gset bytes) _ Hnd), length_fmap.
    apply length_seq. }
  rewrite <- Hsz at 1.
  apply subseteq_size. intros k Hk.
  apply elem_of_list_to_set, list_elem_of_fmap in Hk as (j & -> & Hj).
  apply elem_of_seq in Hj. apply elem_of_dom, Hall. lia.
Qed.

Lemma continuationKey_0 (key : bytes) :
  key ++ B "*0*" = key ++ B "*" ++ Itoa 0 ++ B "*"
  /\ key ++ B "*0" = key ++ B "*" ++ Itoa 0 ++ [].
Proof. split; reflexivity. Qed.

Lemma continuations_fuel (params : gmap bytes bytes) (key suffix : bytes) (k : nat) :
  is_Some (params !! (key ++ B "*" ++ Itoa 0 ++ suffix)) ->
  continuations (size params + k) params key suffix 1
  = continuations (size params) params key suffix 1.
Proof.
  intros H0. induction k as [|k IH]; [f_equal; lia|].
  rewrite <- IH. replace (size params + S k)%nat with (S (size params + k)) by lia.
  apply continuations_stop.
  pose proof (continuations_length (size params + k) params key suffix 1) as Hle.
  destruct (decide (length (continuations (size params + k) params key suffix 1)
                    = (size params + k)%nat)) as [Hfull|]; [|lia].
  exfalso.
  pose proof (continuations_full _ _ _ _ _ Hfull) as Hall.
  pose proof (present_keys_bound params key suffix (S (size params + k))) as Hb.
  assert (S (size params + k) <= size params)%nat; [|lia].
  apply Hb. intros [|j] Hj; [exact H0|].
  replace (Z.of_nat (S j)) with (1 + Z.of_nat j) by lia. apply Hall. lia.
Qed.

(** ** C10 *)

(** C10: the [headerName] argument of [IsTnef] has no effect: for every
    parser state and node, the result (and the state left behind) is
    the same for any two header names, and the answer is the [isTnef]
    bit that classification leaves on the node. *)
Theorem IsTnef_headerName_irrelevant (p : EmailParser) (n : nodeRef) (s1 s2 : bytes) :
  IsTnef p n s1 = IsTnef p n s2
  /\ fst (IsTnef p n s1) = nodeBool isTnef (classifyNodes p) n.
Proof. split; reflexivity. Qed.

(** ** C4 *)

(** C4: [GetMessageID] never sets [messageIDDealed]: whatever the state,
    the flag after the call is the flag before it, so on a parser whose
    flag is unset every call takes the deriving branch again. *)
Theorem GetMessageID_leaves_flag (p : EmailParser) :
  messageIDDealed (snd (GetMessageID p)) = messageIDDealed p
  /\ (messageIDDealed p = false ->
      let p1 := snd (GetMessageID p) in
      GetMessageID p1
      = (TrimBytes (topHeader p1 "MESSAGE-ID") cidSet,
         set_messageID (TrimBytes (topHeader p1 "MESSAGE-ID") cidSet) p1)).
Proof.
  unfold GetMessageID. destruct (messageIDDealed p) eqn:E; cbn.
  - split; [exact E | discriminate].
  - rewrite E. split; [reflexivity | intros _; reflexivity].
Qed.

(** The sibling accessors do set their flag: after the first call of
    [GetSubject] the flag is set and a second call returns the cached
    value and leaves the state as it is. *)
Lemma GetSubject_memoised (p : EmailParser) :
  let '(v, p1) := GetSubject p in
  subjectDealed p = false ->
  subjectDealed p1 = true /\ GetSubject p1 = (v, p1).
Proof.
  unfold GetSubject. destruct (subjectDealed p) eqn:E; cbn; [discriminate|].
  intros _. split; reflexivity.
Qed.

Lemma parseDate_dateDealed (p : EmailParser) :
  dateDealed (parseDate p) = dateDealed p.
Proof.
  unfold parseDate. cbv zeta.
  repeat match goal with
         | |- context [match ?x with _ => _ end] => destruct x
         end; reflexivity.
Qed.

Tactic Notation "memoise" reference(get) constr(flag) :=
  let p := fresh "p" in
  let E := fresh "E" in
  intros p; unfold get; destruct (flag p) eqn:E; cbn [fst snd];
  rewrite ?parseDate_dateDealed; cbn; rewrite ?E; split; reflexivity.

(** X1: the eleven accessors other than [GetMessageID] are memoised by
    their flag ([GetDate] and [GetDateUnix] share [dateDealed]): a call
    leaves the flag set, and a call after it returns the same value and
    leaves the state as it is. *)
Lemma sibling_accessors_memoised :
  memoisedBy subjectDealed GetSubject
  /\ memoisedBy dateDealed GetDate
  /\ memoisedBy dateDealed GetDateUnix
  /\ memoisedBy fromDealed GetFrom
  /\ memoisedBy toDealed GetTo
  /\ memoisedBy ccDealed GetCc
  /\ memoisedBy bccDealed GetBcc
  /\ memoisedBy senderDealed GetSender
  /\ memoisedBy replyToDealed GetReplyTo
  /\ memoisedBy dispositionNotificationToDealed GetDispositionNotificationTo
  /\ memoisedBy referencesDealed GetReferences.
Proof.
  split; [memoise GetSubject subjectDealed|].
  split; [memoise GetDate dateDealed|].
  split; [memoise GetDateUnix dateDealed|].
  split; [memoise GetFrom fromDealed|].
  split; [memoise GetTo toDealed|].
  split; [memoise GetCc ccDealed|].
  split; [memoise GetBcc bccDealed|].
  split; [memoise GetSender senderDealed|].
  split; [memoise GetReplyTo replyToDealed|].
  split; [memoise GetDispositionNotificationTo dispositionNotificationToDealed|].
  memoise GetReferences referencesDealed.
Qed.

(** ** C3 *)

(** C3 (amended): with nothing between the two encoded-words the
    segments are merged and decoded as one block, the three bytes that
    base64 gives for ABCD; with one space between them the space is a
    segment of its own, nothing is merged, and each payload is decoded
    alone (AB and CD are not complete base64 quanta and decode to
    nothing). *)
Theorem encoded_words_merge_only_when_adjacent :
  ParseMimeValueTokenNodes twoWordsAdjacent
  = [mkTokenNode (decodeHeaderBase64 (B "ABCD")) (B "UTF-8")]
  /\ decodeHeaderBase64 (B "ABCD") = List.map byteOf [0; 16; 131]
  /\ ParseMimeValueTokenNodes twoWordsSpaced
     = [mkTokenNode (decodeHeaderBase64 (B "AB")) (B "UTF-8");
        mkTokenNode (B " ") [];
        mkTokenNode (decodeHeaderBase64 (B "CD")) (B "UTF-8")]
  /\ decodeHeaderBase64 (B "AB") = []
  /\ decodeHeaderBase64 (B "CD") = [].
Proof. repeat split; vm_compute; reflexivity. Qed.

(** ** C1 *)

(** The scanner records the two adjacent delimiter lines with the start
    of the second equal to the end of the first. *)
Lemma adjacentDelimiters_scan :
  scanAllBoundaries adjacentDelimiters
  = [mkBoundaryPos (B "b") 43 47; mkBoundaryPos (B "b") 47 51].
Proof. vm_compute. reflexivity. Qed.

(** C1: on a message with two adjacent delimiter lines [parseMime]
    evaluates [p.EmailData[47:46]] and the constructor panics. *)
Theorem EmailParserNew_panics_on_adjacent_delimiters :
  EmailParserNew (B "UTF-8") adjacentDelimiters = Panic
  /\ slice adjacentDelimiters 47 (47 - 1) = None.
Proof. split; vm_compute; reflexivity. Qed.

(** * Further properties of the code *)

(** ** The facade: the node lists *)

Lemma classifyNodes_flags (p : EmailParser) :
  nodeClassified (classifyNodes p) = true
  /\ alternativeShowNodesDealed (classifyNodes p) = alternativeShowNodesDealed p
  /\ inlineAttachmentNodesDealed (classifyNodes p) = inlineAttachmentNodesDealed p.
Proof.
  unfold classifyNodes. destruct (nodeClassified p) eqn:E; [auto|].
  destruct (walkAllNode _ _ _) as [top [text att]]. cbn. auto.
Qed.

Lemma classifyNodes_done (p : EmailParser) :
  nodeClassified p = true -> classifyNodes p = p.
Proof. unfold classifyNodes. intros ->. reflexivity. Qed.

Lemma classifyAlternativeShowNodes_flags (p : EmailParser) :
  alternativeShowNodesDealed (classifyAlternativeShowNodes p) = true
  /\ (alternativeShowNodesDealed p = false ->
      nodeClassified (classifyAlternativeShowNodes p) = true)
  /\ inlineAttachmentNodesDealed (classifyAlternativeShowNodes p)
     = inlineAttachmentNodesDealed p.
Proof.
  unfold classifyAlternativeShowNodes.
  destruct (alternativeShowNodesDealed p) eqn:E.
  - split; [exact E|]. split; [discriminate | reflexivity].
  - destruct (groupTextNodes _ _ _ _) as [v m]. cbn.
    destruct (classifyNodes_flags (set_alternativeShowNodesDealed true p))
      as (F1 & F2 & F3).
    auto.
Qed.

(** X2: the three node-list accessors are memoised by their flags: a
    second call returns the list of the first call and leaves the state
    as it is, so the walk that appends to the lists runs once. *)
Theorem node_lists_memoised :
  memoisedBy nodeClassified GetTextNodes
  /\ memoisedBy nodeClassified GetAttachmentNodes
  /\ memoisedBy alternativeShowNodesDealed GetAlternativeShowNodes.
Proof.
  split; [|split]; intros p.
  - unfold GetTextNodes. destruct (nodeClassified p) eqn:E; cbn [fst snd].
    + rewrite E. auto.
    + destruct (classifyNodes_flags p) as (F & _). rewrite F. auto.
  - unfold GetAttachmentNodes. destruct (nodeClassified p) eqn:E; cbn [fst snd].
    + rewrite E. auto.
    + destruct (classifyNodes_flags p) as (F & _). rewrite F. auto.
  - unfold GetAlternativeShowNodes.
    destruct (alternativeShowNodesDealed p) eqn:E; cbn [fst snd].
    + rewrite E. auto.
    + destruct (classifyAlternativeShowNodes_flags p) as (F & _). rewrite F. auto.
Qed.

(** ** The facade: references *)

Lemma bytes_eqb_nil (a : bytes) : bytes_eqb a [] = false -> a <> [].
Proof. intros H ->. discriminate. Qed.

Lemma FieldsFunc_fields (f : ascii -> bool) (s cur : bytes) :
  Forall (fun c => f c = false) cur ->
  Forall (fun fld => fld <> [] /\ Forall (fun c => f c = false) fld)
         (FieldsFunc f s cur).
Proof.
  revert cur. induction s as [|c s IH]; intros cur Hc; cbn [FieldsFunc].
  - destruct (bytes_eqb cur []) eqn:E; [constructor|].
    constructor; [|constructor]. split; [apply bytes_eqb_nil, E | exact Hc].
  - destruct (f c) eqn:Fc.
    + apply Forall_app. split; [|apply IH; constructor].
      destruct (bytes_eqb cur []) eqn:E; [constructor|].
      constructor; [|constructor]. split; [apply bytes_eqb_nil, E | exact Hc].
    + apply IH. apply Forall_app. split; [exact Hc|]. repeat constructor. exact Fc.
Qed.

Lemma TrimSpace_Forall (P : ascii -> Prop) (s : bytes) :
  Forall P s -> Forall P (TrimSpace s).
Proof.
  intros H. unfold TrimSpace.
  destruct (TrimLeftSpace_drop s) as (k & _ & ->).
  destruct (TrimRightSpace_take (drop k s)) as (j & _ & ->).
  apply Forall_take, Forall_drop, H.
Qed.

(** X3: no reference that [GetReferences] derives is empty, and none
    holds a comma, a semicolon, an angle bracket, a space, a tab or a
    line break. *)
Theorem references_are_clean (p : EmailParser) :
  referencesDealed p = false ->
  Forall (fun ref => ref <> [] /\ Forall (fun c => isRefDelim c = false) ref)
         (fst (GetReferences p)).
Proof.
  intros E. unfold GetReferences. rewrite E. cbn [fst references set_references].
  apply Forall_forall. intros ref Hin.
  apply list_elem_of_In, filter_In in Hin as [Hin Hne].
  apply in_map_iff in Hin as (fld & <- & Hfld).
  split; [apply bytes_eqb_nil, negb_true_iff, Hne|].
  apply TrimSpace_Forall.
  pose proof (FieldsFunc_fields isRefDelim
                (topHeader (set_referencesDealed true p) "REFERENCES") []
                (Forall_nil_2 _)) as HF.
  rewrite Forall_forall in HF. apply (HF fld), list_elem_of_In, Hfld.
Qed.

(** ** The facade: the nodes to show *)

Lemma insertByStart_perm (root : MIMENode) (n : nodeRef) (l : list nodeRef) :
  insertByStart root n l ≡ₚ n :: l.
Proof.
  induction l as [|m l IH]; cbn [insertByStart]; [reflexivity|].
  destruct (_ <? _); [reflexivity|]. rewrite IH. apply Permutation_swap.
Qed.

Lemma sortByStart_perm (root : MIMENode) (l : list nodeRef) :
  sortByStart root l ≡ₚ l.
Proof.
  unfold sortByStart.
  assert (H : forall acc, fold_left (fun acc n => insertByStart root n acc) l acc ≡ₚ acc ++ l).
  { induction l as [|n l IH]; intros acc; cbn [fold_left].
    - rewrite app_nil_r. reflexivity.
    - rewrite IH, insertByStart_perm. apply Permutation_middle. }
  apply (H []).
Qed.

Lemma insertByStart_sorted (root : MIMENode) (n : nodeRef) (l : list nodeRef) :
  StronglySorted (fun a b => headerStartOf root a <= headerStartOf root b) l ->
  StronglySorted (fun a b => headerStartOf root a <= headerStartOf root b)
                 (insertByStart root n l).
Proof.
  induction 1 as [|m l Hs IH Hm]; cbn [insertByStart].
  - repeat constructor.
  - destruct (_ <? _) eqn:E.
    + apply Z.ltb_lt in E. constructor; [constructor; assumption|].
      constructor; [lia|]. eapply Forall_impl; [exact Hm|]. cbn. intros; lia.
    + apply Z.ltb_ge in E. constructor; [exact IH|].
      rewrite insertByStart_perm. constructor; assumption.
Qed.

Lemma sortByStart_sorted (root : MIMENode) (l : list nodeRef) :
  ascending root (sortByStart root l).
Proof.
  assert (H : StronglySorted (fun a b => headerStartOf root a <= headerStartOf root b)
                             (sortByStart root l)).
  { unfold sortByStart.
    assert (G : forall acc,
               StronglySorted (fun a b => headerStartOf root a <= headerStartOf root b) acc ->
               StronglySorted (fun a b => headerStartOf root a <= headerStartOf root b)
                 (fold_left (fun acc n => insertByStart root n acc) l acc)).
    { induction l as [|n l IH]; intros acc Ha; cbn [fold_left]; [exact Ha|].
      apply IH, insertByStart_sorted, Ha. }
    apply G. constructor. }
  revert H. generalize (sortByStart root l). intros s Hs.
  induction Hs as [|m s Hs IH Hm]; intros i j a b Hij Hi Hj; [destruct i; discriminate|].
  destruct j as [|j]; [lia|]. cbn in Hj.
  destruct i as [|i]; cbn in Hi.
  - injection Hi as <-. rewrite Forall_forall in Hm.
    apply Hm. eapply list_elem_of_lookup_2, Hj.
  - apply (IH i j); [lia | assumption | assumption].
Qed.

Lemma groupsOK_skip (root : MIMENode) (done vec : list nodeRef)
    (set : gmap bytes alternativeSet) (r : nodeRef) :
  groupsOK root done vec set -> groupKey root r = [] ->
  groupsOK root (done ++ [r]) (vec ++ [r]) set.
Proof.
  intros (H1 & H2 & H3) Hk. split; [|split].
  - intros r'. rewrite !elem_of_app, !list_elem_of_singleton, H1.
    split; [intros [[? ?] | ->]; auto | intros [[?| ->] ?]; auto].
  - intros k s Hs. destruct (H2 k s Hs) as (A & Bh & Bp). split; [exact A|].
    split; intros r' Hr'; [destruct (Bh r' Hr') as (? & ? & ?) |
                           destruct (Bp r' Hr') as (? & ? & ?)];
      rewrite elem_of_app; auto.
  - intros r' Hr' Hne. apply elem_of_app in Hr' as [Hr' | Hr'].
    + apply H3; assumption.
    + apply list_elem_of_singleton in Hr' as ->. congruence.
Qed.

Lemma groupsOK_store (root : MIMENode) (done vec : list nodeRef)
    (set : gmap bytes alternativeSet) (r : nodeRef) :
  groupsOK root done vec set -> groupKey root r <> [] ->
  subTypeAt root r = B "HTML" \/ subTypeAt root r = B "PLAIN" ->
  let ns := default (mkAlternativeSet None None) (set !! groupKey root r) in
  let ns' :=
    if bytes_eqb (subTypeAt root r) (B "HTML") then mkAlternativeSet (Some r) (as_PLAIN ns)
    else if bytes_eqb (subTypeAt root r) (B "PLAIN") then mkAlternativeSet (as_HTML ns) (Some r)
    else ns in
  groupsOK root (done ++ [r]) vec (<[groupKey root r := ns']> set).
Proof.
  intros (H1 & H2 & H3) Hk Hsub ns ns'.
  assert (Hold : forall r', (as_HTML ns = Some r' ->
                   r' ∈ done /\ groupKey root r' = groupKey root r
                   /\ subTypeAt root r' = B "HTML")
                 /\ (as_PLAIN ns = Some r' ->
                   r' ∈ done /\ groupKey root r' = groupKey root r
                   /\ subTypeAt root r' = B "PLAIN")).
  { intros r'. subst ns. destruct (set !! groupKey root r) as [s0|] eqn:E0; cbn.
    - destruct (H2 _ _ E0) as (_ & Bh & Bp). split; auto.
    - split; discriminate. }
  split; [|split].
  - intros r'. rewrite elem_of_app, list_elem_of_singleton, H1.
    split; [intros [? ?]; auto | intros [[?| ->] ?]; [auto | congruence]].
  - intros k s Hs.
    destruct (decide (k = groupKey root r)) as [-> | Hne].
    + rewrite lookup_insert_eq in Hs. injection Hs as <-. split; [exact Hk|].
      subst ns'. destruct Hsub as [Hh | Hp].
      * rewrite Hh. cbn. split; intros r' Hr'.
        -- injection Hr' as <-. rewrite elem_of_app, list_elem_of_singleton. auto.
        -- destruct (proj2 (Hold r') Hr') as (? & ? & ?). rewrite elem_of_app. auto.
      * rewrite Hp. cbn. split; intros r' Hr'.
        -- destruct (proj1 (Hold r') Hr') as (? & ? & ?). rewrite elem_of_app. auto.
        -- injection Hr' as <-. rewrite elem_of_app, list_elem_of_singleton. auto.
    + rewrite lookup_insert_ne in Hs by congruence.
      destruct (H2 k s Hs) as (A & Bh & Bp). split; [exact A|].
      split; intros r' Hr'; [destruct (Bh r' Hr') as (? & ? & ?) |
                             destruct (Bp r' Hr') as (? & ? & ?)];
        rewrite elem_of_app; auto.
  - intros r' Hr' Hne.
    destruct (decide (groupKey root r' = groupKey root r)) as [He | Hd].
    + rewrite He, lookup_insert_eq. eexists; split; [reflexivity|].
      assert (Hprev : r' ∈ done ->
                (subTypeAt root r' = B "HTML" -> is_Some (as_HTML ns))
                /\ (subTypeAt root r' = B "PLAIN" -> is_Some (as_PLAIN ns))).
      { intros Hd. destruct (H3 r' Hd Hne) as (s0 & E0 & Ah & Ap).
        subst ns. rewrite <- He, E0. cbn. auto. }
      apply elem_of_app in Hr' as [Hr' | Hr'].
      * destruct (Hprev Hr') as (Ah & Ap). subst ns'.
        destruct Hsub as [Hh | Hp]; [rewrite Hh | rewrite Hp]; cbn; split; eauto.
      * apply list_elem_of_singleton in Hr' as ->. subst ns'.
        destruct Hsub as [Hh | Hp]; [rewrite Hh | rewrite Hp]; cbn;
          split; eauto; intros; discriminate.
    + rewrite lookup_insert_ne by congruence.
      apply elem_of_app in Hr' as [Hr' | Hr'].
      * apply H3; assumption.
      * apply list_elem_of_singleton in Hr' as ->. congruence.
Qed.

Lemma groupTextNodes_ok (root : MIMENode) (nodes : list nodeRef) :
  forall done vec set vec' set',
    groupsOK root done vec set ->
    groupTextNodes root nodes vec set = (vec', set') ->
    groupsOK root (done ++ nodes) vec' set'.
Proof.
  induction nodes as [|r nodes IH]; intros done vec set vec' set' H;
    cbn [groupTextNodes].
  - intros [= <- <-]. rewrite app_nil_r. exact H.
  - cbv zeta.
    change (subTypeOf (default [] (ContentType <$> nodeAt root r)))
      with (subTypeAt root r).
    replace (done ++ r :: nodes) with ((done ++ [r]) ++ nodes)
      by (rewrite <- app_assoc; reflexivity).
    destruct (negb (bytes_eqb (subTypeAt root r) (B "HTML"))
              && negb (bytes_eqb (subTypeAt root r) (B "PLAIN"))) eqn:C.
    + apply IH, groupsOK_skip; [exact H|]. unfold groupKey. rewrite C. reflexivity.
    + assert (Hkey : alternativeKeyOf (S (length r)) root (Parent r) = groupKey root r).
      { unfold groupKey. rewrite C. reflexivity. }
      rewrite Hkey.
      destruct (bytes_eqb (groupKey root r) []) eqn:K.
      * apply IH, groupsOK_skip; [exact H|]. apply bytes_eqb_eq, K.
      * apply IH. apply (groupsOK_store root done vec set r H).
        -- apply bytes_eqb_nil, K.
        -- apply andb_false_iff in C as [C | C]; apply negb_false_iff, bytes_eqb_eq in C; auto.
Qed.

Lemma groupsOK_start (root : MIMENode) : groupsOK root [] [] ∅.
Proof.
  split; [|split].
  - intros r. split; [intros H | intros [H _]]; inversion H.
  - intros k s H. rewrite lookup_empty in H. discriminate.
  - intros r H. inversion H.
Qed.

Lemma alternativeKeyOf_shape (fuel : nat) (root : MIMENode) (parent : option nodeRef) :
  alternativeKeyOf fuel root parent = []
  \/ HasPrefix (alternativeKeyOf fuel root parent) (B "^_^") = true.
Proof.
  revert parent. induction fuel as [|fuel IH]; intros parent; cbn [alternativeKeyOf];
    [auto|].
  destruct parent as [q|]; [|auto].
  destruct (nodeAt root q) as [pn|]; [|auto].
  destruct (bytes_eqb _ _); [right; apply HasPrefix_app | apply IH].
Qed.

Lemma groupKey_shape (root : MIMENode) (r : nodeRef) :
  groupKey root r <> [] ->
  HasPrefix (groupKey root r) (B "^_^") = true
  /\ (subTypeAt root r = B "HTML" \/ subTypeAt root r = B "PLAIN").
Proof.
  unfold groupKey.
  destruct (negb (bytes_eqb (subTypeAt root r) (B "HTML"))
            && negb (bytes_eqb (subTypeAt root r) (B "PLAIN"))) eqn:C;
    [congruence|].
  intros Hne. split.
  - destruct (alternativeKeyOf_shape (S (length r)) root (Parent r)); [congruence | assumption].
  - apply andb_false_iff in C as [C | C]; apply negb_false_iff, bytes_eqb_eq in C; auto.
Qed.

(** The nodes that the second loop appends, for the groups [l]. *)
Lemma pickShown_elem (root : MIMENode) (done vec : list nodeRef)
    (set : gmap bytes alternativeSet) (k : bytes) (s : alternativeSet) (r : nodeRef) :
  groupsOK root done vec set -> set !! k = Some s -> r ∈ pickShown (k, s) ->
  r ∈ done /\ groupKey root r = k.
Proof.
  intros (_ & H2 & _) Hs Hr. destruct (H2 k s Hs) as (_ & Bh & Bp).
  unfold pickShown in Hr. cbn [fst snd] in Hr.
  destruct (negb (HasPrefix k (B "^_^"))); [inversion Hr|].
  destruct (as_HTML s) as [h|] eqn:Eh.
  - apply list_elem_of_singleton in Hr as ->. destruct (Bh h eq_refl) as (? & ? & ?). auto.
  - destruct (as_PLAIN s) as [pl|] eqn:Ep; [|inversion Hr].
    apply list_elem_of_singleton in Hr as ->. destruct (Bp pl eq_refl) as (? & ? & ?). auto.
Qed.

(** X4: the nodes that [GetAlternativeShowNodes] derives are in
    ascending order of [HeaderStart]; each of them is one of the text
    nodes; and every text node that is in no alternative group is among
    them. *)
Theorem shown_nodes_sorted (p : EmailParser) :
  alternativeShowNodesDealed p = false ->
  let '(shown, p1) := GetAlternativeShowNodes p in
  ascending (topNode p1) shown
  /\ (forall r, r ∈ shown -> r ∈ textNodes p1)
  /\ (forall r, r ∈ textNodes p1 -> groupKey (topNode p1) r = [] -> r ∈ shown).
Proof.
  intros E. unfold GetAlternativeShowNodes. rewrite E.
  unfold classifyAlternativeShowNodes. rewrite E.
  set (p0 := classifyNodes (set_alternativeShowNodesDealed true p)).
  destruct (groupTextNodes (topNode p0) (textNodes p0) [] ∅) as [vec set] eqn:G.
  cbn [alternativeShowNodes set_alternativeShowNodes topNode textNodes].
  pose proof (groupTextNodes_ok _ _ _ _ _ _ _ (groupsOK_start (topNode p0)) G) as Hok.
  rewrite app_nil_l in Hok.
  split; [apply sortByStart_sorted|].
  split; intros r; rewrite sortByStart_perm, elem_of_app.
  - intros [Hr | Hr].
    + destruct Hok as (H1 & _). apply H1 in Hr. tauto.
    + apply list_elem_of_In, in_concat in Hr as (x & Hx & Hr).
      apply in_map_iff in Hx as ([k s] & <- & Hks).
      apply list_elem_of_In, elem_of_map_to_list in Hks.
      apply list_elem_of_In in Hr.
      destruct (pickShown_elem _ _ _ _ _ _ _ Hok Hks Hr). assumption.
  - intros Hr Hk. left. destruct Hok as (H1 & _). apply H1. auto.
Qed.

Lemma filter_group_none (root : MIMENode) (k : bytes) (l : list nodeRef) :
  (forall r, r ∈ l -> groupKey root r <> k) ->
  filter (fun r => groupKey root r = k) l = [].
Proof.
  induction l as [|r l IH]; intros H; [reflexivity|].
  rewrite filter_cons_False by (apply H; left).
  apply IH. intros r' Hr'. apply H. right. exact Hr'.
Qed.

Lemma filter_group_picks (root : MIMENode) (done vec : list nodeRef)
    (set : gmap bytes alternativeSet) (k : bytes) (s : alternativeSet) (r : nodeRef)
    (l : list (bytes * alternativeSet)) :
  groupsOK root done vec set ->
  (forall kv, kv ∈ l -> set !! fst kv = Some (snd kv)) ->
  NoDup l.*1 -> (k, s) ∈ l -> pickShown (k, s) = [r] ->
  filter (fun r => groupKey root r = k) (concat (List.map pickShown l)) = [r].
Proof.
  intros Hok. induction l as [|[k' s'] l IH]; intros Hl Hnd Hin Hp; [inversion Hin|].
  cbn [concat List.map]. rewrite filter_app.
  cbn [fmap list_fmap fst] in Hnd. apply NoDup_cons in Hnd as [Hnotin Hnd].
  assert (Hs' : set !! k' = Some s') by (apply (Hl (k', s')); left).
  assert (Hrest : forall kv, kv ∈ l -> set !! fst kv = Some (snd kv))
    by (intros kv Hkv; apply Hl; right; exact Hkv).
  apply elem_of_cons in Hin as [Heq | Hin].
  - injection Heq as <- <-. rewrite Hp.
    rewrite (filter_group_none root k (concat (List.map pickShown l))).
    + rewrite filter_cons_True; [reflexivity|].
      apply (pickShown_elem root done vec set k s r Hok Hs'). rewrite Hp. left.
    + intros r' Hr' Hk.
      apply list_elem_of_In, in_concat in Hr' as (x & Hx & Hr').
      apply in_map_iff in Hx as ([k2 s2] & <- & Hks).
      apply list_elem_of_In in Hks, Hr'.
      destruct (pickShown_elem root done vec set k2 s2 r' Hok (Hrest _ Hks) Hr') as (_ & Hk2).
      apply Hnotin. apply list_elem_of_fmap. exists (k2, s2). split; [|exact Hks].
      cbn. congruence.
  - rewrite (filter_group_none root k (pickShown (k', s'))).
    + apply IH; assumption.
    + intros r' Hr' Hk.
      destruct (pickShown_elem root done vec set k' s' r' Hok Hs' Hr') as (_ & Hk2).
      apply Hnotin. apply list_elem_of_fmap. exists (k, s). split; [|exact Hin].
      cbn. congruence.
Qed.

(** X5: of the text nodes of one alternative group, that is, the HTML
    and PLAIN text nodes with the same nearest multipart/alternative
    ancestor, [GetAlternativeShowNodes] shows exactly one, and it shows
    an HTML node when the group has one. *)
Theorem one_shown_node_per_alternative (p : EmailParser) (r0 : nodeRef) :
  alternativeShowNodesDealed p = false ->
  let '(shown, p1) := GetAlternativeShowNodes p in
  r0 ∈ textNodes p1 -> groupKey (topNode p1) r0 <> [] ->
  exists r,
    filter (fun r' => groupKey (topNode p1) r' = groupKey (topNode p1) r0) shown = [r]
    /\ ((exists h, h ∈ textNodes p1
                   /\ groupKey (topNode p1) h = groupKey (topNode p1) r0
                   /\ subTypeAt (topNode p1) h = B "HTML")
        -> subTypeAt (topNode p1) r = B "HTML").
Proof.
  intros E. unfold GetAlternativeShowNodes. rewrite E.
  unfold classifyAlternativeShowNodes. rewrite E.
  set (p0 := classifyNodes (set_alternativeShowNodesDealed true p)).
  destruct (groupTextNodes (topNode p0) (textNodes p0) [] ∅) as [vec set] eqn:G.
  cbn [alternativeShowNodes set_alternativeShowNodes topNode textNodes].
  pose proof (groupTextNodes_ok _ _ _ _ _ _ _ (groupsOK_start (topNode p0)) G) as Hok.
  rewrite app_nil_l in Hok.
  intros Hr0 Hk.
  set (root := topNode p0) in *. set (k := groupKey root r0) in *.
  destruct (groupKey_shape root r0 Hk) as (Hpre & Hsub).
  fold k in Hpre.
  pose proof Hok as (H1 & H2 & H3).
  destruct (H3 r0 Hr0 Hk) as (s & Hs & Ah & Ap). fold k in Hs.
  assert (Hpick : exists r, pickShown (k, s) = [r]
                   /\ (is_Some (as_HTML s) -> as_HTML s = Some r)).
  { unfold pickShown. cbn [fst snd]. rewrite Hpre. cbn [negb].
    destruct (as_HTML s) as [h|] eqn:Eh; [eauto|].
    destruct (as_PLAIN s) as [pl|] eqn:Ep.
    - exists pl. split; [reflexivity|]. intros [x Hx]. discriminate.
    - destruct Hsub as [Hh | Hp]; [destruct (Ah Hh) | destruct (Ap Hp)]; discriminate. }
  destruct Hpick as (r & Hpick & Hhtml). exists r. split.
  - apply Permutation_singleton_r.
    rewrite sortByStart_perm, filter_app.
    rewrite (filter_group_none root k vec).
    + cbn [app].
      rewrite (filter_group_picks root (textNodes p0) vec set k s r (map_to_list set) Hok);
        [reflexivity | | apply NoDup_fst_map_to_list | apply elem_of_map_to_list, Hs
         | exact Hpick].
      intros [k2 s2] Hkv. apply elem_of_map_to_list, Hkv.
    + intros r' Hr' Hk'. apply H1 in Hr' as [_ Hr'].
      exact (Hk (eq_trans (eq_sym Hk') Hr')).
  - intros (h & Hh & Hkh & Hsh).
    assert (Hkh' : groupKey root h <> []) by (rewrite Hkh; exact Hk).
    destruct (H3 h Hh Hkh') as (s2 & Hs2 & Ah2 & _).
    rewrite Hkh in Hs2. fold k in Hs2. rewrite Hs in Hs2. injection Hs2 as <-.
    specialize (Hhtml (Ah2 Hsh)).
    destruct (H2 k s Hs) as (_ & Bh & _).
    destruct (Bh r Hhtml) as (_ & _ & ?). assumption.
Qed.

(** ** The part tree: what every node satisfies *)

Lemma allNodes_nodeAt (Q : MIMENode -> Prop) (path : nodeRef) (root node : MIMENode) :
  allNodes Q root -> nodeAt root path = Some node -> Q node.
Proof.
  revert root. induction path as [|i path IH]; intros root Hr Hn; cbn in Hn.
  - injection Hn as <-. destruct Hr. assumption.
  - destruct (Childs root !! i) as [c|] eqn:Ec; [|discriminate].
    apply (IH c); [|exact Hn].
    destruct Hr as [n _ Hf]. rewrite Forall_lookup in Hf. apply (Hf i c Ec).
Qed.

Lemma parseMimeSelf_parsedNode (dc buf : bytes) (s n off : Z) :
  let node := rebase (fst (parseMimeSelf dc buf s n)) off in
  isTnef node = false /\ isInline node = false
  /\ ContentType node <> [] /\ ContentType node <> B "TEXT" /\ Childs node = [].
Proof.
  unfold parseMimeSelf. cbv zeta.
  cbn [fst rebase isTnef isInline ContentType Childs].
  split; [reflexivity|]. split; [reflexivity|].
  match goal with
  | |- (if ?c then _ else ?x) <> _ /\ _ => destruct c eqn:E
  end.
  - split; [discriminate|]. split; [discriminate | reflexivity].
  - apply orb_false_iff in E as [E1 E2].
    split; [apply bytes_eqb_nil, E1|]. split; [|reflexivity].
    intros H. rewrite H in E2. discriminate.
Qed.

Lemma parseMime_loop_all (Q : MIMENode -> Prop) rec (bs : list boundaryPos)
    (boundary : bytes) :
  (forall buf off s n nb node buf',
     rec buf off s n nb = Ok (node, buf') -> allNodes Q node) ->
  forall rest i lastId buf childs lastId' buf' childs',
    Forall (allNodes Q) childs ->
    parseMime_loop rec bs boundary rest i lastId buf childs
    = Ok (lastId', buf', childs') ->
    Forall (allNodes Q) childs'.
Proof.
  intros Hrec rest. induction rest as [|bo rest IH];
    intros i lastId buf childs lastId' buf' childs' Hch Hrun; cbn [parseMime_loop] in Hrun.
  - injection Hrun as <- <- <-. exact Hch.
  - destruct (negb (matchesBoundary boundary bo)); [apply (IH _ _ _ _ _ _ _ Hch Hrun)|].
    destruct (lastId =? -1); [apply (IH _ _ _ _ _ _ _ Hch Hrun)|].
    destruct (bs !! Z.to_nat lastId) as [so|]; [|discriminate].
    destruct (_ && _); [|discriminate].
    destruct (rec _ _ _ _ _) as [[newNode buf1] | |] eqn:Erec; try discriminate.
    apply (IH _ _ _ _ _ _ _) in Hrun; [exact Hrun|].
    apply Forall_app. split; [exact Hch|]. constructor; [|constructor].
    apply (Hrec _ _ _ _ _ _ _ Erec).
Qed.

Lemma parseMime_parsed (dc : bytes) (fuel : nat) :
  forall buf off s n bs node buf',
    parseMime fuel dc buf off s n bs = Ok (node, buf') -> allNodes parsedNode node.
Proof.
  induction fuel as [|fuel IH]; intros buf off s n bs node buf' Hrun; [discriminate|].
  cbn [parseMime] in Hrun.
  pose proof (parseMimeSelf_parsedNode dc buf s n off) as Hself. cbv zeta in Hself.
  destruct (parseMimeSelf dc buf s n) as [node0 buf1]. cbn [fst] in Hself.
  destruct Hself as (F1 & F2 & F3 & F4 & F5).
  set (node1 := rebase node0 off) in *. clearbody node1.
  assert (Hleaf : allNodes parsedNode node1).
  { constructor; [|rewrite F5; constructor].
    repeat split; try assumption; rewrite F5 in *; congruence. }
  destruct (negb (HasPrefix (ContentType node1) (B "MULTIPART/"))) eqn:Em;
    [injection Hrun as <- <-; exact Hleaf|].
  destruct (bytes_eqb (Boundary node1) []) eqn:Eb;
    [injection Hrun as <- <-; exact Hleaf|].
  apply negb_false_iff in Em. apply bytes_eqb_nil in Eb.
  assert (Hwith : forall cs, Forall (allNodes parsedNode) cs ->
                    allNodes parsedNode (withChilds node1 cs)).
  { intros cs Hcs. constructor; [|exact Hcs].
    destruct node1. cbn in *. repeat split; assumption. }
  destruct (parseMime_loop (parseMime fuel dc) bs (Boundary node1) bs 0 (-1) buf1 [])
    as [[[lastId buf2] childs] | |] eqn:Eloop; try discriminate.
  pose proof (parseMime_loop_all parsedNode _ bs _ IH _ _ _ _ _ _ _ _
                (List.Forall_nil _) Eloop) as Hch.
  destruct (-1 <? lastId); [|injection Hrun as <- <-; apply Hwith, Hch].
  destruct (bs !! Z.to_nat lastId) as [so|]; [|discriminate].
  destruct (_ && _); [|discriminate].
  destruct (0 <? glen _); [|injection Hrun as <- <-; apply Hwith, Hch].
  destruct (_ && _); [|injection Hrun as <- <-; apply Hwith, Hch].
  destruct (TrimBytesView _ _ _) as [s' n' | b]; [|discriminate].
  destruct (parseMime fuel dc buf2 (bp_End so) s' n' []) as [[t buf3] | |] eqn:Et;
    try discriminate.
  injection Hrun as <- <-. apply Hwith.
  apply Forall_app. split; [exact Hch|]. constructor; [|constructor].
  apply (IH _ _ _ _ _ _ _ Et).
Qed.

(** X6: in the tree that [EmailParserNew] builds, every node has a
    content type, which is never empty and never the bare TEXT (both
    are replaced by TEXT/PLAIN); only a node whose content type begins
    with MULTIPART/ and whose boundary is not empty has children; and
    no node is marked as TNEF or as inline before classification. *)
Theorem every_node_is_typed (dc data : bytes) (p : EmailParser) (path : nodeRef)
    (node : MIMENode) :
  EmailParserNew dc data = Ok p -> nodeAt (topNode p) path = Some node ->
  ContentType node <> [] /\ ContentType node <> B "TEXT"
  /\ (Childs node <> [] ->
      HasPrefix (ContentType node) (B "MULTIPART/") = true /\ Boundary node <> [])
  /\ isTnef node = false /\ isInline node = false.
Proof.
  unfold EmailParserNew. intros H Hn.
  destruct (parseMime _ _ _ _ _ _ _) as [[top buf]| |] eqn:E; try discriminate.
  injection H as <-. cbn [topNode] in Hn.
  destruct (allNodes_nodeAt parsedNode path top node (parseMime_parsed _ _ _ _ _ _ _ _ _ E) Hn)
    as (A1 & A2 & A3 & A4 & A5).
  auto.
Qed.

(** ** Classification *)

Lemma MIMENode_induction (P : MIMENode -> Prop) :
  (forall n, Forall P (Childs n) -> P n) -> forall n, P n.
Proof.
  intros H. fix IH 1. intros n. apply H. destruct n as [? ? ? ? ? ? ? ? ? ? ? ? ? ? ? cs].
  cbn [Childs].
  exact ((fix go (l : list MIMENode) : Forall P l :=
            match l with
            | [] => @List.Forall_nil _ P
            | c :: l' => @List.Forall_cons _ P c l' (IH c) (go l')
            end) cs).
Qed.

Lemma HasPrefix_multipart (ct : bytes) :
  HasPrefix ct (B "MULTIPART/") = true -> mainTypeOf ct = B "MULTIPART".
Proof.
  intros H. apply HasPrefix_inv in H as [r ->]. reflexivity.
Qed.

Lemma parsedNode_kidsInContainer (n : MIMENode) :
  allNodes parsedNode n -> allNodes kidsInContainer n.
Proof.
  induction n as [n IH] using MIMENode_induction. intros Hn.
  destruct Hn as [n (_ & _ & _ & _ & Hk) Hf]. constructor.
  - intros Hne. destruct (Hk Hne) as [Hp _]. unfold isContainer.
    rewrite (HasPrefix_multipart _ Hp). apply bytes_eqb_refl.
  - rewrite Forall_forall in IH, Hf. apply Forall_forall. intros c Hc.
    apply (IH c Hc), (Hf c Hc).
Qed.

Lemma walkAllNode_leaf (n : MIMENode) (ref : nodeRef)
    (acc : list nodeRef * list nodeRef) :
  isContainer n = false ->
  walkAllNode n ref acc
  = (if bytes_eqb (mainTypeOf (ContentType n)) (B "APPLICATION")
        && Contains (ContentType n) (B "TNEF")
     then set_isTnef n else n,
     if isTextNode n then (fst acc ++ [ref], snd acc) else (fst acc, snd acc ++ [ref])).
Proof.
  unfold isTextNode, isContainer. intros H.
  destruct n as [? ? ? ? ? ct ? ? ? ? ? ? ? ? ? cs]. cbn [ContentType] in *.
  cbn [walkAllNode ContentType]. rewrite H. cbn [negb andb].
  destruct (bytes_eqb (mainTypeOf ct) (B "APPLICATION")) eqn:EA;
    destruct (bytes_eqb (mainTypeOf ct) (B "MESSAGE")) eqn:EM;
    destruct (bytes_eqb (mainTypeOf ct) (B "TEXT")) eqn:ET;
    try (apply bytes_eqb_eq in EA; rewrite EA in *; discriminate);
    try (apply bytes_eqb_eq in EM; rewrite EM in *; discriminate);
    cbn [andb orb].
  - destruct (Contains ct (B "TNEF")); reflexivity.
  - destruct (Contains ct (B "DELIVERY") || Contains ct (B "NOTIFICATION")); reflexivity.
  - destruct (Contains ct (B "/PLAIN") || Contains ct (B "/HTML")); reflexivity.
  - reflexivity.
Qed.

Lemma walkChilds_spec (ref : nodeRef) (cs : list MIMENode) :
  Forall (fun c => forall ref t a, exists t' a',
            snd (walkAllNode c ref (t, a)) = (t ++ t', a ++ a')
            /\ walked c ref t' a') cs ->
  forall (i : nat) t a, exists t' a',
    snd (walkChilds ref cs i (t, a)) = (t ++ t', a ++ a')
    /\ NoDup (t' ++ a')
    /\ (forall r, r ∈ t' <->
          exists (j : nat) c q m, cs !! j = Some c /\ r = ref ++ (i + j)%nat :: q
                          /\ nodeAt c q = Some m
                          /\ isContainer m = false /\ isTextNode m = true)
    /\ (forall r, r ∈ a' <->
          exists (j : nat) c q m, cs !! j = Some c /\ r = ref ++ (i + j)%nat :: q
                          /\ nodeAt c q = Some m
                          /\ isContainer m = false /\ isTextNode m = false).
Proof.
  induction 1 as [|c cs Hc Hcs IH]; intros i t a.
  - exists [], []. cbn [walkChilds snd]. rewrite !app_nil_r.
    split; [reflexivity|]. split; [constructor|].
    split; intros r; (split; [intros Hr; inversion Hr |
                              intros (j & c & q & m & Hj & _); destruct j; discriminate]).
  - cbn [walkChilds].
    destruct (Hc (ref ++ [i]) t a) as (t1 & a1 & E1 & N1 & T1 & A1).
    destruct (walkAllNode c (ref ++ [i]) (t, a)) as [c' acc1]. cbn [snd] in E1. subst acc1.
    destruct (IH (S i) (t ++ t1) (a ++ a1)) as (t2 & a2 & E2 & N2 & T2 & A2).
    destruct (walkChilds ref cs (S i) (t ++ t1, a ++ a1)) as [cs' acc2].
    cbn [snd] in E2. subst acc2. cbn [snd].
    exists (t1 ++ t2), (a1 ++ a2). rewrite !app_assoc.
    split; [reflexivity|].
    assert (Hhead : forall r, r ∈ t1 ++ a1 -> exists q, r = ref ++ i :: q).
    { intros r Hr. apply elem_of_app in Hr as [Hr | Hr];
        [apply T1 in Hr | apply A1 in Hr]; destruct Hr as (q & m & -> & _);
        exists q; rewrite <- app_assoc; reflexivity. }
    assert (Htail : forall r, r ∈ t2 ++ a2 -> exists (j : nat) q, r = ref ++ (S i + j)%nat :: q).
    { intros r Hr. apply elem_of_app in Hr as [Hr | Hr];
        [apply T2 in Hr | apply A2 in Hr]; destruct Hr as (j & c0 & q & m & _ & -> & _);
        eauto. }
    split.
    { assert (Hp : (t1 ++ t2) ++ a1 ++ a2 ≡ₚ (t1 ++ a1) ++ (t2 ++ a2)).
      { rewrite <- !app_assoc. apply Permutation_app_head.
        rewrite !app_assoc. apply Permutation_app_tail, Permutation_app_comm. }
      rewrite <- !app_assoc in Hp |- *. rewrite Hp.
      rewrite !app_assoc. rewrite <- (app_assoc (t1 ++ a1)).
      apply NoDup_app. split; [exact N1|]. split; [|exact N2].
      intros r Hr1 Hr2.
      destruct (Hhead r Hr1) as (q1 & ->). destruct (Htail _ Hr2) as (j & q2 & He).
      apply app_inv_head in He. injection He as He _. lia. }
    split; intros r; rewrite elem_of_app.
    + rewrite T1, T2. split.
      * intros [(q & m & -> & Hq & Hm) | (j & c0 & q & m & Hj & -> & Hq & Hm)].
        -- exists 0%nat, c, q, m. rewrite Nat.add_0_r, <- app_assoc. auto.
        -- exists (S j), c0, q, m. replace (i + S j)%nat with (S i + j)%nat by lia. auto.
      * intros ([|j] & c0 & q & m & Hj & -> & Hq & Hm); cbn in Hj.
        -- injection Hj as <-. left. exists q, m.
           rewrite Nat.add_0_r, <- app_assoc. auto.
        -- right. exists j, c0, q, m.
           replace (S i + j)%nat with (i + S j)%nat by lia. auto.
    + rewrite A1, A2. split.
      * intros [(q & m & -> & Hq & Hm) | (j & c0 & q & m & Hj & -> & Hq & Hm)].
        -- exists 0%nat, c, q, m. rewrite Nat.add_0_r, <- app_assoc. auto.
        -- exists (S j), c0, q, m. replace (i + S j)%nat with (S i + j)%nat by lia. auto.
      * intros ([|j] & c0 & q & m & Hj & -> & Hq & Hm); cbn in Hj.
        -- injection Hj as <-. left. exists q, m.
           rewrite Nat.add_0_r, <- app_assoc. auto.
        -- right. exists j, c0, q, m.
           replace (S i + j)%nat with (i + S j)%nat by lia. auto.
Qed.

Lemma walkAllNode_spec (n : MIMENode) :
  allNodes kidsInContainer n ->
  forall ref t a, exists t' a',
    snd (walkAllNode n ref (t, a)) = (t ++ t', a ++ a') /\ walked n ref t' a'.
Proof.
  induction n as [n IH] using MIMENode_induction. intros Hn ref t a.
  destruct Hn as [n Hk Hf].
  destruct (isContainer n) eqn:Ec.
  - rewrite (walkAllNode_multipart n ref (t, a) Ec).
    assert (Hcs : Forall (fun c => forall ref t a, exists t' a',
                    snd (walkAllNode c ref (t, a)) = (t ++ t', a ++ a')
                    /\ walked c ref t' a') (Childs n)).
    { rewrite Forall_forall in IH, Hf. apply Forall_forall. intros c Hc.
      apply (IH c Hc), (Hf c Hc). }
    destruct (walkChilds_spec ref (Childs n) Hcs 0%nat t a) as (t' & a' & E & N & T & A).
    destruct (walkChilds ref (Childs n) 0 (t, a)) as [cs' acc']. cbn [snd] in E |- *.
    exists t', a'. split; [exact E|]. split; [exact N|].
    split; intros r; [rewrite T | rewrite A]; split.
    + intros (j & c & q & m & Hj & -> & Hq & Hm). exists (j :: q), m.
      split; [reflexivity|]. split; [cbn; rewrite Hj; exact Hq | exact Hm].
    + intros ([|j q] & m & -> & Hq & Hm & Hm'); cbn in Hq.
      * injection Hq as <-. congruence.
      * destruct (Childs n !! j) as [c|] eqn:Hj; [|discriminate].
        exists j, c, q, m. auto.
    + intros (j & c & q & m & Hj & -> & Hq & Hm). exists (j :: q), m.
      split; [reflexivity|]. split; [cbn; rewrite Hj; exact Hq | exact Hm].
    + intros ([|j q] & m & -> & Hq & Hm & Hm'); cbn in Hq.
      * injection Hq as <-. congruence.
      * destruct (Childs n !! j) as [c|] eqn:Hj; [|discriminate].
        exists j, c, q, m. auto.
  - rewrite (walkAllNode_leaf n ref (t, a) Ec). cbn [snd fst].
    assert (Hnil : Childs n = []).
    { destruct (Childs n) eqn:Ecs; [reflexivity|].
      assert (isContainer n = true) by (apply Hk; congruence). congruence. }
    assert (Hat : forall q m, nodeAt n q = Some m -> q = [] /\ m = n).
    { intros [|j q] m Hq; cbn in Hq; [injection Hq as <-; auto|].
      rewrite Hnil in Hq. discriminate. }
    destruct (isTextNode n) eqn:Et.
    + exists [ref], []. rewrite app_nil_r. split; [reflexivity|].
      split; [apply NoDup_singleton|].
      split; intros r; split.
      * intros Hr. apply list_elem_of_singleton in Hr as ->. exists [], n.
        rewrite app_nil_r. auto.
      * intros (q & m & -> & Hq & _). destruct (Hat q m Hq) as [-> _].
        rewrite app_nil_r. left.
      * intros Hr. inversion Hr.
      * intros (q & m & -> & Hq & _ & Hm). destruct (Hat q m Hq) as [_ ->]. congruence.
    + exists [], [ref]. rewrite app_nil_r. split; [reflexivity|].
      split; [apply NoDup_singleton|].
      split; intros r; split.
      * intros Hr. inversion Hr.
      * intros (q & m & -> & Hq & _ & Hm). destruct (Hat q m Hq) as [_ ->]. congruence.
      * intros Hr. apply list_elem_of_singleton in Hr as ->. exists [], n.
        rewrite app_nil_r. auto.
      * intros (q & m & -> & Hq & _). destruct (Hat q m Hq) as [-> _].
        rewrite app_nil_r. left.
Qed.

Lemma EmailParserNew_parsed (dc data : bytes) (p : EmailParser) :
  EmailParserNew dc data = Ok p ->
  allNodes parsedNode (topNode p)
  /\ nodeClassified p = false /\ alternativeShowNodesDealed p = false
  /\ inlineAttachmentNodesDealed p = false
  /\ textNodes p = [] /\ attachmentNodes p = [].
Proof.
  unfold EmailParserNew. intros H.
  destruct (parseMime _ _ _ _ _ _ _) as [[top buf]| |] eqn:E; try discriminate.
  injection H as <-. cbn. split; [|auto 10].
  apply (parseMime_parsed _ _ _ _ _ _ _ _ _ E).
Qed.


(** The lists of a freshly parsed message after classification are
    those of the walk of the whole tree. *)
Lemma classifyNodes_walked (dc data : bytes) (p : EmailParser) :
  EmailParserNew dc data = Ok p ->
  walked (topNode p) [] (textNodes (classifyNodes p)) (attachmentNodes (classifyNodes p)).
Proof.
  intros H. destruct (EmailParserNew_parsed dc data p H) as (Hp & Hc & _ & _ & Ht & Ha).
  unfold classifyNodes. rewrite Hc.
  cbn [topNode set_nodeClassified textNodes attachmentNodes]. rewrite Ht, Ha.
  destruct (walkAllNode_spec (topNode p) (parsedNode_kidsInContainer _ Hp) [] [] [])
    as (t' & a' & E & W).
  destruct (walkAllNode (topNode p) [] ([], [])) as [top [text att]].
  cbn [snd] in E. injection E as -> ->.
  cbn [textNodes attachmentNodes set_attachmentNodes set_textNodes set_topNode].
  exact W.
Qed.


(** The tree after the walk: the same tree, with the TNEF bit set where
    the walk sets it. *)
Lemma walkChilds_fst (ref : nodeRef) (cs : list MIMENode) :
  Forall (fun c => forall ref acc, fst (walkAllNode c ref acc) = marked c) cs ->
  forall i acc, fst (walkChilds ref cs i acc) = List.map marked cs.
Proof.
  induction 1 as [|c cs Hc Hcs IH]; intros i acc; [reflexivity|].
  cbn [walkChilds List.map]. specialize (Hc (ref ++ [i]) acc).
  destruct (walkAllNode c (ref ++ [i]) acc) as [c' acc1]. cbn [fst] in Hc. subst c'.
  specialize (IH (S i) acc1).
  destruct (walkChilds ref cs (S i) acc1) as [cs' acc2]. cbn [fst] in IH |- *.
  rewrite IH. reflexivity.
Qed.

Lemma walkAllNode_fst (n : MIMENode) :
  forall ref acc, fst (walkAllNode n ref acc) = marked n.
Proof.
  induction n as [n IH] using MIMENode_induction. intros ref acc. unfold marked.
  destruct (isContainer n) eqn:Ec.
  - rewrite !(walkAllNode_multipart n _ _ Ec).
    pose proof (walkChilds_fst ref (Childs n) IH 0%nat acc) as H1.
    pose proof (walkChilds_fst [] (Childs n) IH 0%nat ([], [])) as H2.
    destruct (walkChilds ref (Childs n) 0 acc) as [cs1 acc1].
    destruct (walkChilds [] (Childs n) 0 ([], [])) as [cs2 acc2].
    cbn [fst] in *. congruence.
  - rewrite !(walkAllNode_leaf n _ _ Ec). reflexivity.
Qed.

Lemma marked_container (n : MIMENode) :
  isContainer n = true -> marked n = withChilds n (List.map marked (Childs n)).
Proof.
  intros Ec. unfold marked at 1. rewrite (walkAllNode_multipart n _ _ Ec).
  pose proof (walkChilds_fst [] (Childs n)
                (proj2 (Forall_forall _ _) (fun c _ => walkAllNode_fst c))
                0%nat ([], [])) as H.
  destruct (walkChilds [] (Childs n) 0 ([], [])) as [cs acc]. cbn [fst] in *.
  rewrite H. reflexivity.
Qed.

Lemma marked_leaf (n : MIMENode) :
  isContainer n = false ->
  marked n = if bytes_eqb (mainTypeOf (ContentType n)) (B "APPLICATION")
                && Contains (ContentType n) (B "TNEF")
             then set_isTnef n else n.
Proof. intros Ec. unfold marked. rewrite (walkAllNode_leaf n _ _ Ec). reflexivity. Qed.

Lemma marked_fields (n : MIMENode) :
  ContentType (marked n) = ContentType n /\ ContentID (marked n) = ContentID n
  /\ HeaderStart (marked n) = HeaderStart n /\ isInline (marked n) = isInline n
  /\ Encoding (marked n) = Encoding n /\ BodyStart (marked n) = BodyStart n
  /\ BodyLen (marked n) = BodyLen n
  /\ isTnef (marked n)
     = (isTnef n
        || (negb (isContainer n)
            && bytes_eqb (mainTypeOf (ContentType n)) (B "APPLICATION")
            && Contains (ContentType n) (B "TNEF"))).
Proof.
  destruct (isContainer n) eqn:Ec.
  - rewrite (marked_container n Ec). destruct n. cbn. rewrite orb_false_r. auto 10.
  - rewrite (marked_leaf n Ec). cbn [negb andb].
    destruct (_ && _); destruct n; cbn; rewrite ?orb_true_r, ?orb_false_r; auto 10.
Qed.

Lemma nodeAt_marked (q : nodeRef) :
  forall n, allNodes kidsInContainer n -> nodeAt (marked n) q = marked <$> nodeAt n q.
Proof.
  induction q as [|j q IH]; intros n Hn; [reflexivity|].
  destruct Hn as [n Hk Hf]. cbn [nodeAt].
  destruct (isContainer n) eqn:Ec.
  - rewrite (marked_container n Ec).
    replace (Childs (withChilds n (List.map marked (Childs n))))
      with (marked <$> Childs n) by (destruct n; reflexivity).
    rewrite list_lookup_fmap.
    destruct (Childs n !! j) as [c|] eqn:Ej; [|reflexivity]. cbn.
    apply IH. rewrite Forall_lookup in Hf. apply (Hf j c Ej).
  - assert (Hnil : Childs n = []).
    { destruct (Childs n) eqn:Ecs; [reflexivity|].
      assert (isContainer n = true) by (apply Hk; congruence). congruence. }
    rewrite (marked_leaf n Ec).
    replace (Childs (if bytes_eqb (mainTypeOf (ContentType n)) (B "APPLICATION")
                        && Contains (ContentType n) (B "TNEF")
                     then set_isTnef n else n)) with (Childs n)
      by (destruct (_ && _); destruct n; reflexivity).
    rewrite Hnil. reflexivity.
Qed.

Lemma classifyNodes_topNode (p : EmailParser) :
  nodeClassified p = false -> topNode (classifyNodes p) = marked (topNode p).
Proof.
  intros Hc. unfold classifyNodes. rewrite Hc.
  pose proof (walkAllNode_fst (topNode (set_nodeClassified true p)) []
                (textNodes (set_nodeClassified true p),
                 attachmentNodes (set_nodeClassified true p))) as H.
  destruct (walkAllNode _ _ _) as [top [text att]]. cbn [fst] in H. subst top.
  reflexivity.
Qed.

(** X8: on a freshly parsed message, [IsTnef] answers true exactly for
    the pointers to nodes whose main type is APPLICATION and whose
    content type contains TNEF. *)
Theorem IsTnef_characterised (dc data : bytes) (p : EmailParser) (r : nodeRef)
    (headerName : bytes) :
  EmailParserNew dc data = Ok p ->
  fst (IsTnef p r headerName) = true
  <-> exists m, nodeAt (topNode p) r = Some m
                /\ mainTypeOf (ContentType m) = B "APPLICATION"
                /\ Contains (ContentType m) (B "TNEF") = true.
Proof.
  intros H. destruct (EmailParserNew_parsed dc data p H) as (Hp & Hc & _).
  unfold IsTnef, nodeBool. cbn [fst].
  rewrite (classifyNodes_topNode p Hc),
    (nodeAt_marked r (topNode p) (parsedNode_kidsInContainer _ Hp)).
  destruct (nodeAt (topNode p) r) as [m|] eqn:Em; cbn.
  - destruct (marked_fields m) as (_ & _ & _ & _ & _ & _ & _ & ->).
    destruct (allNodes_nodeAt parsedNode r (topNode p) m Hp Em) as (-> & _).
    cbn [orb]. split.
    + intros Ht. apply andb_true_iff in Ht as [Ht T2].
      apply andb_true_iff in Ht as [_ T1]. apply bytes_eqb_eq in T1. eauto.
    + intros (m' & Hm' & T1 & T2). injection Hm' as <-.
      change (Contains (ContentType m) (B "TNEF") = true) in T2.
      change (mainTypeOf (ContentType m) = B "APPLICATION") in T1.
      rewrite T2, andb_true_r. unfold isContainer. rewrite T1. reflexivity.
  - split; [discriminate | intros (m & ? & _); discriminate].
Qed.

(** ** Inline attachments *)

Lemma updateAt_field {A} (f : MIMENode -> A) (m : nodeRef) :
  (forall n, f (set_isInline n) = f n) ->
  (forall n cs, f (withChilds n cs) = f n) ->
  forall root r,
    f <$> nodeAt (updateAt m set_isInline root) r = f <$> nodeAt root r.
Proof.
  intros Hs Hw. induction m as [|i m IH]; intros root r; cbn [updateAt].
  - destruct r as [|j r]; cbn [nodeAt]; [cbn; rewrite Hs; reflexivity|].
    replace (Childs (set_isInline root)) with (Childs root) by (destruct root; reflexivity).
    reflexivity.
  - destruct r as [|j r]; cbn [nodeAt]; [cbn; rewrite Hw; reflexivity|].
    replace (Childs (withChilds root (alter (updateAt m set_isInline) i (Childs root))))
      with (alter (updateAt m set_isInline) i (Childs root))
      by (destruct root; reflexivity).
    destruct (decide (i = j)) as [-> | Hne].
    + rewrite list_lookup_alter_eq.
      destruct (Childs root !! j) as [c|]; [cbn; apply IH | reflexivity].
    + rewrite list_lookup_alter_ne by exact Hne. reflexivity.
Qed.

Lemma updateAt_isInline (m : nodeRef) :
  forall root r,
    isInline <$> nodeAt (updateAt m set_isInline root) r = Some true ->
    r = m \/ isInline <$> nodeAt root r = Some true.
Proof.
  induction m as [|i m IH]; intros root r; cbn [updateAt].
  - destruct r as [|j r]; cbn [nodeAt]; [auto|].
    replace (Childs (set_isInline root)) with (Childs root) by (destruct root; reflexivity).
    auto.
  - destruct r as [|j r]; cbn [nodeAt].
    + destruct root; cbn. auto.
    + replace (Childs (withChilds root (alter (updateAt m set_isInline) i (Childs root))))
        with (alter (updateAt m set_isInline) i (Childs root))
        by (destruct root; reflexivity).
      destruct (decide (i = j)) as [-> | Hne].
      * rewrite list_lookup_alter_eq.
        destruct (Childs root !! j) as [c|]; [cbn | discriminate].
        intros H. destruct (IH c r H) as [-> | H']; auto.
      * rewrite list_lookup_alter_ne by exact Hne. auto.
Qed.

(** The loop of [classifyInlineAttachmentNodes] over the attachments. *)
Lemma markInline_inv (con : bytes) (top1 : MIMENode) (l : list nodeRef) :
  forall (q : EmailParser) (done : list nodeRef),
    (forall r, ContentID <$> nodeAt (topNode q) r = ContentID <$> nodeAt top1 r) ->
    (forall r, isInline <$> nodeAt (topNode q) r = Some true ->
               r ∈ done /\ default [] (ContentID <$> nodeAt top1 r) <> []) ->
    let q' :=
      fold_left
        (fun q m =>
           let cid0 := contentIDOf q m in
           if bytes_eqb cid0 [] then q
           else if Contains con (B "cid:" ++ ToLower cid0)
                then set_topNode (updateAt m set_isInline (topNode q)) q
                else q) l q in
    forall r, isInline <$> nodeAt (topNode q') r = Some true ->
              r ∈ done ++ l /\ default [] (ContentID <$> nodeAt top1 r) <> [].
Proof.
  induction l as [|m l IH]; intros q done HC HI; cbn [fold_left].
  - intros r Hr. rewrite app_nil_r. apply HI, Hr.
  - intros r Hr.
    replace (done ++ m :: l) with ((done ++ [m]) ++ l)
      by (rewrite <- app_assoc; reflexivity).
    revert r Hr. apply IH.
    + intros r. unfold contentIDOf.
      destruct (bytes_eqb _ _); [apply HC|].
      destruct (Contains _ _); [|apply HC].
      cbn [topNode set_topNode]. rewrite <- HC.
      apply updateAt_field; intros n; destruct n; reflexivity.
    + intros r. unfold contentIDOf. rewrite (HC m).
      destruct (bytes_eqb (default [] (ContentID <$> nodeAt top1 m)) []) eqn:Ecid.
      { intros Hr. destruct (HI r Hr). rewrite elem_of_app. auto. }
      destruct (Contains _ _).
      * cbn [topNode set_topNode]. intros Hr.
        apply updateAt_isInline in Hr as [-> | Hr].
        -- split; [rewrite elem_of_app, list_elem_of_singleton; auto|].
           apply bytes_eqb_nil, Ecid.
        -- destruct (HI r Hr). rewrite elem_of_app. auto.
      * intros Hr. destruct (HI r Hr). rewrite elem_of_app. auto.
Qed.

Lemma classifyNodes_lists (p : EmailParser) (b : bool) :
  topNode (classifyNodes (set_inlineAttachmentNodesDealed b p)) = topNode (classifyNodes p)
  /\ attachmentNodes (classifyNodes (set_inlineAttachmentNodesDealed b p))
     = attachmentNodes (classifyNodes p)
  /\ textNodes (classifyNodes (set_inlineAttachmentNodesDealed b p))
     = textNodes (classifyNodes p).
Proof.
  unfold classifyNodes.
  cbn [nodeClassified set_inlineAttachmentNodesDealed].
  destruct (nodeClassified p); [auto|].
  cbn [topNode textNodes attachmentNodes set_nodeClassified set_inlineAttachmentNodesDealed].
  destruct (walkAllNode _ _ _) as [top [text att]]. auto.
Qed.

Lemma classifyAlternativeShowNodes_lists (p : EmailParser) :
  nodeClassified p = true ->
  topNode (classifyAlternativeShowNodes p) = topNode p
  /\ attachmentNodes (classifyAlternativeShowNodes p) = attachmentNodes p.
Proof.
  intros Hc. unfold classifyAlternativeShowNodes.
  destruct (alternativeShowNodesDealed p); [auto|].
  rewrite (classifyNodes_done (set_alternativeShowNodesDealed true p)) by exact Hc.
  destruct (groupTextNodes _ _ _ _) as [v m]. auto.
Qed.

(** X9: on a freshly parsed message, [IsInlineAttachment] answers true
    only for a node that classification files as an attachment (it is
    neither a container nor a text node) and whose Content-ID is not
    empty. *)
Theorem inline_only_attachment_with_cid (dc data : bytes) (p : EmailParser)
    (r : nodeRef) :
  EmailParserNew dc data = Ok p ->
  fst (IsInlineAttachment p r) = true ->
  exists m, nodeAt (topNode p) r = Some m
            /\ isContainer m = false /\ isTextNode m = false
            /\ ContentID m <> [].
Proof.
  intros H. destruct (EmailParserNew_parsed dc data p H) as (Hp & Hc & Ha & Hi & Ht & Hat).
  destruct (classifyNodes_walked dc data p H) as (_ & _ & Hatt).
  unfold IsInlineAttachment, nodeBool. cbn [fst].
  unfold classifyInlineAttachmentNodes. rewrite Hi.
  set (p0 := classifyNodes (set_inlineAttachmentNodesDealed true p)).
  destruct (classifyNodes_lists p true) as (L1 & L2 & _). fold p0 in L1, L2.
  assert (Hc0 : nodeClassified p0 = true) by apply classifyNodes_flags.
  destruct (classifyAlternativeShowNodes_lists p0 Hc0) as (M1 & M2).
  set (p1 := classifyAlternativeShowNodes p0) in *.
  assert (Htop : topNode p1 = marked (topNode p)).
  { rewrite M1, L1. apply classifyNodes_topNode, Hc. }
  assert (Hkids : allNodes kidsInContainer (topNode p))
    by apply parsedNode_kidsInContainer, Hp.
  assert (Hcid : forall r0, ContentID <$> nodeAt (topNode p1) r0
                            = ContentID <$> nodeAt (topNode p) r0).
  { intros r0. rewrite Htop, (nodeAt_marked r0 _ Hkids).
    destruct (nodeAt (topNode p) r0) as [m|]; [cbn | reflexivity].
    destruct (marked_fields m) as (_ & -> & _). reflexivity. }
  assert (Hfresh : forall r0, isInline <$> nodeAt (topNode p1) r0 = Some true -> False).
  { intros r0. rewrite Htop, (nodeAt_marked r0 _ Hkids).
    destruct (nodeAt (topNode p) r0) as [m|] eqn:Em; [cbn | discriminate].
    destruct (marked_fields m) as (_ & _ & _ & -> & _).
    destruct (allNodes_nodeAt parsedNode r0 _ m Hp Em) as (_ & -> & _). discriminate. }
  assert (Hdone : forall (q : EmailParser),
            (forall r0, isInline <$> nodeAt (topNode q) r0 = Some true ->
                        r0 ∈ attachmentNodes p1
                        /\ default [] (ContentID <$> nodeAt (topNode p1) r0) <> []) ->
            match nodeAt (topNode q) r with
            | Some node => isInline node
            | None => false
            end = true ->
            exists m, nodeAt (topNode p) r = Some m
                      /\ isContainer m = false /\ isTextNode m = false
                      /\ ContentID m <> []).
  { intros q Hq Hr.
    destruct (Hq r) as (Hin & Hne).
    { destruct (nodeAt (topNode q) r); [cbn; congruence | discriminate]. }
    rewrite M2, L2 in Hin. apply Hatt in Hin as (q0 & m & Eq & Em & K1 & K2).
    cbn [app] in Eq. subst q0.
    exists m. split; [exact Em|]. split; [exact K1|]. split; [exact K2|].
    rewrite Hcid, Em in Hne. exact Hne. }
  destruct (negb _).
  - apply Hdone. intros r0 Hr0. destruct (Hfresh r0 Hr0).
  - apply Hdone.
    pose proof (markInline_inv
                  (ToLower (concat (List.map
                     (fun n => match nodeAt (topNode p1) n with
                               | Some node => GetDecodedContent p1 node ++ [LF]
                               | None => [LF]
                               end) (alternativeShowNodes p1))))
                  (topNode p1) (attachmentNodes p1) p1 []
                  (fun r0 => eq_refl)
                  (fun r0 Hr0 => False_ind _ (Hfresh r0 Hr0))) as Hinv.
    cbv zeta in Hinv. exact Hinv.
Qed.

(** ** The boundary scanner finds the delimiter lines, and only them *)

Lemma Index_from_spec (s sep : bytes) (i : Z) :
  (Index_from s sep i = -1
   /\ forall k : nat, (k <= length s)%nat -> HasPrefix (drop k s) sep = false)
  \/ (exists k : nat, Index_from s sep i = i + Z.of_nat k /\ (k <= length s)%nat
        /\ HasPrefix (drop k s) sep = true
        /\ forall j : nat, (j < k)%nat -> HasPrefix (drop j s) sep = false).
Proof.
  revert i. induction s as [|c s IH]; intros i; cbn [Index_from].
  - destruct (HasPrefix [] sep) eqn:E.
    + right. exists 0%nat. cbn. repeat split; [lia | lia | exact E | intros; lia].
    + left. split; [reflexivity|]. intros [|k] Hk; [exact E | cbn in Hk; lia].
  - destruct (HasPrefix (c :: s) sep) eqn:E.
    + right. exists 0%nat. cbn. repeat split; [lia | lia | exact E | intros; lia].
    + destruct (IH (i + 1)) as [[H1 H2] | (k & H1 & H2 & H3 & H4)].
      * left. split; [exact H1|]. intros [|k] Hk; [exact E|].
        cbn. apply H2. cbn in Hk. lia.
      * right. exists (S k). rewrite H1. cbn [drop length].
        repeat split; [lia | lia | exact H3 |].
        intros [|j] Hj; [exact E | apply H4; lia].
Qed.

Lemma Index_spec (s sep : bytes) :
  (Index s sep = -1
   /\ forall k : nat, (k <= length s)%nat -> HasPrefix (drop k s) sep = false)
  \/ (exists k : nat, Index s sep = Z.of_nat k /\ (k <= length s)%nat
        /\ HasPrefix (drop k s) sep = true
        /\ forall j : nat, (j < k)%nat -> HasPrefix (drop j s) sep = false).
Proof. unfold Index. apply Index_from_spec. Qed.

Lemma HasPrefix_drop_cons (s p : bytes) (c : ascii) (k : nat) :
  HasPrefix (drop k s) (c :: p) = true
  <-> s !! k = Some c /\ HasPrefix (drop (S k) s) p = true.
Proof.
  destruct (drop k s) as [|x r] eqn:E.
  - cbn. split; [discriminate|]. intros [H _].
    apply lookup_lt_Some in H. apply (f_equal length) in E.
    rewrite length_drop in E. cbn in E. lia.
  - pose proof (drop_lookup_cons s k x r E) as [Hx Hr]. rewrite Hr.
    cbn [HasPrefix]. rewrite andb_true_iff. unfold beq. rewrite Ascii.eqb_eq.
    split; [intros [-> ?]; auto|].
    intros [Hc ?]. split; [|assumption].
    pose proof (eq_trans (eq_sym Hx) Hc) as Heq. injection Heq as ->. reflexivity.
Qed.

Lemma HasPrefix_nil_false (p : bytes) (c : ascii) : HasPrefix [] (c :: p) = false.
Proof. reflexivity. Qed.

Lemma byteAt_lookup (raw : bytes) (i : Z) (c : ascii) :
  0 <= i -> c <> "000"%char ->
  (byteAt raw i = c <-> raw !! Z.to_nat i = Some c).
Proof.
  intros Hi Hc. unfold byteAt. split.
  - intros H. destruct (raw !! Z.to_nat i) as [x|] eqn:E.
    + rewrite (nth_lookup_Some _ _ _ _ E) in H. congruence.
    + rewrite nth_overflow in H by (apply lookup_ge_None, E). congruence.
  - intros H. apply nth_lookup_Some. exact H.
Qed.

Lemma LF_neq_0 : LF <> "000"%char.
Proof. discriminate. Qed.

Lemma after_after {A} (l : list A) (a b : Z) :
  0 <= a -> 0 <= b -> after (after l a) b = after l (a + b).
Proof.
  intros Ha Hb. unfold after. rewrite drop_drop. f_equal. lia.
Qed.

(** A newline at or after offset [a]. *)
Lemma LF_later (raw : bytes) (a : Z) :
  0 <= a ->
  (0 <= Index (after raw a) [LF]
   <-> exists e : nat, (Z.to_nat a <= e)%nat /\ raw !! e = Some LF).
Proof.
  intros Ha. unfold after.
  destruct (Index_spec (drop (Z.to_nat a) raw) [LF]) as [[H1 H2] | (k & H1 & H2 & H3 & H4)].
  - rewrite H1. split; [lia|]. intros (e & He & Hl). exfalso.
    specialize (H2 (e - Z.to_nat a)%nat).
    rewrite drop_drop in H2.
    replace (Z.to_nat a + (e - Z.to_nat a))%nat with e in H2 by lia.
    assert (Ht : HasPrefix (drop e raw) [LF] = true).
    { apply HasPrefix_drop_cons. split; [exact Hl | reflexivity]. }
    rewrite H2 in Ht; [discriminate|].
    rewrite length_drop. apply lookup_lt_Some in Hl. lia.
  - rewrite H1. split; [|lia]. intros _.
    rewrite drop_drop in H3. apply HasPrefix_drop_cons in H3 as [H3 _].
    exists (Z.to_nat a + k)%nat. split; [lia | exact H3].
Qed.

(** The first newline at or after offset [a] is at [a + Index ...]. *)
Lemma LF_first (raw : bytes) (a : Z) :
  0 <= a -> 0 <= Index (after raw a) [LF] ->
  raw !! Z.to_nat (a + Index (after raw a) [LF]) = Some LF
  /\ forall e : nat, (Z.to_nat a <= e)%nat ->
       (e < Z.to_nat (a + Index (after raw a) [LF]))%nat -> raw !! e <> Some LF.
Proof.
  intros Ha. unfold after.
  destruct (Index_spec (drop (Z.to_nat a) raw) [LF]) as [[H1 H2] | (k & H1 & H2 & H3 & H4)];
    rewrite H1; [lia|]. intros _.
  replace (Z.to_nat (a + Z.of_nat k)) with (Z.to_nat a + k)%nat by lia.
  rewrite drop_drop in H3. apply HasPrefix_drop_cons in H3 as [H3 _].
  split; [exact H3|]. intros e He1 He2 Hl.
  specialize (H4 (e - Z.to_nat a)%nat ltac:(lia)).
  rewrite drop_drop in H4.
  replace (Z.to_nat a + (e - Z.to_nat a))%nat with e in H4 by lia.
  assert (Ht : HasPrefix (drop e raw) [LF] = true).
  { apply HasPrefix_drop_cons. split; [exact Hl | reflexivity]. }
  congruence.
Qed.

(** The search for the next line that begins with two dashes. *)
Lemma scan_start (raw : bytes) (offset : Z) :
  0 <= offset -> lineStartAt raw offset ->
  let start :=
    if HasPrefix (after raw offset) (B "--") then offset
    else
      let nlPos := Index (after raw offset) (LF :: B "--") in
      if nlPos =? -1 then -1 else offset + nlPos + 1 in
  (start = -1 \/ (offset <= start /\ lineStartAt raw start
                  /\ HasPrefix (after raw start) (B "--") = true))
  /\ forall s, offset <= s -> (start = -1 \/ s < start) ->
       lineStartAt raw s -> HasPrefix (after raw s) (B "--") = false.
Proof.
  intros H0 Hls. cbv zeta.
  destruct (HasPrefix (after raw offset) (B "--")) eqn:E0.
  { split; [right; split; [lia | auto] |]. intros s Hs [? | ?]; lia. }
  assert (Hlater : forall s (k : nat), offset < s -> lineStartAt raw s ->
            HasPrefix (after raw s) (B "--") = true ->
            k = Z.to_nat (s - 1 - offset) ->
            HasPrefix (drop k (drop (Z.to_nat offset) raw)) (LF :: B "--") = true
            /\ (k <= length (drop (Z.to_nat offset) raw))%nat).
  { intros s k Hs [-> | Hb] Hp ->; [lia|].
    apply byteAt_lookup in Hb; [|lia | exact LF_neq_0].
    rewrite drop_drop.
    replace (Z.to_nat offset + Z.to_nat (s - 1 - offset))%nat with (Z.to_nat (s - 1)) by lia.
    split.
    - apply HasPrefix_drop_cons. split; [exact Hb|].
      replace (S (Z.to_nat (s - 1))) with (Z.to_nat s) by lia. exact Hp.
    - rewrite length_drop. apply lookup_lt_Some in Hb. lia. }
  change (after raw offset) with (drop (Z.to_nat offset) raw).
  destruct (Index_spec (drop (Z.to_nat offset) raw) (LF :: B "--"))
    as [[H1 H2] | (k & H1 & H2 & H3 & H4)]; rewrite H1.
  - cbn [Z.eqb]. split; [left; reflexivity|].
    intros s Hs _ Hl. destruct (HasPrefix (after raw s) (B "--")) eqn:Ep; [|reflexivity].
    destruct (Z.eq_dec s offset) as [-> | Hne]; [congruence|].
    destruct (Hlater s _ ltac:(lia) Hl Ep eq_refl) as [Ht Hk].
    rewrite (H2 _ Hk) in Ht. discriminate.
  - replace (Z.of_nat k =? -1) with false by (symmetry; apply Z.eqb_neq; lia).
    rewrite drop_drop in H3. apply HasPrefix_drop_cons in H3 as [H3a H3b].
    split.
    + right. split; [lia|]. split.
      * right. apply byteAt_lookup; [lia | exact LF_neq_0 |].
        replace (Z.to_nat (offset + Z.of_nat k + 1 - 1)) with (Z.to_nat offset + k)%nat by lia.
        exact H3a.
      * unfold after.
        replace (Z.to_nat (offset + Z.of_nat k + 1)) with (S (Z.to_nat offset + k)) by lia.
        exact H3b.
    + intros s Hs [? | Hlt] Hl; [lia|].
      destruct (HasPrefix (after raw s) (B "--")) eqn:Ep; [|reflexivity].
      destruct (Z.eq_dec s offset) as [-> | Hne]; [congruence|].
      destruct (Hlater s _ ltac:(lia) Hl Ep eq_refl) as [Ht Hk].
      rewrite (H4 (Z.to_nat (s - 1 - offset))) in Ht by lia. discriminate.
Qed.

Lemma dashes_at (raw : bytes) (s : Z) :
  0 <= s -> HasPrefix (after raw s) (B "--") = true ->
  raw !! Z.to_nat s = Some "-"%char /\ raw !! S (Z.to_nat s) = Some "-"%char.
Proof.
  intros Hs H. unfold after in H.
  apply HasPrefix_drop_cons in H as [H1 H2].
  apply HasPrefix_drop_cons in H2 as [H2 _]. auto.
Qed.

Lemma no_delimiter_beyond (raw : bytes) (s : Z) :
  len raw <= s -> ~ delimiterLineAt raw s.
Proof.
  intros Hs (H0 & _ & Hp & _). unfold after in Hp.
  rewrite drop_ge in Hp by (unfold len in Hs; lia). discriminate.
Qed.

Lemma scanAllBoundaries_step_finds (raw : bytes) (offset : Z) (b : boundaryPos)
    (offset' : Z) :
  0 <= offset -> lineStartAt raw offset ->
  scanAllBoundaries_step raw offset = Some (b, offset') ->
  entryOK raw b /\ offset <= bp_Start b /\ offset' = bp_End b
  /\ lineStartAt raw (bp_End b)
  /\ (forall s, offset <= s < bp_End b -> delimiterLineAt raw s -> s = bp_Start b).
Proof.
  intros H0 Hls. unfold scanAllBoundaries_step.
  destruct (offset <? len raw) eqn:El; [|discriminate].
  pose proof (scan_start raw offset H0 Hls) as Hst. cbv zeta in Hst.
  set (start := if HasPrefix (after raw offset) (B "--") then offset
                else if Index (after raw offset) (LF :: B "--") =? -1 then -1
                     else offset + Index (after raw offset) (LF :: B "--") + 1) in *.
  destruct Hst as [Hst Hbefore].
  destruct (start =? -1) eqn:Es; [discriminate|]. apply Z.eqb_neq in Es.
  destruct Hst as [? | (Hge & Hl & Hp)]; [contradiction|].
  set (nl := Index (after raw (start + 2)) [LF]).
  destruct ((nl =? -1) || (len raw <? start + 2 + nl)) eqn:Ec; [discriminate|].
  apply orb_false_iff in Ec as [Ec _]. apply Z.eqb_neq in Ec.
  assert (Hnl : 0 <= nl).
  { destruct (Index_range (after raw (start + 2)) [LF]) as [Hi | Hi];
      [discriminate | contradiction | exact (proj1 Hi)]. }
  intros [= <- <-]. unfold entryOK. cbn [bp_Start bp_End bp_Boundary].
  destruct (LF_first raw (start + 2) ltac:(lia) Hnl) as [Hlf Hfirst]. fold nl in Hlf, Hfirst.
  split; [|split; [exact Hge|]; split; [reflexivity|]; split].
  - split; [|split]; [|reflexivity|].
    + split; [lia|]. split; [exact Hl|]. split; [exact Hp | exact Hnl].
    + f_equal. f_equal. lia.
  - right. apply byteAt_lookup; [lia | exact LF_neq_0 |].
    replace (start + 2 + nl + 1 - 1) with (start + 2 + nl) by lia. exact Hlf.
  - intros s [Hs1 Hs2] (Hs0 & Hsl & Hsp & _).
    destruct (Z_lt_le_dec s start) as [Hlt | Hle].
    { rewrite (Hbefore s Hs1 (or_intror Hlt) Hsl) in Hsp. discriminate. }
    destruct (Z.eq_dec s start) as [-> | Hne]; [reflexivity|]. exfalso.
    destruct Hsl as [-> | Hb]; [lia|].
    apply byteAt_lookup in Hb; [|lia | exact LF_neq_0].
    destruct (dashes_at raw start ltac:(lia) Hp) as [D1 D2].
    destruct (Z.eq_dec (s - 1) start) as [E1 | N1].
    { rewrite E1 in Hb. pose proof (eq_trans (eq_sym Hb) D1). discriminate. }
    destruct (Z.eq_dec (s - 1) (start + 1)) as [E2 | N2].
    { rewrite E2 in Hb. replace (Z.to_nat (start + 1)) with (S (Z.to_nat start)) in Hb by lia.
      pose proof (eq_trans (eq_sym Hb) D2). discriminate. }
    apply (Hfirst (Z.to_nat (s - 1))); [lia | lia | exact Hb].
Qed.

Lemma scanAllBoundaries_step_stops (raw : bytes) (offset : Z) :
  0 <= offset -> lineStartAt raw offset ->
  scanAllBoundaries_step raw offset = None ->
  forall s, offset <= s -> ~ delimiterLineAt raw s.
Proof.
  intros H0 Hls. unfold scanAllBoundaries_step.
  destruct (offset <? len raw) eqn:El.
  2:{ intros _ s Hs. apply no_delimiter_beyond. apply Z.ltb_ge in El. lia. }
  pose proof (scan_start raw offset H0 Hls) as Hst. cbv zeta in Hst.
  set (start := if HasPrefix (after raw offset) (B "--") then offset
                else if Index (after raw offset) (LF :: B "--") =? -1 then -1
                     else offset + Index (after raw offset) (LF :: B "--") + 1) in *.
  destruct Hst as [Hst Hbefore].
  destruct (start =? -1) eqn:Es.
  { apply Z.eqb_eq in Es. intros _ s Hs (_ & Hsl & Hsp & _).
    rewrite (Hbefore s Hs (or_introl Es) Hsl) in Hsp. discriminate. }
  apply Z.eqb_neq in Es.
  destruct Hst as [? | (Hge & Hl & Hp)]; [contradiction|].
  set (nl := Index (after raw (start + 2)) [LF]).
  assert (Hstart2 : start + 2 <= len raw).
  { destruct (dashes_at raw start ltac:(lia) Hp) as [_ D2].
    apply lookup_lt_Some in D2. unfold len. lia. }
  destruct ((nl =? -1) || (len raw <? start + 2 + nl)) eqn:Ec; [|discriminate].
  intros _ s Hs (Hs0 & Hsl & Hsp & Hsn).
  assert (Hnone : nl = -1).
  { apply orb_true_iff in Ec as [Ec | Ec]; [apply Z.eqb_eq, Ec|].
    apply Z.ltb_lt in Ec.
    destruct (Index_range (after raw (start + 2)) [LF]) as [Hi | Hi];
      [discriminate | exact Hi |].
    fold nl in Hi. rewrite len_after_gen in Hi by lia. lia. }
  destruct (Z_lt_le_dec s start) as [Hlt | Hle].
  { rewrite (Hbefore s Hs (or_intror Hlt) Hsl) in Hsp. discriminate. }
  apply (LF_later raw (s + 2) ltac:(lia)) in Hsn as (e & He & Hlf).
  assert (0 <= nl); [|lia].
  apply (LF_later raw (start + 2) ltac:(lia)). exists e. split; [lia | exact Hlf].
Qed.

Lemma scanAllBoundaries_loop_finds (fuel : nat) (raw : bytes) :
  forall (offset : Z) (acc : list boundaryPos),
    (Z.to_nat (len raw - offset) <= fuel)%nat ->
    0 <= offset -> lineStartAt raw offset ->
    (forall b, b ∈ acc -> entryOK raw b) ->
    (forall s, 0 <= s < offset -> delimiterLineAt raw s ->
               exists b, b ∈ acc /\ bp_Start b = s) ->
    (forall b, b ∈ scanAllBoundaries_loop fuel raw offset acc -> entryOK raw b)
    /\ (forall s, delimiterLineAt raw s ->
          exists b, b ∈ scanAllBoundaries_loop fuel raw offset acc /\ bp_Start b = s).
Proof.
  induction fuel as [|fuel IH]; intros offset acc Hf H0 Hls Hacc Hall;
    cbn [scanAllBoundaries_loop].
  - split; [exact Hacc|]. intros s Hs.
    destruct (Z_lt_le_dec s offset) as [Hlt | Hle].
    + apply Hall; [|exact Hs]. destruct Hs as (? & _). lia.
    + destruct (no_delimiter_beyond raw s); [lia | exact Hs].
  - destruct (scanAllBoundaries_step raw offset) as [[b offset']|] eqn:E.
    + destruct (scanAllBoundaries_step_spec _ _ _ _ H0 E) as (S0 & S1 & S2 & S3 & _).
      destruct (scanAllBoundaries_step_finds _ _ _ _ H0 Hls E)
        as (F1 & F2 & -> & F4 & F5).
      apply IH; [lia | lia | exact F4 | |].
      * intros b' Hb'. apply elem_of_app in Hb' as [Hb' | Hb']; [apply Hacc, Hb'|].
        apply list_elem_of_singleton in Hb' as ->. exact F1.
      * intros s Hs Hd. destruct (Z_lt_le_dec s offset) as [Hlt | Hle].
        -- destruct (Hall s ltac:(lia) Hd) as (b' & Hb' & Hb'').
           exists b'. rewrite elem_of_app. auto.
        -- exists b. rewrite elem_of_app, list_elem_of_singleton.
           split; [auto|]. symmetry. apply F5; [lia | exact Hd].
    + split; [exact Hacc|]. intros s Hs.
      destruct (Z_lt_le_dec s offset) as [Hlt | Hle].
      * apply Hall; [|exact Hs]. destruct Hs as (? & _). lia.
      * destruct (scanAllBoundaries_step_stops raw offset H0 Hls E s Hle Hs).
Qed.

Lemma scanAllBoundaries_finds (raw : bytes) :
  (forall b, b ∈ scanAllBoundaries raw -> entryOK raw b)
  /\ (forall s, delimiterLineAt raw s ->
        exists b, b ∈ scanAllBoundaries raw /\ bp_Start b = s).
Proof.
  apply scanAllBoundaries_loop_finds.
  - unfold len. lia.
  - lia.
  - left. reflexivity.
  - intros b Hb. inversion Hb.
  - intros s Hs. lia.
Qed.

(** X10: every entry that [scanAllBoundaries] records stands for a
    delimiter line of the buffer: its start offset begins a line that
    begins with two dashes and is ended by a newline, its end offset is
    the offset just after that newline, and its token is the text
    between the dashes and the newline, trimmed. *)
Theorem scanAllBoundaries_sound (raw : bytes) (i : nat) (b : boundaryPos) :
  scanAllBoundaries raw !! i = Some b ->
  delimiterLineAt raw (bp_Start b)
  /\ bp_End b = bp_Start b + 2 + Index (after raw (bp_Start b + 2)) [LF] + 1
  /\ byteAt raw (bp_End b - 1) = LF
  /\ bp_Boundary b
     = TrimSpace (sub raw (bp_Start b + 2) (bp_End b - 1 - (bp_Start b + 2))).
Proof.
  intros Hb. apply list_elem_of_lookup_2 in Hb.
  destruct (proj1 (scanAllBoundaries_finds raw) b Hb) as (D & E & T).
  split; [exact D|]. split; [exact E|]. split; [|exact T].
  destruct D as (D0 & _ & _ & Dn).
  destruct (LF_first raw (bp_Start b + 2) ltac:(lia) Dn) as [Hlf _].
  apply byteAt_lookup; [lia | exact LF_neq_0 |].
  rewrite E.
  replace (bp_Start b + 2 + Index (after raw (bp_Start b + 2)) [LF] + 1 - 1)
    with (bp_Start b + 2 + Index (after raw (bp_Start b + 2)) [LF]) by lia.
  exact Hlf.
Qed.

(** X11: [scanAllBoundaries] misses no delimiter line: for every offset
    that begins a line which begins with two dashes and is ended by a
    newline, there is an entry with that start offset. *)
Theorem scanAllBoundaries_complete (raw : bytes) (s : Z) :
  delimiterLineAt raw s ->
  exists (i : nat) b, scanAllBoundaries raw !! i = Some b /\ bp_Start b = s.
Proof.
  intros Hs. destruct (proj2 (scanAllBoundaries_finds raw) s Hs) as (b & Hb & Hbs).
  apply list_elem_of_lookup_1 in Hb as [i Hi]. eauto.
Qed.

(** X12: the entries of [scanAllBoundaries] lie inside the buffer, each
    one spans at least the two dashes and the newline, and they are in
    ascending order without overlap. *)
Theorem scanAllBoundaries_ordered (raw : bytes) (i j : nat) (a b : boundaryPos) :
  (i < j)%nat ->
  scanAllBoundaries raw !! i = Some a -> scanAllBoundaries raw !! j = Some b ->
  0 <= bp_Start a /\ bp_Start a + 3 <= bp_End a /\ bp_End a <= bp_Start b
  /\ bp_Start b + 3 <= bp_End b /\ bp_End b <= len raw.
Proof.
  intros Hij Ha Hb.
  destruct (bsOK_lookup _ _ _ _ _ (scanAllBoundaries_ok raw) Ha) as (A1 & A2 & A3 & A4).
  assert (Hb' : drop (S i) (scanAllBoundaries raw) !! (j - S i)%nat = Some b).
  { rewrite lookup_drop. replace (S i + (j - S i))%nat with j by lia. exact Hb. }
  destruct (bsOK_lookup _ _ _ _ _ A4 Hb') as (B1 & B2 & B3 & _).
  lia.
Qed.

(** ** Header values: what a well-formed value parses to *)

Lemma findEnd_app (f : ascii -> bool) (s rest : bytes) (i : Z) :
  forallb (fun c => negb (f c)) s = true ->
  (rest = [] \/ exists c r, rest = c :: r /\ f c = true) ->
  findEnd f (s ++ rest) i = i + len s.
Proof.
  revert i. induction s as [|c s IH]; intros i Hs Hr; cbn [app findEnd].
  - destruct Hr as [-> | (c & r & -> & Hc)]; cbn [findEnd]; [|rewrite Hc];
      unfold len; cbn; lia.
  - cbn [forallb] in Hs. apply andb_true_iff in Hs as [Hc Hs].
    apply negb_true_iff in Hc. rewrite Hc, IH by assumption.
    unfold len. cbn [length]. lia.
Qed.

Lemma valueByte_props (c : ascii) :
  valueByte c = true ->
  bval c < 128 /\ isValueEnd c = false /\ beq c DQUOTE = false
  /\ asciiSpace c = false /\ beq c SEMI = false.
Proof.
  unfold valueByte. intros H. apply andb_true_iff in H as [H H3].
  apply andb_true_iff in H as [H1 H2].
  apply Z.ltb_lt in H1. apply negb_true_iff in H2, H3.
  split; [exact H1|]. split; [exact H2|]. split; [exact H3|].
  unfold isValueEnd in H2. apply orb_false_iff in H2 as [H4 H5].
  split; [|exact H4].
  unfold IsSpaceByte, asciiSpace in *. cbv zeta in *.
  apply orb_false_iff in H5 as [H5 _]. apply orb_false_iff in H5 as [H5 _]. exact H5.
Qed.

Lemma nameByte_valueByte (c : ascii) : nameByte c = true -> valueByte c = true.
Proof.
  unfold nameByte, valueByte, isNameEnd, isValueEnd.
  destruct (bval c <? 128), (beq c "="%char), (beq c SEMI), (IsSpaceByte c),
    (beq c DQUOTE); cbn; congruence.
Qed.

Lemma nameByte_props (c : ascii) :
  nameByte c = true -> isNameEnd c = false /\ valueByte c = true.
Proof.
  intros H. split; [|apply nameByte_valueByte, H].
  unfold nameByte in H. apply andb_true_iff in H as [H _].
  apply andb_true_iff in H as [_ H]. apply negb_true_iff, H.
Qed.

(** A text that begins with an ASCII byte that is not white space does
    not begin with a white-space rune. *)
Lemma spaceRune_ascii (c : ascii) (r : bytes) :
  bval c < 128 -> asciiSpace c = false -> spaceRune (c :: r) = 0%nat.
Proof.
  intros Hc Hs. cbn [spaceRune]. rewrite Hs.
  destruct r as [|d r]; [reflexivity|].
  replace (space2 (bval c) (bval d)) with false
    by (unfold space2; destruct (bval c =? 194) eqn:E; [apply Z.eqb_eq in E; lia | reflexivity]).
  destruct r as [|e r]; [reflexivity|].
  replace (space3 (bval c) (bval d) (bval e)) with false; [reflexivity|].
  unfold space3.
  destruct (bval c =? 225) eqn:E1; [apply Z.eqb_eq in E1; lia|].
  destruct (bval c =? 226) eqn:E2; [apply Z.eqb_eq in E2; lia|].
  destruct (bval c =? 227) eqn:E3; [apply Z.eqb_eq in E3; lia|].
  reflexivity.
Qed.

Lemma spaceRuneLast_ascii (c : ascii) (r : bytes) :
  bval c < 128 -> asciiSpace c = false -> spaceRuneLast (c :: r) = 0%nat.
Proof.
  intros Hc Hs. cbn [spaceRuneLast]. rewrite Hs.
  destruct r as [|d r]; [reflexivity|].
  replace (space2 (bval d) (bval c)) with false.
  2:{ unfold space2. destruct (bval c =? 133) eqn:E1; [apply Z.eqb_eq in E1; lia|].
      destruct (bval c =? 160) eqn:E2; [apply Z.eqb_eq in E2; lia|].
      rewrite andb_false_r. reflexivity. }
  destruct r as [|e r]; [reflexivity|].
  replace (space3 (bval e) (bval d) (bval c)) with false; [reflexivity|].
  unfold space3.
  destruct (bval c =? 128) eqn:E1; [apply Z.eqb_eq in E1; lia|].
  destruct (bval c =? 159) eqn:E2; [apply Z.eqb_eq in E2; lia|].
  destruct (bval c =? 168) eqn:E3; [apply Z.eqb_eq in E3; lia|].
  destruct (bval c =? 169) eqn:E4; [apply Z.eqb_eq in E4; lia|].
  destruct (bval c =? 175) eqn:E5; [apply Z.eqb_eq in E5; lia|].
  replace ((128 <=? bval c) && (bval c <=? 138)) with false
    by (symmetry; apply andb_false_iff; left; apply Z.leb_gt; lia).
  rewrite !andb_false_r. reflexivity.
Qed.

Lemma trimRunes_id (fuel : nat) (w : bytes -> nat) (s : bytes) :
  w s = 0%nat -> trimRunes fuel w s = s.
Proof. intros H. destruct fuel; cbn [trimRunes]; [reflexivity|]. rewrite H. reflexivity. Qed.

Lemma TrimLeftSpace_id (s : bytes) : spaceRune s = 0%nat -> TrimLeftSpace s = s.
Proof. apply trimRunes_id. Qed.

Lemma TrimSpace_id (s : bytes) :
  spaceRune s = 0%nat -> spaceRuneLast (rev s) = 0%nat -> TrimSpace s = s.
Proof.
  intros H1 H2. unfold TrimSpace, TrimRightSpace. rewrite (TrimLeftSpace_id s H1).
  unfold TrimLeftFunc. rewrite trimRunes_id by exact H2. apply rev_involutive.
Qed.

Lemma TrimSpace_valueToken (s : bytes) :
  forallb valueByte s = true -> TrimSpace s = s.
Proof.
  intros H. apply TrimSpace_id.
  - destruct s as [|c r]; [reflexivity|]. cbn [forallb] in H.
    apply andb_true_iff in H as [H _].
    destruct (valueByte_props c H) as (? & _ & _ & ? & _). apply spaceRune_ascii; assumption.
  - destruct (rev s) as [|c r] eqn:E; [reflexivity|].
    assert (Hc : valueByte c = true).
    { rewrite forallb_forall in H. apply H. apply in_rev. rewrite E. left. reflexivity. }
    destruct (valueByte_props c Hc) as (? & _ & _ & ? & _).
    apply spaceRuneLast_ascii; assumption.
Qed.

Lemma paramsBody_sep (ps : list (bytes * bytes)) :
  concat (List.map (fun p => B "; " ++ fst p ++ B "=" ++ snd p) ps)
  = match ps with [] => [] | _ :: _ => SEMI :: SP :: paramsBody ps end.
Proof.
  destruct ps as [|p ps]; [reflexivity|].
  cbn [List.map concat paramsBody]. rewrite <- !app_assoc. reflexivity.
Qed.

Lemma paramsBody_head (ps : list (bytes * bytes)) :
  Forall (fun p => nameToken (fst p) /\ valueToken (snd p)) ps ->
  paramsBody ps = [] \/ exists c r, paramsBody ps = c :: r /\ nameByte c = true.
Proof.
  intros H. destruct H as [|[n x] ps [[Hn Hf] _] _]; [auto|]. right.
  cbn [paramsBody fst snd] in *. destruct n as [|c n]; [congruence|].
  cbn [forallb] in Hf. apply andb_true_iff in Hf as [Hc _].
  exists c. eexists. split; [reflexivity | exact Hc].
Qed.

Lemma spaceRune_body (ps : list (bytes * bytes)) :
  Forall (fun p => nameToken (fst p) /\ valueToken (snd p)) ps ->
  spaceRune (paramsBody ps) = 0%nat /\ semiOrSpaceRune (paramsBody ps) = 0%nat.
Proof.
  intros H. destruct (paramsBody_head ps H) as [-> | (c & r & -> & Hc)]; [auto|].
  destruct (nameByte_props c Hc) as [_ Hv].
  destruct (valueByte_props c Hv) as (H1 & _ & _ & H2 & H3).
  unfold semiOrSpaceRune. rewrite H3, (spaceRune_ascii c r H1 H2). auto.
Qed.

Lemma forallb_nameEnd (n : bytes) :
  forallb nameByte n = true -> forallb (fun c => negb (isNameEnd c)) n = true.
Proof.
  rewrite !forallb_forall. intros H c Hc.
  destruct (nameByte_props c (H c Hc)) as [-> _]. reflexivity.
Qed.

Lemma forallb_valueEnd (x : bytes) :
  forallb valueByte x = true -> forallb (fun c => negb (isValueEnd c)) x = true.
Proof.
  rewrite !forallb_forall. intros H c Hc.
  destruct (valueByte_props c (H c Hc)) as (_ & -> & _). reflexivity.
Qed.

Lemma forallb_name_value (n : bytes) :
  forallb nameByte n = true -> forallb valueByte n = true.
Proof.
  rewrite !forallb_forall. intros H c Hc. apply nameByte_valueByte, H, Hc.
Qed.

Lemma IndexByte_head (c : ascii) (r : bytes) : IndexByte (c :: r) c = 0.
Proof.
  unfold IndexByte, Index. cbn [Index_from HasPrefix]. rewrite beq_refl. reflexivity.
Qed.

Lemma skipToNextParam_sep (ps : list (bytes * bytes)) :
  Forall (fun p => nameToken (fst p) /\ valueToken (snd p)) ps ->
  ParseMimeValueParams_skipToNextParam
    (concat (List.map (fun p => B "; " ++ fst p ++ B "=" ++ snd p) ps))
  = paramsBody ps.
Proof.
  intros H. rewrite paramsBody_sep. destruct ps as [|p ps]; [reflexivity|].
  unfold ParseMimeValueParams_skipToNextParam. rewrite IndexByte_head.
  change (0 =? -1) with false. cbv iota.
  change (after (SEMI :: SP :: paramsBody (p :: ps)) (0 + 1))
    with (SP :: paramsBody (p :: ps)).
  unfold TrimLeftSpace, TrimLeftFunc. cbn [length trimRunes spaceRune].
  change (asciiSpace SP) with true. cbn [drop].
  apply trimRunes_id, spaceRune_body, H.
Qed.

(** One turn of the loop of [parseParams] on [name=value] followed by
    further parameters reads that parameter and leaves the others. *)
Lemma parseParams_step_token (n x : bytes) (ps : list (bytes * bytes)) :
  nameToken n -> valueToken x ->
  Forall (fun p => nameToken (fst p) /\ valueToken (snd p)) ps ->
  parseParams_step (paramsBody ((n, x) :: ps)) = (Some (ToUpper n, x), paramsBody ps).
Proof.
  intros [Hn Hnf] [Hx Hxf] Hps. cbn [paramsBody fst snd].
  set (t := concat (List.map (fun p => B "; " ++ fst p ++ B "=" ++ snd p) ps)).
  assert (Ht : t = [] \/ exists c r, t = c :: r /\ isValueEnd c = true).
  { subst t. rewrite paramsBody_sep. destruct ps; [auto|]. right.
    exists SEMI. eexists. split; reflexivity. }
  unfold parseParams_step.
  rewrite (findEnd_app isNameEnd n (B "=" ++ x ++ t) 0 (forallb_nameEnd n Hnf))
    by (right; exists "="%char; eexists; split; reflexivity).
  replace (0 + len n) with (len n) by lia.
  rewrite upto_app_len, after_app_len.
  rewrite (TrimSpace_valueToken n (forallb_name_value n Hnf)).
  replace (len n =? 0) with false
    by (symmetry; apply Z.eqb_neq; destruct n; [congruence | unfold len; cbn; lia]).
  rewrite (TrimLeftSpace_id (B "=" ++ x ++ t))
    by (apply (spaceRune_ascii "="%char (x ++ t)); reflexivity).
  cbn [B list_ascii_of_string app]. unfold beq at 1. rewrite Ascii.eqb_refl.
  change (after ("="%char :: x ++ t) 1) with (x ++ t).
  destruct x as [|q x']; [congruence|].
  pose proof Hxf as Hq. cbn [forallb] in Hq. apply andb_true_iff in Hq as [Hq _].
  destruct (valueByte_props q Hq) as (Q1 & Q2 & Q3 & Q4 & Q5).
  rewrite (TrimLeftSpace_id ((q :: x') ++ t)) by (apply spaceRune_ascii; assumption).
  cbn [app]. rewrite Q3.
  unfold ParseMimeValueParams_parseUnquotedParamValue.
  change (q :: x' ++ t) with ((q :: x') ++ t).
  rewrite (findEnd_app isValueEnd (q :: x') t 0 (forallb_valueEnd _ Hxf) Ht).
  replace (0 + len (q :: x')) with (len (q :: x')) by lia.
  rewrite upto_app_len, after_app_len.
  subst t. rewrite (skipToNextParam_sep ps Hps). reflexivity.
Qed.

Lemma paramOccurrences_body (ps : list (bytes * bytes)) :
  Forall (fun p => nameToken (fst p) /\ valueToken (snd p)) ps ->
  forall fuel, (length ps <= fuel)%nat ->
  paramOccurrences fuel (paramsBody ps)
  = List.map (fun p => (ToUpper (fst p), snd p)) ps.
Proof.
  induction 1 as [|[n x] ps [Hn Hx] Hps IH]; intros fuel Hf.
  - destruct fuel; reflexivity.
  - destruct fuel as [|fuel]; [cbn in Hf; lia|].
    cbn [paramOccurrences].
    destruct (paramsBody ((n, x) :: ps)) as [|c r] eqn:E.
    { exfalso. cbn [paramsBody fst snd] in E. destruct Hn as [Hn _].
      cbn [fst] in Hn. destruct n; [congruence | discriminate]. }
    rewrite <- E. rewrite (parseParams_step_token n x ps Hn Hx Hps).
    cbn [List.map fst snd]. f_equal. apply IH. cbn in Hf. lia.
Qed.

Lemma paramsBody_length (ps : list (bytes * bytes)) :
  (length ps <= length (paramsBody ps))%nat.
Proof.
  destruct ps as [|p ps]; [cbn; lia|]. cbn [paramsBody length].
  rewrite !length_app. change (length (B "=")) with 1%nat.
  assert (H : forall l : list (bytes * bytes),
            (length l <= length (concat (List.map
               (fun p => B "; " ++ fst p ++ B "=" ++ snd p) l)))%nat).
  { induction l as [|q l IHl]; [cbn; lia|].
    cbn [List.map concat length]. rewrite !length_app.
    change (length (B "; ")) with 2%nat. lia. }
  specialize (H ps). lia.
Qed.

Lemma TrimLeftBytes_token (v rest : bytes) :
  valueToken v -> TrimLeftBytes (v ++ rest) [SP; HT] = v ++ rest.
Proof.
  intros [Hv Hf]. destruct v as [|c v]; [congruence|].
  cbn [forallb] in Hf. apply andb_true_iff in Hf as [Hc _].
  destruct (valueByte_props c Hc) as (_ & _ & _ & Hs & _).
  unfold TrimLeftBytes. cbn [app dropWhile].
  replace (inSet [SP; HT] c) with false; [reflexivity|].
  symmetry. unfold inSet. cbn [existsb]. rewrite orb_false_r.
  apply orb_false_iff. split; apply beq_neq; intros ->; discriminate.
Qed.

Lemma parseValue_token (v : bytes) (ps : list (bytes * bytes)) :
  valueToken v ->
  ParseMimeValueParams_parseValue
    (v ++ concat (List.map (fun p => B "; " ++ fst p ++ B "=" ++ snd p) ps))
  = (v, len v).
Proof.
  intros [Hv Hf]. rewrite paramsBody_sep.
  set (t := match ps with [] => [] | _ :: _ => SEMI :: SP :: paramsBody ps end).
  assert (Ht : t = [] \/ exists c r, t = c :: r /\ isValueEnd c = true).
  { subst t. destruct ps; [auto|]. right. exists SEMI. eexists. split; reflexivity. }
  destruct v as [|c v]; [congruence|].
  pose proof Hf as Hc. cbn [forallb] in Hc. apply andb_true_iff in Hc as [Hc _].
  destruct (valueByte_props c Hc) as (_ & _ & Hq & _).
  unfold ParseMimeValueParams_parseValue. cbn [app]. rewrite Hq.
  change (c :: v ++ t) with ((c :: v) ++ t).
  rewrite (findEnd_app isValueEnd (c :: v) t 0 (forallb_valueEnd _ Hf) Ht).
  replace (0 + len (c :: v)) with (len (c :: v)) by lia.
  rewrite upto_app_len. reflexivity.
Qed.

Lemma paramsContentOf_token (v : bytes) (ps : list (bytes * bytes)) :
  valueToken v -> Forall (fun p => nameToken (fst p) /\ valueToken (snd p)) ps ->
  paramsContentOf
    (v ++ concat (List.map (fun p => B "; " ++ fst p ++ B "=" ++ snd p) ps))
  = paramsBody ps.
Proof.
  intros Hv Hps. unfold paramsContentOf. cbv zeta.
  rewrite (TrimLeftBytes_token v _ Hv), (parseValue_token v ps Hv). cbn [snd].
  rewrite after_app_len, len_app, paramsBody_sep.
  destruct ps as [|p ps].
  - destruct (len v <? _) eqn:E; [|reflexivity].
    apply Z.ltb_lt in E. unfold len in E. cbn [length] in E. lia.
  - replace (len v <? len v + len (SEMI :: SP :: paramsBody (p :: ps))) with true
      by (symmetry; apply Z.ltb_lt; unfold len; cbn [length]; lia).
    unfold TrimLeftFunc. cbn [length trimRunes semiOrSpaceRune].
    rewrite beq_refl. cbn [drop].
    replace (beq SP SEMI) with false by reflexivity.
    change (spaceRune (SP :: paramsBody (p :: ps))) with 1%nat. cbn [drop].
    apply trimRunes_id, spaceRune_body, Hps.
Qed.

(** X13: a header value written as a token followed by parameters
    [; name=value], with names and values that are plain tokens, parses
    to that token as the principal value and to those parameters, in
    order, with the names in upper case; the parameter map holds, for
    each name, the value of its first occurrence. *)
Theorem parameters_round_trip (v : bytes) (ps : list (bytes * bytes)) :
  valueToken v -> Forall (fun p => nameToken (fst p) /\ valueToken (snd p)) ps ->
  let data := v ++ concat (List.map (fun p => B "; " ++ fst p ++ B "=" ++ snd p) ps) in
  mv_Value (ParseMimeValueParams data) = v
  /\ parameterList data = List.map (fun p => (ToUpper (fst p), snd p)) ps
  /\ forall k, mv_Params (ParseMimeValueParams data) !! k
               = firstValue k (List.map (fun p => (ToUpper (fst p), snd p)) ps).
Proof.
  intros Hv Hps data.
  assert (Hlist : parameterList data = List.map (fun p => (ToUpper (fst p), snd p)) ps).
  { unfold parameterList. subst data. rewrite (paramsContentOf_token v ps Hv Hps).
    apply paramOccurrences_body; [exact Hps | apply paramsBody_length]. }
  split; [|split; [exact Hlist|]].
  - unfold ParseMimeValueParams. subst data.
    rewrite (TrimLeftBytes_token v _ Hv), (parseValue_token v ps Hv).
    replace (len (v ++ _) =? 0) with false.
    2:{ symmetry. apply Z.eqb_neq. destruct Hv as [Hv _].
        destruct v; [congruence | unfold len; cbn; lia]. }
    destruct (len v <? _); reflexivity.
  - intros k. rewrite ParseMimeValueParams_params.
    unfold ParseMimeValueParams_parseParams. rewrite parseParams_loop_lookup.
    rewrite lookup_empty. fold (parameterList data). rewrite Hlist. reflexivity.
Qed.

(** ** Quoted values *)

Lemma unescape_no_backslash (b : bytes) :
  forallb (fun c => negb (beq c BACKSLASH)) b = true ->
  ParseMimeValueParams_unescapeQuotedBytes b = b.
Proof.
  induction b as [|c b IH]; intros H; [reflexivity|].
  cbn [forallb] in H. apply andb_true_iff in H as [Hc H]. apply negb_true_iff in Hc.
  cbn [ParseMimeValueParams_unescapeQuotedBytes]. rewrite Hc. cbn [andb].
  specialize (IH H). destruct b as [|c2 r]; [reflexivity|]. rewrite IH. reflexivity.
Qed.

(** X14: [unescapeQuotedBytes] undoes the quoting of a text, in which a
    backslash is put before every double quote and every backslash; and
    it leaves a text without backslash as it is. *)
Theorem unescape_inverts_escaping (x : bytes) :
  ParseMimeValueParams_unescapeQuotedBytes
    (flat_map (fun c => if beq c DQUOTE || beq c BACKSLASH then [BACKSLASH; c] else [c]) x)
  = x
  /\ (forallb (fun c => negb (beq c BACKSLASH)) x = true ->
      ParseMimeValueParams_unescapeQuotedBytes x = x).
Proof.
  split; [|apply unescape_no_backslash].
  induction x as [|c x IH]; [reflexivity|].
  cbn [flat_map]. destruct (beq c DQUOTE || beq c BACKSLASH) eqn:E.
  - cbn [app ParseMimeValueParams_unescapeQuotedBytes].
    rewrite beq_refl, E. cbn [andb]. rewrite IH. reflexivity.
  - cbn [app ParseMimeValueParams_unescapeQuotedBytes].
    apply orb_false_iff in E as [_ E]. rewrite E. cbn [andb].
    destruct (flat_map _ x) as [|c2 r] eqn:Ef.
    + cbn in IH. rewrite <- IH. reflexivity.
    + rewrite IH. reflexivity.
Qed.

Lemma last_cons_indep {A} (d : A) (x : list A) (a b : A) :
  List.last (d :: x) a = List.last (d :: x) b.
Proof.
  revert d. induction x as [|e x IH]; intros d; [reflexivity|].
  change (List.last (e :: x) a = List.last (e :: x) b). apply IH.
Qed.

Lemma findCloseQuote_app (x rest : bytes) (prev : ascii) (i : Z) :
  forallb (fun c => negb (beq c DQUOTE)) x = true ->
  beq (List.last x prev) BACKSLASH = false ->
  findCloseQuote prev (x ++ DQUOTE :: rest) i = i + len x.
Proof.
  revert prev i. induction x as [|c x IH]; intros prev i Hx Hl.
  - cbn [app findCloseQuote]. cbn [List.last] in Hl. rewrite beq_refl, Hl.
    cbn. unfold len. cbn. lia.
  - cbn [forallb] in Hx. apply andb_true_iff in Hx as [Hc Hx].
    apply negb_true_iff in Hc. cbn [app findCloseQuote]. rewrite Hc. cbn [andb].
    rewrite IH; [unfold len; cbn [length]; lia | exact Hx |].
    destruct x as [|d x]; [exact Hl|].
    rewrite (last_cons_indep d x c prev). exact Hl.
Qed.

Lemma value_then_body (v body : bytes) :
  valueToken v -> semiOrSpaceRune body = 0%nat ->
  mv_Value (ParseMimeValueParams (v ++ SEMI :: SP :: body)) = v
  /\ paramsContentOf (v ++ SEMI :: SP :: body) = body.
Proof.
  intros Hv Hb.
  assert (Hval : ParseMimeValueParams_parseValue (v ++ SEMI :: SP :: body) = (v, len v)).
  { destruct Hv as [Hv0 Hf]. destruct v as [|c v]; [congruence|].
    pose proof Hf as Hc. cbn [forallb] in Hc. apply andb_true_iff in Hc as [Hc _].
    destruct (valueByte_props c Hc) as (_ & _ & Hq & _).
    unfold ParseMimeValueParams_parseValue. cbn [app]. rewrite Hq.
    change (c :: v ++ SEMI :: SP :: body) with ((c :: v) ++ SEMI :: SP :: body).
    rewrite (findEnd_app isValueEnd (c :: v) _ 0 (forallb_valueEnd _ Hf))
      by (right; exists SEMI; eexists; split; reflexivity).
    replace (0 + len (c :: v)) with (len (c :: v)) by lia.
    rewrite upto_app_len. reflexivity. }
  assert (Hlt : (len v <? len (v ++ SEMI :: SP :: body)) = true).
  { apply Z.ltb_lt. rewrite len_app. unfold len. cbn [length]. lia. }
  split.
  - unfold ParseMimeValueParams. rewrite (TrimLeftBytes_token v _ Hv), Hval, Hlt.
    replace (len (v ++ SEMI :: SP :: body) =? 0) with false; [reflexivity|].
    symmetry. apply Z.eqb_neq. rewrite len_app. unfold len. cbn [length]. lia.
  - unfold paramsContentOf. cbv zeta.
    rewrite (TrimLeftBytes_token v _ Hv), Hval. cbn [snd]. rewrite Hlt.
    rewrite after_app_len.
    unfold TrimLeftFunc. cbn [length trimRunes semiOrSpaceRune].
    rewrite beq_refl. cbn [drop].
    replace (beq SP SEMI) with false by reflexivity.
    change (spaceRune (SP :: body)) with 1%nat. cbn [drop].
    apply trimRunes_id, Hb.
Qed.

(** X15: a parameter whose value is written between double quotes, with
    no double quote inside and no backslash at its end, parses to the
    text between the quotes, unescaped; white space and semicolons
    inside the quotes belong to the value. *)
Theorem quoted_parameter_value (v n x : bytes) :
  valueToken v -> nameToken n ->
  forallb (fun c => negb (beq c DQUOTE)) x = true ->
  beq (List.last x DQUOTE) BACKSLASH = false ->
  let data := v ++ B "; " ++ n ++ B "=" ++ [DQUOTE] ++ x ++ [DQUOTE] in
  mv_Value (ParseMimeValueParams data) = v
  /\ parameterList data = [(ToUpper n, ParseMimeValueParams_unescapeQuotedBytes x)]
  /\ mv_Params (ParseMimeValueParams data) !! ToUpper n
     = Some (ParseMimeValueParams_unescapeQuotedBytes x).
Proof.
  intros Hv [Hn Hnf] Hx Hl data.
  set (body := n ++ B "=" ++ [DQUOTE] ++ x ++ [DQUOTE]).
  assert (Hdata : data = v ++ SEMI :: SP :: body) by reflexivity.
  assert (Hbody : exists c r, body = c :: r /\ nameByte c = true).
  { subst body. destruct n as [|c n]; [congruence|].
    cbn [forallb] in Hnf. apply andb_true_iff in Hnf as [Hc _].
    exists c. eexists. split; [reflexivity | exact Hc]. }
  assert (Hsp : spaceRune body = 0%nat /\ semiOrSpaceRune body = 0%nat).
  { destruct Hbody as (c & r & -> & Hc).
    destruct (nameByte_props c Hc) as [_ Hcv].
    destruct (valueByte_props c Hcv) as (H1 & _ & _ & H2 & H3).
    unfold semiOrSpaceRune. rewrite H3, (spaceRune_ascii c r H1 H2). auto. }
  destruct (value_then_body v body Hv (proj2 Hsp)) as (Hval & Hcontent).
  change (v ++ SEMI :: SP :: body) with data in Hval, Hcontent.
  assert (Hstep : parseParams_step body
                  = (Some (ToUpper n, ParseMimeValueParams_unescapeQuotedBytes x), [])).
  { subst body. unfold parseParams_step.
    rewrite (findEnd_app isNameEnd n _ 0 (forallb_nameEnd n Hnf))
      by (right; exists "="%char; eexists; split; reflexivity).
    replace (0 + len n) with (len n) by lia.
    rewrite upto_app_len, after_app_len.
    rewrite (TrimSpace_valueToken n (forallb_name_value n Hnf)).
    replace (len n =? 0) with false
      by (symmetry; apply Z.eqb_neq; destruct n; [congruence | unfold len; cbn; lia]).
    rewrite (TrimLeftSpace_id (B "=" ++ [DQUOTE] ++ x ++ [DQUOTE]))
      by (apply (spaceRune_ascii "="%char); reflexivity).
    cbn [B list_ascii_of_string app]. unfold beq at 1. rewrite Ascii.eqb_refl.
    change (after ("="%char :: DQUOTE :: x ++ [DQUOTE]) 1) with (DQUOTE :: x ++ [DQUOTE]).
    rewrite (TrimLeftSpace_id (DQUOTE :: x ++ [DQUOTE]))
      by (apply (spaceRune_ascii DQUOTE); reflexivity).
    rewrite beq_refl.
    unfold ParseMimeValueParams_parseQuotedParamValue. rewrite beq_refl.
    unfold closeQuoteIdx.
    rewrite (findCloseQuote_app x [] DQUOTE 1 Hx Hl).
    replace (negb (1 + len x =? -1)) with true
      by (symmetry; apply negb_true_iff, Z.eqb_neq; unfold len; lia).
    replace (1 + len x - 1) with (len x) by lia.
    replace (sub (DQUOTE :: x ++ [DQUOTE]) 1 (len x)) with x.
    2:{ unfold sub, len. rewrite Nat2Z.id.
        change (drop (Z.to_nat 1) (DQUOTE :: x ++ [DQUOTE])) with (x ++ [DQUOTE]).
        rewrite take_app_length. reflexivity. }
    replace (after (DQUOTE :: x ++ [DQUOTE]) (1 + len x + 1)) with (@nil ascii).
    2:{ unfold after, len. rewrite drop_ge; [reflexivity|].
        cbn [length]. rewrite length_app. cbn [length]. lia. }
    reflexivity. }
  assert (Hlist : parameterList data
                  = [(ToUpper n, ParseMimeValueParams_unescapeQuotedBytes x)]).
  { unfold parameterList. rewrite Hcontent.
    destruct Hbody as (c & r & Hb & _). rewrite Hb. cbn [length paramOccurrences].
    rewrite <- Hb, Hstep. destruct (length r); reflexivity. }
  split; [exact Hval|]. split; [exact Hlist|].
  rewrite ParseMimeValueParams_params.
  unfold ParseMimeValueParams_parseParams. rewrite parseParams_loop_lookup.
  rewrite lookup_empty. fold (parameterList data). rewrite Hlist.
  unfold firstValue. cbn [List.find fst]. rewrite bytes_eqb_refl. reflexivity.
Qed.

(** ** Continued parameters *)

Lemma continuations_exact (params : gmap bytes bytes) (key suffix : bytes)
    (vs : list bytes) :
  forall (fuel : nat) (i : Z),
    (length vs < fuel)%nat ->
    (forall (j : nat) v, vs !! j = Some v ->
       params !! (key ++ B "*" ++ Itoa (i + Z.of_nat j) ++ suffix) = Some v) ->
    params !! (key ++ B "*" ++ Itoa (i + Z.of_nat (length vs)) ++ suffix) = None ->
    continuations fuel params key suffix i = vs.
Proof.
  induction vs as [|v vs IH]; intros fuel i Hf Hin Hout.
  - destruct fuel as [|fuel]; [cbn in Hf; lia|]. cbn [continuations].
    cbn [length] in Hout. replace (i + Z.of_nat 0) with i in Hout by lia.
    rewrite Hout. reflexivity.
  - destruct fuel as [|fuel]; [cbn in Hf; lia|]. cbn [continuations].
    pose proof (Hin 0%nat v eq_refl) as H0.
    replace (i + Z.of_nat 0) with i in H0 by lia. rewrite H0. f_equal.
    apply IH.
    + cbn [length] in Hf. lia.
    + intros j w Hj. replace (i + 1 + Z.of_nat j) with (i + Z.of_nat (S j)) by lia.
      apply Hin. exact Hj.
    + replace (i + 1 + Z.of_nat (length vs)) with (i + Z.of_nat (length (v :: vs)))
        by (cbn [length]; lia).
      exact Hout.
Qed.

(** X16: when a parameter is given in numbered segments [KEY*0*],
    [KEY*1*], ... and neither [KEY] nor [KEY*] is present,
    [ParseParamStringValue] decodes the concatenation of the segments
    from index 0 up to the first index that is missing, in order;
    segments after a gap are not read. *)
Theorem continued_parameter (m : MimeValueParams) (key0 dc v0 : bytes)
    (vs : list bytes) :
  mv_Params m !! ToUpper (ToUpper key0) = None ->
  mv_Params m !! (ToUpper key0 ++ B "*") = None ->
  mv_Params m !! (ToUpper key0 ++ B "*0*") = Some v0 ->
  (forall (i : nat) v, vs !! i = Some v ->
     mv_Params m !! (ToUpper key0 ++ B "*" ++ Itoa (1 + Z.of_nat i) ++ B "*") = Some v) ->
  mv_Params m !! (ToUpper key0 ++ B "*" ++ Itoa (1 + Z.of_nat (length vs)) ++ B "*")
    = None ->
  ParseParamStringValue m key0 dc
  = ParseMimeValueString2231 (v0 ++ concat vs) true dc.
Proof.
  intros H1 H2 H3 Hin Hout. unfold ParseParamStringValue. cbv zeta.
  rewrite H1, H2, H3. f_equal. unfold ConcatByteSlices. cbn [concat]. f_equal. f_equal.
  apply continuations_exact; [|exact Hin | exact Hout].
  assert (Hb : (S (length vs) <= size (mv_Params m))%nat); [|lia].
  apply (present_keys_bound (mv_Params m) (ToUpper key0) (B "*")).
  intros [|j] Hj.
  - change (Z.of_nat 0) with 0.
    destruct (continuationKey_0 (ToUpper key0)) as [<- _]. rewrite H3. eauto.
  - destruct (lookup_lt_is_Some_2 vs j ltac:(lia)) as [v Hv].
    replace (Z.of_nat (S j)) with (1 + Z.of_nat j) by lia.
    rewrite (Hin j v Hv). eauto.
Qed.

(** ** The encoded-word tokeniser *)

Lemma tokenLoop_S (fuel : nat) (bfBegin : bytes) (m : Z) (rs : list tokenNodeWithEncoding) :
  tokenLoop (S fuel) bfBegin m rs
  = match token_step bfBegin m rs with
    | (rs', Some (bfBegin', magicOffset')) => tokenLoop fuel bfBegin' magicOffset' rs'
    | (rs', None) => rs'
    end.
Proof. reflexivity. Qed.

(** X17: a text in which the marker [=?] does not occur is one token,
    without charset, whose data is the text itself; the empty text has
    no token; and [ParseMimeValueString] of such a text is the
    conversion of the whole text from the default charset. *)
Theorem plain_text_is_one_token (line dc : bytes) :
  Index line (B "=?") = -1 ->
  ParseMimeValueTokenNodes line
  = match line with [] => [] | _ :: _ => [mkTokenNode line []] end
  /\ ParseMimeValueString line dc
     = match line with [] => [] | _ :: _ => ConvertToUTF8 line [] dc end.
Proof.
  intros H.
  assert (Hseg : tokenSegments line
                 = match line with [] => [] | _ :: _ => [rawTok line] end).
  { unfold tokenSegments. rewrite Nat.add_comm. cbn [Nat.add]. rewrite tokenLoop_S.
    unfold token_step. destruct line as [|c line]; [reflexivity|].
    replace (0 <? len (c :: line)) with true
      by (symmetry; apply Z.ltb_lt; unfold len; cbn [length]; lia).
    cbv zeta. change (after (c :: line) 0) with (c :: line). rewrite H. reflexivity. }
  unfold ParseMimeValueString, ParseMimeValueTokenNodes. rewrite Hseg.
  destruct line as [|c line]; [split; reflexivity|].
  split; [reflexivity|]. unfold convertNodes. cbn. apply app_nil_r.
Qed.

Lemma Index_from_app_pair (a b : ascii) (p rest : bytes) (i : Z) :
  a <> b -> 0 <= i -> Index_from p [a; b] i = -1 ->
  Index_from (p ++ a :: b :: rest) [a; b] i = i + len p.
Proof.
  intros Hab. revert i. induction p as [|c p IH]; intros i Hi H.
  - cbn [app Index_from HasPrefix]. rewrite !beq_refl. unfold len. cbn. lia.
  - cbn [Index_from] in H.
    destruct (HasPrefix (c :: p) [a; b]) eqn:E; [lia|].
    cbn [app Index_from].
    replace (HasPrefix (c :: p ++ a :: b :: rest) [a; b]) with false.
    + rewrite (IH (i + 1) ltac:(lia) H). unfold len. cbn [length]. lia.
    + symmetry. cbn [HasPrefix] in E |- *.
      destruct (beq a c) eqn:Eac; [|reflexivity]. cbn [andb] in E |- *.
      destruct p as [|d p]; cbn [app HasPrefix] in E |- *.
      * rewrite andb_true_r. apply beq_neq. congruence.
      * exact E.
Qed.

Lemma Index_app_pair (a b : ascii) (p rest : bytes) :
  a <> b -> Index p [a; b] = -1 -> Index (p ++ a :: b :: rest) [a; b] = len p.
Proof.
  intros Hab H. unfold Index in *.
  rewrite (Index_from_app_pair a b p rest 0 Hab (Z.le_refl 0) H). lia.
Qed.

Lemma encodedWord_cons (cs payload rest : bytes) (e : ascii) :
  encodedWord cs e payload ++ rest
  = "="%char :: "?"%char ::
    cs ++ "?"%char :: e :: "?"%char :: payload ++ "?"%char :: "="%char :: rest.
Proof. unfold encodedWord. rewrite <- !app_assoc. reflexivity. Qed.

Lemma encodedWord_step (cs payload rest : bytes) (e : ascii)
    (rs : list tokenNodeWithEncoding) :
  2 <= len cs -> "?"%char ∉ cs -> e = "B"%char \/ e = "b"%char ->
  Index payload (B "?=") = -1 ->
  token_step (encodedWord cs e payload ++ rest) 0 rs
  = (push rs (mkTok (ToUpper cs) payload (B "B")), Some (rest, 0)).
Proof.
  intros Hcs Hq He Hp. rewrite encodedWord_cons.
  set (bf4 := payload ++ "?"%char :: "="%char :: rest).
  set (bf2 := cs ++ "?"%char :: e :: "?"%char :: bf4).
  unfold token_step.
  replace (0 <? len ("="%char :: "?"%char :: bf2)) with true
    by (symmetry; apply Z.ltb_lt; unfold len; cbn [length]; lia).
  cbv zeta.
  change (after ("="%char :: "?"%char :: bf2) 0) with ("="%char :: "?"%char :: bf2).
  change (Index ("="%char :: "?"%char :: bf2) (B "=?")) with 0.
  change (0 =? -1) with false. cbv iota.
  change (0 + 0) with 0. change (0 <? 0) with false. cbv iota.
  change (after ("="%char :: "?"%char :: bf2) 2) with bf2.
  assert (H2 : IndexByte bf2 "?"%char = len cs) by apply (Index_first cs _ "?"%char Hq).
  rewrite H2.
  replace (len cs <? 2) with false by (symmetry; apply Z.ltb_ge; lia).
  assert (Hup : upto bf2 (len cs) = cs) by apply upto_app_len.
  assert (Haf : after bf2 (len cs + 1) = e :: "?"%char :: bf4).
  { subst bf2. unfold after, len.
    replace (Z.to_nat (Z.of_nat (length cs) + 1)) with (length cs + 1)%nat by lia.
    rewrite <- drop_drop, drop_app_length. reflexivity. }
  rewrite Hup, Haf.
  replace (len (e :: "?"%char :: bf4) <? 4) with false.
  2:{ symmetry. apply Z.ltb_ge. subst bf4. unfold len. cbn [length]. rewrite length_app.
      cbn [length]. lia. }
  assert (Henc : ToUpper (runeString e) = B "B").
  { destruct He as [-> | ->]; reflexivity. }
  rewrite Henc.
  change (negb (bytes_eqb (B "B") (B "B")) && negb (bytes_eqb (B "B") (B "Q"))) with false.
  change (negb (beq "?"%char "?"%char)) with false. cbv iota.
  assert (H3 : Index bf4 (B "?=") = len payload)
    by apply (Index_app_pair "?"%char "="%char payload rest ltac:(discriminate) Hp).
  rewrite H3.
  replace (-1 <? len payload) with true by (symmetry; apply Z.ltb_lt; unfold len; lia).
  assert (Hup4 : upto bf4 (len payload) = payload) by apply upto_app_len.
  assert (Haf4 : after bf4 (len payload + 2) = rest).
  { subst bf4. unfold after, len.
    replace (Z.to_nat (Z.of_nat (length payload) + 2)) with (length payload + 2)%nat by lia.
    rewrite <- drop_drop, drop_app_length. reflexivity. }
  rewrite Hup4, Haf4. reflexivity.
Qed.

Lemma tokenLoop_words (cs : bytes) (e : ascii) (ps : list bytes) :
  2 <= len cs -> "?"%char ∉ cs -> e = "B"%char \/ e = "b"%char ->
  Forall (fun p => Index p (B "?=") = -1) ps ->
  forall fuel rs, (length ps < fuel)%nat ->
    tokenLoop fuel (concat (List.map (encodedWord cs e) ps)) 0 rs
    = fold_left (fun rs p => push rs (mkTok (ToUpper cs) p (B "B"))) ps rs.
Proof.
  intros Hcs Hq He. induction 1 as [|p ps Hp Hps IH]; intros fuel rs Hf.
  - destruct fuel as [|fuel]; [cbn in Hf; lia|]. reflexivity.
  - destruct fuel as [|fuel]; [cbn in Hf; lia|].
    rewrite tokenLoop_S. cbn [List.map concat].
    rewrite (encodedWord_step cs p _ e rs Hcs Hq He Hp).
    cbn [fold_left]. apply IH. cbn [length] in Hf. lia.
Qed.

Lemma push_merge (cs enc acc p : bytes) :
  cs <> [] ->
  push [mkTok cs acc enc] (mkTok cs p enc) = [mkTok cs (acc ++ p) enc].
Proof.
  intros Hcs. unfold push. cbn [tk_Charset tk_Encoding tk_Data].
  replace (len cs =? 0) with false
    by (symmetry; apply Z.eqb_neq; destruct cs; [congruence | unfold len; cbn; lia]).
  cbn [orb len length Z.of_nat Z.eqb last removelast app tk_Charset tk_Encoding tk_Data].
  rewrite !bytes_eqb_refl. reflexivity.
Qed.

Lemma fold_push_merge (cs enc : bytes) (ps : list bytes) (acc : bytes) :
  cs <> [] ->
  fold_left (fun rs p => push rs (mkTok cs p enc)) ps [mkTok cs acc enc]
  = [mkTok cs (acc ++ concat ps) enc].
Proof.
  intros Hcs. revert acc. induction ps as [|p ps IH]; intros acc; cbn [fold_left concat].
  - rewrite app_nil_r. reflexivity.
  - rewrite (push_merge cs enc acc p Hcs), IH, app_assoc. reflexivity.
Qed.

Lemma encodedWord_length (cs : bytes) (e : ascii) (ps : list bytes) :
  (length ps <= length (concat (List.map (encodedWord cs e) ps)))%nat.
Proof.
  induction ps as [|p ps IH]; [cbn; lia|].
  cbn [List.map concat length]. rewrite length_app.
  assert (1 <= length (encodedWord cs e p))%nat; [|lia].
  unfold encodedWord. rewrite length_app. change (length (B "=?")) with 2%nat. lia.
Qed.

(** X18: encoded-words with the same charset and the B encoding that
    follow one another with nothing between them are merged before
    decoding: the result is one token, the decoding of the concatenation
    of their payloads, whatever the payloads are. *)
Theorem adjacent_encoded_words_merge (cs : bytes) (e : ascii) (ps : list bytes) :
  2 <= len cs -> "?"%char ∉ cs -> ToUpper cs <> [] ->
  e = "B"%char \/ e = "b"%char ->
  ps <> [] -> Forall (fun p => Index p (B "?=") = -1) ps ->
  ParseMimeValueTokenNodes (concat (List.map (encodedWord cs e) ps))
  = [mkTokenNode (decodeHeaderBase64 (concat ps)) (ToUpper cs)].
Proof.
  intros Hcs Hq Hup He Hne Hps. unfold ParseMimeValueTokenNodes, tokenSegments.
  rewrite (tokenLoop_words cs e ps Hcs Hq He Hps)
    by (pose proof (encodedWord_length cs e ps); lia).
  destruct ps as [|p ps]; [congruence|]. cbn [fold_left].
  replace (push [] (mkTok (ToUpper cs) p (B "B"))) with [mkTok (ToUpper cs) p (B "B")].
  2:{ unfold push. cbn [len length Z.of_nat Z.eqb]. rewrite orb_true_r. reflexivity. }
  rewrite (fold_push_merge (ToUpper cs) (B "B") ps p Hup). reflexivity.
Qed.

(** ** Base64 in headers: blocks decode one by one *)

Lemma decodeHeaderBase64_loop_enough (k : nat) (b : bytes) (res : list bytes) :
  decodeHeaderBase64_loop (length b + k) b res
  = decodeHeaderBase64_loop (length b) b res.
Proof.
  induction k as [|k IH]; [f_equal; lia|].
  rewrite <- IH. replace (length b + S k)%nat with (S (length b + k)) by lia.
  apply decodeHeaderBase64_loop_fuel. lia.
Qed.

Lemma decodeHeaderBase64_loop_unfold (b : bytes) (res : list bytes) :
  b <> [] ->
  decodeHeaderBase64_loop (length b) b res
  = match decodeHeaderBase64_step b with
    | (decoded, Some rest) =>
      decodeHeaderBase64_loop (length rest) rest (res ++ [decoded])
    | (decoded, None) => res ++ [decoded]
    end.
Proof.
  intros Hb. destruct b as [|c b]; [congruence|]. cbn [length decodeHeaderBase64_loop].
  replace (0 <? len (c :: b)) with true
    by (symmetry; apply Z.ltb_lt; unfold len; cbn [length]; lia).
  destruct (decodeHeaderBase64_step (c :: b)) as [decoded [rest|]] eqn:E; [|reflexivity].
  pose proof (decodeHeaderBase64_step_progress (c :: b) rest decoded ltac:(discriminate) E) as Hp.
  cbn [length] in Hp.
  replace (length b) with (length rest + (length b - length rest))%nat by lia.
  apply decodeHeaderBase64_loop_enough.
Qed.

Lemma decodeHeaderBase64_loop_acc (n : nat) :
  forall (b : bytes) (res : list bytes), (length b <= n)%nat ->
    decodeHeaderBase64_loop (length b) b res
    = res ++ decodeHeaderBase64_loop (length b) b [].
Proof.
  induction n as [|n IH]; intros b res Hn.
  - destruct b; [cbn; rewrite app_nil_r; reflexivity | cbn in Hn; lia].
  - destruct b as [|c b]; [cbn; rewrite app_nil_r; reflexivity|].
    rewrite !(decodeHeaderBase64_loop_unfold (c :: b)) by discriminate.
    destruct (decodeHeaderBase64_step (c :: b)) as [decoded [rest|]] eqn:E; [|reflexivity].
    pose proof (decodeHeaderBase64_step_progress (c :: b) rest decoded ltac:(discriminate) E) as Hp.
    cbn [length] in Hp, Hn.
    rewrite (IH rest (res ++ [decoded])) by lia.
    rewrite (IH rest ([] ++ [decoded])) by lia.
    rewrite <- !app_assoc. reflexivity.
Qed.

Lemma dropWhile_app_stop (f : ascii -> bool) (s b : bytes) :
  (b = [] \/ exists c r, b = c :: r /\ f c = false) ->
  dropWhile f (s ++ b) = dropWhile f s ++ b.
Proof.
  intros Hb. induction s as [|c s IH]; cbn [app dropWhile].
  - destruct Hb as [-> | (c & r & -> & Hc)]; [reflexivity|]. cbn [dropWhile]. rewrite Hc.
    reflexivity.
  - destruct (f c); [exact IH | reflexivity].
Qed.

Lemma last_drop_nonempty (a : bytes) (k : nat) (d : ascii) :
  drop k a <> [] -> List.last (drop k a) d = List.last a d.
Proof.
  revert k. induction a as [|c a IH]; intros k H; [rewrite drop_nil in H; congruence|].
  destruct k as [|k]; [reflexivity|]. cbn [drop] in *.
  rewrite (IH k H). destruct a as [|c2 a]; [rewrite drop_nil in H; congruence|]. reflexivity.
Qed.

Lemma Index_from_split (c : ascii) (a : bytes) (i : Z) :
  0 <= i -> 0 <= Index_from a [c] i ->
  exists pre post, a = pre ++ c :: post /\ c ∉ pre.
Proof.
  revert i. induction a as [|c0 a IH]; intros i Hi Ha.
  - cbn in Ha. lia.
  - cbn [Index_from] in Ha. destruct (HasPrefix (c0 :: a) [c]) eqn:E.
    + cbn in E. rewrite andb_true_r in E. apply beq_eq in E. subst c0.
      exists [], a. split; [reflexivity | apply not_elem_of_nil].
    + destruct (IH (i + 1) ltac:(lia) Ha) as (pre & post & -> & Hpre).
      exists (c0 :: pre), post. split; [reflexivity|].
      apply not_elem_of_cons. split; [|exact Hpre].
      cbn in E. rewrite andb_true_r in E. apply beq_neq in E. exact E.
Qed.

(** One turn on [a ++ b], where [a] holds an equals sign and [b] does
    not begin with one, is the turn on [a], with [b] after what the turn
    leaves of [a]. *)
Lemma decodeHeaderBase64_step_app (a b : bytes) :
  0 <= Index a (B "=") -> HasPrefix b (B "=") = false ->
  exists decoded (k : nat),
    decodeHeaderBase64_step a = (decoded, Some (drop k a))
    /\ decodeHeaderBase64_step (a ++ b) = (decoded, Some (drop k a ++ b))
    /\ (0 < k)%nat.
Proof.
  intros Ha Hb.
  assert (Hsplit : exists pre post, a = pre ++ "="%char :: post /\ "="%char ∉ pre).
  { apply (Index_from_split "="%char a 0); [lia | exact Ha]. }
  destruct Hsplit as (pre & post & -> & Hpre).
  assert (Hb' : b = [] \/ exists c r, b = c :: r /\ beq "="%char c = false).
  { destruct b as [|c r]; [auto|]. right. exists c, r. split; [reflexivity|].
    cbn in Hb. rewrite andb_true_r in Hb. exact Hb. }
  set (run := (length post - length (dropWhile (beq "="%char) post))%nat).
  assert (Hrun : (length (dropWhile (beq "="%char) post) <= length post)%nat).
  { destruct (dropWhile_drop (beq "="%char) post) as (j & _ & ->).
    rewrite length_drop. lia. }
  assert (Hdrop : dropWhile (beq "="%char) post = drop run post).
  { destruct (dropWhile_drop (beq "="%char) post) as (j & Hj & E).
    subst run. rewrite E, length_drop. f_equal. lia. }
  exists (fst (base64_DecodeString (take (length pre + 1 + run) (pre ++ "="%char :: post)))),
         (length pre + 1 + run)%nat.
  assert (Hpos : forall rest,
             decodeHeaderBase64_skip ((pre ++ "="%char :: post) ++ rest) (len pre + 1)
             = len pre + 1
               + (len (post ++ rest) - len (dropWhile (beq "="%char) (post ++ rest)))).
  { intros rest. unfold decodeHeaderBase64_skip. rewrite <- app_assoc. cbn [app].
    replace (after (pre ++ "="%char :: post ++ rest) (len pre + 1)) with (post ++ rest);
      [reflexivity|].
    unfold after, len. replace (Z.to_nat (Z.of_nat (length pre) + 1)) with (length pre + 1)%nat by lia.
    rewrite <- drop_drop, drop_app_length. reflexivity. }
  split; [|split; [|lia]].
  - unfold decodeHeaderBase64_step. change (B "=") with ["="%char].
    rewrite (Index_first pre post "="%char Hpre).
    replace (len pre <? 0) with false by (symmetry; apply Z.ltb_ge; unfold len; lia).
    pose proof (Hpos []) as Hp0. rewrite !app_nil_r in Hp0. rewrite Hp0.
    replace (len pre + 1 + (len post - len (dropWhile (beq "="%char) post)))
      with (Z.of_nat (length pre + 1 + run)) by (unfold len, run; lia).
    unfold upto, after. rewrite Nat2Z.id. reflexivity.
  - unfold decodeHeaderBase64_step. change (B "=") with ["="%char].
    replace (Index ((pre ++ "="%char :: post) ++ b) ["="%char]) with (len pre)
      by (rewrite <- app_assoc; symmetry; apply (Index_first pre (post ++ b) "="%char Hpre)).
    replace (len pre <? 0) with false by (symmetry; apply Z.ltb_ge; unfold len; lia).
    rewrite (Hpos b), (dropWhile_app_stop _ post b Hb'), !len_app.
    replace (len pre + 1 + (len post + len b - (len (dropWhile (beq "="%char) post) + len b)))
      with (Z.of_nat (length pre + 1 + run)) by (unfold len, run; lia).
    unfold upto, after. rewrite Nat2Z.id.
    assert (Hle : (length pre + 1 + run <= length (pre ++ "="%char :: post))%nat).
    { rewrite length_app. cbn [length]. subst run. lia. }
    rewrite take_app_le, drop_app_le by exact Hle. reflexivity.
Qed.

Lemma Index_from_elem (c : ascii) (s : bytes) (i : Z) :
  0 <= i -> c ∈ s -> 0 <= Index_from s [c] i.
Proof.
  revert i. induction s as [|x s IH]; intros i Hi Hc; [inversion Hc|].
  cbn [Index_from]. destruct (HasPrefix (x :: s) [c]) eqn:E; [lia|].
  apply IH; [lia|]. apply elem_of_cons in Hc as [-> | Hc]; [|exact Hc].
  cbn in E. rewrite beq_refl in E. discriminate.
Qed.

Lemma decodeHeaderBase64_loop_app (b : bytes) (n : nat) :
  HasPrefix b (B "=") = false ->
  forall (a0 : bytes) (res : list bytes), (length a0 <= n)%nat ->
    decodeHeaderBase64_loop (length ((a0 ++ B "=") ++ b)) ((a0 ++ B "=") ++ b) res
    = decodeHeaderBase64_loop (length (a0 ++ B "=")) (a0 ++ B "=") res
      ++ decodeHeaderBase64_loop (length b) b [].
Proof.
  intros Hb. induction n as [|n IH]; intros a0 res Hn.
  - (* the segment is the single equals sign *)
    destruct a0; [|cbn in Hn; lia]. cbn [app].
    destruct (decodeHeaderBase64_step_app (B "=") b) as (d & k & E1 & E2 & Hk);
      [cbn; lia | exact Hb |].
    rewrite (decodeHeaderBase64_loop_unfold (B "=" ++ b)) by discriminate.
    rewrite (decodeHeaderBase64_loop_unfold (B "=")) by discriminate.
    rewrite E1, E2.
    destruct k as [|k]; [lia|]. cbn [B list_ascii_of_string drop]. rewrite drop_nil.
    cbn [app length decodeHeaderBase64_loop].
    apply (decodeHeaderBase64_loop_acc (length b)). lia.
  - set (a := a0 ++ B "=").
    assert (Ha : 0 <= Index a (B "=")).
    { apply Index_from_elem; [lia|]. subst a. apply elem_of_app. right. left. }
    destruct (decodeHeaderBase64_step_app a b Ha Hb) as (d & k & E1 & E2 & Hk).
    rewrite (decodeHeaderBase64_loop_unfold (a ++ b))
      by (subst a; destruct a0; discriminate).
    rewrite (decodeHeaderBase64_loop_unfold a) by (subst a; destruct a0; discriminate).
    rewrite E1, E2.
    destruct (decide (k <= length a0)%nat) as [Hle | Hgt].
    + subst a. rewrite drop_app_le by exact Hle.
      apply IH. rewrite length_drop. lia.
    + replace (drop k a) with (@nil ascii).
      2:{ symmetry. apply drop_ge. subst a. rewrite length_app. cbn [length B list_ascii_of_string].
          lia. }
      cbn [app length decodeHeaderBase64_loop].
      apply (decodeHeaderBase64_loop_acc (length b)). lia.
Qed.

(** X19: [decodeHeaderBase64] decodes block by block: when a text ends
    with an equals sign and the text after it does not begin with one,
    the decoding of the two together is the decoding of the first
    followed by the decoding of the second. *)
Theorem decodeHeaderBase64_concat (a0 b : bytes) :
  HasPrefix b (B "=") = false ->
  decodeHeaderBase64 ((a0 ++ B "=") ++ b)
  = decodeHeaderBase64 (a0 ++ B "=") ++ decodeHeaderBase64 b.
Proof.
  intros Hb. unfold decodeHeaderBase64, ConcatByteSlices.
  rewrite (decodeHeaderBase64_loop_app b (length a0) Hb a0 [] (le_n _)).
  apply concat_app.
Qed.

(** ** Extended parameter values *)

Lemma percentByte_decodes (c : ascii) :
  hexDigit (hexChar (bval c / 16)) = Some (bval c / 16)
  /\ hexDigit (hexChar (bval c mod 16)) = Some (bval c mod 16)
  /\ byteOf (Z.shiftl (bval c / 16) 4 + bval c mod 16) = c.
Proof.
  destruct c as [[] [] [] [] [] [] [] []]; vm_compute; auto.
Qed.

Lemma percentDecode_encoded (keep : ascii -> bool) (x : bytes) :
  (forall c, keep c = true -> c <> "%"%char) ->
  percentDecode (flat_map (fun c => if keep c then [c] else percentByte c) x) = x.
Proof.
  intros Hk. set (f := fun c => if keep c then [c] else percentByte c).
  induction x as [|c x IH]; [reflexivity|].
  cbn [flat_map]. unfold f at 1. destruct (keep c) eqn:E.
  - cbn [app percentDecode].
    assert (Hc : beq c "%"%char = false) by (apply beq_neq, Hk, E).
    rewrite Hc, IH.
    destruct (flat_map f x) as [|h1 [|h2 r]]; try reflexivity.
    destruct (hexDigit h1), (hexDigit h2); reflexivity.
  - change (percentByte c)
      with ["%"%char; hexChar (bval c / 16); hexChar (bval c mod 16)].
    cbn [app percentDecode].
    destruct (percentByte_decodes c) as (-> & -> & ->).
    rewrite beq_refl, IH. reflexivity.
Qed.

(** X20: an extended parameter value [charset'language'text], in which
    any byte of the text may be written as a percent sign and two
    hexadecimal digits and a percent sign is always written so, is
    read as one token: the text with the percent-encoding undone, in
    the charset named before the first quote mark. *)
Theorem extended_value_round_trip (cs lang x : bytes) (keep : ascii -> bool) :
  "'"%char ∉ cs -> "'"%char ∉ lang ->
  (forall c, keep c = true -> c <> "%"%char) ->
  ParseMimeValueTokenNodes2231
    (cs ++ B "'" ++ lang ++ B "'"
     ++ flat_map (fun c => if keep c then [c] else percentByte c) x) true
  = [mkTokenNode x (ToUpper (TrimSpace cs))].
Proof.
  intros Hcs Hlang Hk.
  set (enc := flat_map (fun c => if keep c then [c] else percentByte c) x).
  unfold ParseMimeValueTokenNodes2231. cbn [negb]. cbv zeta.
  change (cs ++ B "'" ++ lang ++ B "'" ++ enc)
    with (cs ++ "'"%char :: lang ++ "'"%char :: enc).
  unfold IndexByte. rewrite (Index_first cs _ "'"%char Hcs).
  replace (len cs <? 0) with false by (symmetry; apply Z.ltb_ge; unfold len; lia).
  rewrite upto_app_len.
  replace (after (cs ++ "'"%char :: lang ++ "'"%char :: enc) (len cs + 1))
    with (lang ++ "'"%char :: enc).
  2:{ unfold after, len.
      replace (Z.to_nat (Z.of_nat (length cs) + 1)) with (length cs + 1)%nat by lia.
      rewrite <- drop_drop, drop_app_length. reflexivity. }
  rewrite (Index_first lang _ "'"%char Hlang).
  replace (-1 <? len lang) with true by (symmetry; apply Z.ltb_lt; unfold len; lia).
  replace (after (lang ++ "'"%char :: enc) (len lang + 1)) with enc.
  2:{ unfold after, len.
      replace (Z.to_nat (Z.of_nat (length lang) + 1)) with (length lang + 1)%nat by lia.
      rewrite <- drop_drop, drop_app_length. reflexivity. }
  subst enc. rewrite (percentDecode_encoded keep x Hk). reflexivity.
Qed.

(** ** Address headers *)

Lemma plainByte_props (c : ascii) :
  plainByte c = true ->
  beq c DQUOTE = false /\ isSep c = false /\ beq c "<"%char = false.
Proof.
  unfold plainByte, inSet, isSep. cbn [existsb].
  destruct (beq c DQUOTE), (beq c ","%char), (beq c ";"%char), (beq c "<"%char);
    cbn; intros H; try discriminate H; auto.
Qed.

Lemma addrByte_props (c : ascii) :
  addrByte c = true ->
  beq c "<"%char = false /\ isSep c = false /\ beq c ">"%char = false.
Proof.
  unfold addrByte, inSet, isSep. cbn [existsb].
  destruct (beq c "<"%char), (beq c ">"%char), (beq c ","%char), (beq c ";"%char);
    cbn; intros H; try discriminate H; auto.
Qed.

Lemma scan_name_cons (c : ascii) (r tmp : bytes) (name : option bytes) :
  plainByte c = true ->
  decodeOne_scan InName (c :: r) tmp name
  = match r with
    | [] => (Some (tmp ++ [c]), None, [])
    | _ :: _ => decodeOne_scan InName r (tmp ++ [c]) name
    end.
Proof.
  intros Hc. destruct (plainByte_props c Hc) as (H1 & H2 & H3).
  cbn [decodeOne_scan]. rewrite H1, H2, H3. reflexivity.
Qed.

Lemma scan_name (n r' tmp : bytes) (name : option bytes) :
  forallb plainByte n = true -> r' <> [] ->
  decodeOne_scan InName (n ++ r') tmp name = decodeOne_scan InName r' (tmp ++ n) name.
Proof.
  intros Hn Hr. revert tmp. induction n as [|c n IH]; intros tmp.
  - rewrite app_nil_r. reflexivity.
  - cbn [forallb] in Hn. apply andb_true_iff in Hn as [Hc Hn].
    destruct (plainByte_props c Hc) as (H1 & H2 & H3).
    cbn [app decodeOne_scan]. rewrite H1, H2, H3.
    destruct (n ++ r') as [|x y] eqn:E.
    + apply app_eq_nil in E as [_ E]. contradiction.
    + rewrite (IH Hn), <- app_assoc. reflexivity.
Qed.

Lemma scan_name_end (a tmp : bytes) (name : option bytes) :
  a <> [] -> forallb plainByte a = true ->
  decodeOne_scan InName a tmp name = (Some (tmp ++ a), None, []).
Proof.
  intros Ha Hn. revert tmp. induction a as [|c a IH]; intros tmp; [contradiction|].
  cbn [forallb] in Hn. apply andb_true_iff in Hn as [Hc Hn].
  rewrite (scan_name_cons c a tmp name Hc).
  destruct a as [|x y]; [reflexivity|].
  rewrite (IH ltac:(discriminate) Hn), <- app_assoc. reflexivity.
Qed.

Lemma scan_angle (a r' tmp : bytes) (name : option bytes) :
  forallb addrByte a = true ->
  decodeOne_scan InAngle (a ++ ">"%char :: r') tmp name = (name, Some (tmp ++ a), r').
Proof.
  intros Ha. revert tmp. induction a as [|c a IH]; intros tmp.
  - rewrite app_nil_r. reflexivity.
  - cbn [forallb] in Ha. apply andb_true_iff in Ha as [Hc Ha].
    destruct (addrByte_props c Hc) as (H1 & H2 & H3).
    cbn [app decodeOne_scan]. rewrite H1, H2, H3. cbn [orb].
    destruct (a ++ ">"%char :: r') as [|x y] eqn:E.
    + apply app_eq_nil in E as [_ E]. discriminate.
    + rewrite (IH Ha), <- app_assoc. reflexivity.
Qed.

Lemma scan_quoted (q r' tmp : bytes) (name : option bytes) :
  r' <> [] ->
  decodeOne_scan InQuoted (escapeQuoted q ++ DQUOTE :: r') tmp name
  = decodeOne_scan InName r' (tmp ++ q) name.
Proof.
  intros Hr. revert tmp. induction q as [|c q IH]; intros tmp.
  - rewrite app_nil_r. cbn [escapeQuoted flat_map app decodeOne_scan].
    change (beq DQUOTE BACKSLASH) with false. rewrite beq_refl.
    destruct r'; [contradiction | reflexivity].
  - unfold escapeQuoted in *. cbn [flat_map].
    destruct (beq c DQUOTE || beq c BACKSLASH) eqn:E.
    + cbn [app decodeOne_scan]. rewrite beq_refl, IH, <- app_assoc. reflexivity.
    + apply orb_false_iff in E as [E1 E2].
      cbn [app decodeOne_scan]. rewrite E1, E2, IH, <- app_assoc. reflexivity.
Qed.

Lemma skipChar_head (chars bf : bytes) (c : ascii) :
  inSet chars c = false -> skipChar chars (c :: bf) 0 = 0.
Proof. intros H. cbn [skipChar]. rewrite H. reflexivity. Qed.

Lemma skipChar_shift (chars bf : bytes) (i : Z) :
  0 <= i ->
  skipChar chars bf (i + 1)
  = if skipChar chars bf i <? 0 then -1 else skipChar chars bf i + 1.
Proof.
  revert i. induction bf as [|b bf IH]; intros i Hi.
  - reflexivity.
  - cbn [skipChar]. destruct (negb (inSet chars b)); [|apply IH; lia].
    replace (i <? 0) with false by (symmetry; apply Z.ltb_ge; lia). reflexivity.
Qed.

(** A blank at the head of the line is skipped. *)
Lemma decodeOne_blank (c : ascii) (t : bytes) :
  inSet [SP; HT] c = true ->
  parseMimeAddress_decodeOne (c :: t) = parseMimeAddress_decodeOne t.
Proof.
  intros Hc. unfold parseMimeAddress_decodeOne, parseMimeAddress_lineBufferSkipChar.
  cbn [skipChar]. rewrite Hc. cbn [negb].
  change (0 + 1) with 1.
  pose proof (skipChar_shift [SP; HT] t 0 (Z.le_refl 0)) as Hs.
  change (0 + 1) with 1 in Hs. rewrite Hs.
  destruct (skipChar [SP; HT] t 0 <? 0) eqn:E0; [reflexivity|].
  apply Z.ltb_ge in E0.
  replace (skipChar [SP; HT] t 0 + 1 <? 0) with false by (symmetry; apply Z.ltb_ge; lia).
  replace (after (c :: t) (skipChar [SP; HT] t 0 + 1))
    with (after t (skipChar [SP; HT] t 0)); [reflexivity|].
  unfold after.
  replace (Z.to_nat (skipChar [SP; HT] t 0 + 1))
    with (S (Z.to_nat (skipChar [SP; HT] t 0))) by lia.
  reflexivity.
Qed.

Lemma ParseMimeAddress_loop_enough (fuel : nat) (bf : bytes) (mas : list MimeAddress) :
  (length bf <= fuel)%nat -> ParseMimeAddress_loop fuel bf mas = readFrom bf mas.
Proof.
  intros H. unfold readFrom.
  replace fuel with (length bf + (fuel - length bf))%nat by lia.
  generalize (fuel - length bf)%nat as k. intros k.
  induction k as [|k IH]; [f_equal; lia|].
  rewrite <- IH. replace (length bf + S k)%nat with (S (length bf + k)) by lia.
  apply ParseMimeAddress_loop_fuel. lia.
Qed.

Lemma readFrom_step (bf : bytes) (mas : list MimeAddress)
    (ma : parseMimeAddress_decodeResult) :
  parseMimeAddress_decodeOne bf = Some ma ->
  readFrom bf mas
  = readFrom (leftbf ma)
      (if notBlank (nameBuffer ma, address ma)
       then mas ++ [mkMimeAddress (nameBuffer ma) [] (address ma)] else mas).
Proof.
  intros E. pose proof (parseMimeAddress_decodeOne_progress bf ma E) as Hp.
  unfold readFrom at 1. destruct bf as [|b bf]; [cbn [length] in Hp; lia|].
  cbn [length ParseMimeAddress_loop].
  replace (0 <? len (b :: bf)) with true
    by (symmetry; apply Z.ltb_lt; unfold len; cbn [length]; lia).
  rewrite E. apply ParseMimeAddress_loop_enough. cbn [length] in Hp. lia.
Qed.

Lemma readFrom_nil (mas : list MimeAddress) : readFrom [] mas = mas.
Proof. reflexivity. Qed.

Lemma readFrom_blank (c : ascii) (t : bytes) (mas : list MimeAddress) :
  inSet [SP; HT] c = true -> readFrom (c :: t) mas = readFrom t mas.
Proof.
  intros Hc. destruct (parseMimeAddress_decodeOne t) as [ma|] eqn:E.
  - rewrite (readFrom_step t mas ma E).
    apply readFrom_step. rewrite (decodeOne_blank c t Hc). exact E.
  - unfold readFrom. cbn [length ParseMimeAddress_loop].
    rewrite (decodeOne_blank c t Hc), E.
    replace (0 <? len (c :: t)) with true
      by (symmetry; apply Z.ltb_lt; unfold len; cbn [length]; lia).
    destruct t as [|x t]; [reflexivity|].
    cbn [length ParseMimeAddress_loop]. rewrite E.
    destruct (0 <? len (x :: t)); reflexivity.
Qed.

Lemma readFrom_separator (t : bytes) (mas : list MimeAddress) :
  readFrom (","%char :: t) mas = readFrom t mas.
Proof.
  rewrite (readFrom_step (","%char :: t) mas (mkDecodeResult t [] [])); [reflexivity|].
  reflexivity.
Qed.

Lemma decodeOne_head (c : ascii) (bf : bytes) :
  inSet [SP; HT] c = false ->
  parseMimeAddress_decodeOne (c :: bf)
  = let '(name, addr, rest) := decodeOne_scan InName (c :: bf) [] None in
    let '(name1, addr1) :=
      match addr, name with
      | None, Some nm => if Contains nm (B "@") then (None, Some nm) else (name, addr)
      | _, _ => (name, addr)
      end in
    Some (mkDecodeResult rest (default [] name1) (TrimSpace (default [] addr1))).
Proof.
  intros Hc. unfold parseMimeAddress_decodeOne, parseMimeAddress_lineBufferSkipChar.
  rewrite (skipChar_head _ _ _ Hc). reflexivity.
Qed.

Lemma noLeadingBlank_app (n r : bytes) (c : ascii) :
  noLeadingBlank n -> inSet [SP; HT] c = false ->
  exists x y, n ++ c :: r = x :: y /\ inSet [SP; HT] x = false.
Proof.
  intros Hn Hc. destruct n as [|x n]; [exists c, r | exists x, (n ++ c :: r)]; auto.
Qed.

(** One mailbox is read; a separator after it is passed over. *)
Lemma readFrom_written (m : mailbox) (tail : bytes) (mas : list MimeAddress) :
  wellWritten m -> tail = [] \/ (exists t, tail = ","%char :: t) ->
  readFrom (written m ++ tail) mas
  = readFrom tail
      (if notBlank (nameAndAddress m)
       then mas ++ [mkMimeAddress (fst (nameAndAddress m)) [] (snd (nameAndAddress m))]
       else mas).
Proof.
  intros Hm Ht. destruct m as [n a | q a | a]; cbn [wellWritten written nameAndAddress] in *.
  - destruct Hm as (Hn & Hb & Ha).
    change (B "<") with ["<"%char]. change (B ">") with [">"%char].
    rewrite <- !app_assoc. cbn [app].
    destruct (noLeadingBlank_app n (a ++ ">"%char :: tail) "<"%char Hb eq_refl)
      as (x & y & Hxy & Hx).
    apply (readFrom_step _ mas (mkDecodeResult tail n (TrimSpace a))).
    rewrite Hxy, (decodeOne_head x y Hx), <- Hxy.
    rewrite (scan_name n ("<"%char :: a ++ ">"%char :: tail) [] None Hn ltac:(discriminate)).
    cbn [app decodeOne_scan]. change (beq "<" DQUOTE) with false.
    change (isSep "<") with false. rewrite beq_refl.
    rewrite (scan_angle a tail [] (Some n) Ha). reflexivity.
  - change (B "<") with ["<"%char]. change (B ">") with [">"%char].
    cbn [app]. rewrite <- !app_assoc. cbn [app]. rewrite <- !app_assoc. cbn [app].
    apply (readFrom_step _ mas (mkDecodeResult tail q (TrimSpace a))).
    rewrite (decodeOne_head DQUOTE _ eq_refl).
    cbn [decodeOne_scan]. rewrite beq_refl.
    rewrite (scan_quoted q ("<"%char :: a ++ ">"%char :: tail) [] None ltac:(discriminate)).
    cbn [app decodeOne_scan]. change (beq "<" DQUOTE) with false.
    change (isSep "<") with false. rewrite beq_refl.
    rewrite (scan_angle a tail [] (Some q) Hm). reflexivity.
  - destruct Hm as (Hne & Hn & Hb & Hat).
    destruct a as [|x y]; [contradiction|]. cbn [noLeadingBlank] in Hb.
    destruct Ht as [-> | [t ->]].
    + rewrite app_nil_r.
      apply (readFrom_step _ mas (mkDecodeResult [] [] (TrimSpace (x :: y)))).
      rewrite (decodeOne_head x y Hb).
      rewrite (scan_name_end (x :: y) [] None Hne Hn). cbn [app]. rewrite Hat.
      reflexivity.
    + rewrite readFrom_separator. cbn [app].
      apply (readFrom_step _ mas (mkDecodeResult t [] (TrimSpace (x :: y)))).
      rewrite (decodeOne_head x (y ++ ","%char :: t) Hb).
      change (x :: y ++ ","%char :: t) with ((x :: y) ++ ","%char :: t).
      rewrite (scan_name (x :: y) (","%char :: t) [] None Hn ltac:(discriminate)).
      cbn [app decodeOne_scan]. change (beq "," DQUOTE) with false.
      change (isSep ",") with true. cbn iota. rewrite Hat. reflexivity.
Qed.

Lemma readFrom_line (m : mailbox) (ms : list mailbox) (mas : list MimeAddress) :
  Forall wellWritten (m :: ms) ->
  readFrom (addressLine (m :: ms)) mas
  = mas ++ List.map (fun na => mkMimeAddress (fst na) [] (snd na))
             (List.filter notBlank (List.map nameAndAddress (m :: ms))).
Proof.
  revert m mas. induction ms as [|m' ms IH]; intros m mas Hall.
  - apply Forall_cons in Hall as [Hm _]. cbn [addressLine List.map concat].
    rewrite (readFrom_written m [] mas Hm (or_introl eq_refl)), readFrom_nil.
    cbn [List.filter]. destruct (notBlank (nameAndAddress m)); cbn [List.map].
    + reflexivity.
    + rewrite app_nil_r. reflexivity.
  - apply Forall_cons in Hall as [Hm Hall].
    specialize (IH m').
    cbn [addressLine List.map concat] in *.
    change (B ", " ++ written m') with (","%char :: SP :: written m').
    rewrite <- app_comm_cons.
    rewrite (readFrom_written m _ mas Hm (or_intror (ex_intro _ _ eq_refl))).
    rewrite readFrom_separator. cbn [app].
    rewrite (readFrom_blank SP _ _ eq_refl).
    rewrite (IH _ Hall). cbn [List.filter].
    destruct (notBlank (nameAndAddress m)); cbn [List.map].
    + rewrite <- app_assoc. reflexivity.
    + reflexivity.
Qed.

(** X21: an address header that lists mailboxes separated by a comma and
    a space, each a plain or quoted name with the address in angle
    brackets or an address alone, is read back as those mailboxes in
    order, without the ones that have neither name nor address: the raw
    name is the name as written, with the escapes of a quoted name
    undone and its commas not taken as separators; the address is
    trimmed and put in lower case. *)
Theorem address_line_round_trip (ms : list mailbox) (dc : bytes) :
  Forall wellWritten ms ->
  ParseMimeAddress (addressLine ms) dc
  = List.map
      (fun na =>
         mkMimeAddress (fst na)
           (Trim (ParseMimeValueString (fst na) dc) addrTrimSet)
           (ToLower (Trim (snd na) addrTrimSet)))
      (List.filter notBlank (List.map nameAndAddress ms)).
Proof.
  intros Hall. unfold ParseMimeAddress.
  change (ParseMimeAddress_loop (length (addressLine ms)) (addressLine ms) [])
    with (readFrom (addressLine ms) []).
  destruct ms as [|m ms]; [reflexivity|].
  rewrite (readFrom_line m ms [] Hall). cbn [app].
  rewrite List.map_map. reflexivity.
Qed.

(** ** When the constructor returns *)

Lemma spaced_tail (b : boundaryPos) (bs : list boundaryPos) :
  spaced (b :: bs) -> spaced bs.
Proof. intros [_ H]. exact H. Qed.

Lemma spaced_lookup (bs : list boundaryPos) (i : nat) (b c : boundaryPos) :
  spaced bs -> bs !! i = Some b -> bs !! S i = Some c -> bp_End b < bp_Start c.
Proof.
  revert i. induction bs as [|x bs IH]; intros i H Hb Hc; [discriminate|].
  destruct i as [|i].
  - cbn in Hb, Hc. injection Hb as <-. destruct bs as [|y bs]; [discriminate|].
    cbn in Hc. injection Hc as <-. destruct H as [H _]. exact H.
  - apply (IH i (spaced_tail _ _ H) Hb Hc).
Qed.

Lemma spaced_drop (k : nat) (bs : list boundaryPos) : spaced bs -> spaced (drop k bs).
Proof.
  revert bs. induction k as [|k IH]; intros bs H; [exact H|].
  destruct bs as [|b bs]; [exact I|]. cbn [drop]. apply IH, (spaced_tail _ _ H).
Qed.

Lemma spaced_take (k : nat) (bs : list boundaryPos) : spaced bs -> spaced (take k bs).
Proof.
  revert k. induction bs as [|b bs IH]; intros k H; [destruct k; exact I|].
  destruct k as [|k]; [exact I|]. cbn [take]. split.
  - destruct H as [H _]. destruct bs as [|c bs]; [destruct k; exact I|].
    destruct k; [exact I | exact H].
  - apply IH, (spaced_tail _ _ H).
Qed.

Lemma spaced_newBoundaries (bs : list boundaryPos) (lastId i : Z) :
  spaced bs -> spaced (newBoundaries bs lastId i).
Proof.
  intros H. unfold newBoundaries, sub. destruct (_ <? _); [|exact I].
  apply spaced_take, spaced_drop, H.
Qed.

(** In a spaced list every entry ends before any later entry starts. *)
Lemma spaced_gap (lo hi : Z) (bs : list boundaryPos) (i j : nat) (so eo : boundaryPos) :
  bsOK lo hi bs -> spaced bs -> bs !! i = Some so -> bs !! j = Some eo -> (i < j)%nat ->
  bp_End so < bp_Start eo.
Proof.
  intros Hbs Hsp Hi Hj Hlt.
  destruct (decide (j = S i)) as [-> | Hne]; [apply (spaced_lookup bs i so eo Hsp Hi Hj)|].
  destruct (lookup_lt_is_Some_2 bs (S i)) as [c Hc].
  { apply lookup_lt_Some in Hj. lia. }
  pose proof (spaced_lookup bs i so c Hsp Hi Hc) as H1.
  destruct (bsOK_lookup _ _ _ _ _ Hbs Hc) as (_ & H2 & _ & Hd).
  assert (He : drop (S (S i)) bs !! (j - S (S i))%nat = Some eo).
  { rewrite lookup_drop, <- Hj. f_equal. lia. }
  destruct (bsOK_lookup _ _ _ _ _ Hd He) as (H3 & _). lia.
Qed.

Lemma parseMime_loop_safe (L : Z) rec (bs : list boundaryPos) (boundary : bytes)
    (lo hi : Z) :
  recOK L rec -> recSafe L rec -> bsOK lo hi bs -> spaced bs -> 0 <= lo -> hi <= L ->
  forall rest (i : nat) lastId buf childs,
    rest = drop i bs ->
    lastId < Z.of_nat i ->
    len buf = L ->
    lastId = -1 \/ 0 <= lastId ->
    parseMime_loop rec bs boundary rest (Z.of_nat i) lastId buf childs <> Panic.
Proof.
  intros Hrec Hsafe Hbs Hsp Hlo Hhi rest.
  induction rest as [|bo rest IH]; intros i lastId buf childs Hrest Hlt Hbuf Hl;
    [discriminate|].
  symmetry in Hrest. apply drop_lookup_cons in Hrest as [Hbo Hrest'].
  cbn [parseMime_loop].
  replace (Z.of_nat i + 1) with (Z.of_nat (S i)) by lia.
  destruct (negb (matchesBoundary boundary bo)).
  { apply (IH (S i)); auto; lia. }
  destruct (lastId =? -1) eqn:El.
  { apply (IH (S i)); auto; lia. }
  apply Z.eqb_neq in El. destruct Hl as [? | H0]; [contradiction|].
  destruct (lookup_lt_is_Some_2 bs (Z.to_nat lastId)) as [so Hso].
  { apply lookup_lt_Some in Hbo. lia. }
  rewrite Hso.
  destruct (bsOK_lookup _ _ _ _ _ Hbs Hso) as (S1 & S2 & S3 & _).
  destruct (bsOK_lookup _ _ _ _ _ Hbs Hbo) as (B1 & B2 & B3 & _).
  pose proof (spaced_gap lo hi bs (Z.to_nat lastId) i so bo Hbs Hsp Hso Hbo ltac:(lia))
    as Hgap.
  replace ((0 <=? bp_End so) && (bp_End so <=? bp_Start bo - 1)
           && (bp_Start bo - 1 <=? len buf)) with true.
  2:{ symmetry. rewrite !andb_true_iff, !Z.leb_le. lia. }
  assert (Hnb : bsOK (bp_End so) (bp_End so + (bp_Start bo - 1 - bp_End so))
                     (newBoundaries bs lastId (Z.of_nat i))).
  { replace (bp_End so + (bp_Start bo - 1 - bp_End so)) with (bp_Start bo - 1) by lia.
    rewrite <- (Z2Nat.id lastId) by lia.
    apply (newBoundaries_ok lo hi); try assumption. lia. }
  assert (E1 : 0 <= bp_End so) by lia.
  assert (Hn0 : 0 <= bp_Start bo - 1 - bp_End so) by lia.
  assert (HnL : bp_End so + (bp_Start bo - 1 - bp_End so) <= L) by lia.
  destruct (rec buf (bp_End so) (bp_End so) (bp_Start bo - 1 - bp_End so)
                (newBoundaries bs lastId (Z.of_nat i)))
    as [[newNode buf1] | |] eqn:Erec; [| | discriminate].
  - destruct (Hrec _ _ _ _ _ _ _ Hbuf E1 (Z.le_refl _) Hn0 HnL Hnb Erec)
      as (_ & _ & _ & Hb1).
    apply (IH (S i)); auto; lia.
  - exfalso. revert Erec.
    apply (Hsafe _ _ _ _ _ Hbuf E1 (Z.le_refl _) Hn0 HnL Hnb).
    apply spaced_newBoundaries, Hsp.
Qed.

Lemma parseMime_safe (L : Z) (dc : bytes) (fuel : nat) : recSafe L (parseMime fuel dc).
Proof.
  induction fuel as [|fuel IH]; intros buf off s n bs Hbuf Hoff Hs Hn Hsn Hbs Hsp;
    [discriminate|].
  cbn [parseMime].
  assert (Hs0 : 0 <= s) by lia.
  assert (HsL : s + n <= len buf) by lia.
  pose proof (parseMimeSelf_shape dc buf s n Hs0 Hn HsL) as Hshape.
  cbv zeta in Hshape.
  destruct (parseMimeSelf dc buf s n) as [node0 buf1].
  cbn [fst snd] in Hshape. destruct Hshape as (_ & _ & _ & _ & H5).
  destruct (negb _); [discriminate|].
  destruct (bytes_eqb _ _); [discriminate|].
  assert (HhiL : off + n <= L) by lia.
  assert (Hb1 : len buf1 = L) by lia.
  destruct (parseMime_loop (parseMime fuel dc) bs (Boundary (rebase node0 off)) bs 0 (-1)
              buf1 [])
    as [[[lastId buf2] childs] | |] eqn:Eloop; [| | discriminate].
  - destruct (parseMime_loop_ok L (parseMime fuel dc) bs (Boundary (rebase node0 off))
                off (off + n) (parseMime_ok L dc fuel) Hbs Hoff HhiL bs 0%nat (-1) buf1 []
                lastId buf2 childs eq_refl eq_refl Hb1 (List.Forall_nil _)
                (or_introl (conj eq_refl eq_refl)) Eloop)
      as (Hb2 & _ & Hinv).
    destruct (-1 <? lastId) eqn:Elast; [|discriminate].
    apply Z.ltb_lt in Elast.
    destruct Hinv as [[? _] | (so & H0 & Hso & _)]; [lia|].
    rewrite Hso.
    destruct (bsOK_lookup _ _ _ _ _ Hbs Hso) as (S1 & S2 & S3 & _).
    assert (R1 : 0 <= bp_End so) by lia.
    assert (R2 : bp_End so <= len buf2) by lia.
    replace ((0 <=? bp_End so) && (bp_End so <=? len buf2)) with true.
    2:{ symmetry. rewrite andb_true_iff, !Z.leb_le. lia. }
    destruct (0 <? glen _); [|discriminate].
    destruct (TrimBytesView_tail buf2 (bp_End so) wsSet R1 R2)
      as (s' & n' & Ev & V1 & V2 & V3 & _).
    rewrite Ev.
    destruct (_ && _); [|discriminate].
    destruct (parseMime fuel dc buf2 (bp_End so) s' n' []) as [[t buf3] | |] eqn:Et;
      [discriminate | | discriminate].
    exfalso. revert Et.
    apply (IH buf2 (bp_End so) s' n' [] Hb2 R1 V1 V2 ltac:(lia) I I).
  - exfalso. revert Eloop.
    apply (parseMime_loop_safe L (parseMime fuel dc) bs _ off (off + n)
             (parseMime_ok L dc fuel) IH Hbs Hsp Hoff HhiL bs 0%nat (-1) buf1 []
             eq_refl eq_refl Hb1 (or_introl eq_refl)).
Qed.

(** X22: when no delimiter line of the message is followed directly by
    another delimiter line, every slice that [parseMime] takes of the
    message is in range and [EmailParserNew] returns a parser, whatever
    else the message holds. *)
Theorem EmailParserNew_returns (dc data : bytes) :
  spaced (scanAllBoundaries data) -> exists p, EmailParserNew dc data = Ok p.
Proof.
  intros Hsp. pose proof (EmailParserNew_fuel dc data) as Hf.
  unfold EmailParserNew in *.
  pose proof (len_nonneg data) as Hl.
  pose proof (parseMime_safe (len data)
                (if bytes_eqb dc [] then B "UTF-8" else dc)
                (S (length (scanAllBoundaries data))) data 0 0 (len data)
                (scanAllBoundaries data) eq_refl (Z.le_refl 0) (Z.le_refl 0) Hl
                (Z.le_refl _) (scanAllBoundaries_ok data) Hsp) as Hs.
  cbv zeta in *.
  destruct (parseMime _ _ _ _ _ _ _) as [[top buf]| |];
    [eexists; reflexivity | contradiction | contradiction].
Qed.

(** ** What the header scan writes *)

Lemma writeAt_upto (buf c : bytes) (pos s : Z) :
  0 <= s -> s <= pos -> pos <= len buf -> upto (writeAt buf pos c) s = upto buf s.
Proof.
  intros H0 Hs Hp. unfold writeAt, upto.
  rewrite take_app_le by (rewrite length_take; unfold len in Hp; lia).
  rewrite take_take. f_equal. lia.
Qed.

Lemma writeAt_after (buf c : bytes) (pos q : Z) :
  0 <= pos -> pos + len c <= q -> q <= len buf -> after (writeAt buf pos c) q = after buf q.
Proof.
  intros H0 Hq Hl. unfold writeAt, upto, after. pose proof (len_nonneg c) as Hc.
  unfold len in *.
  rewrite app_assoc, drop_app_ge by (rewrite length_app, length_take; lia).
  rewrite length_app, length_take, drop_drop. f_equal. lia.
Qed.

Lemma after_later {A} (l l' : list A) (d d' : Z) :
  0 <= d -> d <= d' -> after l d = after l' d -> after l d' = after l' d'.
Proof.
  intros H0 Hd H. replace d' with (d + (d' - d)) by lia.
  rewrite <- !after_after by lia. rewrite H. reflexivity.
Qed.

Lemma logicFrom_trim (buf : bytes) (s : Z) (l : gslice) (cutset : bytes) :
  logicFrom s l -> logicFrom s (TrimRightBytesView buf l cutset).
Proof. destruct l as [a m|b]; cbn; [lia | trivial]. Qed.

Lemma parseMimeSelf_step_frame (L e s : Z) (b0 : bytes) (st st' : headerScan)
    (again : bool) :
  e <= L -> scanOK L e st -> 0 <= s -> s <= hs_data st ->
  logicFrom s (hs_logicLine st) ->
  sameOutside b0 (hs_buf st) s (hs_data st) ->
  parseMimeSelf_step e st = (st', again) ->
  logicFrom s (hs_logicLine st') /\ sameOutside b0 (hs_buf st') s (hs_data st').
Proof.
  intros He (Hb & Hd & Hde & Hl) Hs0 Hsd Hfrom [Hup Haf]. unfold parseMimeSelf_step.
  destruct st as [buf d logicLine header]. cbn [hs_buf hs_data hs_logicLine hs_Header] in *.
  destruct (0 <? e - d) eqn:E0.
  2:{ intros [= <- <-]. split; [exact Hfrom | split; assumption]. }
  apply Z.ltb_lt in E0.
  set (data := sub buf d (e - d)).
  assert (Hdata : len data = e - d) by (apply len_sub; lia).
  set (idx := Index data [LF]).
  set (n := if idx =? -1 then e - d else idx + 1).
  assert (Hn : 0 < n <= e - d).
  { subst n. destruct (Index_range data [LF]) as [Hi | Hi]; [discriminate | |];
      fold idx in Hi.
    - rewrite Hi. cbn. lia.
    - destruct (idx =? -1) eqn:Ei; [apply Z.eqb_eq in Ei; lia | lia]. }
  set (line := upto data n).
  assert (Hline : len line = n) by (apply len_upto; lia).
  set (step := if isCont line
               then let '(buf1, l1) := goAppend buf logicLine (after line 1) in
                    (buf1, l1, header)
               else (buf, InBuf d n,
                     if 0 <? glen logicLine
                     then emailParserAppendOneLine buf header logicLine
                     else header)).
  assert (Hstep : logicFrom s (snd (fst step))
                  /\ sameOutside b0 (fst (fst step)) s (d + n)).
  { subst step. destruct (isCont line).
    - destruct logicLine as [a m | b]; cbn [goAppend fst snd].
      + cbn in Hl, Hfrom. split; [exact Hfrom|].
        assert (Hc : len (after line 1) = n - 1) by (rewrite len_after by lia; lia).
        split.
        * rewrite writeAt_upto by lia. exact Hup.
        * rewrite writeAt_after by lia. apply (after_later _ _ d); [lia | lia | exact Haf].
      + split; [exact I|]. split; [exact Hup|].
        apply (after_later _ _ d); [lia | lia | exact Haf].
    - cbn [fst snd logicFrom]. split; [lia|]. split; [exact Hup|].
      apply (after_later _ _ d); [lia | lia | exact Haf]. }
  destruct step as [[buf1 logic1] header1]. cbn [fst snd] in Hstep.
  destruct Hstep as [Hf1 Hs1].
  intros [= <- <-]. cbn [hs_buf hs_data hs_logicLine].
  split; [apply logicFrom_trim, Hf1 | exact Hs1].
Qed.

Lemma parseMimeSelf_loop_frame (fuel : nat) (L e s : Z) (b0 : bytes) (st : headerScan) :
  e <= L -> scanOK L e st -> 0 <= s -> s <= hs_data st ->
  logicFrom s (hs_logicLine st) ->
  sameOutside b0 (hs_buf st) s (hs_data st) ->
  let r := parseMimeSelf_loop fuel e st in
  sameOutside b0 (hs_buf r) s (hs_data r).
Proof.
  intros He. revert st. induction fuel as [|fuel IH]; intros st Hst Hs0 Hsd Hfrom Hsame;
    cbn [parseMimeSelf_loop]; [exact Hsame|].
  destruct (parseMimeSelf_step e st) as [st' again] eqn:E.
  destruct (parseMimeSelf_step_inv L e st st' again He Hst E) as (H1 & H2 & _).
  destruct (parseMimeSelf_step_frame L e s b0 st st' again He Hst Hs0 Hsd Hfrom Hsame E)
    as [G1 G2].
  destruct again; [|exact G2].
  apply IH; [exact H1 | exact Hs0 | lia | exact G1 | exact G2].
Qed.

Lemma parseMimeSelf_frame (dc buf : bytes) (s n : Z) :
  0 <= s -> 0 <= n -> s + n <= len buf ->
  sameOutside buf (snd (parseMimeSelf dc buf s n)) s
    (s + BodyStart (fst (parseMimeSelf dc buf s n))).
Proof.
  intros Hs Hn Hl.
  assert (Hst : scanOK (len buf) (s + n) (mkHeaderScan buf s (Own []) [])).
  { repeat split; cbn; lia. }
  pose proof (parseMimeSelf_loop_frame (Z.to_nat n) (len buf) (s + n) s buf
                (mkHeaderScan buf s (Own []) []) Hl Hst Hs (Z.le_refl s) I
                (conj eq_refl eq_refl)) as Hf.
  cbv zeta in Hf. unfold parseMimeSelf. cbv zeta. cbn [fst snd BodyStart].
  replace (s + (hs_data (parseMimeSelf_loop (Z.to_nat n) (s + n)
                           (mkHeaderScan buf s (Own []) [])) - s))
    with (hs_data (parseMimeSelf_loop (Z.to_nat n) (s + n)
                     (mkHeaderScan buf s (Own []) []))) by lia.
  exact Hf.
Qed.

(** X23: the header scan of a part writes into the buffer it is given
    (unfolding a continuation line appends to a slice of that buffer),
    but only inside the header of the part: the buffer keeps its
    length, and the bytes before the part and those from the start of
    its body on are left as they were. *)
Theorem parseMimeSelf_writes_header_only (dc buf : bytes) (s n : Z) :
  0 <= s -> 0 <= n -> s + n <= len buf ->
  let '(node, buf1) := parseMimeSelf dc buf s n in
  len buf1 = len buf
  /\ upto buf1 s = upto buf s
  /\ after buf1 (s + BodyStart node) = after buf (s + BodyStart node).
Proof.
  intros Hs Hn Hl.
  pose proof (parseMimeSelf_shape dc buf s n Hs Hn Hl) as Hshape. cbv zeta in Hshape.
  destruct Hshape as (_ & _ & _ & _ & Hlen).
  destruct (parseMimeSelf_frame dc buf s n Hs Hn Hl) as [Hup Haf].
  destruct (parseMimeSelf dc buf s n) as [node buf1]. cbn [fst snd] in *.
  split; [exact Hlen|]. split; [exact Hup | exact Haf].
Qed.

(** The loop of [parseMime] only adds children, and it hands the buffer
    on to a recursive call only when it adds one. *)
Lemma parseMime_loop_childs rec (bs : list boundaryPos) (boundary : bytes)
    (rest : list boundaryPos) :
  forall i lastId buf childs lastId' buf' childs',
    parseMime_loop rec bs boundary rest i lastId buf childs = Ok (lastId', buf', childs') ->
    (length childs <= length childs')%nat
    /\ (length childs' = length childs -> buf' = buf).
Proof.
  induction rest as [|bo rest IH]; intros i lastId buf childs lastId' buf' childs' H;
    cbn [parseMime_loop] in H.
  - injection H as <- <- <-. split; [lia | reflexivity].
  - destruct (negb (matchesBoundary boundary bo)); [apply (IH _ _ _ _ _ _ _ H)|].
    destruct (lastId =? -1); [apply (IH _ _ _ _ _ _ _ H)|].
    destruct (bs !! Z.to_nat lastId) as [so|]; [|discriminate].
    destruct (_ && _); [|discriminate].
    destruct (rec _ _ _ _ _) as [[newNode buf1] | |]; try discriminate.
    destruct (IH _ _ _ _ _ _ _ H) as [G1 G2]. rewrite length_app in G1, G2.
    cbn [length] in G1, G2. split; [lia|]. intros E. lia.
Qed.

(** X24: for a message that is parsed as a single part, without
    children, and whose transfer encoding is neither base64 nor
    quoted-printable, [GetDecodedContent] of the top node returns the
    bytes of the message as it was given to [EmailParserNew], from the
    start of the body to the end: the unfolding of header lines inside
    the buffer has not touched them. *)
Theorem single_part_body_verbatim (dc data : bytes) (p : EmailParser) :
  EmailParserNew dc data = Ok p ->
  Childs (topNode p) = [] ->
  Encoding (topNode p) <> B "BASE64" ->
  Encoding (topNode p) <> B "QUOTED-PRINTABLE" ->
  GetDecodedContent p (topNode p) = after data (BodyStart (topNode p)).
Proof.
  intros Hp Hc E1 E2. unfold GetDecodedContent.
  destruct (bytes_eqb (Encoding (topNode p)) (B "BASE64")) eqn:B1;
    [apply bytes_eqb_eq in B1; contradiction|].
  destruct (bytes_eqb (Encoding (topNode p)) (B "QUOTED-PRINTABLE")) eqn:B2;
    [apply bytes_eqb_eq in B2; contradiction|].
  clear E1 E2 B1 B2. revert Hp. unfold EmailParserNew.
  set (dc' := if bytes_eqb dc [] then B "UTF-8" else dc). clearbody dc'.
  destruct (parseMime _ _ _ _ _ _ _) as [[top buf]| |] eqn:E; try discriminate.
  intros [= <-]. cbn [topNode EmailData] in *.
  cbn [parseMime] in E.
  pose proof (len_nonneg data) as Hl.
  pose proof (parseMimeSelf_frame dc' data 0 (len data) (Z.le_refl 0) Hl
                (Z.le_refl _)) as Hw.
  pose proof (parseMimeSelf_shape dc' data 0 (len data) (Z.le_refl 0) Hl (Z.le_refl _))
    as Hshape.
  cbv zeta in Hshape.
  destruct (parseMimeSelf dc' data 0 (len data)) as [node0 buf1].
  cbn [fst snd] in Hshape. destruct Hshape as (_ & Hb & Hbl & _ & Hlen).
  destruct Hw as (_ & Haf). rewrite !Z.add_0_l in Haf. cbn [fst snd] in Haf.
  assert (Hfin : forall cs, top = withChilds (rebase node0 0) cs \/ top = rebase node0 0 ->
                   buf = buf1 ->
                   sub buf (BodyStart top) (BodyLen top) = after data (BodyStart top)).
  { intros cs Ht ->.
    assert (BodyStart top = BodyStart node0 /\ BodyLen top = BodyLen node0) as [-> ->].
    { destruct Ht as [-> | ->]; cbn; split; lia. }
    rewrite <- Haf, Hbl. unfold sub. apply take_ge.
    fold (after buf1 (BodyStart node0)).
    pose proof (len_after buf1 (BodyStart node0)) as Ha. unfold len in *. lia. }
  destruct (negb (HasPrefix (ContentType (rebase node0 0)) (B "MULTIPART/"))).
  { injection E as <- <-. apply (Hfin []); auto. }
  destruct (bytes_eqb (Boundary (rebase node0 0)) []).
  { injection E as <- <-. apply (Hfin []); auto. }
  destruct (parseMime_loop _ _ _ _ _ _ _ _) as [[[lastId buf2] childs] | |] eqn:Eloop;
    try discriminate.
  destruct (parseMime_loop_childs _ _ _ _ _ _ _ _ _ _ _ Eloop) as [_ Hsame].
  assert (Hdone : top = withChilds (rebase node0 0) childs -> buf = buf2 ->
                  sub buf (BodyStart top) (BodyLen top) = after data (BodyStart top)).
  { intros Ht Hb2. apply (Hfin childs); [left; exact Ht|]. rewrite Hb2.
    rewrite Ht in Hc. cbn [Childs withChilds] in Hc. subst childs.
    apply Hsame. reflexivity. }
  destruct (-1 <? lastId); [|injection E as <- <-; apply Hdone; reflexivity].
  destruct (scanAllBoundaries data !! Z.to_nat lastId) as [so|]; [|discriminate].
  destruct (_ && _); [|discriminate].
  destruct (0 <? glen _); [|injection E as <- <-; apply Hdone; reflexivity].
  destruct (_ && _); [|injection E as <- <-; apply Hdone; reflexivity].
  destruct (TrimBytesView _ _ _) as [s' n'|]; [|discriminate].
  destruct (parseMime _ _ _ _ _ _ _) as [[t b3]| |]; try discriminate.
  injection E as <- <-. cbn [Childs withChilds] in Hc.
  destruct childs; discriminate.
Qed.

(** ** Where the body starts *)

Lemma upto_app_1 {A} (c rest : list A) (x : A) :
  upto (c ++ x :: rest) (len c + 1) = c ++ [x].
Proof.
  unfold upto, len. replace (Z.to_nat (Z.of_nat (length c) + 1)) with (length c + 1)%nat by lia.
  rewrite take_app_ge by lia. replace (length c + 1 - length c)%nat with 1%nat by lia.
  reflexivity.
Qed.

(** One turn of the header scan over a line [c] that ends in a newline. *)
Lemma parseMimeSelf_step_data (e : Z) (st : headerScan) (c rest : bytes) :
  sub (hs_buf st) (hs_data st) (e - hs_data st) = c ++ LF :: rest -> (LF ∉ c) ->
  hs_data (fst (parseMimeSelf_step e st)) = hs_data st + len c + 1
  /\ snd (parseMimeSelf_step e st)
     = negb ((len c =? 0) || ((len c =? 1) && startsCR (c ++ [LF]))).
Proof.
  intros Hd Hc. unfold parseMimeSelf_step.
  destruct st as [buf d logicLine header]. cbn [hs_buf hs_data hs_logicLine hs_Header] in *.
  assert (E0 : (0 <? e - d) = true).
  { apply Z.ltb_lt. destruct (Z_lt_le_dec 0 (e - d)) as [H | H]; [exact H|].
    unfold sub in Hd. replace (Z.to_nat (e - d)) with 0%nat in Hd by lia.
    cbn in Hd. destruct c; discriminate. }
  rewrite E0, Hd, (Index_first c rest LF Hc).
  pose proof (len_nonneg c) as Hl.
  replace (len c =? -1) with false by (symmetry; apply Z.eqb_neq; lia).
  rewrite upto_app_1.
  destruct (if isCont (c ++ [LF]) then _ else _) as [[b1 l1] h1].
  cbn [fst snd hs_data negb andb]. split; [lia | reflexivity].
Qed.

Lemma sub_advance {A} (l X Y : list A) (d m : Z) :
  0 <= d -> sub l d m = X ++ Y -> sub l (d + len X) (m - len X) = Y.
Proof.
  intros Hd H. unfold sub, len in *.
  assert (Hm : (length X <= Z.to_nat m)%nat).
  { apply (f_equal length) in H. rewrite length_take, length_app in H. lia. }
  replace (Z.to_nat (d + Z.of_nat (length X))) with (Z.to_nat d + length X)%nat by lia.
  rewrite <- drop_drop, take_drop_commute.
  replace (length X + Z.to_nat (m - Z.of_nat (length X)))%nat with (Z.to_nat m) by lia.
  rewrite H, drop_app_length. reflexivity.
Qed.

Lemma sameOutside_sub (b0 buf : bytes) (s d m : Z) :
  sameOutside b0 buf s d -> sub buf d m = sub b0 d m.
Proof. intros [_ H]. unfold sub, after in *. rewrite H. reflexivity. Qed.

Lemma headerBlock_length (hs : list bytes) : (length hs <= length (headerBlock hs))%nat.
Proof.
  induction hs as [|c hs IH]; [cbn; lia|].
  unfold headerBlock in *. cbn [List.map concat]. rewrite !length_app. cbn [length]. lia.
Qed.

Lemma blankLine_step (e : Z) (st : headerScan) (sep body : bytes) :
  blankLine sep ->
  sub (hs_buf st) (hs_data st) (e - hs_data st) = sep ++ body ->
  hs_data (fst (parseMimeSelf_step e st)) = hs_data st + len sep
  /\ snd (parseMimeSelf_step e st) = false.
Proof.
  intros [-> | ->] H.
  - destruct (parseMimeSelf_step_data e st [] body H) as [H1 H2]; [apply not_elem_of_nil|].
    rewrite H1, H2. split; [unfold len; cbn; lia | reflexivity].
  - destruct (parseMimeSelf_step_data e st [CR] body H) as [H1 H2].
    { intros Hin. apply list_elem_of_singleton in Hin. discriminate. }
    rewrite H1, H2. split; [unfold len; cbn; lia | reflexivity].
Qed.

Lemma headerLine_step (e : Z) (st : headerScan) (c rest : bytes) :
  headerLine c ->
  sub (hs_buf st) (hs_data st) (e - hs_data st) = (c ++ [LF]) ++ rest ->
  hs_data (fst (parseMimeSelf_step e st)) = hs_data st + len (c ++ [LF])
  /\ snd (parseMimeSelf_step e st) = true.
Proof.
  intros (Hc & Hne & Hcr) H. rewrite <- app_assoc in H. cbn [app] in H.
  destruct (parseMimeSelf_step_data e st c rest H Hc) as [H1 H2].
  rewrite H1, H2, len_app. split; [unfold len; cbn; lia|].
  destruct c as [|x [|y c]]; [contradiction | |].
  2:{ replace (len (x :: y :: c) =? 0) with false
        by (symmetry; apply Z.eqb_neq; unfold len; cbn [length]; lia).
      replace (len (x :: y :: c) =? 1) with false
        by (symmetry; apply Z.eqb_neq; unfold len; cbn [length]; lia).
      reflexivity. }
  cbn. destruct (beq x CR) eqn:E; [|reflexivity].
  apply beq_eq in E. subst x. contradiction.
Qed.

Lemma parseMimeSelf_loop_lines (L e s : Z) (b0 : bytes) (sep body : bytes) :
  e <= L -> 0 <= s -> blankLine sep ->
  forall (hs : list bytes) (fuel : nat) (st : headerScan),
    Forall headerLine hs ->
    scanOK L e st -> s <= hs_data st ->
    logicFrom s (hs_logicLine st) ->
    sameOutside b0 (hs_buf st) s (hs_data st) ->
    sub b0 (hs_data st) (e - hs_data st) = headerBlock hs ++ sep ++ body ->
    (length hs < fuel)%nat ->
    hs_data (parseMimeSelf_loop fuel e st) = hs_data st + len (headerBlock hs) + len sep.
Proof.
  intros He Hs0 Hsep hs.
  induction hs as [|c hs IH]; intros fuel st Hall Hst Hsd Hfrom Hsame Hdata Hfuel;
    (destruct fuel as [|fuel]; [lia|]); cbn [parseMimeSelf_loop].
  - rewrite <- (sameOutside_sub b0 (hs_buf st) s _ _ Hsame) in Hdata.
    cbn [headerBlock List.map concat app] in Hdata.
    destruct (blankLine_step e st sep body Hsep Hdata) as [H1 H2].
    destruct (parseMimeSelf_step e st) as [st' again]. cbn [fst snd] in H1, H2.
    subst again. rewrite H1. unfold headerBlock, len. cbn. lia.
  - apply Forall_cons in Hall as [Hc Hall].
    pose proof Hdata as Hdata0.
    rewrite <- (sameOutside_sub b0 (hs_buf st) s _ _ Hsame) in Hdata.
    unfold headerBlock in Hdata. cbn [List.map concat] in Hdata.
    rewrite <- app_assoc in Hdata.
    destruct (headerLine_step e st c _ Hc Hdata) as [H1 H2].
    destruct (parseMimeSelf_step e st) as [st' again] eqn:E. cbn [fst snd] in H1, H2.
    subst again.
    destruct (parseMimeSelf_step_inv L e st st' true He Hst E) as (G1 & G2 & _).
    destruct (parseMimeSelf_step_frame L e s b0 st st' true He Hst Hs0 Hsd Hfrom Hsame E)
      as [F1 F2].
    rewrite (IH fuel st' Hall G1 ltac:(lia) F1 F2); [| |cbn [length] in Hfuel; lia].
    + rewrite H1. unfold headerBlock. cbn [List.map concat]. rewrite (len_app (c ++ [LF])).
      lia.
    + rewrite H1. destruct Hst as (_ & Hd0 & _).
      unfold headerBlock in Hdata0. cbn [List.map concat] in Hdata0.
      rewrite <- app_assoc in Hdata0.
      replace (e - (hs_data st + len (c ++ [LF])))
        with (e - hs_data st - len (c ++ [LF])) by lia.
      apply (sub_advance b0 (c ++ [LF]) _ (hs_data st) (e - hs_data st) Hd0 Hdata0).
Qed.

(** X25: when the bytes of a part are header lines, each ending in a
    newline and none of them empty or a lone carriage return, then a
    blank line (a newline, or a carriage return and a newline) and then
    the rest, the body of the node starts right after the blank line
    and runs to the end of the part, whatever the header lines and the
    rest hold. *)
Theorem body_starts_after_blank_line (dc buf : bytes) (s n : Z)
    (hs : list bytes) (sep body : bytes) :
  0 <= s -> 0 <= n -> s + n <= len buf ->
  sub buf s n = headerBlock hs ++ sep ++ body ->
  Forall headerLine hs -> blankLine sep ->
  let node := fst (parseMimeSelf dc buf s n) in
  BodyStart node = len (headerBlock hs) + len sep /\ BodyLen node = len body.
Proof.
  intros Hs Hn Hl Hdata Hall Hsep.
  assert (Hlen : n = len (headerBlock hs) + len sep + len body).
  { rewrite <- (len_sub buf s n Hs Hn Hl), Hdata, !len_app. lia. }
  assert (Hst : scanOK (len buf) (s + n) (mkHeaderScan buf s (Own []) [])).
  { repeat split; cbn; lia. }
  assert (Hfuel : (length hs < Z.to_nat n)%nat).
  { pose proof (headerBlock_length hs). pose proof (len_nonneg body).
    assert (1 <= len sep) by (destruct Hsep as [-> | ->]; unfold len; cbn [length]; lia).
    unfold len in *. lia. }
  pose proof (parseMimeSelf_loop_lines (len buf) (s + n) s buf sep body Hl Hs Hsep hs
                (Z.to_nat n) (mkHeaderScan buf s (Own []) []) Hall Hst (Z.le_refl s) I
                (conj eq_refl eq_refl)) as Hr.
  cbn [hs_data] in Hr. replace (s + n - s) with n in Hr by lia.
  specialize (Hr Hdata Hfuel).
  unfold parseMimeSelf. cbv zeta. cbn [fst BodyStart BodyLen]. rewrite Hr. lia.
Qed.

End Properties.

(** * The properties on concrete messages *)

#[local] Existing Instance plain.

(** C7, as stated, fails: the value stored for the line [A: b ] is [b];
    removing only the leading white space would leave [b ] with its
    trailing space. *)
Lemma header_value_loses_trailing_space :
  exists e,
    emailParserAppendOneLine paddedLine [] (InBuf 0 5) = [e]
    /\ deref paddedLine (ml_Value e) = B "b"
    /\ deref paddedLine (ml_Value e) <> TrimLeftSpace (B " b ").
Proof.
  eexists. split; [vm_compute; reflexivity|].
  split; [vm_compute; reflexivity | vm_compute; discriminate].
Qed.

Lemma header_entry_of_line_witness :
  exists e,
    emailParserAppendOneLine paddedLine [] (InBuf 0 5) = [] ++ [e]
    /\ ml_Name e = ToUpper (TrimSpace (B "A"))
    /\ deref paddedLine (ml_Value e) = TrimSpace (B " b ")
    /\ spaceRune (deref paddedLine (ml_Value e)) = 0%nat
    /\ spaceRuneLast (rev (deref paddedLine (ml_Value e))) = 0%nat.
Proof.
  apply (header_entry_of_line paddedLine [] (InBuf 0 5) (B "A") (B " b ")).
  - vm_compute. repeat split; discriminate.
  - vm_compute. reflexivity.
  - intros H. apply list_elem_of_In in H. vm_compute in H. intuition discriminate.
Defined.

(** C3, as stated, fails: with one space between the two encoded-words
    the result is not the single block decoded from ABCD. *)
Lemma spaced_words_not_merged :
  ParseMimeValueTokenNodes twoWordsSpaced
  <> [mkTokenNode (decodeHeaderBase64 (B "ABCD")) (B "UTF-8")].
Proof. vm_compute. discriminate. Qed.

Lemma first_parameter_occurrence_wins_witness :
  parameterList twiceA = [] ++ (B "A", B "1") :: [(B "B", B "2"); (B "A", B "3")]
  /\ mv_Params (ParseMimeValueParams twiceA) !! B "A" = Some (B "1").
Proof.
  assert (H : parameterList twiceA
              = [] ++ (B "A", B "1") :: [(B "B", B "2"); (B "A", B "3")])
    by (vm_compute; reflexivity).
  split; [exact H|].
  apply (first_parameter_occurrence_wins twiceA (B "A") (B "1") [] _ H).
  intros Hin. apply list_elem_of_In in Hin. exact Hin.
Defined.

(** C2: the code breaks the containment of a child in the body of its
    parent on [nestedMessage], an ordinary nested multipart message.
    The multipart/alternative part has the body [96, 179); its HTML
    part is taken by the trailing-child branch of [parseMime], which
    cuts it from the rest of the whole buffer, so it occupies
    [136, 227): it ends after its parent, and it covers the attachment
    that follows the parent in the message, at [184, 221). *)
Lemma trailing_child_leaves_parent :
  exists p parent child other,
    EmailParserNew (B "UTF-8") nestedMessage = Ok p
    /\ nodeAt (topNode p) [0%nat] = Some parent
    /\ nodeAt (topNode p) [0%nat; 1%nat] = Some child
    /\ nodeAt (topNode p) [1%nat] = Some other
    /\ ContentType child = B "TEXT/HTML"
    /\ (BodyStart parent, nodeEnd parent) = (96, 179)
    /\ (HeaderStart child, nodeEnd child) = (136, 227)
    /\ (HeaderStart other, nodeEnd other) = (184, 221)
    /\ ~ (nodeEnd child <= nodeEnd parent)
    /\ ~ (nodeEnd child <= HeaderStart other).
Proof.
  eexists _, _, _, _. split; [vm_compute; reflexivity|].
  split; [vm_compute; reflexivity|]. split; [vm_compute; reflexivity|].
  split; [vm_compute; reflexivity|]. split; [vm_compute; reflexivity|].
  split; [vm_compute; reflexivity|]. split; [vm_compute; reflexivity|].
  split; [vm_compute; reflexivity|].
  split; vm_compute; intros H; apply H; reflexivity.
Qed.

(** A child can also start before its parent's body: the delimiter line
    among the headers of [delimiterInHeader] opens a child that covers
    the Content-Type line of the message itself. *)
Lemma child_in_parent_header :
  exists p child,
    EmailParserNew (B "UTF-8") delimiterInHeader = Ok p
    /\ nodeAt (topNode p) [0%nat] = Some child
    /\ BodyStart (topNode p) = 47
    /\ (HeaderStart child, nodeEnd child) = (4, 46).
Proof.
  eexists _, _. split; [vm_compute; reflexivity|].
  split; [vm_compute; reflexivity|]. split; vm_compute; reflexivity.
Qed.

Lemma part_intervals_witness :
  exists p node,
    EmailParserNew (B "UTF-8") nestedMessage = Ok p
    /\ nodeAt (topNode p) [0%nat] = Some node
    /\ (0 <= HeaderStart node /\ HeaderStart node <= BodyStart node
        /\ 0 <= BodyLen node /\ nodeEnd node <= len nestedMessage)
    /\ (forall (i : nat) c, Childs node !! i = Some c ->
          HeaderStart node < HeaderStart c /\ HeaderStart c <= nodeEnd node
          /\ nodeEnd c <= len nestedMessage
          /\ ((S i < length (Childs node))%nat -> nodeEnd c < nodeEnd node))
    /\ (forall (i j : nat) ci cj, (i < j)%nat ->
          Childs node !! i = Some ci -> Childs node !! j = Some cj ->
          nodeEnd ci < HeaderStart cj).
Proof.
  eexists _, _. split; [vm_compute; reflexivity|].
  split; [vm_compute; reflexivity|].
  eapply (part_intervals (B "UTF-8") nestedMessage _ [0%nat]);
    vm_compute; reflexivity.
Defined.

(** C5, as stated, fails: in [nestedMessage] the entries 0 and 4 are
    consecutive matches of the boundary A; the entries strictly between
    them are those at 1, 2 and 3, and the child parse receives only
    those at 1 and 2. *)
Lemma nested_child_misses_last_boundary :
  let bs := scanAllBoundaries nestedMessage in
  List.map (matchesBoundary (B "A")) bs = [true; false; false; false; true; true]
  /\ newBoundaries bs 0 4 = take 2 (drop 1 bs)
  /\ newBoundaries bs 0 4 <> take 3 (drop 1 bs).
Proof.
  split; [vm_compute; reflexivity|]. split; [vm_compute; reflexivity|].
  vm_compute. discriminate.
Qed.

Lemma child_parse_arguments_witness :
  let bs := scanAllBoundaries nestedMessage in
  let rec := parseMime 6 (B "UTF-8") in
  let nb := take (4 - 0 - 2) (drop 1 bs) in
  parseMime_loop rec bs (B "A") (drop 1 bs) (Z.of_nat 1) (Z.of_nat 0) nestedMessage []
  = match rec nestedMessage 47 47 (180 - 1 - 47) nb with
    | Ok (newNode, buf') =>
      parseMime_loop rec bs (B "A") (drop 5 bs) (Z.of_nat 5) (Z.of_nat 4) buf'
                     ([] ++ [newNode])
    | Panic => Panic
    | OutOfFuel => OutOfFuel
    end
  /\ slice nestedMessage 47 (180 - 1) = Some (sub nestedMessage 47 (180 - 1 - 47))
  /\ length nb = (4 - 0 - 2)%nat
  /\ (forall j : nat, (j < 4 - 0 - 2)%nat -> nb !! j = bs !! (0 + 1 + j)%nat).
Proof.
  intros bs rec nb.
  apply (child_parse_arguments rec bs (B "A") 0 4
           (mkBoundaryPos (B "A") 43 47) (mkBoundaryPos (B "A") 180 184)
           nestedMessage []).
  - vm_compute. reflexivity.
  - vm_compute. reflexivity.
  - lia.
  - vm_compute. reflexivity.
  - intros j b Hj Hb.
    assert (j = 1 \/ j = 2 \/ j = 3)%nat as [-> | [-> | ->]] by lia;
      vm_compute in Hb; injection Hb as <-; vm_compute; reflexivity.
  - vm_compute. discriminate.
  - vm_compute. discriminate.
  - vm_compute. discriminate.
Defined.

(** C6: the code does not decide about the trailing child by the
    region of the node's own slice.  In [shortTail] the inner part is
    the slice [47, 106) and matches one delimiter, at [96, 100); what
    is left of its own slice after that delimiter is 6 bytes once
    trimmed, not more than 10, yet the part gets a trailing child,
    because [parseMime] measures the rest of the whole buffer; the
    child occupies [100, 162), past the end of the part at 106. *)
Lemma trailing_child_ignores_own_slice :
  exists p node child,
    EmailParserNew (B "UTF-8") shortTail = Ok p
    /\ nodeAt (topNode p) [0%nat] = Some node
    /\ Boundary node = B "B"
    /\ List.filter (matchesBoundary (B "B")) (scanAllBoundaries shortTail)
       = [mkBoundaryPos (B "B") 96 100]
    /\ (HeaderStart node, nodeEnd node) = (47, 106)
    /\ len (TrimBytes (sub (EmailData p) 100 (106 - 100)) wsSet) = 6
    /\ Childs node = [child]
    /\ (HeaderStart child, nodeEnd child) = (100, 162).
Proof.
  eexists _, _, _. split; [vm_compute; reflexivity|].
  split; [vm_compute; reflexivity|].
  repeat split; vm_compute; reflexivity.
Qed.

Lemma trailing_child_rule_witness :
  let so := mkBoundaryPos (B "B") 132 136 in
  let bs := [mkBoundaryPos (B "B") 96 100; so] in
  let region := TrimBytes (after nestedMessage (bp_End so)) wsSet in
  exists node buf3,
    parseMime 2 (B "UTF-8") nestedMessage 47 47 132 bs = Ok (node, buf3)
    /\ ((10 < len region /\ Contains region [LF] = true
         /\ exists s' trailing,
              sub nestedMessage s' (len region) = region
              /\ parseMime 1 (B "UTF-8") nestedMessage (bp_End so) s' (len region) []
                 = Ok (trailing, buf3)
              /\ Childs node
                 = [mkMIMENode 100 25 126 5
                      [mkMimeLine (B "CONTENT-TYPE") (InBuf 114 10)]
                      (B "TEXT/PLAIN") [] [] [] [] [] [] [] false false []]
                   ++ [trailing]
              /\ Childs trailing = [])
        \/ (~ (10 < len region /\ Contains region [LF] = true)
            /\ Childs node
               = [mkMIMENode 100 25 126 5
                    [mkMimeLine (B "CONTENT-TYPE") (InBuf 114 10)]
                    (B "TEXT/PLAIN") [] [] [] [] [] [] [] false false []]
            /\ buf3 = nestedMessage)).
Proof.
  intros so bs region.
  eapply (trailing_child_rule (B "UTF-8") 0 nestedMessage 47 47 132 bs _ _ 1
            nestedMessage _ so).
  - vm_compute. reflexivity.
  - vm_compute. reflexivity.
  - vm_compute. discriminate.
  - vm_compute. reflexivity.
  - lia.
  - vm_compute. reflexivity.
  - vm_compute. discriminate.
  - vm_compute. discriminate.
Defined.

Lemma alternative_shows_html_witness :
  exists p c1 c2,
    EmailParserNew (B "UTF-8") alternativeMessage = Ok p
    /\ ContentType (topNode p) = B "MULTIPART/ALTERNATIVE"
    /\ Childs (topNode p) = [c1; c2]
    /\ ContentType c1 = B "TEXT/PLAIN"
    /\ ContentType c2 = B "TEXT/HTML"
    /\ fst (GetAlternativeShowNodes p) = [[1%nat]]
    /\ nodeAt (topNode (snd (GetAlternativeShowNodes p))) [1%nat] = Some c2.
Proof.
  eexists _, _, _.
  split; [vm_compute; reflexivity|].
  split; [vm_compute; reflexivity|].
  split; [vm_compute; reflexivity|].
  split; [vm_compute; reflexivity|].
  split; [vm_compute; reflexivity|].
  eapply (alternative_shows_html (B "UTF-8") alternativeMessage);
    vm_compute; reflexivity.
Defined.

(** ** The further properties on the example messages *)

Lemma references_are_clean_witness :
  exists p,
    EmailParserNew (B "UTF-8") referencesMessage = Ok p
    /\ fst (GetReferences p) = [B "a@x"; B "b@y"; B "c@z"]
    /\ Forall (fun ref => ref <> [] /\ Forall (fun c => isRefDelim c = false) ref)
              (fst (GetReferences p)).
Proof.
  eexists. split; [vm_compute; reflexivity|]. split; [vm_compute; reflexivity|].
  apply references_are_clean. vm_compute. reflexivity.
Defined.

Lemma shown_nodes_sorted_witness :
  exists p,
    EmailParserNew (B "UTF-8") nestedMessage = Ok p
    /\ let '(shown, p1) := GetAlternativeShowNodes p in
       ascending (topNode p1) shown
       /\ (forall r, r ∈ shown -> r ∈ textNodes p1)
       /\ (forall r, r ∈ textNodes p1 -> groupKey (topNode p1) r = [] -> r ∈ shown).
Proof.
  eexists. split; [vm_compute; reflexivity|].
  apply shown_nodes_sorted. vm_compute. reflexivity.
Defined.

Lemma one_shown_node_per_alternative_witness :
  exists p,
    EmailParserNew (B "UTF-8") alternativeMessage = Ok p
    /\ let '(shown, p1) := GetAlternativeShowNodes p in
       [0%nat] ∈ textNodes p1
       /\ groupKey (topNode p1) [0%nat] <> []
       /\ exists r,
            filter (fun r' => groupKey (topNode p1) r' = groupKey (topNode p1) [0%nat]) shown
            = [r]
            /\ ((exists h, h ∈ textNodes p1
                           /\ groupKey (topNode p1) h = groupKey (topNode p1) [0%nat]
                           /\ subTypeAt (topNode p1) h = B "HTML")
                -> subTypeAt (topNode p1) r = B "HTML").
Proof.
  eexists. split; [vm_compute; reflexivity|].
  match goal with
  | |- let '(_, _) := GetAlternativeShowNodes ?q in _ =>
    pose proof (one_shown_node_per_alternative q [0%nat] eq_refl) as W;
    destruct (GetAlternativeShowNodes q) as [shown p1] eqn:E
  end.
  vm_compute in E. injection E as <- <-.
  assert (H1 : [0%nat] ∈ [[0%nat]; [1%nat]]) by (apply list_elem_of_In; left; reflexivity).
  split; [exact H1|]. split; [vm_compute; discriminate|].
  apply W; [exact H1 | vm_compute; discriminate].
Defined.

Lemma every_node_is_typed_witness :
  exists p node,
    EmailParserNew (B "UTF-8") nestedMessage = Ok p
    /\ nodeAt (topNode p) [0%nat] = Some node
    /\ ContentType node <> [] /\ ContentType node <> B "TEXT"
    /\ (Childs node <> [] ->
        HasPrefix (ContentType node) (B "MULTIPART/") = true /\ Boundary node <> [])
    /\ isTnef node = false /\ isInline node = false.
Proof.
  eexists _, _. split; [vm_compute; reflexivity|].
  split; [vm_compute; reflexivity|].
  eapply (every_node_is_typed (B "UTF-8") nestedMessage _ [0%nat]);
    vm_compute; reflexivity.
Defined.


Lemma IsTnef_characterised_witness :
  exists p,
    EmailParserNew (B "UTF-8") nestedMessage = Ok p
    /\ fst (IsTnef p [1%nat] []) = true
    /\ (fst (IsTnef p [1%nat] []) = true
        <-> exists m, nodeAt (topNode p) [1%nat] = Some m
                      /\ mainTypeOf (ContentType m) = B "APPLICATION"
                      /\ Contains (ContentType m) (B "TNEF") = true).
Proof.
  eexists. split; [vm_compute; reflexivity|]. split; [vm_compute; reflexivity|].
  eapply (IsTnef_characterised (B "UTF-8") nestedMessage).
  vm_compute. reflexivity.
Defined.

Lemma inline_only_attachment_with_cid_witness :
  exists p,
    EmailParserNew (B "UTF-8") inlineMessage = Ok p
    /\ exists m, nodeAt (topNode p) [1%nat] = Some m
                 /\ isContainer m = false /\ isTextNode m = false
                 /\ ContentID m <> [].
Proof.
  eexists. split; [vm_compute; reflexivity|].
  eapply (inline_only_attachment_with_cid (B "UTF-8") inlineMessage);
    vm_compute; reflexivity.
Defined.

Lemma scanAllBoundaries_sound_witness :
  let b := mkBoundaryPos (B "b") 85 89 in
  delimiterLineAt alternativeMessage (bp_Start b)
  /\ bp_End b = bp_Start b + 2 + Index (after alternativeMessage (bp_Start b + 2)) [LF] + 1
  /\ byteAt alternativeMessage (bp_End b - 1) = LF
  /\ bp_Boundary b
     = TrimSpace (sub alternativeMessage (bp_Start b + 2)
                    (bp_End b - 1 - (bp_Start b + 2))).
Proof.
  intros b. apply (scanAllBoundaries_sound alternativeMessage 1 b).
  vm_compute. reflexivity.
Defined.

Lemma scanAllBoundaries_complete_witness :
  exists (i : nat) b,
    scanAllBoundaries alternativeMessage !! i = Some b /\ bp_Start b = 85.
Proof.
  apply (scanAllBoundaries_complete alternativeMessage 85).
  unfold delimiterLineAt, lineStartAt.
  split; [lia|]. split; [right; vm_compute; reflexivity|].
  split; [vm_compute; reflexivity | vm_compute; discriminate].
Defined.

Lemma scanAllBoundaries_ordered_witness :
  let a := mkBoundaryPos (B "b") 49 53 in
  let b := mkBoundaryPos (B "b--") 127 133 in
  0 <= bp_Start a /\ bp_Start a + 3 <= bp_End a /\ bp_End a <= bp_Start b
  /\ bp_Start b + 3 <= bp_End b /\ bp_End b <= len alternativeMessage.
Proof.
  intros a b. apply (scanAllBoundaries_ordered alternativeMessage 0 2 a b).
  - lia.
  - vm_compute. reflexivity.
  - vm_compute. reflexivity.
Defined.

Lemma parameters_round_trip_witness :
  let v := B "text/plain" in
  let ps := [(B "charset", B "utf-8"); (B "name", B "a=b.txt")] in
  let data := v ++ concat (List.map (fun p => B "; " ++ fst p ++ B "=" ++ snd p) ps) in
  mv_Value (ParseMimeValueParams data) = v
  /\ parameterList data = List.map (fun p => (ToUpper (fst p), snd p)) ps
  /\ forall k, mv_Params (ParseMimeValueParams data) !! k
               = firstValue k (List.map (fun p => (ToUpper (fst p), snd p)) ps).
Proof.
  intros v ps.
  apply (parameters_round_trip v ps).
  - split; [discriminate | vm_compute; reflexivity].
  - repeat constructor; try discriminate; vm_compute; reflexivity.
Defined.

Lemma quoted_parameter_value_witness :
  let v := B "attachment" in
  let n := B "filename" in
  let x := B "a \b; c.txt" in
  let data := v ++ B "; " ++ n ++ B "=" ++ [DQUOTE] ++ x ++ [DQUOTE] in
  mv_Value (ParseMimeValueParams data) = v
  /\ parameterList data = [(ToUpper n, ParseMimeValueParams_unescapeQuotedBytes x)]
  /\ mv_Params (ParseMimeValueParams data) !! ToUpper n
     = Some (ParseMimeValueParams_unescapeQuotedBytes x).
Proof.
  intros v n x.
  apply (quoted_parameter_value v n x).
  - split; [discriminate | vm_compute; reflexivity].
  - split; [discriminate | vm_compute; reflexivity].
  - vm_compute. reflexivity.
  - vm_compute. reflexivity.
Defined.

Lemma continued_parameter_witness :
  let m := ParseMimeValueParams (B "attachment; filename*0*=UTF-8'en'a%20; filename*1*=b.txt") in
  ParseParamStringValue m (B "filename") (B "UTF-8")
  = ParseMimeValueString2231 (B "UTF-8'en'a%20" ++ concat [B "b.txt"]) true (B "UTF-8").
Proof.
  intros m.
  apply (continued_parameter m (B "filename") (B "UTF-8") (B "UTF-8'en'a%20") [B "b.txt"]).
  - vm_compute. reflexivity.
  - vm_compute. reflexivity.
  - vm_compute. reflexivity.
  - intros i v H. destruct i as [|i]; [|destruct i; discriminate].
    injection H as <-. vm_compute. reflexivity.
  - vm_compute. reflexivity.
Defined.

Lemma plain_text_is_one_token_witness :
  ParseMimeValueTokenNodes (B "a = b?") = [mkTokenNode (B "a = b?") []]
  /\ ParseMimeValueString (B "a = b?") (B "UTF-8")
     = ConvertToUTF8 (B "a = b?") [] (B "UTF-8").
Proof.
  apply (plain_text_is_one_token (B "a = b?") (B "UTF-8")). vm_compute. reflexivity.
Defined.

Lemma adjacent_encoded_words_merge_witness :
  ParseMimeValueTokenNodes
    (concat (List.map (encodedWord (B "utf-8") "B"%char) [B "QU"; B "JD"]))
  = [mkTokenNode (decodeHeaderBase64 (concat [B "QU"; B "JD"])) (ToUpper (B "utf-8"))].
Proof.
  apply (adjacent_encoded_words_merge (B "utf-8") "B"%char [B "QU"; B "JD"]).
  - vm_compute. discriminate.
  - intros H. apply list_elem_of_In in H. vm_compute in H. intuition discriminate.
  - vm_compute. discriminate.
  - left. reflexivity.
  - discriminate.
  - repeat constructor.
Defined.

Lemma decodeHeaderBase64_concat_witness :
  decodeHeaderBase64 ((B "QQ=" ++ B "=") ++ B "Qg==")
  = decodeHeaderBase64 (B "QQ=" ++ B "=") ++ decodeHeaderBase64 (B "Qg==").
Proof.
  apply (decodeHeaderBase64_concat (B "QQ=") (B "Qg==")). vm_compute. reflexivity.
Defined.

Lemma extended_value_round_trip_witness :
  let keep := fun c => negb (beq c "%"%char || beq c SP) in
  ParseMimeValueTokenNodes2231
    (B "utf-8" ++ B "'" ++ B "en" ++ B "'"
     ++ flat_map (fun c => if keep c then [c] else percentByte c) (B "50% off")) true
  = [mkTokenNode (B "50% off") (ToUpper (TrimSpace (B "utf-8")))].
Proof.
  intros keep.
  apply (extended_value_round_trip (B "utf-8") (B "en") (B "50% off") keep).
  - intros H. apply list_elem_of_In in H. vm_compute in H. intuition discriminate.
  - intros H. apply list_elem_of_In in H. vm_compute in H. intuition discriminate.
  - intros c H ->. vm_compute in H. discriminate.
Defined.

Lemma address_line_round_trip_witness :
  let ms := [Named (B "Al ") (B "A@B.c"); Quoted (B "Doe, J") (B "j@d.e");
             Named [] []; Bare (B "x@y.z")] in
  ParseMimeAddress (addressLine ms) (B "UTF-8")
  = List.map
      (fun na =>
         mkMimeAddress (fst na)
           (Trim (ParseMimeValueString (fst na) (B "UTF-8")) addrTrimSet)
           (ToLower (Trim (snd na) addrTrimSet)))
      (List.filter notBlank (List.map nameAndAddress ms)).
Proof.
  intros ms. apply (address_line_round_trip ms (B "UTF-8")).
  apply Forall_cons. split.
  { split; [vm_compute; reflexivity|]. split; vm_compute; reflexivity. }
  apply Forall_cons. split.
  { vm_compute. reflexivity. }
  apply Forall_cons. split.
  { split; [vm_compute; reflexivity|]. split; [exact I | vm_compute; reflexivity]. }
  apply Forall_cons. split; [|constructor].
  split; [discriminate|]. split; [vm_compute; reflexivity|].
  split; vm_compute; reflexivity.
Defined.

Lemma EmailParserNew_returns_witness :
  exists p, EmailParserNew (B "UTF-8") alternativeMessage = Ok p.
Proof.
  apply (EmailParserNew_returns (B "UTF-8") alternativeMessage).
  vm_compute. repeat split; reflexivity.
Defined.

Lemma parseMimeSelf_writes_header_only_witness :
  let '(node, buf1) := parseMimeSelf (B "UTF-8") foldedMessage 0 30 in
  len buf1 = len foldedMessage
  /\ upto buf1 0 = upto foldedMessage 0
  /\ after buf1 (0 + BodyStart node) = after foldedMessage (0 + BodyStart node).
Proof.
  apply (parseMimeSelf_writes_header_only (B "UTF-8") foldedMessage 0 30).
  - lia.
  - lia.
  - vm_compute. discriminate.
Defined.

Lemma single_part_body_verbatim_witness :
  exists p,
    EmailParserNew (B "UTF-8") foldedMessage = Ok p
    /\ EmailData p <> foldedMessage
    /\ GetDecodedContent p (topNode p) = after foldedMessage (BodyStart (topNode p)).
Proof.
  eexists. split; [vm_compute; reflexivity|]. split; [vm_compute; discriminate|].
  eapply (single_part_body_verbatim (B "UTF-8") foldedMessage).
  - vm_compute. reflexivity.
  - vm_compute. reflexivity.
  - vm_compute. discriminate.
  - vm_compute. discriminate.
Defined.

Lemma body_starts_after_blank_line_witness :
  let hs := [B "Subject: a"; B " folded line"] in
  let node := fst (parseMimeSelf (B "UTF-8") foldedMessage 0 30) in
  BodyStart node = len (headerBlock hs) + len [LF] /\ BodyLen node = len (B "body" ++ [LF]).
Proof.
  intros hs.
  apply (body_starts_after_blank_line (B "UTF-8") foldedMessage 0 30 hs [LF]
           (B "body" ++ [LF])).
  - lia.
  - lia.
  - vm_compute. discriminate.
  - vm_compute. reflexivity.
  - repeat constructor; try discriminate;
      intros H; apply list_elem_of_In in H; vm_compute in H; intuition discriminate.
  - left. reflexivity.
Defined.
